(** * Peer-to-peer transport core (net.cpp): a shallow embedding

    The development follows src/net.cpp: the ban table ([CNode::Ban],
    [CNode::IsBanned]), the security-handshake fallback tables
    ([CConnman::ConnectNode], [CConnman::AcceptConnection]), the trickle
    selection of [CConnman::ThreadMessageHandler], the peer-address file
    ([CAddrDB::Write], [CAddrDB::Read]), the message framer
    ([CNode::ReceiveMsgBytes], [CNetMessage::readHeader],
    [CNetMessage::readData]), the eviction policy
    ([CConnman::AttemptToEvictConnection]), the local addresses
    ([AddLocal], [SeenLocal], [SetLimited], [GetLocal]), the send queue
    ([CNode::BeginMessage], [CNode::EndMessage], [CConnman::SocketSendData]),
    incoming and outgoing connections ([CConnman::AcceptConnection],
    [CConnman::ConnectNode], [CConnman::OpenNetworkConnection],
    [CConnman::ProcessOneShot]), the relay memory ([Relay]), the choice of an
    address in [CConnman::ThreadOpenConnections], the requests for
    inventory items ([CNode::AskFor]) and the disconnection of peers in
    [CConnman::ThreadSocketHandler].

    Conventions.  [int64_t] values are integers of [Z].  Signed overflow is
    undefined behaviour in C++; where the code adds values its caller or the
    command line chooses, in [CNode::Ban], the sum is reduced to 64 bits
    (two's complement), and what is said of the sum as a number is said
    under the hypothesis that it fits.
    [unsigned int] values are integers of [Z] reduced modulo [2^32] where
    the code computes them.  Raw bytes are [Byte.byte].  Logging calls are
    left out: they do not change any state the properties speak about. *)

From Stdlib Require Import ZArith Lia Bool.
From Stdlib.Strings Require Import Byte.
From stdpp Require Import base option list sorting gmap strings.

Local Open Scope Z_scope.

(** ** Machine integers and bytes *)

(** The value of an [unsigned int] expression. *)
Definition uint32 (z : Z) : Z := z mod 2 ^ 32.

(** The value an [int] takes when it is assigned a wider or unsigned value
    (two's complement). *)
Definition int32 (z : Z) : Z :=
  if z mod 2 ^ 32 <? 2 ^ 31 then z mod 2 ^ 32 else z mod 2 ^ 32 - 2 ^ 32.

(** The value of an [int64_t] sum, reduced to 64 bits (two's complement),
    and the integers an [int64_t] holds. *)
Definition int64 (z : Z) : Z :=
  if z mod 2 ^ 64 <? 2 ^ 63 then z mod 2 ^ 64 else z mod 2 ^ 64 - 2 ^ 64.

Definition fits_int64 (z : Z) : Prop := - 2 ^ 63 <= z < 2 ^ 63.

#[global] Instance byte_eq_dec : EqDecision byte := Byte.byte_eq_dec.

#[global] Program Instance byte_countable : Countable byte :=
  inj_countable Byte.to_N Byte.of_N _.
Next Obligation. intros b. apply Byte.of_to_N. Qed.

Lemma uint32_small (z : Z) : 0 <= z < 2 ^ 32 → uint32 z = z.
Proof. intros Hz. unfold uint32. by apply Z.mod_small. Qed.

Lemma int32_small (z : Z) : 0 <= z < 2 ^ 31 → int32 z = z.
Proof.
  intros Hz. unfold int32. rewrite Z.mod_small by lia.
  destruct (Z.ltb_spec z (2 ^ 31)); lia.
Qed.

Lemma int64_fits (z : Z) : fits_int64 z → int64 z = z.
Proof.
  unfold fits_int64, int64. intros Hz.
  destruct (Z.le_gt_cases 0 z) as [Hpos|Hneg].
  - rewrite Z.mod_small by lia. destruct (Z.ltb_spec z (2 ^ 63)); lia.
  - replace (z mod 2 ^ 64) with (z + 2 ^ 64).
    + destruct (Z.ltb_spec (z + 2 ^ 64) (2 ^ 63)); lia.
    + apply (Z.mod_unique _ _ (-1)); lia.
Qed.

Lemma int64_range (z : Z) : fits_int64 (int64 z).
Proof.
  unfold fits_int64, int64.
  pose proof (Z.mod_pos_bound z (2 ^ 64) ltac:(lia)) as Hm.
  destruct (Z.ltb_spec (z mod 2 ^ 64) (2 ^ 63)); lia.
Qed.

(** Peers are held by pointer and told apart by their [id]: in a list
    without two equal ids, equal ids mean the same element. *)
Lemma NoDup_fmap_eq {A B} (f : A → B) (l : list A) (x y : A) :
  NoDup (f <$> l) → x ∈ l → y ∈ l → f x = f y → x = y.
Proof.
  intros Hnd Hx Hy Hf.
  apply list_elem_of_lookup in Hx as [i Hi]. apply list_elem_of_lookup in Hy as [j Hj].
  assert (i = j) as ->.
  { apply (NoDup_lookup (f <$> l) i j (f x)); [done| |].
    - by rewrite list_lookup_fmap, Hi.
    - by rewrite list_lookup_fmap, Hj, Hf. }
  congruence.
Qed.

(** ** Ban table *)

Module Ban.
Section ban.
(** [CSubNet] is the key type of [std::map<CSubNet, int64_t> setBanned]. *)
Context {CSubNet : Type} `{Countable CSubNet}.

(** The value of [GetArg("-bantime", 60*60*24)]: the configured option when
    it is present on the command line, else the default of 24 hours. *)
Definition GetArg_bantime (mapArgs_bantime : option Z) : Z :=
  default (60 * 60 * 24) mapArgs_bantime.

Variable mapArgs_bantime : option Z.

(** [std::map::operator[]]: a missing key is inserted with the
    value-initialised mapped value, [0] for [int64_t]. *)
Definition map_index (m : gmap CSubNet Z) (k : CSubNet) : gmap CSubNet Z * Z :=
  match m !! k with
  | Some v => (m, v)
  | None => (<[k := 0]> m, 0)
  end.

(** The local [banTime] of [CNode::Ban], [GetTime()] being [now].  Both
    sums are [int64_t] sums. *)
Definition banTime (now bantimeoffset : Z) (sinceUnixEpoch : bool) : Z :=
  let banTime := int64 (now + GetArg_bantime mapArgs_bantime) in
  if 0 <? bantimeoffset
  then int64 ((if sinceUnixEpoch then 0 else now) + bantimeoffset)
  else banTime.

(** [CNode::Ban(const CSubNet&, int64_t, bool)]. *)
Definition Ban (setBanned : gmap CSubNet Z) (now : Z)
    (subNet : CSubNet) (bantimeoffset : Z) (sinceUnixEpoch : bool)
    : gmap CSubNet Z :=
  let bt := banTime now bantimeoffset sinceUnixEpoch in
  let '(m1, cur) := map_index setBanned subNet in
  if cur <? bt then <[subNet := bt]> m1 else m1.

(** [CNode::IsBanned(const CSubNet&)]. *)
Definition IsBanned (setBanned : gmap CSubNet Z) (now : Z) (subnet : CSubNet) : bool :=
  match setBanned !! subnet with
  | Some t => now <? t
  | None => false
  end.

(** [CNode::Unban(const CSubNet&)] and [CNode::ClearBanned]. *)
Definition Unban (setBanned : gmap CSubNet Z) (subNet : CSubNet)
    : bool * gmap CSubNet Z :=
  match setBanned !! subNet with
  | Some _ => (true, delete subNet setBanned)
  | None => (false, setBanned)
  end.

Definition ClearBanned : gmap CSubNet Z := ∅.

(** One call of [Ban], with the clock reading at the time of the call. *)
Record BanCall := mkBanCall {
  bc_now : Z;
  bc_subNet : CSubNet;
  bc_offset : Z;
  bc_sinceUnixEpoch : bool
}.

Definition apply_call (m : gmap CSubNet Z) (c : BanCall) : gmap CSubNet Z :=
  Ban m (bc_now c) (bc_subNet c) (bc_offset c) (bc_sinceUnixEpoch c).

Definition run_calls (m : gmap CSubNet Z) (calls : list BanCall) : gmap CSubNet Z :=
  fold_left apply_call calls m.

(** The expiry a call asks for. *)
Definition requested (c : BanCall) : Z :=
  banTime (bc_now c) (bc_offset c) (bc_sinceUnixEpoch c).

(** The expiries asked for [subnet], in call order. *)
Definition requested_for (subnet : CSubNet) (calls : list BanCall) : list Z :=
  requested <$> filter (λ c, bc_subNet c = subnet) calls.

(** [e] is the maximum of the non-empty list [l]. *)
Definition is_maximum (e : Z) (l : list Z) : Prop :=
  e ∈ l ∧ Forall (λ r, r <= e) l.

(** The claim as the specification words it: the stored expiry is the
    maximum of the expiries the calls asked for. *)
Definition stored_is_maximum_of_requests : Prop :=
  ∀ (m : gmap CSubNet Z) (calls : list BanCall) (s : CSubNet) (e : Z),
    m !! s = None →
    run_calls m calls !! s = Some e →
    is_maximum e (requested_for s calls).

(** *** Lemmas *)

Lemma Ban_lookup_eq m now s off since :
  Ban m now s off since !! s
  = Some (Z.max (default 0 (m !! s)) (banTime now off since)).
Proof.
  unfold Ban, map_index.
  destruct (m !! s) as [v|] eqn:E; simpl.
  - destruct (Z.ltb_spec v (banTime now off since)).
    + rewrite lookup_insert_eq. f_equal. lia.
    + rewrite E. f_equal. lia.
  - destruct (Z.ltb_spec 0 (banTime now off since)).
    + rewrite lookup_insert_eq. f_equal. lia.
    + rewrite lookup_insert_eq. f_equal. lia.
Qed.

Lemma Ban_lookup_ne m now s off since s' :
  s ≠ s' → Ban m now s off since !! s' = m !! s'.
Proof.
  intros Hne. unfold Ban, map_index.
  destruct (m !! s) as [v|] eqn:E; simpl.
  - destruct (v <? _); [by rewrite lookup_insert_ne|done].
  - destruct (0 <? _); by rewrite !lookup_insert_ne.
Qed.

(** The stored expiry after a run of calls is the running maximum of the
    value read at the start ([0] for a missing entry) and the requests. *)
Lemma run_calls_lookup calls : ∀ m s,
  run_calls m calls !! s
  = match requested_for s calls with
    | [] => m !! s
    | l => Some (fold_left Z.max l (default 0 (m !! s)))
    end.
Proof.
  induction calls as [|c calls IH]; intros m s; [done|].
  change (run_calls m (c :: calls)) with (run_calls (apply_call m c) calls).
  rewrite IH. unfold requested_for. rewrite filter_cons.
  destruct (decide (bc_subNet c = s)) as [<-|Hs].
  - rewrite fmap_cons. unfold apply_call. rewrite Ban_lookup_eq.
    fold (requested c). simpl. by destruct (requested <$> _).
  - unfold apply_call. by rewrite Ban_lookup_ne.
Qed.

Lemma fold_left_max_ge (l : list Z) : ∀ b,
  b <= fold_left Z.max l b ∧ Forall (λ r, r <= fold_left Z.max l b) l.
Proof.
  induction l as [|x l IH]; intros b; simpl; [split; [lia|constructor]|].
  destruct (IH (Z.max b x)) as [IH1 IH2].
  split; [lia|]. constructor; [lia|done].
Qed.

Lemma fold_left_max_elem (l : list Z) : ∀ b,
  fold_left Z.max l b = b ∨ fold_left Z.max l b ∈ l.
Proof.
  induction l as [|x l IH]; intros b; simpl; [by left|].
  destruct (IH (Z.max b x)) as [IH'|IH']; [|right; by constructor].
  rewrite IH'. destruct (Z.max_spec b x) as [[_ ->]|[_ ->]];
    [right; constructor|by left].
Qed.

Lemma fold_left_max_is_maximum (l : list Z) (b : Z) :
  Exists (λ r, b <= r) l → is_maximum (fold_left Z.max l b) l.
Proof.
  intros Hex. destruct (fold_left_max_ge l b) as [Hb Hall].
  split; [|done].
  destruct (fold_left_max_elem l b) as [Heq|]; [|done].
  apply Exists_exists in Hex as (r & Hr & Hbr).
  rewrite Forall_forall in Hall. specialize (Hall r Hr).
  assert (r = fold_left Z.max l b) as <- by lia. done.
Qed.

(** The expiry a call asks for, as a number: the sum the code computes,
    not yet reduced to 64 bits. *)
Definition asked_for (now bantimeoffset : Z) (sinceUnixEpoch : bool) : Z :=
  if bantimeoffset <=? 0 then now + GetArg_bantime mapArgs_bantime
  else if sinceUnixEpoch then bantimeoffset else now + bantimeoffset.

Lemma banTime_asked_for (now off : Z) (since : bool) :
  banTime now off since = int64 (asked_for now off since)
  ∧ (fits_int64 (asked_for now off since) →
       banTime now off since = asked_for now off since).
Proof.
  assert (Heq : banTime now off since = int64 (asked_for now off since)).
  { unfold banTime, asked_for.
    destruct since, (Z.ltb_spec 0 off), (Z.leb_spec off 0); (done || lia). }
  split; [done|]. intros Hfits. by rewrite Heq, int64_fits.
Qed.

(** *** The claims on the ban table *)

(** C10: a call of [Ban] with [bantimeoffset <= 0] asks for the expiry
    [GetTime() + GetArg("-bantime", 24h)] whatever [sinceUnixEpoch] is; with
    [bantimeoffset > 0] it asks for [bantimeoffset] itself when
    [sinceUnixEpoch] is set and for [GetTime() + bantimeoffset] otherwise.
    The expiry asked for is a number an [int64_t] holds: the sum does not
    overflow.  In every case the entry of the subnet becomes the later of
    the expiry it had (a missing entry reads as 0) and the one asked for, and
    the entries of the other subnets are left alone. *)
Theorem Ban_requested_expiry (m : gmap CSubNet Z) (now : Z) (s : CSubNet)
    (off : Z) (since : bool) :
  fits_int64 (if off <=? 0 then now + GetArg_bantime mapArgs_bantime
              else if since then off else now + off) →
  Ban m now s off since !! s
  = Some (Z.max (default 0 (m !! s))
            (if off <=? 0 then now + GetArg_bantime mapArgs_bantime
             else if since then off else now + off))
  ∧ (∀ s', s ≠ s' → Ban m now s off since !! s' = m !! s')
  ∧ GetArg_bantime None = 24 * 60 * 60
  ∧ (∀ v, GetArg_bantime (Some v) = v).
Proof.
  intros Hfits. split; [|split; [|done]].
  - rewrite Ban_lookup_eq.
    by rewrite (proj2 (banTime_asked_for now off since) Hfits).
  - intros s' Hne. by apply Ban_lookup_ne.
Qed.

(** C5 (as amended): after any sequence of [Ban] calls on a subnet that
    had no entry, the stored expiry of the subnet is the maximum of 0 and the
    expiries the calls on that subnet asked for, a missing entry being read
    as the expiry 0; it is the maximum of the expiries asked for as soon as
    one of them is not negative.  A further call asking for an earlier expiry
    leaves it as it is, and [IsBanned] answers true exactly at the times
    strictly before the stored expiry. *)
Theorem Ban_keeps_latest_expiry (m : gmap CSubNet Z) (calls : list BanCall)
    (s : CSubNet) :
  m !! s = None →
  requested_for s calls ≠ [] →
  ∃ e, run_calls m calls !! s = Some e
     ∧ is_maximum e (0 :: requested_for s calls)
     ∧ (Exists (λ r, 0 <= r) (requested_for s calls) →
          is_maximum e (requested_for s calls))
     ∧ (∀ c, bc_subNet c = s → requested c <= e →
            apply_call (run_calls m calls) c !! s = Some e)
     ∧ (∀ t, IsBanned (run_calls m calls) t s = true ↔ t < e)
     ∧ (∀ t, IsBanned (run_calls m calls) t s = false ↔ e <= t).
Proof.
  intros Hm Hne.
  exists (fold_left Z.max (requested_for s calls) 0).
  assert (Hst : run_calls m calls !! s
                = Some (fold_left Z.max (requested_for s calls) 0)).
  { rewrite run_calls_lookup, Hm. simpl.
    by destruct (requested_for s calls). }
  split; [done|]. split; [|split; [by apply fold_left_max_is_maximum|split; [|split]]].
  - destruct (fold_left_max_ge (requested_for s calls) 0) as [H0 Hall].
    split; [|by constructor].
    destruct (fold_left_max_elem (requested_for s calls) 0) as [->|Hin];
      [constructor|by constructor].
  - intros c <- Hle. unfold apply_call. rewrite Ban_lookup_eq, Hst. simpl.
    f_equal. unfold requested in Hle. lia.
  - intros t. unfold IsBanned. rewrite Hst. apply Z.ltb_lt.
  - intros t. unfold IsBanned. rewrite Hst. apply Z.ltb_ge.
Qed.

(** *** The ban table seen from an address *)

(** [CNetAddr], [CSubNet::Match] and the subnet made of one address,
    [CSubNet(addr.ToString() + (addr.IsIPv4() ? "/32" : "/128"))]: all
    declared outside the sources. *)
Context {CNetAddr : Type}.
Variable Match : CSubNet → CNetAddr → bool.
Variable single_address : CNetAddr → CSubNet.

(** [CNode::IsBanned(const CNetAddr&)]: the loop over the entries of
    [setBanned] only ever sets [fResult], so the order in which the entries
    are visited does not show in the result. *)
Definition IsBanned_addr (setBanned : gmap CSubNet Z) (now : Z) (ip : CNetAddr) : bool :=
  map_fold (λ subNet t fResult,
              if Match subNet ip && (now <? t) then true else fResult)
           false setBanned.

(** [CNode::Ban(const CNetAddr&, int64_t, bool)]. *)
Definition Ban_addr (setBanned : gmap CSubNet Z) (now : Z)
    (addr : CNetAddr) (bantimeoffset : Z) (sinceUnixEpoch : bool) : gmap CSubNet Z :=
  Ban setBanned now (single_address addr) bantimeoffset sinceUnixEpoch.

Lemma IsBanned_addr_spec (m : gmap CSubNet Z) (now : Z) (ip : CNetAddr) :
  IsBanned_addr m now ip = true
  ↔ ∃ s t, m !! s = Some t ∧ Match s ip = true ∧ now < t.
Proof.
  unfold IsBanned_addr.
  apply (map_fold_weak_ind
           (λ b m, b = true ↔ ∃ s t, m !! s = Some t ∧ Match s ip = true ∧ now < t)).
  - split; [done|]. intros (s & t & Hs & _). by rewrite lookup_empty in Hs.
  - intros s t m' r Hnone IH.
    destruct (Match s ip) eqn:Hm; simpl.
    + destruct (Z.ltb_spec now t) as [Hlt|Hge].
      * split; [|done]. intros _. exists s, t. by rewrite lookup_insert_eq.
      * rewrite IH. split.
        -- intros (s' & t' & Hs' & Hm' & Ht'). exists s', t'.
           rewrite lookup_insert_ne; [done|]. intros ->. by rewrite Hnone in Hs'.
        -- intros (s' & t' & Hs' & Hm' & Ht'). exists s', t'.
           destruct (decide (s = s')) as [<-|Hne].
           ++ rewrite lookup_insert_eq in Hs'. injection Hs' as <-. lia.
           ++ by rewrite lookup_insert_ne in Hs'.
    + rewrite IH. split.
      * intros (s' & t' & Hs' & Hm' & Ht'). exists s', t'.
        rewrite lookup_insert_ne; [done|]. intros ->. by rewrite Hnone in Hs'.
      * intros (s' & t' & Hs' & Hm' & Ht'). exists s', t'.
        destruct (decide (s = s')) as [<-|Hne].
        -- congruence.
        -- by rewrite lookup_insert_ne in Hs'.
Qed.

Lemma IsBanned_spec (m : gmap CSubNet Z) (now : Z) (s : CSubNet) :
  IsBanned m now s = true ↔ ∃ t, m !! s = Some t ∧ now < t.
Proof.
  unfold IsBanned. destruct (m !! s) as [t|].
  - rewrite Z.ltb_lt. split; [intros; by exists t|]. by intros (t' & [= <-] & Ht).
  - split; [done|]. by intros (t' & Ht & _).
Qed.

Lemma IsBanned_addr_by_subnet (m : gmap CSubNet Z) (now : Z) (ip : CNetAddr) :
  IsBanned_addr m now ip = true
  ↔ ∃ s, Match s ip = true ∧ IsBanned m now s = true.
Proof.
  rewrite IsBanned_addr_spec. split.
  - intros (s & t & Hs & Hm & Ht). exists s. split; [done|].
    apply IsBanned_spec. by exists t.
  - intros (s & Hm & Hb). apply IsBanned_spec in Hb as (t & Hs & Ht).
    by exists s, t.
Qed.

(** X1: an address is banned exactly when some entry of the table is a
    subnet that matches it and has an expiry strictly after the current
    time; entries that have expired stay in the table and count for
    nothing, and with an empty table no address is banned. *)
Theorem address_banned_iff_live_matching_entry (m : gmap CSubNet Z) (now : Z)
    (ip : CNetAddr) :
  (IsBanned_addr m now ip = true
   ↔ ∃ s t, m !! s = Some t ∧ Match s ip = true ∧ now < t)
  ∧ (IsBanned_addr m now ip = false
     ↔ ∀ s t, m !! s = Some t → Match s ip = true → t <= now)
  ∧ (IsBanned_addr m now ip = true
     ↔ ∃ s, Match s ip = true ∧ IsBanned m now s = true)
  ∧ IsBanned_addr ∅ now ip = false.
Proof.
  split; [apply IsBanned_addr_spec|]. split; [|split].
  - rewrite <- not_true_iff_false, IsBanned_addr_spec. split.
    + intros Hn s t Hs Hm. destruct (Z.le_gt_cases t now); [done|].
      exfalso. apply Hn. exists s, t. split; [done|]. split; [done|lia].
    + intros Hall (s & t & Hs & Hm & Ht). specialize (Hall s t Hs Hm). lia.
  - apply IsBanned_addr_by_subnet.
  - apply not_true_iff_false. rewrite IsBanned_addr_spec.
    intros (s & t & Hs & _). by rewrite lookup_empty in Hs.
Qed.

(** X2: a call of [Ban] takes effect and lifts nothing.  At every time
    before the expiry the call asks for, the subnet is banned and so is
    every address it matches, in particular the address itself when the ban
    was asked for an address; and whatever subnet or address was banned at
    some time before the call is banned at that time after it.  The expiry
    is the [int64_t] sum the code computes: when the sum does not overflow,
    a ban for [bantimeoffset > 0] seconds holds from the time of the call to
    [bantimeoffset] seconds later, and a ban with the default duration to
    [-bantime] seconds later. *)
Theorem Ban_takes_effect_and_lifts_nothing (m : gmap CSubNet Z) (now : Z)
    (s : CSubNet) (off : Z) (since : bool) (t : Z) :
  (t < banTime now off since →
     IsBanned (Ban m now s off since) t s = true
     ∧ ∀ ip, Match s ip = true → IsBanned_addr (Ban m now s off since) t ip = true)
  ∧ (∀ addr, t < banTime now off since →
       Match (single_address addr) addr = true →
       IsBanned_addr (Ban_addr m now addr off since) t addr = true)
  ∧ (∀ s', IsBanned m t s' = true → IsBanned (Ban m now s off since) t s' = true)
  ∧ (∀ ip, IsBanned_addr m t ip = true →
           IsBanned_addr (Ban m now s off since) t ip = true)
  ∧ (0 < off → since = false → fits_int64 (now + off) →
       now <= t < now + off →
       IsBanned (Ban m now s off since) t s = true)
  ∧ (off <= 0 → fits_int64 (now + GetArg_bantime mapArgs_bantime) →
       now <= t < now + GetArg_bantime mapArgs_bantime →
       IsBanned (Ban m now s off since) t s = true).
Proof.
  assert (Hself : ∀ s0, t < banTime now off since →
            IsBanned (Ban m now s0 off since) t s0 = true).
  { intros s0 Ht. apply IsBanned_spec. rewrite Ban_lookup_eq. eexists. split; [done|lia]. }
  assert (Hmatch : ∀ s0 ip, t < banTime now off since → Match s0 ip = true →
            IsBanned_addr (Ban m now s0 off since) t ip = true).
  { intros s0 ip Ht Hm. apply IsBanned_addr_by_subnet.
    exists s0. split; [done|by apply Hself]. }
  assert (Hkeep : ∀ s', IsBanned m t s' = true → IsBanned (Ban m now s off since) t s' = true).
  { intros s' Hb. apply IsBanned_spec in Hb as (e & Hs' & He). apply IsBanned_spec.
    destruct (decide (s = s')) as [<-|Hne].
    - rewrite Ban_lookup_eq, Hs'. simpl. eexists. split; [done|lia].
    - rewrite Ban_lookup_ne by done. by exists e. }
  split; [intros Ht; split; [by apply Hself|intros ip; by apply Hmatch]|].
  split; [intros addr Ht Hm; by apply Hmatch|]. split; [done|]. split.
  - intros ip Hb.
    apply IsBanned_addr_by_subnet in Hb as (s' & Hm & Hb).
    apply IsBanned_addr_by_subnet. exists s'. split; [done|by apply Hkeep].
  - split.
    + intros Hoff -> Hfits Ht. apply Hself.
      rewrite (proj2 (banTime_asked_for now off false)); unfold asked_for;
        destruct (Z.leb_spec off 0); (done || lia).
    + intros Hoff Hfits Ht. apply Hself.
      rewrite (proj2 (banTime_asked_for now off since)); unfold asked_for;
        destruct (Z.leb_spec off 0); (done || lia).
Qed.

(** X3: [Unban] returns true exactly when the subnet had an entry, and
    removes that entry and no other: afterwards the subnet is not banned at
    any time, a second [Unban] of it returns false, and an address is banned
    exactly when an entry of another subnet matches it and has not expired,
    so an address stays banned when a wider ban covers it.  After
    [ClearBanned] no subnet and no address is banned. *)
Theorem Unban_removes_one_entry (m : gmap CSubNet Z) (s : CSubNet) :
  ((Unban m s).1 = true ↔ is_Some (m !! s))
  ∧ (Unban m s).2 !! s = None
  ∧ (∀ s', s' ≠ s → (Unban m s).2 !! s' = m !! s')
  ∧ (∀ t, IsBanned (Unban m s).2 t s = false)
  ∧ Unban (Unban m s).2 s = (false, (Unban m s).2)
  ∧ (∀ t ip, IsBanned_addr (Unban m s).2 t ip = true
             ↔ ∃ s' e, s' ≠ s ∧ m !! s' = Some e ∧ Match s' ip = true ∧ t < e)
  ∧ (∀ t s', IsBanned ClearBanned t s' = false)
  ∧ (∀ t ip, IsBanned_addr ClearBanned t ip = false).
Proof.
  assert (Hm' : (Unban m s).2 = delete s m).
  { unfold Unban. destruct (m !! s) eqn:E; [done|]. simpl.
    symmetry. by apply delete_id. }
  rewrite Hm'.
  split; [|split; [|split; [|split; [|split; [|split; [|split]]]]]].
  - unfold Unban. destruct (m !! s); simpl.
    + split; [intros _; by eexists|done].
    + split; [done|]. by intros [? ?].
  - apply lookup_delete_eq.
  - intros s' Hne. by apply lookup_delete_ne.
  - intros t. unfold IsBanned. by rewrite lookup_delete_eq.
  - unfold Unban. by rewrite lookup_delete_eq.
  - intros t ip. rewrite IsBanned_addr_spec. split.
    + intros (s' & e & Hs' & Hmatch & Ht). exists s', e.
      destruct (decide (s' = s)) as [->|Hne]; [by rewrite lookup_delete_eq in Hs'|].
      by rewrite lookup_delete_ne in Hs'.
    + intros (s' & e & Hne & Hs' & Hmatch & Ht). exists s', e.
      by rewrite lookup_delete_ne.
  - done.
  - intros t ip. apply not_true_iff_false. rewrite IsBanned_addr_spec.
    intros (s' & e & Hs' & _). unfold ClearBanned in Hs'. by rewrite lookup_empty in Hs'.
Qed.

End ban.
End Ban.

(** A run of the ban table on string-keyed subnets: two bans of one subnet,
    the second one shorter, and a ban of another subnet in between. *)
Definition ban_example_calls : list (@Ban.BanCall string) :=
  [Ban.mkBanCall 1000 "10.1.0.0/16" 500 false;
   Ban.mkBanCall 1100 "192.168.1.7/32" 0 false;
   Ban.mkBanCall 1200 "10.1.0.0/16" 100 false].

Example ban_example_stored :
  Ban.run_calls None ∅ ban_example_calls !! "10.1.0.0/16" = Some 1500
  ∧ Ban.requested_for None "10.1.0.0/16" ban_example_calls = [1500; 1300].
Proof. split; reflexivity. Qed.

Lemma Ban_keeps_latest_expiry_witness :
  ∃ e, Ban.run_calls None ∅ ban_example_calls !! "10.1.0.0/16" = Some e
     ∧ Ban.is_maximum e (0 :: Ban.requested_for None "10.1.0.0/16" ban_example_calls)
     ∧ (Exists (λ r, 0 <= r) (Ban.requested_for None "10.1.0.0/16" ban_example_calls) →
          Ban.is_maximum e (Ban.requested_for None "10.1.0.0/16" ban_example_calls))
     ∧ (∀ c, Ban.bc_subNet c = "10.1.0.0/16" → Ban.requested None c <= e →
            Ban.apply_call None (Ban.run_calls None ∅ ban_example_calls) c
              !! "10.1.0.0/16" = Some e)
     ∧ (∀ t, Ban.IsBanned (Ban.run_calls None ∅ ban_example_calls) t "10.1.0.0/16"
             = true ↔ t < e)
     ∧ (∀ t, Ban.IsBanned (Ban.run_calls None ∅ ban_example_calls) t "10.1.0.0/16"
             = false ↔ e <= t).
Proof.
  apply (Ban.Ban_keeps_latest_expiry None ∅ ban_example_calls "10.1.0.0/16").
  - reflexivity.
  - vm_compute. discriminate.
Defined.

(** A ban of one hour asked for at the Unix time 1700000000, with no
    [-bantime] on the command line. *)
Lemma Ban_requested_expiry_witness :
  Ban.Ban None ∅ 1700000000 "10.1.0.0/16" 3600 false !! "10.1.0.0/16"
  = Some (Z.max (default 0 ((∅ : gmap string Z) !! "10.1.0.0/16"))
            (if 3600 <=? 0 then 1700000000 + Ban.GetArg_bantime None
             else if false then 3600 else 1700000000 + 3600))
  ∧ (∀ s', "10.1.0.0/16" ≠ s' →
       Ban.Ban None ∅ 1700000000 "10.1.0.0/16" 3600 false !! s'
       = (∅ : gmap string Z) !! s')
  ∧ Ban.GetArg_bantime None = 24 * 60 * 60
  ∧ (∀ v, Ban.GetArg_bantime (Some v) = v).
Proof.
  apply (Ban.Ban_requested_expiry None ∅ 1700000000 "10.1.0.0/16" 3600 false).
  unfold fits_int64. simpl. lia.
Defined.

Example ban_example_relative :
  Ban.IsBanned (Ban.Ban None ∅ 1700000000 "10.1.0.0/16" 3600 false) 1700003599
    "10.1.0.0/16" = true
  ∧ Ban.IsBanned (Ban.Ban None ∅ 1700000000 "10.1.0.0/16" 3600 false) 1700003600
      "10.1.0.0/16" = false.
Proof. split; reflexivity. Qed.

(** One ban with the default duration at the Unix time 1700000000, under
    a configured [-bantime] of minus 2000000000 seconds: the expiry asked
    for is -300000000, and the entry made for the subnet holds 0. *)
Definition ban_example_negative : list (@Ban.BanCall string) :=
  [Ban.mkBanCall 1700000000 "10.1.0.0/16" 0 false].

Lemma Ban_stores_zero_for_negative_expiry :
  Ban.requested_for (Some (-2000000000)) "10.1.0.0/16" ban_example_negative
  = [-300000000]
  ∧ Ban.run_calls (Some (-2000000000)) ∅ ban_example_negative !! "10.1.0.0/16"
    = Some 0
  ∧ ¬ Ban.is_maximum 0 [-300000000]
  ∧ ¬ Ban.stored_is_maximum_of_requests (CSubNet := string) (Some (-2000000000)).
Proof.
  assert (Hno : ¬ Ban.is_maximum 0 [-300000000]).
  { intros [Hin _]. apply list_elem_of_singleton in Hin. discriminate. }
  split; [reflexivity|]. split; [reflexivity|]. split; [done|].
  intros Hclaim. apply Hno.
  apply (Hclaim ∅ ban_example_negative "10.1.0.0/16" 0); reflexivity.
Qed.

(** ** Security handshake with fallback to the unencrypted channel *)

Module Tls.

(** Modelled from the spec: the declaration of [NODE_ADDR] is in a header
    that is not part of the sources.  An entry of a fallback table holds the
    address text and the time in milliseconds of the failed handshake, and two
    entries are the same entry when their addresses are equal:
    [find] and [remove] are called with [NODE_ADDR(ip)], whose time is 0. *)
Record NODE_ADDR := mkNODE_ADDR {
  ipAddr : string;
  time : Z
}.

Definition NODE_ADDR_eqb (a b : NODE_ADDR) : bool :=
  bool_decide (ipAddr a = ipAddr b).

(** [std::find(v.begin(), v.end(), x) == v.end()]. *)
Definition not_found (v : list NODE_ADDR) (x : NODE_ADDR) : bool :=
  negb (existsb (λ y, NODE_ADDR_eqb y x) v).

(** [v.erase(std::remove(v.begin(), v.end(), x), v.end())]. *)
Definition erase_remove (v : list NODE_ADDR) (x : NODE_ADDR) : list NODE_ADDR :=
  List.filter (λ y, negb (NODE_ADDR_eqb y x)) v.

(** What [TLSManager::connect] and [TLSManager::accept] hand back: the [SSL*]
    (null on failure) and the value left in [err_code]. *)
Record Handshake (SSL : Type) := mkHandshake {
  hs_ssl : option SSL;
  hs_err_code : Z
}.
Arguments mkHandshake {SSL} _ _.
Arguments hs_ssl {SSL} _.
Arguments hs_err_code {SSL} _.

(** How the secured part of a connection attempt ends: the function goes on
    to create the peer with the given [ssl] (null for an unencrypted
    channel), or it returns early and no peer is created. *)
Inductive Outcome (SSL : Type) :=
| Proceed (ssl : option SSL)
| Abort.
Arguments Proceed {SSL} _.
Arguments Abort {SSL}.

Section tls.
Context {SSL : Type}.

(** [TLSManager::SELECT_TIMEDOUT], declared outside the sources. *)
Variable SELECT_TIMEDOUT : Z.

(** [ValidatePeerCertificate]. *)
Variable ValidatePeerCertificate : SSL → bool.

(** "Certificate validation is disabled by default": with it, a channel
    whose certificate does not validate is closed. *)
Definition validate_certificate (fTlsValidate : bool) (ssl : option SSL)
    (v : list NODE_ADDR) : Outcome SSL * list NODE_ADDR :=
  if fTlsValidate then
    match ssl with
    | Some s => if negb (ValidatePeerCertificate s) then (Abort, v)
                else (Proceed ssl, v)
    | None => (Proceed ssl, v)
    end
  else (Proceed ssl, v).

(** The TLS block of [CConnman::ConnectNode], between the TCP connection
    and the creation of the peer: [connect] is what [TLSManager::connect]
    returns when it is called, [nowMillis] is [GetTimeMillis()]. *)
Definition ConnectNode_tls (fTlsFallbackNonTls fTlsValidate : bool)
    (vNonTLSNodesOutbound : list NODE_ADDR) (ip : string) (nowMillis : Z)
    (connect : Handshake SSL) : Outcome SSL * list NODE_ADDR :=
  if fTlsFallbackNonTls then
    let nodeAddr := mkNODE_ADDR ip 0 in
    let bUseTLS := not_found vNonTLSNodesOutbound nodeAddr in
    if bUseTLS then
      match hs_ssl connect with
      | None =>
          if hs_err_code connect =? SELECT_TIMEDOUT
          then (Abort, vNonTLSNodesOutbound)
          else (Abort, vNonTLSNodesOutbound ++ [mkNODE_ADDR ip nowMillis])
      | Some ssl => validate_certificate fTlsValidate (Some ssl) vNonTLSNodesOutbound
      end
    else validate_certificate fTlsValidate None
           (erase_remove vNonTLSNodesOutbound nodeAddr)
  else
    match hs_ssl connect with
    | None => (Abort, vNonTLSNodesOutbound)
    | Some ssl => validate_certificate fTlsValidate (Some ssl) vNonTLSNodesOutbound
    end.

(** The TLS block of [CConnman::AcceptConnection], with
    [TLSManager::accept]. *)
Definition AcceptConnection_tls (fTlsFallbackNonTls fTlsValidate : bool)
    (vNonTLSNodesInbound : list NODE_ADDR) (ip : string) (nowMillis : Z)
    (accept : Handshake SSL) : Outcome SSL * list NODE_ADDR :=
  if fTlsFallbackNonTls then
    let nodeAddr := mkNODE_ADDR ip 0 in
    let bUseTLS := not_found vNonTLSNodesInbound nodeAddr in
    if bUseTLS then
      match hs_ssl accept with
      | None =>
          if hs_err_code accept =? SELECT_TIMEDOUT
          then (Abort, vNonTLSNodesInbound)
          else (Abort, vNonTLSNodesInbound ++ [mkNODE_ADDR ip nowMillis])
      | Some ssl => validate_certificate fTlsValidate (Some ssl) vNonTLSNodesInbound
      end
    else validate_certificate fTlsValidate None
           (erase_remove vNonTLSNodesInbound nodeAddr)
  else
    match hs_ssl accept with
    | None => (Abort, vNonTLSNodesInbound)
    | Some ssl => validate_certificate fTlsValidate (Some ssl) vNonTLSNodesInbound
    end.

(** The address is remembered in the table. *)
Definition remembered (ip : string) (v : list NODE_ADDR) : Prop :=
  ∃ a, a ∈ v ∧ ipAddr a = ip.

Lemma not_found_spec (v : list NODE_ADDR) (ip : string) (t : Z) :
  not_found v (mkNODE_ADDR ip t) = true ↔ ¬ remembered ip v.
Proof.
  unfold not_found, remembered. rewrite negb_true_iff.
  rewrite <- not_true_iff_false, existsb_exists.
  split; intros Hn.
  - intros (a & Ha & Hip). apply Hn. exists a. split.
    + by apply list_elem_of_In.
    + unfold NODE_ADDR_eqb. by apply bool_decide_eq_true_2.
  - intros (a & Ha & Heq). apply Hn. exists a. split.
    + by apply list_elem_of_In.
    + unfold NODE_ADDR_eqb in Heq. by apply bool_decide_eq_true_1 in Heq.
Qed.

Lemma ConnectNode_tls_failed validate v ip now err :
  ¬ remembered ip v →
  ConnectNode_tls true validate v ip now (mkHandshake None err)
  = (Abort, if err =? SELECT_TIMEDOUT then v else v ++ [mkNODE_ADDR ip now]).
Proof.
  intros Hn. unfold ConnectNode_tls.
  apply (not_found_spec v ip 0) in Hn. rewrite Hn. simpl.
  by destruct (err =? SELECT_TIMEDOUT).
Qed.

Lemma AcceptConnection_tls_failed validate v ip now err :
  ¬ remembered ip v →
  AcceptConnection_tls true validate v ip now (mkHandshake None err)
  = (Abort, if err =? SELECT_TIMEDOUT then v else v ++ [mkNODE_ADDR ip now]).
Proof.
  intros Hn. unfold AcceptConnection_tls.
  apply (not_found_spec v ip 0) in Hn. rewrite Hn. simpl.
  by destruct (err =? SELECT_TIMEDOUT).
Qed.

Lemma remembered_snoc (v : list NODE_ADDR) (ip : string) (now : Z) :
  remembered ip (v ++ [mkNODE_ADDR ip now]).
Proof.
  exists (mkNODE_ADDR ip now). split; [|done].
  apply elem_of_app. right. constructor.
Qed.

(** C4: in fallback mode, when the handshake is attempted (the address is not
    in the table yet) and fails, on the initiator path as on the responder
    path the attempt is aborted, and the address is in the table afterwards
    if and only if the error is not the select timeout: a timeout leaves the
    table as it was, any other error appends the address with the time of
    the failure. *)
Theorem handshake_failure_updates_fallback_table
    (validate : bool) (v : list NODE_ADDR) (ip : string) (now err : Z) :
  ¬ remembered ip v →
  let out := ConnectNode_tls true validate v ip now (mkHandshake None err) in
  let inb := AcceptConnection_tls true validate v ip now (mkHandshake None err) in
  out.1 = Abort ∧ inb.1 = Abort
  ∧ (remembered ip out.2 ↔ err ≠ SELECT_TIMEDOUT)
  ∧ (remembered ip inb.2 ↔ err ≠ SELECT_TIMEDOUT)
  ∧ (err = SELECT_TIMEDOUT → out.2 = v ∧ inb.2 = v)
  ∧ (err ≠ SELECT_TIMEDOUT →
       out.2 = v ++ [mkNODE_ADDR ip now] ∧ inb.2 = v ++ [mkNODE_ADDR ip now]).
Proof.
  intros Hn. cbv zeta.
  rewrite ConnectNode_tls_failed, AcceptConnection_tls_failed by done. simpl.
  pose proof (remembered_snoc v ip now) as Hin.
  destruct (Z.eqb_spec err SELECT_TIMEDOUT) as [->|Hne].
  - repeat split; try done; intros; tauto.
  - repeat split; try done; intros; tauto.
Qed.

(** *** The fallback, one connection at a time *)

Lemma erase_remove_forgets (v : list NODE_ADDR) (ip : string) (t : Z) :
  ¬ remembered ip (erase_remove v (mkNODE_ADDR ip t)).
Proof.
  intros (a & Ha & Hip). unfold erase_remove in Ha.
  apply list_elem_of_In, filter_In in Ha as [_ Hf].
  unfold NODE_ADDR_eqb in Hf. apply negb_true_iff, bool_decide_eq_false_1 in Hf.
  by apply Hf.
Qed.

Lemma erase_remove_others (v : list NODE_ADDR) (ip : string) (t : Z) (a : NODE_ADDR) :
  ipAddr a ≠ ip → a ∈ erase_remove v (mkNODE_ADDR ip t) ↔ a ∈ v.
Proof.
  intros Hne. unfold erase_remove. rewrite !list_elem_of_In, filter_In.
  unfold NODE_ADDR_eqb. simpl. rewrite bool_decide_eq_false_2 by done. simpl. tauto.
Qed.

Lemma validate_certificate_table (validate : bool) (ssl : option SSL)
    (v : list NODE_ADDR) :
  (validate_certificate validate ssl v).2 = v.
Proof.
  unfold validate_certificate.
  destruct validate; [|done]. destruct ssl as [s|]; [|done].
  by destruct (ValidatePeerCertificate s).
Qed.

Lemma validate_certificate_proceeds (validate : bool) (ssl ssl' : option SSL)
    (v : list NODE_ADDR) :
  (validate_certificate validate ssl v).1 = Proceed ssl' →
  ssl' = ssl
  ∧ (validate = true → ∀ s, ssl = Some s → ValidatePeerCertificate s = true).
Proof.
  unfold validate_certificate.
  destruct validate.
  - destruct ssl as [s|].
    + destruct (ValidatePeerCertificate s) eqn:Hs; simpl; [|done].
      intros [= <-]. split; [done|]. by intros _ s' [= <-].
    + simpl. intros [= <-]. split; [done|]. by intros _ s' [=].
  - simpl. intros [= <-]. split; [done|]. done.
Qed.

(** X4: in fallback mode an address that is in the table is connected
    without the handshake, whatever the handshake would have given and
    whether or not certificates are validated: the attempt goes on with no
    secured channel, and every entry of the address is taken out of the
    table while the entries of the other addresses stay, in their order.
    The next attempt to the address is therefore made with the handshake
    again.  The initiator path and the responder path agree. *)
Theorem remembered_address_goes_unencrypted_once
    (validate : bool) (v : list NODE_ADDR) (ip : string) (now : Z)
    (hs : Handshake SSL) :
  remembered ip v →
  let v' := List.filter (λ a, negb (bool_decide (ipAddr a = ip))) v in
  ConnectNode_tls true validate v ip now hs = (Proceed None, v')
  ∧ AcceptConnection_tls true validate v ip now hs = (Proceed None, v')
  ∧ ¬ remembered ip v'
  ∧ (∀ a, ipAddr a ≠ ip → a ∈ v' ↔ a ∈ v)
  ∧ (∀ now' err,
       ConnectNode_tls true validate v' ip now' (mkHandshake None err)
       = (Abort, if err =? SELECT_TIMEDOUT then v' else v' ++ [mkNODE_ADDR ip now'])
       ∧ AcceptConnection_tls true validate v' ip now' (mkHandshake None err)
         = (Abort, if err =? SELECT_TIMEDOUT then v' else v' ++ [mkNODE_ADDR ip now'])).
Proof.
  intros Hrem v'.
  assert (Hv' : v' = erase_remove v (mkNODE_ADDR ip 0)) by done.
  assert (Hfound : not_found v (mkNODE_ADDR ip 0) = false).
  { apply not_true_iff_false. by rewrite not_found_spec; intros Hn. }
  assert (Hforgot : ¬ remembered ip v') by (rewrite Hv'; apply erase_remove_forgets).
  split; [|split; [|split; [done|split]]].
  - unfold ConnectNode_tls. rewrite Hfound. simpl. rewrite <- Hv'.
    unfold validate_certificate. by destruct validate.
  - unfold AcceptConnection_tls. rewrite Hfound. simpl. rewrite <- Hv'.
    unfold validate_certificate. by destruct validate.
  - intros a Hne. rewrite Hv'. by apply erase_remove_others.
  - intros now' err. split.
    + by apply ConnectNode_tls_failed.
    + by apply AcceptConnection_tls_failed.
Qed.

(** What the TLS block may leave, for an attempt to [ip] with the table
    [v] and the handshake result [hs]. *)
Definition channel_rules (fallback validate : bool) (v : list NODE_ADDR)
    (ip : string) (hs : Handshake SSL) (out : Outcome SSL * list NODE_ADDR) : Prop :=
  (out.1 = Proceed None → fallback = true ∧ remembered ip v)
  ∧ (∀ s, out.1 = Proceed (Some s) →
       hs_ssl hs = Some s
       ∧ ¬ (fallback = true ∧ remembered ip v)
       ∧ (validate = true → ValidatePeerCertificate s = true))
  ∧ (fallback = false → out.2 = v).

Lemma found_remembered (v : list NODE_ADDR) (ip : string) (t : Z) :
  not_found v (mkNODE_ADDR ip t) = false → remembered ip v.
Proof.
  unfold not_found. rewrite negb_false_iff, existsb_exists.
  intros (a & Ha & Heq). exists a. split; [by apply list_elem_of_In|].
  unfold NODE_ADDR_eqb in Heq. by apply bool_decide_eq_true_1 in Heq.
Qed.

(** X5: on which channel an attempt goes on.  Whenever the TLS block lets
    the attempt go on with no secured channel, the fallback mode is on and
    the address was in the table; whenever it goes on with a secured
    channel, that channel is the one the handshake returned, the address was
    not in the table or the fallback mode is off, and with certificate
    validation on the certificate of the peer has been validated.  With the
    fallback mode off the table is never written.  This holds on both
    paths. *)
Theorem channel_of_a_connection
    (fallback validate : bool) (v : list NODE_ADDR) (ip : string) (now : Z)
    (hs : Handshake SSL) :
  channel_rules fallback validate v ip hs
    (ConnectNode_tls fallback validate v ip now hs)
  ∧ channel_rules fallback validate v ip hs
      (AcceptConnection_tls fallback validate v ip now hs).
Proof.
  assert (Hboth : AcceptConnection_tls fallback validate v ip now hs
                  = ConnectNode_tls fallback validate v ip now hs) by done.
  rewrite Hboth. clear Hboth.
  assert (channel_rules fallback validate v ip hs
            (ConnectNode_tls fallback validate v ip now hs)); [|done].
  unfold channel_rules, ConnectNode_tls. destruct fallback.
  - destruct (not_found v (mkNODE_ADDR ip 0)) eqn:Hf.
    + assert (Hnr : ¬ remembered ip v) by by apply (not_found_spec v ip 0).
      destruct (hs_ssl hs) as [s0|] eqn:Hs.
      * split; [|split; [|done]].
        -- intros Hp. by apply validate_certificate_proceeds in Hp as [[=] _].
        -- intros s Hp. apply validate_certificate_proceeds in Hp as [[= ->] Hval].
           split; [done|]. split; [tauto|]. intros Hv. by apply Hval.
      * destruct (hs_err_code hs =? SELECT_TIMEDOUT); simpl; by repeat split.
    + pose proof (found_remembered v ip 0 Hf) as Hr.
      split; [done|]. split; [|done].
      intros s Hp. by apply validate_certificate_proceeds in Hp as [[=] _].
  - destruct (hs_ssl hs) as [s0|] eqn:Hs.
    + split; [|split].
      * intros Hp. by apply validate_certificate_proceeds in Hp as [[=] _].
      * intros s Hp. apply validate_certificate_proceeds in Hp as [[= ->] Hval].
        split; [done|]. split; [by intros [[=] _]|]. intros Hv. by apply Hval.
      * intros _. apply validate_certificate_table.
    + simpl. by repeat split.
Qed.

End tls.

(** *** The two TLS options *)

(** The values of the static attributes [CNode::tlsFallbackNonTls] and
    [CNode::tlsValidate]. *)
Inductive eTlsOption :=
| FALLBACK_UNSET
| FALLBACK_FALSE
| FALLBACK_TRUE.

(** The value of [GetBoolArg(name, fDefault)], [arg] being the value of the
    option on the command line when it is present there. *)
Definition GetBoolArg (arg : option bool) (fDefault : bool) : bool :=
  default fDefault arg.

(** [CNode::GetTlsFallbackNonTls]: the value returned and the attribute
    afterwards; [arg] is what the command line holds for
    [-tlsfallbacknontls] at the time of the call. *)
Definition GetTlsFallbackNonTls (tlsFallbackNonTls : eTlsOption) (arg : option bool)
    : bool * eTlsOption :=
  let tlsFallbackNonTls :=
    match tlsFallbackNonTls with
    | FALLBACK_UNSET => if GetBoolArg arg true then FALLBACK_TRUE else FALLBACK_FALSE
    | set => set
    end in
  (match tlsFallbackNonTls with FALLBACK_TRUE => true | _ => false end,
   tlsFallbackNonTls).

(** [CNode::GetTlsValidate], with [-tlsvalidate]. *)
Definition GetTlsValidate (tlsValidate : eTlsOption) (arg : option bool)
    : bool * eTlsOption :=
  let tlsValidate :=
    match tlsValidate with
    | FALLBACK_UNSET => if GetBoolArg arg false then FALLBACK_TRUE else FALLBACK_FALSE
    | set => set
    end in
  (match tlsValidate with FALLBACK_TRUE => true | _ => false end, tlsValidate).

(** Successive calls of one of the two functions, the attribute being
    threaded from call to call: the values returned. *)
Fixpoint successive_calls (get : eTlsOption → option bool → bool * eTlsOption)
    (attribute : eTlsOption) (args : list (option bool)) : list bool :=
  match args with
  | [] => []
  | arg :: args =>
      let '(r, attribute') := get attribute arg in
      r :: successive_calls get attribute' args
  end.

Lemma successive_calls_set (get : eTlsOption → option bool → bool * eTlsOption)
    (b : bool) (st : eTlsOption) (args : list (option bool)) :
  st ≠ FALLBACK_UNSET →
  (∀ arg, get st arg = (b, st)) →
  Forall (λ r, r = b) (successive_calls get st args).
Proof.
  intros Hst Hget. induction args as [|arg args IH]; simpl; [constructor|].
  rewrite Hget. by constructor.
Qed.

(** X6: each of the two options is read from the command line once, by the
    first call: every call, from the time the attribute is unset, returns
    what the first call has read, whatever the command line holds at the
    later calls.  An option that is absent at the first call reads as true
    for the fallback and as false for the validation of certificates. *)
Theorem tls_options_are_read_once (arg : option bool) (args : list (option bool)) :
  Forall (λ r, r = GetBoolArg arg true)
    (successive_calls GetTlsFallbackNonTls FALLBACK_UNSET (arg :: args))
  ∧ Forall (λ r, r = GetBoolArg arg false)
      (successive_calls GetTlsValidate FALLBACK_UNSET (arg :: args))
  ∧ successive_calls GetTlsFallbackNonTls FALLBACK_UNSET (None :: args)
    = replicate (S (length args)) true
  ∧ successive_calls GetTlsValidate FALLBACK_UNSET (None :: args)
    = replicate (S (length args)) false.
Proof.
  assert (Hf : ∀ a, Forall (λ r, r = GetBoolArg a true)
                 (successive_calls GetTlsFallbackNonTls FALLBACK_UNSET (a :: args))).
  { intros a. cbn [successive_calls]. unfold GetTlsFallbackNonTls at 1. cbv zeta.
    destruct (GetBoolArg a true) eqn:Ha; cbv iota beta.
    - constructor; [done|]. by apply successive_calls_set.
    - constructor; [done|]. by apply successive_calls_set. }
  assert (Hv : ∀ a, Forall (λ r, r = GetBoolArg a false)
                 (successive_calls GetTlsValidate FALLBACK_UNSET (a :: args))).
  { intros a. cbn [successive_calls]. unfold GetTlsValidate at 1. cbv zeta.
    destruct (GetBoolArg a false) eqn:Ha; cbv iota beta.
    - constructor; [done|]. by apply successive_calls_set.
    - constructor; [done|]. by apply successive_calls_set. }
  assert (Hrep : ∀ (b : bool) l, Forall (λ r, r = b) l → l = replicate (length l) b).
  { intros b l Hl. induction Hl as [|x l -> _ IH]; simpl; [done|]. by rewrite <- IH. }
  assert (Hlen : ∀ get st l, length (successive_calls get st l) = length l).
  { intros get st l. revert st. induction l as [|a l IH]; intros st; simpl; [done|].
    destruct (get st a). simpl. by rewrite IH. }
  split; [apply Hf|]. split; [apply Hv|]. split.
  - rewrite (Hrep true _ (Hf None)) at 1. by rewrite Hlen.
  - rewrite (Hrep false _ (Hv None)) at 1. by rewrite Hlen.
Qed.

End Tls.

(** A failed handshake with a peer not yet in the table, with a protocol
    error (code 1) where the timeout code is taken to be 2. *)
Lemma handshake_failure_updates_fallback_table_witness :
  let v := [Tls.mkNODE_ADDR "203.0.113.9" 5] in
  let out := Tls.ConnectNode_tls (SSL:=nat) 2 (λ _, true) true false v "198.51.100.4" 77
               (Tls.mkHandshake None 1) in
  let inb := Tls.AcceptConnection_tls (SSL:=nat) 2 (λ _, true) true false v "198.51.100.4" 77
               (Tls.mkHandshake None 1) in
  out.1 = Tls.Abort ∧ inb.1 = Tls.Abort
  ∧ (Tls.remembered "198.51.100.4" out.2 ↔ 1 ≠ 2)
  ∧ (Tls.remembered "198.51.100.4" inb.2 ↔ 1 ≠ 2)
  ∧ (1 = 2 → out.2 = v ∧ inb.2 = v)
  ∧ (1 ≠ 2 →
       out.2 = v ++ [Tls.mkNODE_ADDR "198.51.100.4" 77]
       ∧ inb.2 = v ++ [Tls.mkNODE_ADDR "198.51.100.4" 77]).
Proof.
  apply (Tls.handshake_failure_updates_fallback_table (SSL:=nat) 2 (λ _, true) false
           [Tls.mkNODE_ADDR "203.0.113.9" 5] "198.51.100.4" 77 1).
  intros (a & Ha & Hip). apply list_elem_of_singleton in Ha. subst a.
  simpl in Hip. discriminate.
Defined.


(** A table that holds the address of the attempt, after an entry of
    another address. *)
Definition tls_example_table : list Tls.NODE_ADDR :=
  [Tls.mkNODE_ADDR "203.0.113.9" 5; Tls.mkNODE_ADDR "198.51.100.4" 77].

Example tls_example_unencrypted :
  Tls.ConnectNode_tls (SSL:=nat) 2 (λ _, false) true true tls_example_table
    "198.51.100.4" 90 (Tls.mkHandshake (Some 1%nat) 0)
  = (Tls.Proceed None, [Tls.mkNODE_ADDR "203.0.113.9" 5]).
Proof. reflexivity. Qed.

Lemma remembered_address_goes_unencrypted_once_witness :
  let v' := List.filter (λ a, negb (bool_decide (Tls.ipAddr a = "198.51.100.4")))
              tls_example_table in
  Tls.ConnectNode_tls (SSL:=nat) 2 (λ _, false) true true tls_example_table
    "198.51.100.4" 90 (Tls.mkHandshake (Some 1%nat) 0) = (Tls.Proceed None, v')
  ∧ Tls.AcceptConnection_tls (SSL:=nat) 2 (λ _, false) true true tls_example_table
      "198.51.100.4" 90 (Tls.mkHandshake (Some 1%nat) 0) = (Tls.Proceed None, v')
  ∧ ¬ Tls.remembered "198.51.100.4" v'
  ∧ (∀ a, Tls.ipAddr a ≠ "198.51.100.4" → a ∈ v' ↔ a ∈ tls_example_table)
  ∧ (∀ now' err,
       Tls.ConnectNode_tls (SSL:=nat) 2 (λ _, false) true true v' "198.51.100.4" now'
         (Tls.mkHandshake None err)
       = (Tls.Abort,
          if err =? 2 then v' else v' ++ [Tls.mkNODE_ADDR "198.51.100.4" now'])
       ∧ Tls.AcceptConnection_tls (SSL:=nat) 2 (λ _, false) true true v' "198.51.100.4"
           now' (Tls.mkHandshake None err)
         = (Tls.Abort,
            if err =? 2 then v' else v' ++ [Tls.mkNODE_ADDR "198.51.100.4" now'])).
Proof.
  apply (Tls.remembered_address_goes_unencrypted_once (SSL:=nat) 2 (λ _, false) true
           tls_example_table "198.51.100.4" 90 (Tls.mkHandshake (Some 1%nat) 0)).
  exists (Tls.mkNODE_ADDR "198.51.100.4" 77). split; [|done].
  unfold tls_example_table. apply list_elem_of_In. simpl. tauto.
Defined.
(** ** Message dispatch: the trickle peer *)

Module MsgHandler.

(** The fields of a peer that one round of [ThreadMessageHandler] reads to
    decide who is sent to and with which priority.  Peers are held by
    pointer in [vNodes]; two pointers are equal when the peers have the same
    [id]. *)
Record CNode := mkCNode {
  id : Z;
  fDisconnect : bool;
  fWhitelisted : bool
}.

(** [pnodeTrickle]: null for an empty copy of the peer list, else
    [vNodesCopy[GetRand(vNodesCopy.size())]].  [rand] is the value the call
    of [GetRand] returns, a number below its argument. *)
Definition pnodeTrickle (vNodesCopy : list CNode) (rand : Z) : option CNode :=
  match vNodesCopy with
  | [] => None
  | _ => vNodesCopy !! Z.to_nat rand
  end.

(** [pnode == pnodeTrickle]. *)
Definition is_trickle (pnode : CNode) (trickle : option CNode) : bool :=
  match trickle with
  | Some t => id pnode =? id t
  | None => false
  end.

(** One round of the loop of [ThreadMessageHandler] with no interrupt, seen
    from the send side: the calls [SendMessages(pnode, fSendTrickle)] it
    makes, in order.  [lockSend] tells for which peers [TRY_LOCK] on
    [cs_vSend] succeeds. *)
Definition SendMessages_calls (vNodesCopy : list CNode) (rand : Z)
    (lockSend : CNode → bool) : list (CNode * bool) :=
  let trickle := pnodeTrickle vNodesCopy rand in
  omap (λ pnode,
          if fDisconnect pnode then None
          else if lockSend pnode
               then Some (pnode, is_trickle pnode trickle || fWhitelisted pnode)
               else None)
       vNodesCopy.

(** The claim as the specification words it: the trickle peer is fixed by
    the peer list (and the round), so two runs over the same list agree
    whatever [GetRand] returns. *)
Definition trickle_fixed_by_peer_list : Prop :=
  ∀ (vNodesCopy : list CNode) (rand1 rand2 : Z),
    0 <= rand1 < Z.of_nat (length vNodesCopy) →
    0 <= rand2 < Z.of_nat (length vNodesCopy) →
    pnodeTrickle vNodesCopy rand1 = pnodeTrickle vNodesCopy rand2.

Lemma SendMessages_calls_elem (l : list CNode) (rand : Z)
    (lockSend : CNode → bool) (p : CNode) (flag : bool) :
  (p, flag) ∈ SendMessages_calls l rand lockSend →
  p ∈ l ∧ fDisconnect p = false
  ∧ flag = is_trickle p (pnodeTrickle l rand) || fWhitelisted p.
Proof.
  unfold SendMessages_calls. cbv zeta.
  intros Hin. apply list_elem_of_omap in Hin as (q & Hq & Heq).
  destruct (fDisconnect q) eqn:Hd; [done|].
  destruct (lockSend q); [|done].
  injection Heq as <- <-. done.
Qed.

(** C9 (as amended): over a non-empty list of distinct peers and for a draw
    [rand] of [GetRand] below the size of the list, exactly one peer is the
    trickle peer, the one at index [rand]; the choice depends on the draw
    alone, so two runs select the same peer exactly when their draws are
    equal; and every call of [SendMessages] in the round has the trickle flag
    set exactly for the trickle peer and for the whitelisted peers. *)
Theorem trickle_peer_is_the_drawn_one (vNodesCopy : list CNode) (rand : Z)
    (lockSend : CNode → bool) :
  NoDup (id <$> vNodesCopy) →
  0 <= rand < Z.of_nat (length vNodesCopy) →
  ∃ p, pnodeTrickle vNodesCopy rand = Some p
     ∧ vNodesCopy !! Z.to_nat rand = Some p
     ∧ (∀ rand', 0 <= rand' < Z.of_nat (length vNodesCopy) →
          (pnodeTrickle vNodesCopy rand' = Some p ↔ rand' = rand))
     ∧ (∀ q flag, (q, flag) ∈ SendMessages_calls vNodesCopy rand lockSend →
          flag = true ↔ (q = p ∨ fWhitelisted q = true)).
Proof.
  intros Hids Hr.
  pose proof (NoDup_fmap_1 _ _ Hids) as Hnd.
  destruct (lookup_lt_is_Some_2 vNodesCopy (Z.to_nat rand)) as [p Hp]; [lia|].
  assert (Hsel : ∀ r, pnodeTrickle vNodesCopy r = vNodesCopy !! Z.to_nat r).
  { intros r. destruct vNodesCopy; [|done]. simpl in Hr. lia. }
  exists p. rewrite !Hsel. split; [done|]. split; [done|]. split.
  - intros r' Hr'. rewrite Hsel. split.
    + intros Hp'. pose proof (NoDup_lookup _ _ _ _ Hnd Hp' Hp). lia.
    + by intros ->.
  - intros q flag Hin.
    apply SendMessages_calls_elem in Hin as (Hq & _ & ->).
    rewrite Hsel, Hp, orb_true_iff. simpl. rewrite Z.eqb_eq.
    assert (Hpl : p ∈ vNodesCopy) by by eapply list_elem_of_lookup_2.
    split; (intros [H|H]; [left|by right]).
    + by apply (NoDup_fmap_eq id vNodesCopy).
    + by rewrite H.
Qed.

End MsgHandler.

(** Three peers, the last one whitelisted. *)
Definition trickle_example_nodes : list MsgHandler.CNode :=
  [MsgHandler.mkCNode 11 false false;
   MsgHandler.mkCNode 12 false false;
   MsgHandler.mkCNode 13 false true].

(** With the same peer list, the draw 0 gives the trickle priority to peer
    11 and the draw 1 gives it to peer 12. *)
Example trickle_example_runs :
  MsgHandler.SendMessages_calls trickle_example_nodes 0 (λ _, true)
  = [(MsgHandler.mkCNode 11 false false, true);
     (MsgHandler.mkCNode 12 false false, false);
     (MsgHandler.mkCNode 13 false true, true)]
  ∧ MsgHandler.SendMessages_calls trickle_example_nodes 1 (λ _, true)
  = [(MsgHandler.mkCNode 11 false false, false);
     (MsgHandler.mkCNode 12 false false, true);
     (MsgHandler.mkCNode 13 false true, true)].
Proof. split; reflexivity. Qed.

(** The trickle peer is not fixed by the peer list: two legal draws over
    the list of the example select different peers. *)
Lemma trickle_not_fixed_by_peer_list :
  MsgHandler.pnodeTrickle trickle_example_nodes 0
  = Some (MsgHandler.mkCNode 11 false false)
  ∧ MsgHandler.pnodeTrickle trickle_example_nodes 1
    = Some (MsgHandler.mkCNode 12 false false)
  ∧ ¬ MsgHandler.trickle_fixed_by_peer_list.
Proof.
  split; [reflexivity|]. split; [reflexivity|].
  intros Hfix.
  specialize (Hfix trickle_example_nodes 0 1).
  simpl in Hfix. discriminate Hfix; lia.
Qed.

Lemma trickle_peer_is_the_drawn_one_witness :
  ∃ p, MsgHandler.pnodeTrickle trickle_example_nodes 1 = Some p
     ∧ trickle_example_nodes !! Z.to_nat 1 = Some p
     ∧ (∀ rand', 0 <= rand' < Z.of_nat (length trickle_example_nodes) →
          (MsgHandler.pnodeTrickle trickle_example_nodes rand' = Some p ↔ rand' = 1))
     ∧ (∀ q flag,
          (q, flag) ∈ MsgHandler.SendMessages_calls trickle_example_nodes 1 (λ _, true) →
          flag = true ↔ (q = p ∨ MsgHandler.fWhitelisted q = true)).
Proof.
  apply (MsgHandler.trickle_peer_is_the_drawn_one trickle_example_nodes 1 (λ _, true)).
  - unfold trickle_example_nodes. compute_done.
  - simpl. lia.
Defined.

(** ** The peer-address file *)

Module AddrDB.

(** [CMessageHeader::MessageStartChars], four bytes. *)
Definition MessageStartChars : Type := byte * byte * byte * byte.

(** [FLATDATA(pchMessageStart)]: the four bytes as they are. *)
Definition FLATDATA (m : MessageStartChars) : list byte :=
  let '(a, b, c, d) := m in [a; b; c; d].

(** The messages of the [error(...)] returns of [CAddrDB::Read]. *)
Inductive ReadError :=
| FailedToOpenFile
| DeserializeOrIOError
| ChecksumMismatch
| InvalidNetworkMagic.

(** [CAddrDB::Read] returns [true] with [addr] filled, or [false] after
    one of the errors. *)
Inductive ReadResult (A : Type) :=
| ReadOk (addr : A)
| ReadFail (e : ReadError).
Arguments ReadOk {A} _.
Arguments ReadFail {A} _.

(** What the file operations of [CAddrDB::Write] meet: whether the
    temporary file opens, whether writing to it goes through, whether the
    rename over [peers.dat] does. *)
Record WriteIO := mkWriteIO {
  fopen_ok : bool;
  write_ok : bool;
  rename_ok : bool
}.

Section addrdb.
Context {CAddrMan : Type}.

(** [ssPeers << addr] and [ssPeers >> addr] ([None] when it throws), and
    [Hash], the 256-bit digest: all three are outside the sources. *)
Variable Serialize : CAddrMan → list byte.
Variable Unserialize : list byte → option CAddrMan.
Variable Hash : list byte → list byte.

Hypothesis Hash_length : ∀ d, length (Hash d) = 32%nat.
Hypothesis Unserialize_Serialize : ∀ a, Unserialize (Serialize a) = Some a.

(** The content of [ssPeers] at the end of the serialisation in
    [CAddrDB::Write]: magic, address manager, hash of both. *)
Definition ssPeers_written (magic : MessageStartChars) (addr : CAddrMan) : list byte :=
  let ssPeers := FLATDATA magic ++ Serialize addr in
  let hash := Hash ssPeers in
  ssPeers ++ hash.

(** [CAddrDB::Write]; the state is the content of [peers.dat], [None] when
    the file does not exist. *)
Definition Write (io : WriteIO) (peers_dat : option (list byte))
    (magic : MessageStartChars) (addr : CAddrMan) : bool * option (list byte) :=
  let ssPeers := ssPeers_written magic addr in
  if negb (fopen_ok io) then (false, peers_dat)
  else if negb (write_ok io) then (false, peers_dat)
  else if negb (rename_ok io) then (false, peers_dat)
  else (true, Some ssPeers).

(** [CAddrDB::Read].  [dataSize] is computed in [int]; the two reads throw
    when the file has fewer bytes left than they ask for. *)
Definition Read (peers_dat : option (list byte)) (magic : MessageStartChars)
    : ReadResult CAddrMan :=
  match peers_dat with
  | None => ReadFail FailedToOpenFile
  | Some file =>
      let fileSize := int32 (Z.of_nat (length file)) in
      let dataSize := int32 (fileSize - 32) in
      let dataSize := if dataSize <? 0 then 0 else dataSize in
      let n := Z.to_nat dataSize in
      if decide (length file < n + 32)%nat then ReadFail DeserializeOrIOError
      else
        let vchData := take n file in
        let hashIn := take 32 (drop n file) in
        let hashTmp := Hash vchData in
        if decide (hashIn ≠ hashTmp) then ReadFail ChecksumMismatch
        else if decide (length vchData < 4)%nat then ReadFail DeserializeOrIOError
        else
          let pchMsgTmp := take 4 vchData in
          if decide (pchMsgTmp ≠ FLATDATA magic) then ReadFail InvalidNetworkMagic
          else
            match Unserialize (drop 4 vchData) with
            | Some a => ReadOk a
            | None => ReadFail DeserializeOrIOError
            end
  end.

Lemma FLATDATA_length magic : length (FLATDATA magic) = 4%nat.
Proof. by destruct magic as [[[a b] c] d]. Qed.

Lemma FLATDATA_inj magic magic' : FLATDATA magic = FLATDATA magic' → magic = magic'.
Proof.
  destruct magic as [[[a b] c] d], magic' as [[[a' b'] c'] d']. simpl.
  intros [= -> -> -> ->]. done.
Qed.

(** [Read] on a file made of [data] followed by 32 more bytes. *)
Lemma Read_split (data hash : list byte) (magic : MessageStartChars) :
  length hash = 32%nat →
  Z.of_nat (length (data ++ hash)) < 2 ^ 31 →
  Read (Some (data ++ hash)) magic
  = if decide (hash ≠ Hash data) then ReadFail ChecksumMismatch
    else if decide (length data < 4)%nat then ReadFail DeserializeOrIOError
    else if decide (take 4 data ≠ FLATDATA magic) then ReadFail InvalidNetworkMagic
    else match Unserialize (drop 4 data) with
         | Some a => ReadOk a
         | None => ReadFail DeserializeOrIOError
         end.
Proof.
  intros Hh Hlen. unfold Read. cbv zeta.
  rewrite length_app, Hh in *.
  rewrite (int32_small (Z.of_nat _)) by lia.
  replace (Z.of_nat (length data + 32) - 32) with (Z.of_nat (length data)) by lia.
  rewrite int32_small by lia.
  destruct (Z.ltb_spec (Z.of_nat (length data)) 0); [lia|].
  rewrite Nat2Z.id.
  destruct (decide (length data + 32 < length data + 32)%nat); [lia|].
  rewrite take_app_length, drop_app_length.
  rewrite take_ge by lia. done.
Qed.

(** C7: when [Write] succeeds, [peers.dat] holds the magic, the serialised
    address manager and the hash of both; [Read] under the same magic
    succeeds and gives back the address manager that was written; [Read]
    under another magic fails with the invalid-magic error; and [Read] of
    the file with one byte of the hashed part overwritten fails with the
    checksum error under any magic, the hash being compared before the magic
    and the content are looked at.  The digest is taken to tell the
    overwritten data from the written data, the serialisation of the address
    manager to read back what it wrote, and the file to be shorter than
    2^31 bytes. *)
Theorem peers_file_round_trip (io : WriteIO) (old : option (list byte))
    (magic : MessageStartChars) (addr : CAddrMan) :
  Z.of_nat (length (ssPeers_written magic addr)) < 2 ^ 31 →
  (Write io old magic addr).1 = true →
  (Write io old magic addr).2 = Some (ssPeers_written magic addr)
  ∧ Read (Write io old magic addr).2 magic = ReadOk addr
  ∧ (∀ magic', magic' ≠ magic →
       Read (Write io old magic addr).2 magic' = ReadFail InvalidNetworkMagic)
  ∧ (∀ (i : nat) (b : byte) magic',
       (i < 4 + length (Serialize addr))%nat →
       Hash (<[i:=b]> (FLATDATA magic ++ Serialize addr))
         ≠ Hash (FLATDATA magic ++ Serialize addr) →
       Read (Some (<[i:=b]> (ssPeers_written magic addr))) magic'
       = ReadFail ChecksumMismatch).
Proof.
  intros Hlen Hw.
  assert (Hfile : (Write io old magic addr).2 = Some (ssPeers_written magic addr)).
  { unfold Write in *.
    destruct (fopen_ok io), (write_ok io), (rename_ok io); simpl in *; done. }
  rewrite Hfile. split; [done|].
  unfold ssPeers_written in *. cbv zeta in *.
  set (data := FLATDATA magic ++ Serialize addr) in *.
  assert (Hd4 : take 4 data = FLATDATA magic).
  { unfold data. rewrite take_app_length'; [done|by rewrite FLATDATA_length]. }
  assert (Hdrop : drop 4 data = Serialize addr).
  { unfold data. rewrite drop_app_length'; [done|by rewrite FLATDATA_length]. }
  assert (Hdl : length data = (4 + length (Serialize addr))%nat).
  { unfold data. by rewrite length_app, FLATDATA_length. }
  split; [|split].
  - rewrite Read_split by done.
    destruct (decide (Hash data ≠ Hash data)); [done|].
    destruct (decide (length data < 4)%nat); [lia|].
    rewrite Hd4, Hdrop, Unserialize_Serialize.
    destruct (decide (FLATDATA magic ≠ FLATDATA magic)); done.
  - intros magic' Hne. rewrite Read_split by done.
    destruct (decide (Hash data ≠ Hash data)); [done|].
    destruct (decide (length data < 4)%nat); [lia|].
    rewrite Hd4.
    destruct (decide (FLATDATA magic ≠ FLATDATA magic')) as [|Heq]; [done|].
    exfalso. apply Hne. symmetry. apply FLATDATA_inj.
    by destruct (decide (FLATDATA magic = FLATDATA magic')).
  - intros i b magic' Hi Hcol.
    rewrite insert_app_l by lia.
    rewrite Read_split; [| done | by rewrite length_app, length_insert, <- length_app].
    destruct (decide (Hash data ≠ Hash (<[i:=b]> data))) as [|Heq]; [done|].
    exfalso. apply Hcol. symmetry.
    by destruct (decide (Hash data = Hash (<[i:=b]> data))).
Qed.

(** *** What [Read] accepts and what it reports *)

Lemma int32_signed (z : Z) : - 2 ^ 31 <= z < 2 ^ 31 → int32 z = z.
Proof.
  intros Hz. destruct (Z.neg_nonneg_cases z) as [Hneg|Hpos].
  - unfold int32.
    replace (z mod 2 ^ 32) with (z + 2 ^ 32).
    + destruct (Z.ltb_spec (z + 2 ^ 32) (2 ^ 31)); lia.
    + apply Z.mod_unique with (q := -1); lia.
  - apply int32_small. lia.
Qed.

(** [Read] on a file shorter than [2^31] bytes, the conversions to [int]
    worked out. *)
Lemma Read_cases (file : list byte) (magic : MessageStartChars) :
  Z.of_nat (length file) < 2 ^ 31 →
  Read (Some file) magic
  = if decide (length file < 32)%nat then ReadFail DeserializeOrIOError
    else
      let data := take (length file - 32) file in
      if decide (drop (length file - 32) file ≠ Hash data) then ReadFail ChecksumMismatch
      else if decide (length data < 4)%nat then ReadFail DeserializeOrIOError
      else if decide (take 4 data ≠ FLATDATA magic) then ReadFail InvalidNetworkMagic
      else match Unserialize (drop 4 data) with
           | Some a => ReadOk a
           | None => ReadFail DeserializeOrIOError
           end.
Proof.
  intros Hlen. destruct (decide (length file < 32)%nat) as [Hshort|Hlong].
  - unfold Read. cbv zeta.
    rewrite (int32_small (Z.of_nat _)) by lia.
    rewrite int32_signed by lia.
    destruct (Z.ltb_spec (Z.of_nat (length file) - 32) 0); [|lia].
    change (Z.to_nat 0) with 0%nat.
    destruct (decide (length file < 0 + 32)%nat); [done|lia].
  - rewrite <- (take_drop (length file - 32) file) at 1.
    rewrite Read_split.
    + done.
    + rewrite length_drop. lia.
    + by rewrite take_drop.
Qed.

(** X7: [Read] succeeds on exactly the files that [Write] can have made
    for the magic of this network: the file is the magic, some bytes the
    address manager is read back from, and the digest of the two; and the
    address manager it returns is the one read from these bytes.  A file that
    passes has been checked in full: the digest covers every byte before
    it.  The file is shorter than [2^31] bytes. *)
Theorem Read_accepts_exactly_the_checksummed_files (file : list byte)
    (magic : MessageStartChars) (a : CAddrMan) :
  Z.of_nat (length file) < 2 ^ 31 →
  Read (Some file) magic = ReadOk a
  ↔ ∃ payload,
      file = (FLATDATA magic ++ payload) ++ Hash (FLATDATA magic ++ payload)
      ∧ Unserialize payload = Some a.
Proof.
  intros Hlen. split.
  - rewrite Read_cases by done. cbv zeta.
    destruct (decide (length file < 32)%nat); [done|].
    set (data := take (length file - 32) file).
    destruct (decide (drop (length file - 32) file ≠ Hash data)) as [|Hhash]; [done|].
    destruct (decide (length data < 4)%nat); [done|].
    destruct (decide (take 4 data ≠ FLATDATA magic)) as [|Hmagic]; [done|].
    destruct (Unserialize (drop 4 data)) as [a'|] eqn:Hun; [|done].
    intros [= ->]. exists (drop 4 data).
    assert (Hh : drop (length file - 32) file = Hash data).
    { by destruct (decide (drop (length file - 32) file = Hash data)). }
    assert (Hm : take 4 data = FLATDATA magic).
    { by destruct (decide (take 4 data = FLATDATA magic)). }
    rewrite <- Hm, take_drop, <- Hh. split; [|done].
    unfold data. by rewrite take_drop.
  - intros (payload & -> & Hun).
    rewrite Read_split; [|apply Hash_length|done].
    destruct (decide (Hash (FLATDATA magic ++ payload) ≠ Hash (FLATDATA magic ++ payload)));
      [done|].
    destruct (decide (length (FLATDATA magic ++ payload) < 4)%nat) as [Hl|_].
    { rewrite length_app, FLATDATA_length in Hl. lia. }
    rewrite take_app_length' by (by rewrite FLATDATA_length).
    rewrite drop_app_length' by (by rewrite FLATDATA_length).
    destruct (decide (FLATDATA magic ≠ FLATDATA magic)); [done|].
    by rewrite Hun.
Qed.

(** X8: what [Read] reports.  With no file it reports that the file cannot
    be opened.  On a file shorter than the 32 bytes of the digest it reports
    an I/O error: the negative data size is raised to 0 and the read of the
    digest runs out of bytes.  It reports a checksum mismatch exactly when
    the file has its 32 bytes and they are not the digest of the bytes
    before them; the magic is looked at after the digest only, so a report
    of a wrong magic is about a file whose digest is right.  The file is
    shorter than [2^31] bytes. *)
Theorem Read_reports (file : list byte) (magic : MessageStartChars) :
  Z.of_nat (length file) < 2 ^ 31 →
  Read None magic = ReadFail FailedToOpenFile
  ∧ ((length file < 32)%nat → Read (Some file) magic = ReadFail DeserializeOrIOError)
  ∧ (Read (Some file) magic = ReadFail ChecksumMismatch
     ↔ (32 ≤ length file)%nat
       ∧ drop (length file - 32) file ≠ Hash (take (length file - 32) file))
  ∧ (Read (Some file) magic = ReadFail InvalidNetworkMagic
     ↔ ∃ data, file = data ++ Hash data ∧ (4 ≤ length data)%nat
               ∧ take 4 data ≠ FLATDATA magic)
  ∧ Read (Some file) magic ≠ ReadFail FailedToOpenFile.
Proof.
  intros Hlen. split; [done|].
  rewrite Read_cases by done. cbv zeta.
  destruct (decide (length file < 32)%nat) as [Hshort|Hlong].
  - split; [done|]. split; [split; [done|lia]|]. split; [|done].
    split; [done|]. intros (data & -> & _ & _).
    rewrite length_app, Hash_length in Hshort. lia.
  - split; [lia|].
    set (data := take (length file - 32) file).
    assert (Hfile : file = data ++ drop (length file - 32) file).
    { unfold data. by rewrite take_drop. }
    destruct (decide (drop (length file - 32) file ≠ Hash data)) as [Hbad|Hgood].
    + split; [split; [intros _; split; [lia|done]|done]|]. split; [|done].
      split; [done|]. intros (data' & Hf & _ & _). exfalso. apply Hbad.
      unfold data. rewrite Hf, length_app, Hash_length.
      replace (length data' + 32 - 32)%nat with (length data') by lia.
      by rewrite take_app_length, drop_app_length.
    + assert (Hh : drop (length file - 32) file = Hash data).
      { by destruct (decide (drop (length file - 32) file = Hash data)). }
      split; [split; [|by intros [_ ?]]|].
      { destruct (decide (length data < 4)%nat); [done|].
        destruct (decide (take 4 data ≠ FLATDATA magic)); [done|].
        by destruct (Unserialize (drop 4 data)). }
      destruct (decide (length data < 4)%nat) as [Hl4|Hl4].
      * split; [|done]. split; [done|]. intros (data' & Hf & Hl' & _). exfalso.
        assert (data' = data) as ->; [|lia].
        unfold data. rewrite Hf, length_app, Hash_length.
        replace (length data' + 32 - 32)%nat with (length data') by lia.
        by rewrite take_app_length.
      * destruct (decide (take 4 data ≠ FLATDATA magic)) as [Hm|Hm].
        -- split; [|done]. split; [|done]. intros _. exists data.
           split; [by rewrite <- Hh|]. split; [lia|done].
        -- split.
           ++ split; [by destruct (Unserialize (drop 4 data))|].
              intros (data' & Hf & _ & Hm'). exfalso.
              assert (data' = data) as ->; [|done].
              unfold data. rewrite Hf, length_app, Hash_length.
              replace (length data' + 32 - 32)%nat with (length data') by lia.
              by rewrite take_app_length.
           ++ by destruct (Unserialize (drop 4 data)).
Qed.

End addrdb.
End AddrDB.

(** An instance on which the round trip runs: the address manager is its own
    serialisation and the digest is the first 32 bytes of the data, padded
    with zeros. *)
Definition toy_digest (d : list byte) : list byte := resize 32%nat x00 d.

Definition peers_example_magic : AddrDB.MessageStartChars := (x63, x61, x73, x68).

Definition peers_example_addr : list byte := [x01; x02; x03].

Example peers_example_read_back :
  AddrDB.Read Some toy_digest
    (AddrDB.Write id toy_digest (AddrDB.mkWriteIO true true true) None
       peers_example_magic peers_example_addr).2
    peers_example_magic
  = AddrDB.ReadOk peers_example_addr.
Proof. reflexivity. Qed.

Example peers_example_corrupted :
  AddrDB.Read Some toy_digest
    (Some (<[5%nat := xff]>
             (AddrDB.ssPeers_written id toy_digest peers_example_magic peers_example_addr)))
    peers_example_magic
  = AddrDB.ReadFail AddrDB.ChecksumMismatch.
Proof. reflexivity. Qed.

Lemma peers_file_round_trip_witness :
  (AddrDB.Write id toy_digest (AddrDB.mkWriteIO true true true) None
     peers_example_magic peers_example_addr).2
  = Some (AddrDB.ssPeers_written id toy_digest peers_example_magic peers_example_addr)
  ∧ AddrDB.Read Some toy_digest
      (AddrDB.Write id toy_digest (AddrDB.mkWriteIO true true true) None
         peers_example_magic peers_example_addr).2
      peers_example_magic
    = AddrDB.ReadOk peers_example_addr
  ∧ (∀ magic', magic' ≠ peers_example_magic →
       AddrDB.Read Some toy_digest
         (AddrDB.Write id toy_digest (AddrDB.mkWriteIO true true true) None
            peers_example_magic peers_example_addr).2
         magic'
       = AddrDB.ReadFail AddrDB.InvalidNetworkMagic)
  ∧ (∀ (i : nat) (b : byte) magic',
       (i < 4 + length (id peers_example_addr))%nat →
       toy_digest (<[i:=b]> (AddrDB.FLATDATA peers_example_magic ++ id peers_example_addr))
         ≠ toy_digest (AddrDB.FLATDATA peers_example_magic ++ id peers_example_addr) →
       AddrDB.Read Some toy_digest
         (Some (<[i:=b]>
                  (AddrDB.ssPeers_written id toy_digest peers_example_magic
                     peers_example_addr)))
         magic'
       = AddrDB.ReadFail AddrDB.ChecksumMismatch).
Proof.
  apply (AddrDB.peers_file_round_trip id Some toy_digest
           (λ d, length_resize d 32%nat x00) (λ a, eq_refl)
           (AddrDB.mkWriteIO true true true) None
           peers_example_magic peers_example_addr).
  - vm_compute. reflexivity.
  - reflexivity.
Defined.


(** The file of the example, and a file cut short in the digest. *)
Definition peers_example_file : list byte :=
  AddrDB.ssPeers_written id toy_digest peers_example_magic peers_example_addr.

Example peers_example_short_file :
  AddrDB.Read Some toy_digest (Some (take 20 peers_example_file)) peers_example_magic
  = AddrDB.ReadFail AddrDB.DeserializeOrIOError.
Proof. reflexivity. Qed.

Lemma Read_accepts_exactly_the_checksummed_files_witness :
  AddrDB.Read Some toy_digest (Some peers_example_file) peers_example_magic
  = AddrDB.ReadOk peers_example_addr
  ↔ ∃ payload,
      peers_example_file
      = (AddrDB.FLATDATA peers_example_magic ++ payload)
          ++ toy_digest (AddrDB.FLATDATA peers_example_magic ++ payload)
      ∧ Some payload = Some peers_example_addr.
Proof.
  apply (AddrDB.Read_accepts_exactly_the_checksummed_files Some toy_digest
           (λ d, length_resize d 32%nat x00)
           peers_example_file peers_example_magic peers_example_addr).
  vm_compute. reflexivity.
Defined.

Lemma Read_reports_witness :
  AddrDB.Read Some toy_digest None peers_example_magic
  = AddrDB.ReadFail AddrDB.FailedToOpenFile
  ∧ ((length (take 20 peers_example_file) < 32)%nat →
     AddrDB.Read Some toy_digest (Some (take 20 peers_example_file)) peers_example_magic
     = AddrDB.ReadFail AddrDB.DeserializeOrIOError)
  ∧ (AddrDB.Read Some toy_digest (Some (take 20 peers_example_file)) peers_example_magic
     = AddrDB.ReadFail AddrDB.ChecksumMismatch
     ↔ (32 ≤ length (take 20 peers_example_file))%nat
       ∧ drop (length (take 20 peers_example_file) - 32) (take 20 peers_example_file)
         ≠ toy_digest (take (length (take 20 peers_example_file) - 32)
                         (take 20 peers_example_file)))
  ∧ (AddrDB.Read Some toy_digest (Some (take 20 peers_example_file)) peers_example_magic
     = AddrDB.ReadFail AddrDB.InvalidNetworkMagic
     ↔ ∃ data, take 20 peers_example_file = data ++ toy_digest data
               ∧ (4 ≤ length data)%nat
               ∧ take 4 data ≠ AddrDB.FLATDATA peers_example_magic)
  ∧ AddrDB.Read Some toy_digest (Some (take 20 peers_example_file)) peers_example_magic
    ≠ AddrDB.ReadFail AddrDB.FailedToOpenFile.
Proof.
  apply (AddrDB.Read_reports Some toy_digest (λ d, length_resize d 32%nat x00)
           (take 20 peers_example_file) peers_example_magic).
  vm_compute. reflexivity.
Defined.
(** ** The message framer *)

Module Framer.

(** [CMessageHeader]. *)
Record CMessageHeader := mkCMessageHeader {
  pchMessageStart : list byte;
  pchCommand : list byte;
  nMessageSize : Z;
  nChecksum : Z
}.

(** [CNetMessage], without [nTime]. *)
Record CNetMessage := mkCNetMessage {
  in_data : bool;
  hdrbuf : list byte;
  hdr : CMessageHeader;
  nHdrPos : Z;
  vRecv : list byte;
  nDataPos : Z
}.

(** The value of a little-endian sequence of bytes. *)
Definition le_value (bs : list byte) : Z :=
  foldr (λ b acc, Z.of_N (Byte.to_N b) + 256 * acc) 0 bs.

(** Modelled from the spec: [hdrbuf >> hdr], the decoding of the 24 bytes of
    the wire frame header, whose code is not part of the sources: 4 bytes of
    network magic, the null-padded command name, the payload length in 4
    little-endian bytes, 4 bytes of checksum.  [None] stands for the
    exception thrown when the buffer runs out. *)
Definition Unserialize_header (hdrbuf : list byte) : option CMessageHeader :=
  if decide (length hdrbuf < 24)%nat then None
  else Some {| pchMessageStart := take 4 hdrbuf;
               pchCommand := take 12 (drop 4 hdrbuf);
               nMessageSize := le_value (take 4 (drop 16 hdrbuf));
               nChecksum := le_value (take 4 (drop 20 hdrbuf)) |}.

(** Modelled from the spec: [CNetMessage::complete], declared in a header
    that is not part of the sources: the frame is complete once the header
    is in and the payload has the declared length. *)
Definition complete (msg : CNetMessage) : bool :=
  if negb (in_data msg) then false
  else nMessageSize (hdr msg) =? nDataPos msg.

(** [memcpy(&dst[pos], src, n)] for [dst] long enough. *)
Definition memcpy (dst : list byte) (pos : Z) (src : list byte) (n : Z) : list byte :=
  take (Z.to_nat pos) dst ++ take (Z.to_nat n) src
    ++ drop (Z.to_nat pos + Z.to_nat n) dst.

(** The value of an [unsigned char] cast. *)
Definition byte_of_Z (z : Z) : byte :=
  default x00 (Byte.of_N (Z.to_N (z mod 256))).

(** Modelled from the spec: [WriteLE32], whose code is not part of the
    sources: the 4 bytes of a 32-bit value, the least significant one
    first. *)
Definition WriteLE32 (x : Z) : list byte :=
  [byte_of_Z x; byte_of_Z (x / 256); byte_of_Z (x / 256 / 256);
   byte_of_Z (x / 256 / 256 / 256)].

Section framer.

(** The two bounds on the declared payload length, constants declared
    outside the sources. *)
Variable MAX_PROTOCOL_MESSAGE_LENGTH : Z.
Variable MAX_SERIALIZED_COMPACT_SIZE : Z.

(** The header a [CNetMessage] holds before one is decoded into it. *)
Variable hdr_init : CMessageHeader.

(** Modelled from the spec: the constructor of [CNetMessage], declared in a
    header that is not part of the sources: a frame in the reading-header
    state with a fixed header buffer of 24 bytes and an empty payload. *)
Definition CNetMessage_new : CNetMessage :=
  {| in_data := false;
     hdrbuf := replicate 24 x00;
     hdr := hdr_init;
     nHdrPos := 0;
     vRecv := [];
     nDataPos := 0 |}.

(** [CNetMessage::readHeader(pch, nBytes)], [nBytes] being the length of
    [pch]: the [int] returned and the frame afterwards. *)
Definition readHeader (msg : CNetMessage) (pch : list byte) : Z * CNetMessage :=
  let nBytes := Z.of_nat (length pch) in
  let nRemaining := uint32 (24 - nHdrPos msg) in
  let nCopy := Z.min nRemaining nBytes in
  let hdrbuf' := memcpy (hdrbuf msg) (nHdrPos msg) pch nCopy in
  let nHdrPos' := uint32 (nHdrPos msg + nCopy) in
  let msg1 := {| in_data := in_data msg; hdrbuf := hdrbuf'; hdr := hdr msg;
                 nHdrPos := nHdrPos'; vRecv := vRecv msg; nDataPos := nDataPos msg |} in
  if nHdrPos' <? 24 then (int32 nCopy, msg1)
  else
    match Unserialize_header hdrbuf' with
    | None => (-1, msg1)
    | Some h =>
        let msg2 := {| in_data := in_data msg; hdrbuf := hdrbuf'; hdr := h;
                       nHdrPos := nHdrPos'; vRecv := vRecv msg;
                       nDataPos := nDataPos msg |} in
        if nMessageSize h >? MAX_SERIALIZED_COMPACT_SIZE then (-1, msg2)
        else (int32 nCopy,
              {| in_data := true; hdrbuf := hdrbuf'; hdr := h;
                 nHdrPos := nHdrPos'; vRecv := vRecv msg; nDataPos := nDataPos msg |})
    end.

(** [CNetMessage::readData(pch, nBytes)]. *)
Definition readData (msg : CNetMessage) (pch : list byte) : Z * CNetMessage :=
  let nBytes := Z.of_nat (length pch) in
  let nRemaining := uint32 (nMessageSize (hdr msg) - nDataPos msg) in
  let nCopy := Z.min nRemaining nBytes in
  let vRecv1 :=
    if Z.of_nat (length (vRecv msg)) <? uint32 (nDataPos msg + nCopy)
    then resize (Z.to_nat (Z.min (nMessageSize (hdr msg))
                                 (uint32 (nDataPos msg + nCopy + 256 * 1024))))
                x00 (vRecv msg)
    else vRecv msg in
  let vRecv2 := memcpy vRecv1 (nDataPos msg) pch nCopy in
  (int32 nCopy,
   {| in_data := in_data msg; hdrbuf := hdrbuf msg; hdr := hdr msg;
      nHdrPos := nHdrPos msg; vRecv := vRecv2;
      nDataPos := uint32 (nDataPos msg + nCopy) |}).

(** "Get current incomplete message, or create a new one": the frames
    before the current one, and the current one, which is the last frame of
    the queue or a new frame pushed behind it. *)
Definition current_message (vRecvMsg : list CNetMessage)
    : list CNetMessage * CNetMessage :=
  match last vRecvMsg with
  | None => (vRecvMsg, CNetMessage_new)
  | Some back =>
      if complete back then (vRecvMsg, CNetMessage_new)
      else (removelast vRecvMsg, back)
  end.

(** One turn of the loop of [ReceiveMsgBytes] stops with [return false] or
    goes on with the bytes that are left. *)
Inductive Turn :=
| ReturnFalse (vRecvMsg : list CNetMessage)
| GoOn (vRecvMsg : list CNetMessage) (pch : list byte).

(** The body of the loop of [CNode::ReceiveMsgBytes], entered with
    [nBytes > 0].  The time stamp, the byte accounting and the wake-up of
    the message handler at the completion of a frame are left out. *)
Definition ReceiveMsgBytes_turn (vRecvMsg : list CNetMessage) (pch : list byte) : Turn :=
  let '(before, msg) := current_message vRecvMsg in
  let '(handled, msg') :=
    if negb (in_data msg) then readHeader msg pch else readData msg pch in
  if handled <? 0 then ReturnFalse (before ++ [msg'])
  else if in_data msg' && (nMessageSize (hdr msg') >? MAX_PROTOCOL_MESSAGE_LENGTH)
  then ReturnFalse (before ++ [msg'])
  else GoOn (before ++ [msg']) (drop (Z.to_nat handled) pch).

(** The loop, with a bound on the number of turns; [None] when the bound is
    reached. *)
Fixpoint ReceiveMsgBytes_loop (fuel : nat) (vRecvMsg : list CNetMessage)
    (pch : list byte) : option (bool * list CNetMessage) :=
  match fuel with
  | O => None
  | S fuel =>
      if 0 <? Z.of_nat (length pch) then
        match ReceiveMsgBytes_turn vRecvMsg pch with
        | ReturnFalse q => Some (false, q)
        | GoOn q rest => ReceiveMsgBytes_loop fuel q rest
        end
      else Some (true, vRecvMsg)
  end.

(** [CNode::ReceiveMsgBytes(pch, nBytes)]: the value returned and
    [vRecvMsg] afterwards.  A turn of the loop takes at least one byte, so
    one turn per byte and one more are enough. *)
Definition ReceiveMsgBytes (vRecvMsg : list CNetMessage) (pch : list byte)
    : option (bool * list CNetMessage) :=
  ReceiveMsgBytes_loop (S (length pch)) vRecvMsg pch.

(** Successive calls of [ReceiveMsgBytes], one per chunk, as long as they
    return true. *)
Fixpoint feed (vRecvMsg : list CNetMessage) (chunks : list (list byte))
    : option (bool * list CNetMessage) :=
  match chunks with
  | [] => Some (true, vRecvMsg)
  | c :: chunks =>
      match ReceiveMsgBytes vRecvMsg c with
      | Some (true, q) => feed q chunks
      | r => r
      end
  end.

(** The digest of [Hash], 32 bytes, of which [EndMessage] takes the first 4
    as the checksum. *)
Variable Hash : list byte → list byte.

(** [CNode::EndMessage] on the send buffer [ssSend], which holds the
    header written by [BeginMessage] and the payload after it, when neither
    of the two test options is set: the bytes queued for the peer.
    [HEADER_SIZE], [MESSAGE_SIZE_OFFSET] and [CHECKSUM_OFFSET] are declared
    outside the sources; by the layout of the header they are 24, 16 and
    20. *)
Definition EndMessage (ssSend : list byte) : list byte :=
  if bool_decide (ssSend = []) then []
  else
    let nSize := uint32 (Z.of_nat (length ssSend) - 24) in
    let ssSend1 := memcpy ssSend 16 (WriteLE32 nSize) 4 in
    let hash := Hash (drop 24 ssSend1) in
    memcpy ssSend1 20 hash 4.

(** *** Well-formed frames and queues *)

(** What the framer maintains about a frame: in the reading-payload state
    the header is the decoded header buffer and the payload cursor is within
    the declared length; in the reading-header state the buffer has its 24
    bytes, no payload byte is in, and a full buffer that has not led to the
    reading-payload state is one whose declared length was refused. *)
Definition wf_msg (m : CNetMessage) : Prop :=
  if in_data m then
    nHdrPos m = 24 ∧ Unserialize_header (hdrbuf m) = Some (hdr m)
    ∧ 0 <= nDataPos m <= nMessageSize (hdr m)
  else
    length (hdrbuf m) = 24%nat ∧ 0 <= nHdrPos m <= 24
    ∧ nDataPos m = 0 ∧ vRecv m = []
    ∧ (nHdrPos m = 24 →
         Unserialize_header (hdrbuf m) = Some (hdr m)
         ∧ MAX_SERIALIZED_COMPACT_SIZE < nMessageSize (hdr m)).

(** A frame that has not tripped one of the two length checks. *)
Definition live (m : CNetMessage) : Prop :=
  if in_data m then nMessageSize (hdr m) <= MAX_PROTOCOL_MESSAGE_LENGTH
  else nHdrPos m < 24.

(** A frame whose header is complete and declares a length over one of the
    two bounds. *)
Definition oversized (m : CNetMessage) : Prop :=
  nHdrPos m = 24 ∧ Unserialize_header (hdrbuf m) = Some (hdr m)
  ∧ (MAX_SERIALIZED_COMPACT_SIZE < nMessageSize (hdr m)
     ∨ MAX_PROTOCOL_MESSAGE_LENGTH < nMessageSize (hdr m)).

(** At most one frame of the queue is incomplete, and it is the last one. *)
Definition incomplete_only_at_tail (q : list CNetMessage) : Prop :=
  Forall (λ m, complete m = true) (removelast q).

(** The condition under which the loop pushes a new frame. *)
Definition pushes_new (q : list CNetMessage) : bool :=
  match last q with
  | None => true
  | Some back => complete back
  end.

Definition queue_inv (q : list CNetMessage) : Prop :=
  incomplete_only_at_tail q ∧ (∀ back, last q = Some back → wf_msg back).

(** No frame so far has tripped a length check. *)
Definition queue_live (q : list CNetMessage) : Prop :=
  queue_inv q ∧ Forall (λ m, wf_msg m ∧ live m) q.

(** Some frame of the queue has a complete header that declares more than
    [MAX_PROTOCOL_MESSAGE_LENGTH]. *)
Definition declares_too_much (q : list CNetMessage) : Prop :=
  ∃ m h, m ∈ q ∧ nHdrPos m = 24 ∧ Unserialize_header (hdrbuf m) = Some h
         ∧ MAX_PROTOCOL_MESSAGE_LENGTH < nMessageSize h.

(** The queue a turn leaves. *)
Definition queue_of (t : Turn) : list CNetMessage :=
  match t with
  | ReturnFalse q => q
  | GoOn q _ => q
  end.

(** The frame of a message on its way in, after [k] bytes of its header
    [hb], [k < 24]. *)
Definition header_state (hb : list byte) (k : nat) : CNetMessage :=
  {| in_data := false;
     hdrbuf := take k hb ++ replicate (24 - k) x00;
     hdr := hdr_init;
     nHdrPos := Z.of_nat k;
     vRecv := [];
     nDataPos := 0 |}.

(** A frame after the header and [j] bytes of the payload: the buffer may
    be longer than [j], by the look-ahead of [readData]. *)
Definition data_state (hb : list byte) (h : CMessageHeader) (payload : list byte)
    (j : nat) (m : CNetMessage) : Prop :=
  in_data m = true ∧ hdrbuf m = hb ∧ hdr m = h ∧ nHdrPos m = 24
  ∧ nDataPos m = Z.of_nat j
  ∧ take j (vRecv m) = take j payload
  ∧ (j ≤ length (vRecv m) ≤ length payload)%nat.

(** The queue after [k] bytes of the header [hb] followed by the payload,
    [q0] being the queue before the first of them and [h] what the header
    decodes to. *)
Definition progress (q0 : list CNetMessage) (hb : list byte) (h : CMessageHeader)
    (payload : list byte) (k : nat) (q : list CNetMessage) : Prop :=
  if decide (k = 0%nat) then q = q0
  else if decide (k < 24)%nat then q = q0 ++ [header_state hb k]
  else ∃ m, q = q0 ++ [m] ∧ data_state hb h payload (k - 24) m.

(** The frame once all bytes are in. *)
Definition whole_frame (hb : list byte) (h : CMessageHeader) (payload : list byte)
    : CNetMessage :=
  {| in_data := true; hdrbuf := hb; hdr := h; nHdrPos := 24;
     vRecv := payload; nDataPos := Z.of_nat (length payload) |}.

(** *** Arithmetic of the two readers *)

Lemma le_value_bound (bs : list byte) :
  0 <= le_value bs < 256 ^ Z.of_nat (length bs).
Proof.
  induction bs as [|b bs IH]; simpl length; [simpl; lia|].
  rewrite Nat2Z.inj_succ, Z.pow_succ_r by lia.
  change (le_value (b :: bs)) with (Z.of_N (Byte.to_N b) + 256 * le_value bs).
  pose proof (Byte.to_N_bounded b). lia.
Qed.

Lemma Unserialize_header_size (buf : list byte) (h : CMessageHeader) :
  Unserialize_header buf = Some h → 0 <= nMessageSize h < 2 ^ 32.
Proof.
  unfold Unserialize_header. destruct (decide _); [done|].
  intros [= <-]. simpl.
  pose proof (le_value_bound (take 4 (drop 16 buf))) as Hb.
  rewrite length_take, length_drop in Hb.
  replace (4 `min` (length buf - 16))%nat with 4%nat in Hb by lia.
  change (256 ^ Z.of_nat 4) with (2 ^ 32) in Hb. done.
Qed.

Lemma Unserialize_header_is_Some (buf : list byte) :
  length buf = 24%nat → is_Some (Unserialize_header buf).
Proof.
  intros Hl. unfold Unserialize_header.
  destruct (decide _); [lia|]. by eexists.
Qed.

Lemma memcpy_length (dst src : list byte) (pos n : Z) :
  0 <= pos → 0 <= n → n <= Z.of_nat (length src) →
  pos + n <= Z.of_nat (length dst) →
  length (memcpy dst pos src n) = length dst.
Proof.
  intros. unfold memcpy.
  rewrite !length_app, !length_take, length_drop. lia.
Qed.

(** The header is not complete after this call. *)
Lemma readHeader_partial (msg : CNetMessage) (pch : list byte) :
  0 <= nHdrPos msg →
  nHdrPos msg + Z.of_nat (length pch) < 24 →
  readHeader msg pch
  = (Z.of_nat (length pch),
     {| in_data := in_data msg;
        hdrbuf := memcpy (hdrbuf msg) (nHdrPos msg) pch (Z.of_nat (length pch));
        hdr := hdr msg;
        nHdrPos := nHdrPos msg + Z.of_nat (length pch);
        vRecv := vRecv msg; nDataPos := nDataPos msg |}).
Proof.
  intros Hp Hn. unfold readHeader. cbv zeta.
  rewrite (uint32_small (24 - nHdrPos msg)) by lia.
  rewrite Z.min_r by lia.
  rewrite uint32_small by lia.
  destruct (Z.ltb_spec (nHdrPos msg + Z.of_nat (length pch)) 24); [|lia].
  rewrite int32_small by lia. done.
Qed.

(** The header is complete after this call. *)
Lemma readHeader_full (msg : CNetMessage) (pch : list byte) (h : CMessageHeader) :
  0 <= nHdrPos msg <= 24 →
  24 - nHdrPos msg <= Z.of_nat (length pch) →
  Unserialize_header (memcpy (hdrbuf msg) (nHdrPos msg) pch (24 - nHdrPos msg)) = Some h →
  readHeader msg pch
  = if nMessageSize h >? MAX_SERIALIZED_COMPACT_SIZE
    then (-1,
          {| in_data := in_data msg;
             hdrbuf := memcpy (hdrbuf msg) (nHdrPos msg) pch (24 - nHdrPos msg);
             hdr := h; nHdrPos := 24;
             vRecv := vRecv msg; nDataPos := nDataPos msg |})
    else (24 - nHdrPos msg,
          {| in_data := true;
             hdrbuf := memcpy (hdrbuf msg) (nHdrPos msg) pch (24 - nHdrPos msg);
             hdr := h; nHdrPos := 24;
             vRecv := vRecv msg; nDataPos := nDataPos msg |}).
Proof.
  intros Hp Hn Hh. unfold readHeader. cbv zeta.
  rewrite (uint32_small (24 - nHdrPos msg)) by lia.
  rewrite Z.min_l by lia.
  replace (nHdrPos msg + (24 - nHdrPos msg)) with 24 by lia.
  rewrite (uint32_small 24) by lia.
  change (24 <? 24) with false. cbv iota.
  rewrite Hh. rewrite int32_small by lia. done.
Qed.

(** Payload bytes are taken up to the declared length. *)
Lemma readData_eq (msg : CNetMessage) (pch : list byte) :
  0 <= nDataPos msg <= nMessageSize (hdr msg) →
  nMessageSize (hdr msg) < 2 ^ 32 →
  Z.of_nat (length pch) < 2 ^ 31 →
  let nCopy := Z.min (nMessageSize (hdr msg) - nDataPos msg) (Z.of_nat (length pch)) in
  readData msg pch
  = (nCopy,
     {| in_data := in_data msg; hdrbuf := hdrbuf msg; hdr := hdr msg;
        nHdrPos := nHdrPos msg;
        vRecv :=
          memcpy
            (if Z.of_nat (length (vRecv msg)) <? nDataPos msg + nCopy
             then resize (Z.to_nat (Z.min (nMessageSize (hdr msg))
                                      (uint32 (nDataPos msg + nCopy + 256 * 1024))))
                         x00 (vRecv msg)
             else vRecv msg)
            (nDataPos msg) pch nCopy;
        nDataPos := nDataPos msg + nCopy |}).
Proof.
  intros Hd Hs Hn nCopy. unfold readData. cbv zeta.
  rewrite (uint32_small (nMessageSize (hdr msg) - nDataPos msg)) by lia.
  fold nCopy.
  rewrite (uint32_small (nDataPos msg + nCopy)) by lia.
  rewrite int32_small by lia. done.
Qed.

(** *** One turn of the loop *)

Lemma wf_msg_new : wf_msg CNetMessage_new.
Proof. unfold wf_msg. simpl. repeat split; (done || lia). Qed.

Lemma live_new : live CNetMessage_new.
Proof. unfold live. simpl. lia. Qed.

Lemma complete_new : complete CNetMessage_new = false.
Proof. done. Qed.

Lemma queue_inv_snoc (before : list CNetMessage) (m : CNetMessage) :
  Forall (λ x, complete x = true) before → wf_msg m → queue_inv (before ++ [m]).
Proof.
  intros Hb Hm. split.
  - unfold incomplete_only_at_tail. by rewrite removelast_last.
  - intros back. rewrite last_snoc. by intros [= <-].
Qed.

(** The frame the loop works on is incomplete, and the frames before it are
    complete. *)
Lemma current_message_inv (q before : list CNetMessage) (msg : CNetMessage) :
  queue_inv q →
  current_message q = (before, msg) →
  Forall (λ x, complete x = true) before ∧ wf_msg msg ∧ complete msg = false
  ∧ ((pushes_new q = true ∧ before = q ∧ msg = CNetMessage_new)
     ∨ (pushes_new q = false ∧ q = before ++ [msg])).
Proof.
  intros [Hc Hw]. unfold current_message, pushes_new, incomplete_only_at_tail in *.
  destruct q as [|x q'] using rev_ind.
  - simpl. intros [= <- <-].
    split; [constructor|]. split; [apply wf_msg_new|]. split; [done|by left].
  - clear IHq'. rewrite last_snoc in *. rewrite removelast_last in *.
    specialize (Hw x eq_refl).
    destruct (complete x) eqn:Hx; intros [= <- <-].
    + split; [|split; [apply wf_msg_new|split; [done|by left]]].
      apply Forall_app. split; [done|]. by repeat constructor.
    + split; [done|]. split; [done|]. split; [done|by right].
Qed.

Lemma memcpy_nothing (dst src : list byte) (pos : Z) :
  memcpy dst pos src 0 = dst.
Proof. unfold memcpy. simpl. rewrite Nat.add_0_r. apply take_drop. Qed.

(** What a turn does to the current frame [msg]: either it returns false
    and leaves a frame with an oversized header, with no payload byte in
    when [msg] was live; or it goes on, having taken at least one byte and
    left a live frame. *)
Lemma turn_cases (q before : list CNetMessage) (msg : CNetMessage) (pch : list byte) :
  current_message q = (before, msg) →
  wf_msg msg → complete msg = false →
  0 < Z.of_nat (length pch) < 2 ^ 31 →
  ∃ msg', wf_msg msg'
    ∧ ((ReceiveMsgBytes_turn q pch = ReturnFalse (before ++ [msg'])
        ∧ oversized msg'
        ∧ (live msg → nDataPos msg' = 0 ∧ vRecv msg' = []))
       ∨ (∃ k, ReceiveMsgBytes_turn q pch = GoOn (before ++ [msg']) (drop k pch)
             ∧ (0 < k)%nat ∧ live msg')).
Proof.
  intros Hcur Hwf Hinc Hn. unfold ReceiveMsgBytes_turn. rewrite Hcur.
  unfold wf_msg in Hwf. destruct (in_data msg) eqn:Hin; simpl negb; cbv iota.
  - (* reading payload *)
    destruct Hwf as (Hp & Hh & Hd).
    pose proof (Unserialize_header_size _ _ Hh) as Hs.
    assert (nDataPos msg < nMessageSize (hdr msg)) as Hlt.
    { unfold complete in Hinc. rewrite Hin in Hinc. simpl in Hinc.
      apply Z.eqb_neq in Hinc. lia. }
    rewrite readData_eq by lia. cbv zeta.
    set (nCopy := Z.min (nMessageSize (hdr msg) - nDataPos msg) (Z.of_nat (length pch))).
    assert (1 <= nCopy <= Z.of_nat (length pch)) as HnC by (unfold nCopy; lia).
    cbn [in_data hdr]. rewrite Hin. simpl andb.
    destruct (Z.ltb_spec nCopy 0); [lia|].
    destruct (Z.gtb_spec (nMessageSize (hdr msg)) MAX_PROTOCOL_MESSAGE_LENGTH).
    + eexists. split; [|left; split; [reflexivity|split]].
      * unfold wf_msg. simpl. repeat split; (done || lia).
      * unfold oversized. simpl. split; [done|]. split; [done|]. right. lia.
      * unfold live. rewrite Hin. lia.
    + eexists. split; [|right; exists (Z.to_nat nCopy); split; [reflexivity|split]].
      * unfold wf_msg. simpl. repeat split; (done || lia).
      * lia.
      * unfold live. simpl. lia.
  - (* reading header *)
    destruct Hwf as (Hl & Hp & Hd & Hv & Hfull).
    destruct (Z.lt_ge_cases (nHdrPos msg + Z.of_nat (length pch)) 24) as [Hpart|Hcomp].
    + rewrite readHeader_partial by lia.
      cbn [in_data hdr]. rewrite Hin. simpl andb. cbv iota.
      destruct (Z.ltb_spec (Z.of_nat (length pch)) 0); [lia|].
      rewrite Nat2Z.id.
      eexists. split; [|right; exists (length pch); split; [reflexivity|split]].
      * unfold wf_msg. simpl. rewrite ?Hin. rewrite memcpy_length by lia.
        repeat split; (done || lia).
      * lia.
      * unfold live. simpl. rewrite ?Hin. lia.
    + assert (Hlen : length (memcpy (hdrbuf msg) (nHdrPos msg) pch (24 - nHdrPos msg))
                     = 24%nat).
      { rewrite memcpy_length by lia. done. }
      destruct (Unserialize_header_is_Some _ Hlen) as [h Hh].
      pose proof (Unserialize_header_size _ _ Hh) as Hs.
      rewrite (readHeader_full msg pch h) by (done || lia).
      destruct (Z.gtb_spec (nMessageSize h) MAX_SERIALIZED_COMPACT_SIZE) as [Hbig|Hok].
      * change (-1 <? 0) with true. cbv iota.
        eexists. split; [|left; split; [reflexivity|split]].
        -- unfold wf_msg. simpl. rewrite ?Hin. repeat split; (done || lia).
        -- unfold oversized. simpl. split; [done|]. split; [done|]. left. lia.
        -- done.
      * assert (nHdrPos msg < 24) as Hp24.
        { destruct (Z.eq_dec (nHdrPos msg) 24) as [E|]; [|lia].
          destruct (Hfull E) as [Hh' Hbig'].
          rewrite E in Hh. change (24 - 24) with 0 in Hh.
          rewrite memcpy_nothing, Hh' in Hh. injection Hh as <-. lia. }
        cbn [in_data hdr]. simpl andb.
        destruct (Z.ltb_spec (24 - nHdrPos msg) 0); [lia|].
        destruct (Z.gtb_spec (nMessageSize h) MAX_PROTOCOL_MESSAGE_LENGTH).
        -- eexists. split; [|left; split; [reflexivity|split]].
           ++ unfold wf_msg. simpl. rewrite Hd. repeat split; (done || lia).
           ++ unfold oversized. simpl. split; [done|]. split; [done|]. right. lia.
           ++ done.
        -- eexists. split;
             [|right; exists (Z.to_nat (24 - nHdrPos msg)); split; [reflexivity|split]].
           ++ unfold wf_msg. simpl. rewrite Hd. repeat split; (done || lia).
           ++ lia.
           ++ unfold live. simpl. lia.
Qed.

Lemma queue_inv_nil : queue_inv [].
Proof. split; [constructor|]. intros back. by rewrite last_nil. Qed.

Lemma queue_live_nil : queue_live [].
Proof. split; [apply queue_inv_nil|constructor]. Qed.

(** The message handler takes complete frames off the front of the queue:
    what it leaves is again a queue of the framer. *)
Lemma queue_inv_erase_front (taken q : list CNetMessage) :
  queue_inv (taken ++ q) → queue_inv q.
Proof.
  intros [Hc Hw]. unfold queue_inv, incomplete_only_at_tail in *.
  destruct q as [|x q'] using rev_ind; [apply queue_inv_nil|]. clear IHq'.
  rewrite app_assoc, removelast_last in Hc. rewrite app_assoc, last_snoc in Hw.
  rewrite removelast_last, last_snoc.
  apply Forall_app in Hc as [_ Hc]. split; [done|].
  intros back [= <-]. by apply Hw.
Qed.

(** *** The whole call *)

Lemma current_message_live (q before : list CNetMessage) (msg : CNetMessage) :
  queue_live q →
  current_message q = (before, msg) →
  Forall (λ m, wf_msg m ∧ live m) before ∧ live msg.
Proof.
  intros [Hinv Hall] Hcur.
  destruct (current_message_inv q before msg Hinv Hcur)
    as (_ & _ & _ & [(_ & -> & ->)|(_ & ->)]).
  - split; [done|apply live_new].
  - apply Forall_app in Hall as [Hb Hm]. split; [done|].
    by apply Forall_singleton in Hm as [_ Hm].
Qed.

Lemma ReceiveMsgBytes_loop_inv (fuel : nat) : ∀ (q : list CNetMessage) (pch : list byte),
  queue_inv q →
  (length pch < fuel)%nat →
  Z.of_nat (length pch) < 2 ^ 31 →
  ∃ b q', ReceiveMsgBytes_loop fuel q pch = Some (b, q')
    ∧ queue_inv q'
    ∧ (queue_live q →
         if b then queue_live q'
         else ∃ before m, q' = before ++ [m] ∧ oversized m
                ∧ nDataPos m = 0 ∧ vRecv m = []).
Proof.
  induction fuel as [|fuel IH]; intros q pch Hinv Hfuel Hlen; [lia|].
  simpl. destruct (Z.ltb_spec 0 (Z.of_nat (length pch))) as [Hpos|Hzero].
  - destruct (current_message q) as [before msg] eqn:Hcur.
    destruct (current_message_inv q before msg Hinv Hcur) as (Hb & Hwf & Hinc & _).
    destruct (turn_cases q before msg pch Hcur Hwf Hinc ltac:(lia))
      as (msg' & Hwf' & [(-> & Hov & Hpay)|(k & -> & Hk & Hlive')]).
    + exists false, (before ++ [msg']). split; [done|].
      split; [by apply queue_inv_snoc|].
      intros Hlive. exists before, msg'.
      destruct (current_message_live q before msg Hlive Hcur) as [_ Hm].
      destruct (Hpay Hm). done.
    + assert (Hinv' : queue_inv (before ++ [msg'])) by by apply queue_inv_snoc.
      destruct (IH (before ++ [msg']) (drop k pch) Hinv')
        as (b & q' & Hrun & Hq' & Hres).
      { rewrite length_drop. lia. }
      { rewrite length_drop. lia. }
      exists b, q'. split; [done|]. split; [done|].
      intros Hlive. apply Hres. split; [done|].
      destruct (current_message_live q before msg Hlive Hcur) as [Hbl _].
      apply Forall_app. split; [done|]. by apply Forall_singleton.
  - exists true, q. done.
Qed.

(** The first header of a call that starts on a fresh frame. *)
Lemma first_header_too_long (q : list CNetMessage) (hb rest : list byte)
    (h : CMessageHeader) :
  pushes_new q = true →
  length hb = 24%nat →
  Unserialize_header hb = Some h →
  MAX_PROTOCOL_MESSAGE_LENGTH < nMessageSize h →
  ∃ m, ReceiveMsgBytes q (hb ++ rest) = Some (false, q ++ [m])
     ∧ hdrbuf m = hb ∧ hdr m = h ∧ nHdrPos m = 24
     ∧ nDataPos m = 0 ∧ vRecv m = [].
Proof.
  intros Hnew Hl Hh Hbig.
  assert (Hcur : current_message q = (q, CNetMessage_new)).
  { unfold current_message, pushes_new in *.
    destruct (last q) as [back|]; [by rewrite Hnew|done]. }
  assert (Hcopy : memcpy (hdrbuf CNetMessage_new) (nHdrPos CNetMessage_new)
                    (hb ++ rest) (24 - nHdrPos CNetMessage_new) = hb).
  { unfold memcpy. simpl.
    change (Pos.to_nat 24) with 24%nat. rewrite <- Hl at 1.
    rewrite take_app_length. apply app_nil_r. }
  assert (Hpos : (0 <? Z.of_nat (length (hb ++ rest))) = true).
  { apply Z.ltb_lt. rewrite length_app, Hl. lia. }
  unfold ReceiveMsgBytes. simpl ReceiveMsgBytes_loop. rewrite Hpos.
  unfold ReceiveMsgBytes_turn. rewrite Hcur. simpl negb. cbv iota.
  rewrite (readHeader_full CNetMessage_new (hb ++ rest) h);
    [|simpl; lia|rewrite length_app, Hl; simpl; lia|by rewrite Hcopy].
  rewrite Hcopy.
  destruct (Z.gtb_spec (nMessageSize h) MAX_SERIALIZED_COMPACT_SIZE).
  - change (-1 <? 0) with true. cbv iota. by eexists.
  - simpl. destruct (Z.gtb_spec (nMessageSize h) MAX_PROTOCOL_MESSAGE_LENGTH); [|lia].
    by eexists.
Qed.

(** C8: after a call of [ReceiveMsgBytes] on a queue of the framer, the
    call has returned, every frame of the queue but the last one is
    complete, and the queue is again one of the framer; and a turn of the
    loop leaves the queue with one frame more exactly when the queue was
    empty or its last frame complete, and otherwise with the same frames
    but the last one, which it has worked on. *)
Theorem frame_queue_invariant (q : list CNetMessage) (pch : list byte) :
  queue_inv q →
  Z.of_nat (length pch) < 2 ^ 31 →
  (∃ b q', ReceiveMsgBytes q pch = Some (b, q')
     ∧ incomplete_only_at_tail q' ∧ queue_inv q')
  ∧ (∀ pch', ∃ m',
       queue_of (ReceiveMsgBytes_turn q pch')
       = (if pushes_new q then q else removelast q) ++ [m']).
Proof.
  intros Hinv Hlen. split.
  - destruct (ReceiveMsgBytes_loop_inv (S (length pch)) q pch Hinv) as (b & q' & Hrun & Hq' & _);
      [lia|done|].
    exists b, q'. split; [done|]. split; [apply Hq'|done].
  - intros pch'. unfold ReceiveMsgBytes_turn.
    destruct (current_message q) as [before msg] eqn:Hcur.
    assert (Hb : before = if pushes_new q then q else removelast q).
    { unfold current_message, pushes_new in *.
      destruct (last q) as [back|]; [|by injection Hcur as <- _].
      destruct (complete back); by injection Hcur as <- _. }
    rewrite <- Hb.
    destruct (if negb (in_data msg) then readHeader msg pch' else readData msg pch')
      as [handled msg'].
    exists msg'.
    destruct (handled <? 0); [done|].
    by destruct (in_data msg' && _).
Qed.

(** C2: on a queue in which no frame has tripped a length check, the call
    returns; when a frame of the queue it leaves has a complete header that
    declares more than [MAX_PROTOCOL_MESSAGE_LENGTH], it has returned
    false; when it returns false, the last frame of the queue has a complete
    header over one of the two bounds and not one byte of payload; when
    the bytes of the call start a frame with a header declaring too much,
    the call returns false with that header in the last frame and no
    payload byte taken; and when it returns true, the queue is again one in
    which no frame has tripped a length check. *)
Theorem oversized_header_fails (q : list CNetMessage) (pch : list byte) :
  queue_live q →
  Z.of_nat (length pch) < 2 ^ 31 →
  ∃ b q', ReceiveMsgBytes q pch = Some (b, q')
    ∧ (declares_too_much q' → b = false)
    ∧ (b = false →
         ∃ before m, q' = before ++ [m] ∧ oversized m
           ∧ nDataPos m = 0 ∧ vRecv m = [])
    ∧ (∀ hb rest h,
         pushes_new q = true → pch = hb ++ rest → length hb = 24%nat →
         Unserialize_header hb = Some h →
         MAX_PROTOCOL_MESSAGE_LENGTH < nMessageSize h →
         b = false
         ∧ ∃ m, q' = q ++ [m] ∧ hdrbuf m = hb ∧ hdr m = h
              ∧ nDataPos m = 0 ∧ vRecv m = [])
    ∧ (b = true → queue_live q').
Proof.
  intros Hlive Hlen.
  destruct (ReceiveMsgBytes_loop_inv (S (length pch)) q pch (proj1 Hlive))
    as (b & q' & Hrun & Hq' & Hres); [lia|done|].
  specialize (Hres Hlive).
  exists b, q'. split; [done|]. split; [|split; [|split; [|by intros ->]]].
  - intros (m & h & Hm & Hp & Hh & Hbig).
    destruct b; [|done]. exfalso.
    destruct Hres as [_ Hall].
    rewrite Forall_forall in Hall. destruct (Hall m Hm) as [Hwf Hl].
    unfold wf_msg, live in *. destruct (in_data m).
    + destruct Hwf as (_ & Hh' & _). rewrite Hh in Hh'. injection Hh' as ->. lia.
    + lia.
  - intros ->. done.
  - intros hb rest h Hnew -> Hl Hh Hbig.
    destruct (first_header_too_long q hb rest h Hnew Hl Hh Hbig)
      as (m & Hrun' & Hm).
    unfold ReceiveMsgBytes in Hrun, Hrun'.
    rewrite Hrun in Hrun'. injection Hrun' as -> ->.
    destruct Hm as (Hbuf & Hhdr & _ & Hpos & Hrecv).
    split; [done|]. by exists m.
Qed.

(** *** The sender's header *)

Lemma byte_of_Z_value (z : Z) : Z.of_N (Byte.to_N (byte_of_Z z)) = z mod 256.
Proof.
  unfold byte_of_Z.
  pose proof (Z.mod_pos_bound z 256 ltac:(lia)) as Hm.
  destruct (Byte.of_N (Z.to_N (z mod 256))) as [b|] eqn:Hb.
  - apply Byte.to_of_N in Hb. simpl. rewrite Hb. lia.
  - apply Byte.of_N_None_iff in Hb. lia.
Qed.

Lemma le_value_WriteLE32 (x : Z) : 0 <= x < 2 ^ 32 → le_value (WriteLE32 x) = x.
Proof.
  intros Hx. unfold WriteLE32, le_value. simpl foldr.
  rewrite !byte_of_Z_value.
  pose proof (Z.div_mod x 256 ltac:(lia)) as H0.
  pose proof (Z.div_mod (x / 256) 256 ltac:(lia)) as H1.
  pose proof (Z.div_mod (x / 256 / 256) 256 ltac:(lia)) as H2.
  assert (0 <= x / 256 / 256 / 256 < 256) as H3.
  { rewrite !Z.div_div by lia. split.
    - apply Z.div_pos; lia.
    - apply Z.div_lt_upper_bound; lia. }
  rewrite (Z.mod_small (x / 256 / 256 / 256)) by lia. lia.
Qed.

Lemma WriteLE32_length (x : Z) : length (WriteLE32 x) = 4%nat.
Proof. done. Qed.

(** What [EndMessage] queues: the header with the length of the payload
    and the checksum written into it, and the payload. *)
Lemma EndMessage_eq (header0 payload : list byte) :
  length header0 = 24%nat →
  (4 ≤ length (Hash payload))%nat →
  Z.of_nat (length payload) < 2 ^ 32 →
  EndMessage (header0 ++ payload)
  = (take 16 header0 ++ WriteLE32 (Z.of_nat (length payload))
       ++ take 4 (Hash payload)) ++ payload.
Proof.
  intros Hl Hh Hp. unfold EndMessage.
  rewrite bool_decide_eq_false_2 by (destruct header0; done).
  cbv zeta. rewrite length_app, Hl.
  replace (Z.of_nat (24 + length payload) - 24) with (Z.of_nat (length payload)) by lia.
  rewrite uint32_small by lia.
  set (le := WriteLE32 (Z.of_nat (length payload))).
  assert (Hs1 : memcpy (header0 ++ payload) 16 le 4
                = (take 16 header0 ++ le ++ drop 20 header0) ++ payload).
  { unfold memcpy. change (Z.to_nat 16) with 16%nat. change (Z.to_nat 4) with 4%nat.
    rewrite take_app_le, drop_app_le by lia.
    rewrite (take_ge le) by done. by rewrite <- !app_assoc. }
  rewrite Hs1.
  assert (Hl1 : length (take 16 header0 ++ le ++ drop 20 header0) = 24%nat).
  { rewrite !length_app, length_take, length_drop, Hl. done. }
  rewrite drop_app_length' by done.
  unfold memcpy. change (Z.to_nat 20) with 20%nat. change (Z.to_nat 4) with 4%nat.
  rewrite take_app_le, drop_app_length' by (done || lia).
  rewrite !app_assoc, take_app_length'; [done|].
  rewrite length_app, length_take, Hl. done.
Qed.

Lemma EndMessage_header (header0 payload : list byte) :
  length header0 = 24%nat →
  (4 ≤ length (Hash payload))%nat →
  Z.of_nat (length payload) < 2 ^ 32 →
  ∃ h, Unserialize_header (take 16 header0 ++ WriteLE32 (Z.of_nat (length payload))
                             ++ take 4 (Hash payload)) = Some h
     ∧ nMessageSize h = Z.of_nat (length payload)
     ∧ length (take 16 header0 ++ WriteLE32 (Z.of_nat (length payload))
                 ++ take 4 (Hash payload)) = 24%nat.
Proof.
  intros Hl Hh Hp.
  assert (Hlen : length (take 16 header0 ++ WriteLE32 (Z.of_nat (length payload))
                           ++ take 4 (Hash payload)) = 24%nat).
  { rewrite !length_app, !length_take, Hl, WriteLE32_length. lia. }
  unfold Unserialize_header. destruct (decide _); [lia|].
  eexists. split; [reflexivity|]. split; [|done]. cbn [nMessageSize].
  rewrite drop_app_length' by (rewrite length_take; lia).
  rewrite take_app_length' by done.
  apply le_value_WriteLE32. lia.
Qed.

(** *** One frame, fed in any number of calls *)

Lemma memcpy_nat (dst src : list byte) (p n : nat) :
  memcpy dst (Z.of_nat p) src (Z.of_nat n)
  = take p dst ++ take n src ++ drop (p + n) dst.
Proof. unfold memcpy. by rewrite !Nat2Z.id. Qed.

Lemma app_prefix_take {A} (a b c r : list A) :
  a ++ b = c ++ r → (length c ≤ length a)%nat → c = take (length c) a.
Proof.
  intros Heq Hle.
  rewrite <- (take_app_le a b) by done.
  rewrite Heq. by rewrite take_app_length.
Qed.

Lemma drop_prefix {A} (s c r : list A) (k j : nat) :
  drop k s = c ++ r → (j ≤ length c)%nat → drop (k + j) s = drop j c ++ r.
Proof.
  intros Heq Hj. rewrite <- drop_drop, Heq. by apply drop_app_le.
Qed.

(** *** A call that goes beyond the frame *)

Lemma int32_le (z : Z) : 0 <= z → int32 z <= z.
Proof.
  intros Hz. unfold int32.
  pose proof (Z.mod_le z (2 ^ 32) Hz ltac:(lia)).
  destruct (z mod 2 ^ 32 <? 2 ^ 31); lia.
Qed.

Lemma uint32_nonneg (z : Z) : 0 <= uint32 z.
Proof. unfold uint32. apply Z.mod_pos_bound. lia. Qed.

(** The two readers look at no more of the bytes of the call than the
    bytes the frame is short of. *)
Lemma readHeader_prefix (msg : CNetMessage) (pch : list byte) (n : nat) :
  Z.of_nat n = uint32 (24 - nHdrPos msg) → (n ≤ length pch)%nat →
  readHeader msg pch = readHeader msg (take n pch)
  ∧ (Z.to_nat (readHeader msg pch).1 ≤ n)%nat.
Proof.
  intros Hn Hle. unfold readHeader. cbv zeta.
  rewrite length_take, <- Hn.
  replace (Z.of_nat (n `min` length pch)) with (Z.of_nat n) by lia.
  rewrite (Z.min_l _ (Z.of_nat (length pch))) by lia.
  rewrite Z.min_id.
  assert (Hcopy : memcpy (hdrbuf msg) (nHdrPos msg) (take n pch) (Z.of_nat n)
                  = memcpy (hdrbuf msg) (nHdrPos msg) pch (Z.of_nat n)).
  { unfold memcpy. rewrite Nat2Z.id, take_take. do 2 f_equal. f_equal. lia. }
  rewrite Hcopy. split; [done|].
  pose proof (int32_le (Z.of_nat n) ltac:(lia)).
  destruct (_ <? 24); [simpl; lia|].
  destruct (Unserialize_header _); [|simpl; lia].
  destruct (_ >? _); simpl; lia.
Qed.

Lemma readData_prefix (msg : CNetMessage) (pch : list byte) (n : nat) :
  Z.of_nat n = uint32 (nMessageSize (hdr msg) - nDataPos msg) → (n ≤ length pch)%nat →
  readData msg pch = readData msg (take n pch)
  ∧ (Z.to_nat (readData msg pch).1 ≤ n)%nat.
Proof.
  intros Hn Hle. unfold readData. cbv zeta.
  rewrite length_take, <- Hn.
  replace (Z.of_nat (n `min` length pch)) with (Z.of_nat n) by lia.
  rewrite (Z.min_l _ (Z.of_nat (length pch))) by lia.
  rewrite Z.min_id.
  split.
  - f_equal. f_equal. unfold memcpy. rewrite Nat2Z.id, take_take.
    do 2 f_equal. f_equal. lia.
  - simpl. pose proof (int32_le (Z.of_nat n) ltac:(lia)). lia.
Qed.

(** A turn on a call that has more bytes than the frame is short of is the
    turn on the bytes the frame is short of, with the other bytes left for
    the next turns. *)
Lemma turn_prefix (q before : list CNetMessage) (msg : CNetMessage)
    (pch : list byte) (n : nat) :
  current_message q = (before, msg) →
  Z.of_nat n = (if in_data msg then uint32 (nMessageSize (hdr msg) - nDataPos msg)
                else uint32 (24 - nHdrPos msg)) →
  (n ≤ length pch)%nat →
  ReceiveMsgBytes_turn q pch
  = match ReceiveMsgBytes_turn q (take n pch) with
    | ReturnFalse q' => ReturnFalse q'
    | GoOn q' rest => GoOn q' (rest ++ drop n pch)
    end.
Proof.
  intros Hcur Hn Hle. unfold ReceiveMsgBytes_turn. rewrite Hcur.
  assert (Hread : (if negb (in_data msg) then readHeader msg pch else readData msg pch)
                  = (if negb (in_data msg) then readHeader msg (take n pch)
                     else readData msg (take n pch))
                  ∧ (Z.to_nat (if negb (in_data msg) then readHeader msg pch
                               else readData msg pch).1 ≤ n)%nat).
  { destruct (in_data msg); simpl.
    - by apply readData_prefix.
    - by apply readHeader_prefix. }
  destruct Hread as [Hread Hhandled]. rewrite Hread in Hhandled. rewrite Hread.
  destruct (if negb (in_data msg) then readHeader msg (take n pch)
            else readData msg (take n pch)) as [handled msg'].
  simpl in Hhandled.
  destruct (handled <? 0); [done|].
  destruct (in_data msg' && _); [done|].
  f_equal. rewrite <- (take_drop n pch) at 1.
  apply drop_app_le. rewrite length_take. lia.
Qed.

Section one_frame.

(** The frames already in the queue, the 24 bytes of the header, what it
    decodes to, and the payload. *)
Variable q0 : list CNetMessage.
Variable hb : list byte.
Variable h : CMessageHeader.
Variable payload : list byte.

Hypothesis look_ahead_fits : MAX_PROTOCOL_MESSAGE_LENGTH + 256 * 1024 < 2 ^ 31.
Hypothesis q0_fresh : pushes_new q0 = true.
Hypothesis hb_length : length hb = 24%nat.
Hypothesis hb_decodes : Unserialize_header hb = Some h.
Hypothesis declared_length : nMessageSize h = Z.of_nat (length payload).
Hypothesis length_allowed : nMessageSize h <= MAX_PROTOCOL_MESSAGE_LENGTH.
Hypothesis length_serializable : nMessageSize h <= MAX_SERIALIZED_COMPACT_SIZE.

Lemma header_state_0 : header_state hb 0 = CNetMessage_new.
Proof. done. Qed.

Lemma current_message_header (k : nat) (q : list CNetMessage) :
  (k < 24)%nat → progress q0 hb h payload k q → current_message q = (q0, header_state hb k).
Proof.
  intros Hk. unfold progress.
  destruct (decide (k = 0%nat)) as [->|Hk0].
  - intros ->. rewrite header_state_0.
    unfold current_message, pushes_new in *.
    destruct (last q0) as [back|]; [by rewrite q0_fresh|done].
  - destruct (decide (k < 24)%nat); [|lia]. intros ->.
    unfold current_message. rewrite last_snoc. simpl.
    by rewrite removelast_last.
Qed.

Lemma progress_header (k : nat) :
  (0 < k < 24)%nat → progress q0 hb h payload k (q0 ++ [header_state hb k]).
Proof.
  intros Hk. unfold progress.
  destruct (decide (k = 0%nat)); [lia|].
  destruct (decide (k < 24)%nat); [done|lia].
Qed.

Lemma progress_data (k : nat) (m : CNetMessage) :
  (24 ≤ k)%nat → data_state hb h payload (k - 24) m → progress q0 hb h payload k (q0 ++ [m]).
Proof.
  intros Hk Hm. unfold progress.
  destruct (decide (k = 0%nat)); [lia|].
  destruct (decide (k < 24)%nat); [lia|]. by exists m.
Qed.

(** A turn of the loop while the header is being read. *)
Lemma turn_in_header (k : nat) (q : list CNetMessage) (c r : list byte) :
  (k < 24)%nat → progress q0 hb h payload k q →
  c ≠ [] → Z.of_nat (length c) < 2 ^ 31 →
  drop k hb ++ payload = c ++ r →
  ∃ j q', ReceiveMsgBytes_turn q c = GoOn q' (drop j c)
    ∧ (0 < j ≤ length c)%nat ∧ progress q0 hb h payload (k + j) q'.
Proof.
  intros Hk Hq Hc Hlen Hpre.
  assert (0 < length c)%nat as Hc0 by (destruct c; [done|simpl; lia]).
  unfold ReceiveMsgBytes_turn. rewrite (current_message_header k q Hk Hq).
  simpl negb. cbv iota.
  destruct (decide (k + length c < 24)%nat) as [Hpart|Hfull].
  - (* the chunk ends inside the header *)
    rewrite readHeader_partial by (simpl; lia).
    cbn [in_data hdr header_state hdrbuf nHdrPos vRecv nDataPos]. simpl andb. cbv iota.
    destruct (Z.ltb_spec (Z.of_nat (length c)) 0); [lia|].
    rewrite Nat2Z.id.
    exists (length c). eexists. split; [reflexivity|]. split; [lia|].
    rewrite memcpy_nat.
    assert (Hch : c = take (length c) (drop k hb)).
    { apply (app_prefix_take _ payload _ r Hpre). rewrite length_drop. lia. }
    assert (Hkl : length (take k hb) = k) by (rewrite length_take; lia).
    rewrite take_app_length' by done.
    rewrite (take_ge c) by done.
    rewrite drop_app_add' by done.
    rewrite drop_replicate.
    replace (24 - k - length c)%nat with (24 - (k + length c))%nat by lia.
    rewrite <- Nat2Z.inj_add.
    replace (take k hb ++ c ++ replicate (24 - (k + length c)) x00)
      with (hdrbuf (header_state hb (k + length c))).
    { apply progress_header. lia. }
    simpl. rewrite <- take_take_drop, <- Hch. by rewrite <- app_assoc.
  - (* the chunk completes the header *)
    assert (Hcopy : memcpy (hdrbuf (header_state hb k)) (nHdrPos (header_state hb k)) c
                      (24 - nHdrPos (header_state hb k)) = hb).
    { simpl. replace (24 - Z.of_nat k) with (Z.of_nat (24 - k)) by lia.
      rewrite memcpy_nat.
      rewrite take_app_length' by (rewrite length_take; lia).
      rewrite drop_ge by (rewrite length_app, length_take, length_replicate; lia).
      rewrite app_nil_r.
      assert (Hd : drop k hb = take (length (drop k hb)) c).
      { symmetry in Hpre. apply (app_prefix_take _ r _ payload Hpre).
        rewrite length_drop. lia. }
      rewrite length_drop, hb_length in Hd. rewrite <- Hd.
      apply take_drop. }
    rewrite (readHeader_full (header_state hb k) c h);
      [|simpl; lia|simpl; lia|by rewrite Hcopy].
    rewrite Hcopy.
    destruct (Z.gtb_spec (nMessageSize h) MAX_SERIALIZED_COMPACT_SIZE); [lia|].
    cbn [in_data hdr header_state hdrbuf nHdrPos vRecv nDataPos]. simpl andb.
    destruct (Z.ltb_spec (24 - Z.of_nat k) 0); [lia|].
    destruct (Z.gtb_spec (nMessageSize h) MAX_PROTOCOL_MESSAGE_LENGTH); [lia|].
    exists (24 - k)%nat. eexists. split.
    { replace (Z.to_nat (24 - Z.of_nat k)) with (24 - k)%nat by lia. reflexivity. }
    split; [lia|].
    apply progress_data; [lia|].
    replace (k + (24 - k) - 24)%nat with 0%nat by lia.
    unfold data_state. simpl. repeat split; (done || lia).
Qed.

Lemma memcpy_payload (v1 c r : list byte) (j : nat) :
  (j + length c ≤ length v1)%nat →
  take j v1 = take j payload →
  drop j payload = c ++ r →
  take (j + length c) (take j v1 ++ take (length c) c ++ drop (j + length c) v1)
  = take (j + length c) payload
  ∧ length (take j v1 ++ take (length c) c ++ drop (j + length c) v1) = length v1.
Proof.
  intros Hv Hj Hpre.
  assert (Hjl : length (take j v1) = j) by (rewrite length_take; lia).
  rewrite (take_ge c) by done. split.
  - rewrite app_assoc, take_app_length' by (rewrite length_app; lia).
    rewrite Hj, <- take_take_drop, Hpre. by rewrite take_app_length.
  - rewrite !length_app, length_drop. lia.
Qed.

(** A turn of the loop while the payload is being read. *)
Lemma turn_in_data (k : nat) (q : list CNetMessage) (c r : list byte) :
  (24 ≤ k)%nat → progress q0 hb h payload k q →
  c ≠ [] →
  drop (k - 24) payload = c ++ r →
  ∃ q', ReceiveMsgBytes_turn q c = GoOn q' (drop (length c) c)
    ∧ progress q0 hb h payload (k + length c) q'.
Proof.
  intros Hk Hq Hc Hpre.
  assert (0 < length c)%nat as Hc0 by (destruct c; [done|simpl; lia]).
  assert (k - 24 + length c ≤ length payload)%nat as Hfit.
  { apply (f_equal length) in Hpre. rewrite length_drop, length_app in Hpre. lia. }
  unfold progress in Hq.
  destruct (decide (k = 0%nat)); [lia|]. destruct (decide (k < 24)%nat); [lia|].
  destruct Hq as (m & -> & Hin & Hbuf & Hhdr & Hpos & Hdp & Htake & Hvl).
  set (j := (k - 24)%nat) in *.
  assert (Hcur : current_message (q0 ++ [m]) = (q0, m)).
  { unfold current_message. rewrite last_snoc. unfold complete.
    rewrite Hin, Hhdr, Hdp, declared_length. simpl.
    destruct (Z.eqb_spec (Z.of_nat (length payload)) (Z.of_nat j)); [lia|].
    by rewrite removelast_last. }
  unfold ReceiveMsgBytes_turn. rewrite Hcur, Hin. simpl negb. cbv iota.
  rewrite readData_eq by (rewrite ?Hhdr, ?Hdp, ?declared_length; lia).
  cbv zeta. rewrite Hhdr, Hdp, Hin, declared_length.
  rewrite Z.min_r by lia.
  cbn [in_data hdr]. rewrite declared_length. simpl andb.
  destruct (Z.ltb_spec (Z.of_nat (length c)) 0); [lia|].
  destruct (Z.gtb_spec (Z.of_nat (length payload)) MAX_PROTOCOL_MESSAGE_LENGTH); [lia|].
  rewrite Nat2Z.id. eexists. split; [reflexivity|].
  apply progress_data; [lia|].
  replace (k + length c - 24)%nat with (j + length c)%nat by lia.
  rewrite memcpy_nat.
  match goal with
  | |- data_state hb h payload _ {| vRecv := take j ?v ++ _ ++ _ |} => set (v1 := v)
  end.
  assert (Hv1 : (j + length c ≤ length v1 ≤ length payload)%nat
                ∧ take j v1 = take j (vRecv m)).
  { unfold v1.
    destruct (Z.ltb_spec (Z.of_nat (length (vRecv m)))
                (Z.of_nat j + Z.of_nat (length c))).
    - rewrite uint32_small by lia.
      rewrite length_resize, take_resize.
      split; [lia|]. rewrite resize_le by lia. f_equal. lia.
    - split; [lia|done]. }
  destruct Hv1 as [Hv1l Hv1t].
  destruct (memcpy_payload v1 c r j) as [Ht Hl]; [lia|congruence|done|].
  unfold data_state. simpl.
  split; [done|]. split; [done|]. split; [done|]. split; [done|].
  split; [lia|]. split; [done|]. lia.
Qed.

(** A call that stays within the frame takes all its bytes. *)
Lemma loop_progress (fuel : nat) : ∀ (k : nat) (q : list CNetMessage) (c r : list byte),
  progress q0 hb h payload k q →
  (length c < fuel)%nat →
  drop k (hb ++ payload) = c ++ r →
  ∃ q', ReceiveMsgBytes_loop fuel q c = Some (true, q')
    ∧ progress q0 hb h payload (k + length c) q'.
Proof.
  induction fuel as [|fuel IH]; intros k q c r Hq Hfuel Hpre; [lia|].
  simpl. destruct (Z.ltb_spec 0 (Z.of_nat (length c))) as [Hpos|Hzero].
  - assert (c ≠ []) as Hc by (intros ->; simpl in Hpos; lia).
    assert (Z.of_nat (length c) < 2 ^ 31) as Hlen.
    { apply (f_equal length) in Hpre.
      rewrite length_drop, !length_app, hb_length in Hpre. lia. }
    destruct (decide (k < 24)%nat) as [Hk|Hk].
    + rewrite drop_app_le in Hpre by lia.
      destruct (turn_in_header k q c r Hk Hq Hc Hlen Hpre) as (j & q' & -> & Hj & Hq').
      destruct (IH (k + j)%nat q' (drop j c) r Hq') as (q'' & Hrun & Hq'').
      { rewrite length_drop. lia. }
      { apply drop_prefix; [|lia]. rewrite drop_app_le by lia. done. }
      exists q''. split; [done|].
      rewrite length_drop in Hq''.
      by replace (k + j + (length c - j))%nat with (k + length c)%nat in Hq'' by lia.
    + rewrite drop_app_ge, hb_length in Hpre by lia.
      destruct (turn_in_data k q c r ltac:(lia) Hq Hc Hpre) as (q' & -> & Hq').
      rewrite drop_all.
      destruct fuel as [|fuel]; [lia|]. simpl. by exists q'.
  - assert (c = []) as -> by (destruct c; [done|simpl in Hzero; lia]).
    exists q. split; [done|]. by rewrite Nat.add_0_r.
Qed.

(** Successive calls on the chunks of what is left of the frame. *)
Lemma feed_progress (chunks : list (list byte)) : ∀ (k : nat) (q : list CNetMessage),
  progress q0 hb h payload k q →
  (k ≤ 24 + length payload)%nat →
  concat chunks = drop k (hb ++ payload) →
  ∃ q', feed q chunks = Some (true, q') ∧ progress q0 hb h payload (24 + length payload) q'.
Proof.
  induction chunks as [|c chunks IH]; intros k q Hq Hk Hcat.
  - simpl in *. symmetry in Hcat. apply drop_nil_inv in Hcat.
    rewrite length_app, hb_length in Hcat.
    replace k with (24 + length payload)%nat in Hq by lia. by exists q.
  - simpl in Hcat. symmetry in Hcat.
    destruct (loop_progress (S (length c)) k q c (concat chunks) Hq ltac:(lia) Hcat)
      as (q1 & Hrun & Hq1).
    simpl feed. unfold ReceiveMsgBytes. rewrite Hrun.
    apply (IH (k + length c)%nat q1 Hq1).
    + apply (f_equal length) in Hcat.
      rewrite length_drop, !length_app, hb_length in Hcat. lia.
    + rewrite (drop_prefix _ c (concat chunks) k (length c) Hcat) by done.
      by rewrite drop_all.
Qed.

Lemma progress_end (q : list CNetMessage) :
  progress q0 hb h payload (24 + length payload) q → q = q0 ++ [whole_frame hb h payload].
Proof.
  unfold progress. destruct (decide _); [lia|]. destruct (decide _); [lia|].
  replace (24 + length payload - 24)%nat with (length payload) by lia.
  intros (m & -> & Hin & Hbuf & Hhdr & Hpos & Hdp & Htake & Hvl).
  f_equal. f_equal. unfold whole_frame. destruct m as [i b hd p v d]. simpl in *.
  rewrite (take_ge v), (take_ge payload) in Htake by lia. by subst.
Qed.

(** The frame of a header of 24 bytes that declares the length of the
    payload, a length within both bounds: the calls of [ReceiveMsgBytes] on
    the chunks of any split of header and payload all return true and leave
    the queue with exactly one frame more, the whole frame. *)
Lemma one_frame_fed (chunks : list (list byte)) :
  concat chunks = hb ++ payload →
  feed q0 chunks = Some (true, q0 ++ [whole_frame hb h payload])
  ∧ complete (whole_frame hb h payload) = true.
Proof.
  intros Hcat.
  assert (H0 : progress q0 hb h payload 0 q0) by done.
  destruct (feed_progress chunks 0%nat q0 H0 ltac:(lia) Hcat) as (q' & Hrun & Hq').
  rewrite Hrun, (progress_end q' Hq'). split; [done|].
  unfold complete, whole_frame. simpl. rewrite declared_length. apply Z.eqb_refl.
Qed.

(** A turn of the loop inside the frame, on a call whose bytes may go on
    beyond the frame: [tail] is what follows the frame in the stream. *)
Lemma turn_on_stream (k : nat) (q : list CNetMessage) (c r tail : list byte) :
  progress q0 hb h payload k q →
  (k < 24 + length payload)%nat →
  c ≠ [] → Z.of_nat (length c) < 2 ^ 31 →
  drop k (hb ++ payload) ++ tail = c ++ r →
  ∃ j q', ReceiveMsgBytes_turn q c = GoOn q' (drop j c)
    ∧ (0 < j ≤ length c)%nat ∧ (k + j ≤ 24 + length payload)%nat
    ∧ progress q0 hb h payload (k + j) q'.
Proof.
  intros Hq Hk Hc Hlen Hstream.
  assert (Hrest : length (drop k (hb ++ payload)) = (24 + length payload - k)%nat).
  { rewrite length_drop, length_app, hb_length. done. }
  destruct (decide (length c ≤ 24 + length payload - k)%nat) as [Hin|Hout].
  - (* the call ends inside the frame *)
    assert (Hpre : drop k (hb ++ payload) = c ++ drop (length c) (drop k (hb ++ payload))).
    { rewrite <- (take_drop (length c) (drop k (hb ++ payload))) at 1. f_equal.
      symmetry. apply (app_prefix_take _ tail c r Hstream). lia. }
    destruct (decide (k < 24)%nat) as [Hhdr|Hdat].
    + rewrite drop_app_le in Hpre by lia.
      destruct (turn_in_header k q c _ Hhdr Hq Hc Hlen Hpre) as (j & q' & Hrun & Hj & Hq').
      exists j, q'. split; [done|]. split; [done|]. split; [lia|done].
    + rewrite drop_app_ge, hb_length in Hpre by lia.
      destruct (turn_in_data k q c _ ltac:(lia) Hq Hc Hpre) as (q' & Hrun & Hq').
      exists (length c), q'. split; [done|]. split; [|split; [lia|done]].
      destruct c; [done|simpl; lia].
  - (* the call goes on beyond the frame *)
    destruct (decide (k < 24)%nat) as [Hhdr|Hdat].
    + set (n := (24 - k)%nat).
      assert (Htake : take n c = drop k hb).
      { rewrite <- (take_app_le c r) by lia. rewrite <- Hstream.
        rewrite drop_app_le by lia. rewrite <- !app_assoc.
        rewrite take_app_length'; [done|]. rewrite length_drop. lia. }
      pose proof (current_message_header k q Hhdr Hq) as Hcur.
      rewrite (turn_prefix q q0 (header_state hb k) c n Hcur); [| |lia].
      2:{ simpl. rewrite uint32_small by lia. lia. }
      destruct (turn_in_header k q (take n c) payload Hhdr Hq) as (j & q' & Hrun & Hj & Hq').
      { intros E. apply (f_equal length) in E. rewrite length_take in E. simpl in E. lia. }
      { rewrite length_take. lia. }
      { by rewrite Htake. }
      rewrite length_take in Hj.
      exists j, q'. rewrite Hrun. split; [|split; [lia|split; [lia|done]]].
      f_equal. rewrite <- (take_drop n c) at 3. symmetry.
      apply drop_app_le. rewrite length_take. lia.
    + set (n := (24 + length payload - k)%nat).
      assert (Htake : take n c = drop (k - 24) payload).
      { rewrite <- (take_app_le c r) by lia. rewrite <- Hstream.
        rewrite drop_app_ge, hb_length by lia.
        rewrite take_app_length'; [done|]. rewrite length_drop. lia. }
      assert (Hcur : ∃ m, current_message q = (q0, m) ∧ in_data m = true
                          ∧ hdr m = h ∧ nDataPos m = Z.of_nat (k - 24)).
      { unfold progress in Hq.
        destruct (decide (k = 0%nat)); [lia|]. destruct (decide (k < 24)%nat); [lia|].
        destruct Hq as (m & -> & Hin' & Hbuf & Hhdr' & Hpos & Hdp & _).
        exists m. split; [|done].
        unfold current_message. rewrite last_snoc. unfold complete.
        rewrite Hin', Hhdr', Hdp, declared_length. simpl.
        destruct (Z.eqb_spec (Z.of_nat (length payload)) (Z.of_nat (k - 24))); [lia|].
        by rewrite removelast_last. }
      destruct Hcur as (m & Hcur & Hin' & Hhdr' & Hdp).
      rewrite (turn_prefix q q0 m c n Hcur); [| |lia].
      2:{ rewrite Hin', Hhdr', Hdp, declared_length. rewrite uint32_small by lia. lia. }
      destruct (turn_in_data k q (take n c) [] ltac:(lia) Hq) as (q' & Hrun & Hq').
      { intros E. apply (f_equal length) in E. rewrite length_take in E. simpl in E. lia. }
      { by rewrite Htake, app_nil_r. }
      rewrite length_take in Hq', Hrun.
      replace (n `min` length c)%nat with n in Hq', Hrun by lia.
      exists n, q'. rewrite Hrun. split; [|split; [lia|split; [lia|done]]].
      f_equal. rewrite drop_ge by (rewrite length_take; lia). done.
Qed.

End one_frame.

(** C3: a message queued by [EndMessage], its header declaring the length
    [L] of its payload, where [L] is within both bounds: the calls of
    [ReceiveMsgBytes] on the chunks of any split of its bytes all return
    true and leave the queue with exactly one frame more, a complete frame
    whose header declares [L] and whose buffer is the payload, [L] bytes
    long.  The single call on all the bytes gives the same queue, so the
    result does not depend on the split. *)
Theorem one_frame_any_chunking (q0 : list CNetMessage) (header0 payload : list byte)
    (chunks : list (list byte)) :
  MAX_PROTOCOL_MESSAGE_LENGTH + 256 * 1024 < 2 ^ 31 →
  (∀ d, length (Hash d) = 32%nat) →
  pushes_new q0 = true →
  length header0 = 24%nat →
  Z.of_nat (length payload) <= MAX_PROTOCOL_MESSAGE_LENGTH →
  Z.of_nat (length payload) <= MAX_SERIALIZED_COMPACT_SIZE →
  concat chunks = EndMessage (header0 ++ payload) →
  ∃ hb h,
    EndMessage (header0 ++ payload) = hb ++ payload
    ∧ length hb = 24%nat
    ∧ Unserialize_header hb = Some h
    ∧ nMessageSize h = Z.of_nat (length payload)
    ∧ feed q0 chunks = Some (true, q0 ++ [whole_frame hb h payload])
    ∧ feed q0 chunks = ReceiveMsgBytes q0 (EndMessage (header0 ++ payload))
    ∧ complete (whole_frame hb h payload) = true
    ∧ vRecv (whole_frame hb h payload) = payload
    ∧ Z.of_nat (length (vRecv (whole_frame hb h payload))) = nMessageSize h.
Proof.
  intros Hfits Hhash Hq0 Hl HP HS Hcat.
  assert (4 ≤ length (Hash payload))%nat as Hh4 by (rewrite Hhash; lia).
  assert (Z.of_nat (length payload) < 2 ^ 32) as Hp32 by lia.
  rewrite (EndMessage_eq header0 payload Hl Hh4 Hp32) in *.
  destruct (EndMessage_header header0 payload Hl Hh4 Hp32) as (h & Hdec & Hsize & Hlen).
  set (hb := take 16 header0 ++ WriteLE32 (Z.of_nat (length payload))
               ++ take 4 (Hash payload)) in *.
  exists hb, h.
  assert (Hfed : ∀ cs, concat cs = hb ++ payload →
            feed q0 cs = Some (true, q0 ++ [whole_frame hb h payload])
            ∧ complete (whole_frame hb h payload) = true).
  { intros cs Hcs. apply one_frame_fed; (done || lia). }
  destruct (Hfed chunks Hcat) as [Hrun Hcomplete].
  split; [done|]. split; [done|]. split; [done|]. split; [done|].
  split; [done|]. split; [|by rewrite Hsize].
  rewrite Hrun.
  destruct (Hfed [hb ++ payload]) as [Hone _]; [simpl; by rewrite app_nil_r|].
  simpl in Hone.
  by destruct (ReceiveMsgBytes q0 (hb ++ payload)) as [[[] ?]|].
Qed.


(** *** A stream of frames *)

(** A frame on the wire: the 24 bytes of its header, what they decode to,
    and its payload. *)
Record Frame := mkFrame {
  f_hb : list byte;
  f_h : CMessageHeader;
  f_payload : list byte
}.

(** The header declares the length of the payload, a length within both
    bounds. *)
Definition frame_ok (f : Frame) : Prop :=
  length (f_hb f) = 24%nat
  ∧ Unserialize_header (f_hb f) = Some (f_h f)
  ∧ nMessageSize (f_h f) = Z.of_nat (length (f_payload f))
  ∧ nMessageSize (f_h f) <= MAX_PROTOCOL_MESSAGE_LENGTH
  ∧ nMessageSize (f_h f) <= MAX_SERIALIZED_COMPACT_SIZE.

Definition frame_bytes (f : Frame) : list byte := f_hb f ++ f_payload f.

(** The bytes of the frames, one frame after the other. *)
Definition stream (frames : list Frame) : list byte := concat (frame_bytes <$> frames).

(** The frame of the queue once all the bytes of [f] are in. *)
Definition received (f : Frame) : CNetMessage :=
  whole_frame (f_hb f) (f_h f) (f_payload f).

(** The queue after [k] bytes of the stream of [frames], [q0] being the
    queue before the first of them. *)
Fixpoint stream_state (q0 : list CNetMessage) (frames : list Frame) (k : nat)
    (q : list CNetMessage) : Prop :=
  match frames with
  | [] => q = q0
  | f :: frames =>
      if decide (k < length (frame_bytes f))%nat
      then progress q0 (f_hb f) (f_h f) (f_payload f) k q
      else stream_state (q0 ++ [received f]) frames (k - length (frame_bytes f)) q
  end.

Lemma frame_bytes_length (f : Frame) :
  frame_ok f → length (frame_bytes f) = (24 + length (f_payload f))%nat.
Proof. intros (Hl & _). unfold frame_bytes. by rewrite length_app, Hl. Qed.

Lemma received_complete (f : Frame) : frame_ok f → complete (received f) = true.
Proof.
  intros (_ & _ & Hd & _). unfold complete, received, whole_frame. simpl.
  rewrite Hd. apply Z.eqb_refl.
Qed.

Lemma pushes_new_snoc (q : list CNetMessage) (m : CNetMessage) :
  complete m = true → pushes_new (q ++ [m]) = true.
Proof. intros Hm. unfold pushes_new. by rewrite last_snoc. Qed.

Lemma stream_state_start (frames : list Frame) (q0 : list CNetMessage) :
  Forall frame_ok frames → stream_state q0 frames 0 q0.
Proof.
  intros Hok. destruct frames as [|f frames]; [done|]. simpl.
  apply Forall_cons in Hok as [Hf _].
  rewrite (frame_bytes_length f Hf).
  destruct (decide (0 < 24 + length (f_payload f))%nat); [done|lia].
Qed.

Lemma stream_state_end (frames : list Frame) : ∀ (q0 q : list CNetMessage),
  Forall frame_ok frames →
  stream_state q0 frames (length (stream frames)) q →
  q = q0 ++ (received <$> frames).
Proof.
  induction frames as [|f frames IH]; intros q0 q Hok Hq.
  - simpl in *. by rewrite app_nil_r.
  - apply Forall_cons in Hok as [Hf Hok]. simpl in Hq.
    unfold stream in Hq. rewrite fmap_cons in Hq. simpl concat in Hq.
    rewrite length_app in Hq.
    destruct (decide _) as [Hlt|_] in Hq; [lia|].
    replace (length (frame_bytes f) + length (concat (frame_bytes <$> frames))
             - length (frame_bytes f))%nat
      with (length (stream frames)) in Hq by (unfold stream; lia).
    rewrite (IH _ _ Hok Hq). rewrite fmap_cons. by rewrite <- app_assoc.
Qed.

Section frames.

Hypothesis look_ahead_fits : MAX_PROTOCOL_MESSAGE_LENGTH + 256 * 1024 < 2 ^ 31.

(** A turn of the loop on bytes of the stream. *)
Lemma turn_on_frames (frames : list Frame) :
  ∀ (q0 : list CNetMessage) (k : nat) (q : list CNetMessage) (c r : list byte),
    Forall frame_ok frames → pushes_new q0 = true →
    stream_state q0 frames k q →
    c ≠ [] → Z.of_nat (length c) < 2 ^ 31 →
    drop k (stream frames) = c ++ r →
    ∃ j q', ReceiveMsgBytes_turn q c = GoOn q' (drop j c)
      ∧ (0 < j ≤ length c)%nat ∧ stream_state q0 frames (k + j) q'.
Proof.
  induction frames as [|f frames IH]; intros q0 k q c r Hok Hq0 Hq Hc Hlen Hstream.
  - exfalso. unfold stream in Hstream. simpl in Hstream. rewrite drop_nil in Hstream.
    symmetry in Hstream. by apply app_eq_nil in Hstream as [? _].
  - apply Forall_cons in Hok as [Hf Hok].
    pose proof (frame_bytes_length f Hf) as Hfl.
    pose proof Hf as (Hl & Hdec & Hdecl & Hall & Hser).
    unfold stream in Hstream. rewrite fmap_cons in Hstream. simpl concat in Hstream.
    fold (stream frames) in Hstream.
    simpl in Hq. simpl stream_state.
    destruct (decide (k < length (frame_bytes f))%nat) as [Hin|Hout].
    + rewrite drop_app_le in Hstream by lia.
      destruct (turn_on_stream q0 (f_hb f) (f_h f) (f_payload f) look_ahead_fits Hq0 Hl Hdec
                  Hdecl Hall Hser k q c r (stream frames) Hq ltac:(lia) Hc Hlen Hstream)
        as (j & q' & Hrun & Hj & Hkj & Hq').
      exists j, q'. split; [done|]. split; [done|].
      destruct (decide (k + j < length (frame_bytes f))%nat) as [|Hend]; [done|].
      replace (k + j)%nat with (24 + length (f_payload f))%nat in Hq' by lia.
      apply (progress_end q0 (f_hb f) (f_h f) (f_payload f)) in Hq'; [|done..].
      subst q'.
      replace (k + j - length (frame_bytes f))%nat with 0%nat by lia.
      by apply stream_state_start.
    + rewrite drop_app_ge in Hstream by lia.
      destruct (IH (q0 ++ [received f]) (k - length (frame_bytes f))%nat q c r Hok)
        as (j & q' & Hrun & Hj & Hq'); try done.
      { apply pushes_new_snoc. by apply received_complete. }
      exists j, q'. split; [done|]. split; [done|].
      destruct (decide (k + j < length (frame_bytes f))%nat); [lia|].
      by replace (k + j - length (frame_bytes f))%nat
        with (k - length (frame_bytes f) + j)%nat by lia.
Qed.

(** A call on bytes of the stream takes them all. *)
Lemma loop_on_frames (frames : list Frame) (q0 : list CNetMessage) (fuel : nat) :
  Forall frame_ok frames → pushes_new q0 = true →
  ∀ (k : nat) (q : list CNetMessage) (c r : list byte),
    stream_state q0 frames k q →
    (length c < fuel)%nat → Z.of_nat (length c) < 2 ^ 31 →
    drop k (stream frames) = c ++ r →
    ∃ q', ReceiveMsgBytes_loop fuel q c = Some (true, q')
      ∧ stream_state q0 frames (k + length c) q'.
Proof.
  intros Hok Hq0.
  induction fuel as [|fuel IH]; intros k q c r Hq Hfuel Hlen Hstream; [lia|].
  simpl. destruct (Z.ltb_spec 0 (Z.of_nat (length c))) as [Hpos|Hzero].
  - assert (c ≠ []) as Hc by (intros ->; simpl in Hpos; lia).
    destruct (turn_on_frames frames q0 k q c r Hok Hq0 Hq Hc Hlen Hstream)
      as (j & q' & -> & Hj & Hq').
    destruct (IH (k + j)%nat q' (drop j c) r Hq') as (q'' & Hrun & Hq'').
    { rewrite length_drop. lia. }
    { rewrite length_drop. lia. }
    { apply drop_prefix; [done|lia]. }
    exists q''. split; [done|].
    rewrite length_drop in Hq''.
    by replace (k + j + (length c - j))%nat with (k + length c)%nat in Hq'' by lia.
  - assert (c = []) as -> by (destruct c; [done|simpl in Hzero; lia]).
    exists q. split; [done|]. by rewrite Nat.add_0_r.
Qed.

(** Successive calls on the chunks of what is left of the stream. *)
Lemma feed_on_frames (frames : list Frame) (q0 : list CNetMessage)
    (chunks : list (list byte)) :
  Forall frame_ok frames → pushes_new q0 = true →
  Forall (λ c, Z.of_nat (length c) < 2 ^ 31) chunks →
  ∀ (k : nat) (q : list CNetMessage),
    stream_state q0 frames k q →
    (k ≤ length (stream frames))%nat →
    concat chunks = drop k (stream frames) →
    ∃ q', feed q chunks = Some (true, q')
      ∧ stream_state q0 frames (length (stream frames)) q'.
Proof.
  intros Hok Hq0 Hchunks.
  induction Hchunks as [|c chunks Hc _ IH]; intros k q Hq Hk Hcat.
  - simpl in *. symmetry in Hcat. apply drop_nil_inv in Hcat.
    replace (length (stream frames)) with k by lia. by exists q.
  - simpl in Hcat. symmetry in Hcat.
    destruct (loop_on_frames frames q0 (S (length c)) Hok Hq0 k q c (concat chunks) Hq
                ltac:(lia) Hc Hcat) as (q1 & Hrun & Hq1).
    simpl feed. unfold ReceiveMsgBytes. rewrite Hrun.
    apply (IH (k + length c)%nat q1 Hq1).
    + apply (f_equal length) in Hcat. rewrite length_drop, length_app in Hcat. lia.
    + rewrite (drop_prefix _ c (concat chunks) k (length c) Hcat) by done.
      by rewrite drop_all.
Qed.

End frames.

(** The size limits on a message to send: a header of 24 bytes, as
    [BeginMessage] writes it, and a payload within both bounds. *)
Definition sendable (m : list byte * list byte) : Prop :=
  length m.1 = 24%nat
  ∧ Z.of_nat (length m.2) <= MAX_PROTOCOL_MESSAGE_LENGTH
  ∧ Z.of_nat (length m.2) <= MAX_SERIALIZED_COMPACT_SIZE.

(** The frames that messages queued by [EndMessage] are on the wire. *)
Lemma sent_frames (msgs : list (list byte * list byte)) :
  (∀ d, length (Hash d) = 32%nat) →
  MAX_PROTOCOL_MESSAGE_LENGTH < 2 ^ 32 →
  Forall sendable msgs →
  ∃ frames, Forall frame_ok frames
    ∧ stream frames = concat ((λ m, EndMessage (m.1 ++ m.2)) <$> msgs)
    ∧ f_payload <$> frames = snd <$> msgs
    ∧ f_hb <$> frames = (λ m, take 24 (EndMessage (m.1 ++ m.2))) <$> msgs.
Proof.
  intros Hhash Hmax Hmsgs.
  induction Hmsgs as [|[header0 payload] msgs (Hl & HP & HS) _ IH].
  - exists []. by repeat split.
  - destruct IH as (frames & Hok & Hstream & Hpay & Hhb). simpl in Hl, HP, HS.
    assert (4 ≤ length (Hash payload))%nat as Hh4 by (rewrite Hhash; lia).
    assert (Z.of_nat (length payload) < 2 ^ 32) as Hp32 by lia.
    destruct (EndMessage_header header0 payload Hl Hh4 Hp32) as (h & Hdec & Hsize & Hlen).
    pose proof (EndMessage_eq header0 payload Hl Hh4 Hp32) as Heq.
    set (hb := take 16 header0 ++ WriteLE32 (Z.of_nat (length payload))
                 ++ take 4 (Hash payload)) in *.
    exists (mkFrame hb h payload :: frames).
    split; [|split; [|split]].
    + constructor; [|done]. unfold frame_ok. simpl.
      split; [done|]. split; [done|]. split; [done|]. lia.
    + unfold stream in *. rewrite !fmap_cons. simpl concat. rewrite Hstream.
      f_equal. unfold frame_bytes. simpl. by rewrite Heq.
    + rewrite !fmap_cons. simpl. by rewrite Hpay.
    + rewrite !fmap_cons. simpl. rewrite Hhb, Heq. f_equal.
      by rewrite take_app_length'.
Qed.

(** X18: messages arrive in the order they were queued in, whatever the
    cut of the bytes into calls.  For messages queued by [EndMessage], each
    with a header of 24 bytes and a payload within both bounds, and for any
    cut of the bytes of all of them, one after the other, into calls of less
    than [2^31] bytes: the calls of [ReceiveMsgBytes] all return true and
    put behind the frames of the queue one complete frame for each message,
    in the order of the messages, with the header bytes the sender wrote,
    the payload of the message as its buffer and the length of the payload as
    its declared length; the queue is then ready for a new frame. *)
Theorem frames_arrive_in_order (q0 : list CNetMessage)
    (msgs : list (list byte * list byte)) (chunks : list (list byte)) :
  MAX_PROTOCOL_MESSAGE_LENGTH + 256 * 1024 < 2 ^ 31 →
  (∀ d, length (Hash d) = 32%nat) →
  pushes_new q0 = true →
  Forall sendable msgs →
  Forall (λ c, Z.of_nat (length c) < 2 ^ 31) chunks →
  concat chunks = concat ((λ m, EndMessage (m.1 ++ m.2)) <$> msgs) →
  ∃ arrived,
    feed q0 chunks = Some (true, q0 ++ arrived)
    ∧ length arrived = length msgs
    ∧ Forall (λ m, complete m = true) arrived
    ∧ vRecv <$> arrived = snd <$> msgs
    ∧ hdrbuf <$> arrived = (λ m, take 24 (EndMessage (m.1 ++ m.2))) <$> msgs
    ∧ Forall (λ m, nMessageSize (hdr m) = Z.of_nat (length (vRecv m))) arrived
    ∧ pushes_new (q0 ++ arrived) = true.
Proof.
  intros Hfits Hhash Hq0 Hmsgs Hchunks Hcat.
  destruct (sent_frames msgs Hhash ltac:(lia) Hmsgs) as (frames & Hok & Hstream & Hpay & Hhb).
  rewrite <- Hstream in Hcat.
  destruct (feed_on_frames Hfits frames q0 chunks Hok Hq0 Hchunks 0%nat q0)
    as (q' & Hrun & Hq'); [by apply stream_state_start|lia|done|].
  apply stream_state_end in Hq'; [|done]. subst q'.
  assert (Hcomplete : Forall (λ m, complete m = true) (received <$> frames)).
  { apply Forall_fmap. eapply Forall_impl; [exact Hok|].
    intros f Hf. by apply received_complete. }
  exists (received <$> frames).
  split; [done|]. split.
  { rewrite length_fmap. apply (f_equal length) in Hpay.
    by rewrite !length_fmap in Hpay. }
  split; [done|]. split.
  { rewrite <- Hpay, <- list_fmap_compose. done. }
  split.
  { rewrite <- Hhb, <- list_fmap_compose. done. }
  split.
  { apply Forall_fmap. eapply Forall_impl; [exact Hok|].
    intros f (_ & _ & Hd & _). done. }
  unfold pushes_new. destruct frames as [|f frames] using rev_ind.
  - simpl. rewrite app_nil_r. exact Hq0.
  - rewrite fmap_app, app_assoc. simpl. rewrite last_snoc.
    apply received_complete. apply Forall_app in Hok as [_ Hf].
    by apply Forall_inv in Hf.
Qed.

(** X19: what [EndMessage] makes of a message of a header of 24 bytes and
    a payload shorter than [2^32] bytes.  The bytes queued are as many as
    the bytes of the message; the payload and the first 16 bytes of the
    header, the magic and the command, are as they were; the header decodes
    to the magic and the command [BeginMessage] wrote, the length of the
    payload, and for the checksum the first 4 bytes of the digest of the
    payload.  Doing it again on these bytes changes nothing, and nothing is
    made of an empty stream. *)
Theorem EndMessage_writes_size_and_checksum (header0 payload : list byte) :
  length header0 = 24%nat →
  (∀ d, length (Hash d) = 32%nat) →
  Z.of_nat (length payload) < 2 ^ 32 →
  length (EndMessage (header0 ++ payload)) = (24 + length payload)%nat
  ∧ drop 24 (EndMessage (header0 ++ payload)) = payload
  ∧ take 16 (EndMessage (header0 ++ payload)) = take 16 header0
  ∧ (∃ h, Unserialize_header (take 24 (EndMessage (header0 ++ payload))) = Some h
          ∧ pchMessageStart h = take 4 header0
          ∧ pchCommand h = take 12 (drop 4 header0)
          ∧ nMessageSize h = Z.of_nat (length payload)
          ∧ nChecksum h = le_value (take 4 (Hash payload)))
  ∧ EndMessage (EndMessage (header0 ++ payload)) = EndMessage (header0 ++ payload)
  ∧ EndMessage [] = [].
Proof.
  intros Hl Hhash Hp32.
  assert (4 ≤ length (Hash payload))%nat as Hh4 by (rewrite Hhash; lia).
  rewrite (EndMessage_eq header0 payload Hl Hh4 Hp32).
  destruct (EndMessage_header header0 payload Hl Hh4 Hp32) as (h & Hdec & Hsize & Hlen).
  assert (Hle : length (WriteLE32 (Z.of_nat (length payload))) = 4%nat) by done.
  remember (WriteLE32 (Z.of_nat (length payload))) as le eqn:Ele.
  set (ck := take 4 (Hash payload)) in *.
  assert (Hck : length ck = 4%nat) by (unfold ck; rewrite length_take; lia).
  assert (H16 : length (take 16 header0) = 16%nat) by (rewrite length_take; lia).
  split; [by rewrite length_app, Hlen|].
  split; [by rewrite drop_app_length'|].
  split; [by rewrite <- !app_assoc, take_app_length'|].
  split; [|split; [|done]].
  - exists h. rewrite take_app_length' by done. split; [done|].
    unfold Unserialize_header in Hdec. destruct (decide _); [done|].
    injection Hdec as <-. cbn [pchMessageStart pchCommand nMessageSize nChecksum] in *.
    split; [by rewrite take_app_le, take_take by lia|].
    split.
    { rewrite drop_app_le by lia. rewrite take_app_le by (rewrite length_drop; lia).
      rewrite take_ge by (rewrite length_drop; lia).
      rewrite (take_drop_commute header0 12 4). done. }
    split; [done|].
    rewrite app_assoc, drop_app_length' by (rewrite length_app; lia).
    by rewrite take_ge by lia.
  - rewrite (EndMessage_eq _ payload Hlen Hh4 Hp32). f_equal.
    rewrite take_app_length' by done. by rewrite <- Ele.
Qed.

(** *** Every byte of a call is taken *)

(** The bytes the frames of a queue have taken in so far: header bytes and
    payload bytes. *)
Definition bytes_in (q : list CNetMessage) : Z :=
  foldr (λ m acc, nHdrPos m + nDataPos m + acc) 0 q.

Lemma bytes_in_snoc (q : list CNetMessage) (m : CNetMessage) :
  bytes_in (q ++ [m]) = bytes_in q + (nHdrPos m + nDataPos m).
Proof.
  unfold bytes_in. induction q as [|x q IH]; simpl; [lia|]. rewrite IH. lia.
Qed.

(** A turn that goes on has moved the positions of the current frame by
    the number of bytes it has taken. *)
Lemma turn_accounts (q before : list CNetMessage) (msg : CNetMessage) (pch : list byte)
    (q' : list CNetMessage) (rest : list byte) :
  current_message q = (before, msg) →
  wf_msg msg → complete msg = false →
  0 < Z.of_nat (length pch) < 2 ^ 31 →
  ReceiveMsgBytes_turn q pch = GoOn q' rest →
  ∃ k, rest = drop k pch ∧ (k ≤ length pch)%nat
       ∧ bytes_in q' = bytes_in (before ++ [msg]) + Z.of_nat k.
Proof.
  intros Hcur Hwf Hinc Hn. unfold ReceiveMsgBytes_turn. rewrite Hcur.
  unfold wf_msg in Hwf. destruct (in_data msg) eqn:Hin; simpl negb; cbv iota.
  - destruct Hwf as (Hp & Hh & Hd).
    pose proof (Unserialize_header_size _ _ Hh) as Hs.
    rewrite readData_eq by lia. cbv zeta.
    set (nCopy := Z.min (nMessageSize (hdr msg) - nDataPos msg) (Z.of_nat (length pch))).
    assert (0 <= nCopy <= Z.of_nat (length pch)) as HnC by (unfold nCopy; lia).
    cbn [in_data hdr].
    destruct (nCopy <? 0); [done|].
    destruct (in_data msg && _); [done|].
    intros [= <- <-]. exists (Z.to_nat nCopy). split; [done|]. split; [lia|].
    rewrite !bytes_in_snoc. simpl. lia.
  - destruct Hwf as (Hl & Hp & Hd & Hv & Hfull).
    destruct (Z.lt_ge_cases (nHdrPos msg + Z.of_nat (length pch)) 24) as [Hpart|Hcomp].
    + rewrite readHeader_partial by lia.
      cbn [in_data hdr]. rewrite Hin. simpl andb. cbv iota.
      destruct (Z.of_nat (length pch) <? 0); [done|].
      intros [= <- <-]. exists (length pch). rewrite Nat2Z.id.
      split; [done|]. split; [lia|].
      rewrite !bytes_in_snoc. simpl. lia.
    + assert (Hlen : length (memcpy (hdrbuf msg) (nHdrPos msg) pch (24 - nHdrPos msg))
                     = 24%nat).
      { rewrite memcpy_length by lia. done. }
      destruct (Unserialize_header_is_Some _ Hlen) as [h Hh].
      rewrite (readHeader_full msg pch h) by (done || lia).
      destruct (nMessageSize h >? MAX_SERIALIZED_COMPACT_SIZE); [done|].
      cbn [in_data hdr]. simpl andb.
      destruct (24 - nHdrPos msg <? 0); [done|].
      destruct (nMessageSize h >? MAX_PROTOCOL_MESSAGE_LENGTH); [done|].
      intros [= <- <-]. exists (Z.to_nat (24 - nHdrPos msg)).
      split; [done|]. split; [lia|].
      rewrite !bytes_in_snoc. simpl. lia.
Qed.

Lemma ReceiveMsgBytes_loop_accounts (fuel : nat) :
  ∀ (q : list CNetMessage) (pch : list byte) (q' : list CNetMessage),
    queue_inv q →
    (length pch < fuel)%nat →
    Z.of_nat (length pch) < 2 ^ 31 →
    ReceiveMsgBytes_loop fuel q pch = Some (true, q') →
    bytes_in q' = bytes_in q + Z.of_nat (length pch).
Proof.
  induction fuel as [|fuel IH]; intros q pch q' Hinv Hfuel Hlen; [lia|].
  simpl. destruct (Z.ltb_spec 0 (Z.of_nat (length pch))) as [Hpos|Hzero].
  - destruct (current_message q) as [before msg] eqn:Hcur.
    destruct (current_message_inv q before msg Hinv Hcur) as (Hb & Hwf & Hinc & Hq).
    assert (Hsame : bytes_in (before ++ [msg]) = bytes_in q).
    { destruct Hq as [(_ & -> & ->)|(_ & ->)]; [|done].
      rewrite bytes_in_snoc. simpl. lia. }
    destruct (turn_cases q before msg pch Hcur Hwf Hinc ltac:(lia))
      as (msg' & Hwf' & [(Hrun & _)|(k1 & Hrun & Hk1 & _)]).
    + rewrite Hrun. done.
    + destruct (turn_accounts q before msg pch _ _ Hcur Hwf Hinc ltac:(lia) Hrun)
        as (k & Hrest & Hk & Hbytes).
      assert (0 < k)%nat as Hkpos.
      { destruct k; [|lia]. exfalso.
        apply (f_equal length) in Hrest. rewrite !length_drop in Hrest. lia. }
      rewrite Hrun, Hrest. intros Hloop.
      apply IH in Hloop.
      * rewrite Hloop, Hbytes, Hsame, length_drop. lia.
      * by apply queue_inv_snoc.
      * rewrite length_drop. lia.
      * rewrite length_drop. lia.
  - intros [= <-]. lia.
Qed.

(** X20: a call that returns true has taken every byte it was given, once:
    on a queue of the framer, for a call of less than [2^31] bytes, the call
    returns, and when it returns true the header and payload positions of the
    frames of the queue add up to what they added up to before the call plus
    the number of bytes of the call.  A call with no byte returns true and
    leaves the queue as it is, without a new frame. *)
Theorem every_byte_is_taken (q : list CNetMessage) (pch : list byte) :
  queue_inv q →
  Z.of_nat (length pch) < 2 ^ 31 →
  ∃ b q', ReceiveMsgBytes q pch = Some (b, q')
    ∧ (b = true → bytes_in q' = bytes_in q + Z.of_nat (length pch))
    ∧ (pch = [] → b = true ∧ q' = q).
Proof.
  intros Hinv Hlen.
  destruct (ReceiveMsgBytes_loop_inv (S (length pch)) q pch Hinv)
    as (b & q' & Hrun & _); [lia|done|].
  exists b, q'. split; [done|]. split.
  - intros ->. by apply (ReceiveMsgBytes_loop_accounts (S (length pch))); [|lia| |].
  - intros ->. unfold ReceiveMsgBytes in Hrun. simpl in Hrun.
    by injection Hrun as <- <-.
Qed.

End framer.
End Framer.

Definition framer_example_header : list byte :=
  [x63; x61; x73; x68;
   x70; x69; x6e; x67; x00; x00; x00; x00; x00; x00; x00; x00;
   x03; x00; x00; x00;
   x0a; x0b; x0c; x0d].

Definition framer_example_hdr_init : Framer.CMessageHeader :=
  Framer.mkCMessageHeader [x63; x61; x73; x68] (replicate 12 x00) (2 ^ 32 - 1) 0.

Example framer_example_one_call :
  Framer.ReceiveMsgBytes 2097152 33554432 framer_example_hdr_init []
    (framer_example_header ++ [x01; x02; x03])
  = Some (true,
          [Framer.mkCNetMessage true framer_example_header
             (Framer.mkCMessageHeader [x63; x61; x73; x68]
                ([x70; x69; x6e; x67] ++ replicate 8 x00) 3 0x0d0c0b0a)
             24 [x01; x02; x03] 3]).
Proof. vm_compute. reflexivity. Qed.

Example framer_example_chunked :
  Framer.feed 2097152 33554432 framer_example_hdr_init []
    [take 5 framer_example_header; drop 5 framer_example_header ++ [x01]; [x02; x03]]
  = Framer.ReceiveMsgBytes 2097152 33554432 framer_example_hdr_init []
      (framer_example_header ++ [x01; x02; x03]).
Proof. vm_compute. reflexivity. Qed.

(** A header that declares 0x00300000 bytes, more than the 2 MiB taken for
    [MAX_PROTOCOL_MESSAGE_LENGTH] in these examples. *)
Definition framer_example_big_header : list byte :=
  [x63; x61; x73; x68;
   x62; x6c; x6f; x63; x6b; x00; x00; x00; x00; x00; x00; x00;
   x00; x00; x30; x00;
   x0a; x0b; x0c; x0d].

Example framer_example_too_long :
  Framer.ReceiveMsgBytes 2097152 33554432 framer_example_hdr_init []
    (framer_example_big_header ++ [x01; x02; x03])
  = Some (false,
          [Framer.mkCNetMessage true framer_example_big_header
             (Framer.mkCMessageHeader [x63; x61; x73; x68]
                ([x62; x6c; x6f; x63; x6b] ++ replicate 7 x00) 0x300000 0x0d0c0b0a)
             24 [] 0]).
Proof. vm_compute. reflexivity. Qed.

Lemma frame_queue_invariant_witness :
  (∃ b q',
     Framer.ReceiveMsgBytes 2097152 33554432 framer_example_hdr_init []
       (framer_example_header ++ [x01; x02]) = Some (b, q')
     ∧ Framer.incomplete_only_at_tail q' ∧ Framer.queue_inv 33554432 q')
  ∧ ∀ pch', ∃ m',
      Framer.queue_of
        (Framer.ReceiveMsgBytes_turn 2097152 33554432 framer_example_hdr_init [] pch')
      = (if Framer.pushes_new [] then [] else removelast []) ++ [m'].
Proof.
  apply (Framer.frame_queue_invariant 2097152 33554432 framer_example_hdr_init []
           (framer_example_header ++ [x01; x02])).
  - apply Framer.queue_inv_nil.
  - vm_compute. reflexivity.
Defined.

Lemma oversized_header_fails_witness :
  ∃ b q',
    Framer.ReceiveMsgBytes 2097152 33554432 framer_example_hdr_init []
      (framer_example_big_header ++ [x01; x02; x03]) = Some (b, q')
    ∧ (Framer.declares_too_much 2097152 q' → b = false)
    ∧ (b = false →
         ∃ before m, q' = before ++ [m] ∧ Framer.oversized 2097152 33554432 m
           ∧ Framer.nDataPos m = 0 ∧ Framer.vRecv m = [])
    ∧ (∀ hb rest h,
         Framer.pushes_new [] = true →
         framer_example_big_header ++ [x01; x02; x03] = hb ++ rest →
         length hb = 24%nat →
         Framer.Unserialize_header hb = Some h →
         2097152 < Framer.nMessageSize h →
         b = false
         ∧ ∃ m, q' = [] ++ [m] ∧ Framer.hdrbuf m = hb ∧ Framer.hdr m = h
              ∧ Framer.nDataPos m = 0 ∧ Framer.vRecv m = [])
    ∧ (b = true → Framer.queue_live 2097152 33554432 q').
Proof.
  apply (Framer.oversized_header_fails 2097152 33554432 framer_example_hdr_init []
           (framer_example_big_header ++ [x01; x02; x03])).
  - apply Framer.queue_live_nil.
  - vm_compute. reflexivity.
Defined.

(** The payload of three bytes sent after a header written by
    [BeginMessage], with [toy_digest] for the digest, and received in three
    pieces. *)
Definition framer_example_sent : list byte :=
  Framer.EndMessage toy_digest
    ([x63; x61; x73; x68;
      x70; x69; x6e; x67; x00; x00; x00; x00; x00; x00; x00; x00;
      x00; x00; x00; x00;
      x00; x00; x00; x00] ++ [x01; x02; x03]).

Example framer_example_sent_bytes :
  framer_example_sent
  = [x63; x61; x73; x68;
     x70; x69; x6e; x67; x00; x00; x00; x00; x00; x00; x00; x00;
     x03; x00; x00; x00;
     x01; x02; x03; x00] ++ [x01; x02; x03].
Proof. vm_compute. reflexivity. Qed.

Lemma one_frame_any_chunking_witness :
  ∃ hb h,
    Framer.EndMessage toy_digest
      ([x63; x61; x73; x68;
        x70; x69; x6e; x67; x00; x00; x00; x00; x00; x00; x00; x00;
        x00; x00; x00; x00;
        x00; x00; x00; x00] ++ [x01; x02; x03])
    = hb ++ [x01; x02; x03]
    ∧ length hb = 24%nat
    ∧ Framer.Unserialize_header hb = Some h
    ∧ Framer.nMessageSize h = Z.of_nat (length [x01; x02; x03])
    ∧ Framer.feed 2097152 33554432 framer_example_hdr_init []
        [take 5 framer_example_sent; take 21 (drop 5 framer_example_sent);
         drop 26 framer_example_sent]
      = Some (true, [] ++ [Framer.whole_frame hb h [x01; x02; x03]])
    ∧ Framer.feed 2097152 33554432 framer_example_hdr_init []
        [take 5 framer_example_sent; take 21 (drop 5 framer_example_sent);
         drop 26 framer_example_sent]
      = Framer.ReceiveMsgBytes 2097152 33554432 framer_example_hdr_init []
          (Framer.EndMessage toy_digest
             ([x63; x61; x73; x68;
               x70; x69; x6e; x67; x00; x00; x00; x00; x00; x00; x00; x00;
               x00; x00; x00; x00;
               x00; x00; x00; x00] ++ [x01; x02; x03]))
    ∧ Framer.complete (Framer.whole_frame hb h [x01; x02; x03]) = true
    ∧ Framer.vRecv (Framer.whole_frame hb h [x01; x02; x03]) = [x01; x02; x03]
    ∧ Z.of_nat (length (Framer.vRecv (Framer.whole_frame hb h [x01; x02; x03])))
      = Framer.nMessageSize h.
Proof.
  apply (Framer.one_frame_any_chunking 2097152 33554432 framer_example_hdr_init
           toy_digest []
           [x63; x61; x73; x68;
            x70; x69; x6e; x67; x00; x00; x00; x00; x00; x00; x00; x00;
            x00; x00; x00; x00;
            x00; x00; x00; x00]
           [x01; x02; x03]).
  - vm_compute. reflexivity.
  - intros d. apply length_resize.
  - reflexivity.
  - reflexivity.
  - vm_compute. discriminate.
  - vm_compute. discriminate.
  - vm_compute. reflexivity.
Defined.


(** Two messages with the header [BeginMessage] writes, and their bytes
    cut into three calls, the first of which goes on into the second
    frame. *)
Definition framer_example_header0 : list byte :=
  [x63; x61; x73; x68;
   x70; x69; x6e; x67; x00; x00; x00; x00; x00; x00; x00; x00;
   x00; x00; x00; x00;
   x00; x00; x00; x00].

Definition framer_example_msgs : list (list byte * list byte) :=
  [(framer_example_header0, [x01; x02; x03]); (framer_example_header0, [x04])].

Definition framer_example_stream : list byte :=
  concat ((λ m, Framer.EndMessage toy_digest (m.1 ++ m.2)) <$> framer_example_msgs).

Definition framer_example_calls : list (list byte) :=
  [take 30 framer_example_stream; take 2 (drop 30 framer_example_stream);
   drop 32 framer_example_stream].

Example framer_example_two_frames :
  (λ r : bool * list Framer.CNetMessage, (r.1, Framer.vRecv <$> r.2)) <$>
    Framer.feed 2097152 33554432 framer_example_hdr_init [] framer_example_calls
  = Some (true, [[x01; x02; x03]; [x04]]).
Proof. vm_compute. reflexivity. Qed.

Lemma frames_arrive_in_order_witness :
  ∃ arrived,
    Framer.feed 2097152 33554432 framer_example_hdr_init [] framer_example_calls
    = Some (true, [] ++ arrived)
    ∧ length arrived = length framer_example_msgs
    ∧ Forall (λ m, Framer.complete m = true) arrived
    ∧ Framer.vRecv <$> arrived = snd <$> framer_example_msgs
    ∧ Framer.hdrbuf <$> arrived
      = (λ m, take 24 (Framer.EndMessage toy_digest (m.1 ++ m.2))) <$> framer_example_msgs
    ∧ Forall (λ m, Framer.nMessageSize (Framer.hdr m)
                   = Z.of_nat (length (Framer.vRecv m))) arrived
    ∧ Framer.pushes_new ([] ++ arrived) = true.
Proof.
  apply (Framer.frames_arrive_in_order 2097152 33554432 framer_example_hdr_init
           toy_digest [] framer_example_msgs framer_example_calls).
  - vm_compute. reflexivity.
  - intros d. apply length_resize.
  - reflexivity.
  - unfold framer_example_msgs, Framer.sendable.
    repeat constructor; simpl; lia.
  - unfold framer_example_calls. repeat constructor; vm_compute; reflexivity.
  - vm_compute. reflexivity.
Defined.

Lemma EndMessage_writes_size_and_checksum_witness :
  length (Framer.EndMessage toy_digest (framer_example_header0 ++ [x01; x02; x03]))
  = (24 + length [x01; x02; x03])%nat
  ∧ drop 24 (Framer.EndMessage toy_digest (framer_example_header0 ++ [x01; x02; x03]))
    = [x01; x02; x03]
  ∧ take 16 (Framer.EndMessage toy_digest (framer_example_header0 ++ [x01; x02; x03]))
    = take 16 framer_example_header0
  ∧ (∃ h,
       Framer.Unserialize_header
         (take 24 (Framer.EndMessage toy_digest
                     (framer_example_header0 ++ [x01; x02; x03]))) = Some h
       ∧ Framer.pchMessageStart h = take 4 framer_example_header0
       ∧ Framer.pchCommand h = take 12 (drop 4 framer_example_header0)
       ∧ Framer.nMessageSize h = Z.of_nat (length [x01; x02; x03])
       ∧ Framer.nChecksum h = Framer.le_value (take 4 (toy_digest [x01; x02; x03])))
  ∧ Framer.EndMessage toy_digest
      (Framer.EndMessage toy_digest (framer_example_header0 ++ [x01; x02; x03]))
    = Framer.EndMessage toy_digest (framer_example_header0 ++ [x01; x02; x03])
  ∧ Framer.EndMessage toy_digest [] = [].
Proof.
  apply (Framer.EndMessage_writes_size_and_checksum toy_digest framer_example_header0
           [x01; x02; x03]).
  - reflexivity.
  - intros d. apply length_resize.
  - vm_compute. reflexivity.
Defined.

Lemma every_byte_is_taken_witness :
  ∃ b q',
    Framer.ReceiveMsgBytes 2097152 33554432 framer_example_hdr_init []
      (framer_example_header ++ [x01; x02]) = Some (b, q')
    ∧ (b = true
       → Framer.bytes_in q'
         = Framer.bytes_in [] + Z.of_nat (length (framer_example_header ++ [x01; x02])))
    ∧ (framer_example_header ++ [x01; x02] = [] → b = true ∧ q' = []).
Proof.
  apply (Framer.every_byte_is_taken 2097152 33554432 framer_example_hdr_init []
           (framer_example_header ++ [x01; x02])).
  - apply Framer.queue_inv_nil.
  - vm_compute. reflexivity.
Defined.

(** ** The eviction policy *)

Module Eviction.

(** The fields of a peer that [AttemptToEvictConnection] reads or writes.
    [vNodes] holds pointers to the peers, and so do the [CNodeRef] of the
    candidate vectors: a peer is identified by its [id], and setting
    [fDisconnect] through a candidate changes the peer of [vNodes].
    [addr_GetGroup] is the value of [addr.GetGroup()]. *)
Record CNode := mkCNode {
  id : Z;
  addr_GetGroup : list byte;
  fWhitelisted : bool;
  fInbound : bool;
  fDisconnect : bool;
  nMinPingUsecTime : Z;
  nTimeConnected : Z
}.

#[global] Instance CNode_eq_dec : EqDecision CNode.
Proof. solve_decision. Defined.

(** [operator<] of [std::vector<unsigned char>]: lexicographic. *)
Fixpoint vector_lt (a b : list byte) : bool :=
  match a, b with
  | _, [] => false
  | [], _ :: _ => true
  | x :: a', y :: b' =>
      if (Byte.to_N x <? Byte.to_N y)%N then true
      else if (Byte.to_N y <? Byte.to_N x)%N then false
      else vector_lt a' b'
  end.

(** What [std::sort] with the comparison [cmp] promises about two elements
    [x] before [y] of its result: [y] is not less than [x]. *)
Definition not_after (cmp : CNode → CNode → bool) : relation CNode :=
  λ x y, cmp y x = false.

#[global] Instance not_after_dec (cmp : CNode → CNode → bool) (x y : CNode) :
  Decision (not_after cmp x y).
Proof. unfold not_after. apply _. Defined.

(** The comparisons [std::sort] accepts: strict weak orderings. *)
Definition strict_weak (cmp : CNode → CNode → bool) : Prop :=
  Total (not_after cmp) ∧ Transitive (not_after cmp).

(** The group of candidates chosen so far in the loop over the
    candidates, and the candidates by group. *)
Record MostConnections := mkMostConnections {
  naMostConnections : list byte;
  nMostConnections : Z;
  nMostConnectionsTime : Z;
  mapAddrCounts : gmap (list byte) (list CNode)
}.

Section eviction.

(** [CSHA256] on the bytes written to it, and the 32 random bytes of the
    comparison object, drawn once. *)
Variable SHA256 : list byte → list byte.
Variable vchSecretKey : list byte.

(** [std::sort]: the result is a rearrangement of the vector, in an order
    in which no element is less than an element before it.  Which of the
    rearrangements it is when elements are equivalent is not specified. *)
Variable std_sort : (CNode → CNode → bool) → list CNode → list CNode.
Hypothesis std_sort_perm : ∀ cmp v, std_sort cmp v ≡ₚ v.
Hypothesis std_sort_sorted :
  ∀ cmp v, strict_weak cmp → StronglySorted (not_after cmp) (std_sort cmp v).

(** [CompareNetGroupKeyed::operator()]. *)
Definition CompareNetGroupKeyed (a b : CNode) : bool :=
  let vchA := SHA256 (addr_GetGroup a ++ vchSecretKey) in
  let vchB := SHA256 (addr_GetGroup b ++ vchSecretKey) in
  vector_lt vchA vchB.

Definition ReverseCompareNodeMinPingTime (a b : CNode) : bool :=
  nMinPingUsecTime a >? nMinPingUsecTime b.

Definition ReverseCompareNodeTimeConnected (a b : CNode) : bool :=
  nTimeConnected a >? nTimeConnected b.

(** The peers the first loop collects. *)
Definition eligible (node : CNode) : bool :=
  negb (fWhitelisted node) && fInbound node && negb (fDisconnect node).

(** [v.erase(v.end() - n, v.end())]: what stays and what is erased. *)
Definition erase_tail (n : nat) (v : list CNode) : list CNode * list CNode :=
  (take (length v - n) v, drop (length v - n) v).

(** One turn of the loop over the candidates: the candidate joins its
    group, and the group becomes the chosen one when it is now larger, or
    as large and younger by its first member. *)
Definition count_node (acc : MostConnections) (node : CNode) : MostConnections :=
  let g := addr_GetGroup node in
  let before := default [] (mapAddrCounts acc !! g) in
  let map' := <[g := before ++ [node]]> (mapAddrCounts acc) in
  let grouptime := nTimeConnected (default node (head before)) in
  let groupsize := Z.of_nat (length (before ++ [node])) in
  if (groupsize >? nMostConnections acc)
     || ((groupsize =? nMostConnections acc) && (grouptime >? nMostConnectionsTime acc))
  then mkMostConnections g groupsize grouptime map'
  else mkMostConnections (naMostConnections acc) (nMostConnections acc)
         (nMostConnectionsTime acc) map'.

Definition count_nodes (v : list CNode) : MostConnections :=
  fold_left count_node v (mkMostConnections [] 0 0 ∅).

(** [vEvictionCandidates[0]->fDisconnect = true], seen in [vNodes]. *)
Definition set_fDisconnect (node : CNode) : CNode :=
  mkCNode (id node) (addr_GetGroup node) (fWhitelisted node) (fInbound node)
    true (nMinPingUsecTime node) (nTimeConnected node).

Definition disconnect (victim : CNode) (vNodes : list CNode) : list CNode :=
  (λ node, if id node =? id victim then set_fDisconnect node else node) <$> vNodes.

(** The last part of [AttemptToEvictConnection], from the loop over the
    candidates that are left: [v] is the vector at that point. *)
Definition evict_from_largest_group (fPreferNewConnection : bool)
    (v : list CNode) (vNodes : list CNode) : bool * list CNode :=
  let acc := count_nodes v in
  let v := default [] (mapAddrCounts acc !! naMostConnections acc) in
  if (length v <=? 1)%nat && negb fPreferNewConnection then (false, vNodes)
  else
    match v with
    | victim :: _ => (true, disconnect victim vNodes)
    | [] => (true, vNodes)
    end.

(** The vector after each of the three protections, with what each one
    protects. *)
Definition by_netgroup (v0 : list CNode) : list CNode * list CNode :=
  erase_tail (Nat.min 4 (length v0)) (std_sort CompareNetGroupKeyed v0).

Definition by_ping (v1 : list CNode) : list CNode * list CNode :=
  erase_tail (Nat.min 8 (length v1)) (std_sort ReverseCompareNodeMinPingTime v1).

Definition by_age (v2 : list CNode) : list CNode * list CNode :=
  erase_tail (length v2 / 2) (std_sort ReverseCompareNodeTimeConnected v2).

(** [CConnman::AttemptToEvictConnection]: the value returned and the peers
    afterwards. *)
Definition AttemptToEvictConnection (fPreferNewConnection : bool)
    (vNodes : list CNode) : bool * list CNode :=
  let v0 := List.filter eligible vNodes in
  if bool_decide (v0 = []) then (false, vNodes) else
  let v1 := (by_netgroup v0).1 in
  if bool_decide (v1 = []) then (false, vNodes) else
  let v2 := (by_ping v1).1 in
  if bool_decide (v2 = []) then (false, vNodes) else
  let v3 := (by_age v2).1 in
  if bool_decide (v3 = []) then (false, vNodes) else
  evict_from_largest_group fPreferNewConnection v3 vNodes.

(** The candidate vectors of a run, stage by stage, and what each
    protection takes out. *)
Definition candidates (vNodes : list CNode) : list CNode :=
  List.filter eligible vNodes.

Definition after_netgroup (vNodes : list CNode) : list CNode :=
  (by_netgroup (candidates vNodes)).1.

Definition protected_by_netgroup (vNodes : list CNode) : list CNode :=
  (by_netgroup (candidates vNodes)).2.

Definition after_ping (vNodes : list CNode) : list CNode :=
  (by_ping (after_netgroup vNodes)).1.

Definition protected_by_ping (vNodes : list CNode) : list CNode :=
  (by_ping (after_netgroup vNodes)).2.

Definition after_age (vNodes : list CNode) : list CNode :=
  (by_age (after_ping vNodes)).1.

Definition protected_by_age (vNodes : list CNode) : list CNode :=
  (by_age (after_ping vNodes)).2.

(** The members of the network group [g] in [v], in the order of [v]. *)
Definition group_members (g : list byte) (v : list CNode) : list CNode :=
  filter (λ node, addr_GetGroup node = g) v.

(** The group the last part of the function narrows the candidates to. *)
Definition largest_group (v : list CNode) : list CNode :=
  group_members (naMostConnections (count_nodes v)) v.

(** What the loop has established after the candidates [l]: the map holds
    the members of every group in the order of [l], and the chosen group is
    one of the largest, of the size recorded. *)
Definition counted (l : list CNode) (acc : MostConnections) : Prop :=
  (∀ g, default [] (mapAddrCounts acc !! g) = group_members g l)
  ∧ nMostConnections acc
    = Z.of_nat (length (group_members (naMostConnections acc) l))
  ∧ (∀ g, Z.of_nat (length (group_members g l)) <= nMostConnections acc).

(** The claim as the specification words it: with more than 12 candidates
    the function returns true. *)
Definition evicts_whenever_over_12 : Prop :=
  ∀ (fPreferNewConnection : bool) (vNodes : list CNode),
    NoDup (id <$> vNodes) →
    (12 < length (candidates vNodes))%nat →
    (AttemptToEvictConnection fPreferNewConnection vNodes).1 = true.

(** *** The comparisons are strict weak orderings *)

Lemma vector_lt_total (a : list byte) : ∀ b,
  vector_lt a b = false ∨ vector_lt b a = false.
Proof.
  induction a as [|x a IH]; intros [|y b]; simpl; auto.
  destruct (N.ltb_spec (Byte.to_N x) (Byte.to_N y)),
           (N.ltb_spec (Byte.to_N y) (Byte.to_N x)); auto; lia.
Qed.

Lemma vector_lt_trans (a : list byte) : ∀ b c,
  vector_lt b a = false → vector_lt c b = false → vector_lt c a = false.
Proof.
  induction a as [|x a IH]; intros [|y b] [|z c]; simpl; try done.
  destruct (N.ltb_spec (Byte.to_N y) (Byte.to_N x)); [done|].
  destruct (N.ltb_spec (Byte.to_N x) (Byte.to_N y)).
  - intros _.
    destruct (N.ltb_spec (Byte.to_N z) (Byte.to_N y)); [done|].
    destruct (N.ltb_spec (Byte.to_N z) (Byte.to_N x)); [lia|].
    destruct (N.ltb_spec (Byte.to_N x) (Byte.to_N z)); [done|lia].
  - intros Hba.
    destruct (N.ltb_spec (Byte.to_N z) (Byte.to_N y)); [done|].
    destruct (N.ltb_spec (Byte.to_N y) (Byte.to_N z)).
    + intros _.
      destruct (N.ltb_spec (Byte.to_N z) (Byte.to_N x)); [lia|].
      destruct (N.ltb_spec (Byte.to_N x) (Byte.to_N z)); [done|lia].
    + intros Hcb.
      destruct (N.ltb_spec (Byte.to_N z) (Byte.to_N x)); [lia|].
      destruct (N.ltb_spec (Byte.to_N x) (Byte.to_N z)); [done|].
      by apply (IH b c).
Qed.

Lemma CompareNetGroupKeyed_strict_weak : strict_weak CompareNetGroupKeyed.
Proof.
  split.
  - intros x y. unfold not_after, CompareNetGroupKeyed. cbv zeta.
    destruct (vector_lt_total (SHA256 (addr_GetGroup y ++ vchSecretKey))
                (SHA256 (addr_GetGroup x ++ vchSecretKey))); auto.
  - intros x y z. unfold not_after, CompareNetGroupKeyed. cbv zeta.
    intros Hyx Hzy. by eapply vector_lt_trans.
Qed.

Lemma ReverseCompareNodeMinPingTime_strict_weak :
  strict_weak ReverseCompareNodeMinPingTime.
Proof.
  split.
  - intros x y. unfold not_after, ReverseCompareNodeMinPingTime.
    destruct (Z.gtb_spec (nMinPingUsecTime y) (nMinPingUsecTime x)),
             (Z.gtb_spec (nMinPingUsecTime x) (nMinPingUsecTime y)); auto; lia.
  - intros x y z. unfold not_after, ReverseCompareNodeMinPingTime.
    destruct (Z.gtb_spec (nMinPingUsecTime y) (nMinPingUsecTime x)),
             (Z.gtb_spec (nMinPingUsecTime z) (nMinPingUsecTime y)),
             (Z.gtb_spec (nMinPingUsecTime z) (nMinPingUsecTime x)); auto; lia.
Qed.

Lemma ReverseCompareNodeTimeConnected_strict_weak :
  strict_weak ReverseCompareNodeTimeConnected.
Proof.
  split.
  - intros x y. unfold not_after, ReverseCompareNodeTimeConnected.
    destruct (Z.gtb_spec (nTimeConnected y) (nTimeConnected x)),
             (Z.gtb_spec (nTimeConnected x) (nTimeConnected y)); auto; lia.
  - intros x y z. unfold not_after, ReverseCompareNodeTimeConnected.
    destruct (Z.gtb_spec (nTimeConnected y) (nTimeConnected x)),
             (Z.gtb_spec (nTimeConnected z) (nTimeConnected y)),
             (Z.gtb_spec (nTimeConnected z) (nTimeConnected x)); auto; lia.
Qed.

(** *** A protection: sort, then erase the tail *)

Lemma erase_tail_sorted (cmp : CNode → CNode → bool) (n : nat) (v : list CNode) :
  strict_weak cmp → NoDup v →
  let kept := (erase_tail n (std_sort cmp v)).1 in
  let gone := (erase_tail n (std_sort cmp v)).2 in
  kept ++ gone ≡ₚ v
  ∧ length gone = Nat.min n (length v)
  ∧ length kept = (length v - n)%nat
  ∧ NoDup kept
  ∧ (∀ x, x ∈ kept → x ∈ v)
  ∧ (∀ x p, x ∈ kept → p ∈ gone → x ≠ p ∧ cmp p x = false).
Proof.
  intros Hsw Hnd. cbv zeta. unfold erase_tail. simpl.
  pose proof (std_sort_perm cmp v) as Hperm.
  pose proof (std_sort_sorted cmp v Hsw) as Hsorted.
  assert (Hlen : length (std_sort cmp v) = length v) by by rewrite Hperm.
  set (s := std_sort cmp v) in *.
  assert (Hnds : NoDup s) by by rewrite Hperm.
  rewrite <- (take_drop (length s - n) s) in Hnds, Hsorted.
  apply NoDup_app in Hnds as (Hk & Hdis & Hg).
  split; [by rewrite take_drop|].
  split; [rewrite length_drop; lia|].
  split; [rewrite length_take; lia|].
  split; [done|]. split.
  - intros x Hx. rewrite <- Hperm, <- (take_drop (length s - n) s).
    apply elem_of_app. by left.
  - intros x p Hx Hp. split.
    + intros ->. by apply (Hdis p).
    + by apply (StronglySorted_app_1_elem_of _ _ _ _ _ Hsorted).
Qed.

(** *** The loop over the candidates *)

Lemma group_members_snoc (g : list byte) (l : list CNode) (node : CNode) :
  group_members g (l ++ [node])
  = group_members g l ++ (if decide (addr_GetGroup node = g) then [node] else []).
Proof.
  unfold group_members. rewrite filter_app. f_equal.
Qed.

Lemma counted_step (l : list CNode) (acc : MostConnections) (node : CNode) :
  counted l acc → counted (l ++ [node]) (count_node acc node).
Proof.
  intros (Hmap & Hsize & Hmax). unfold count_node. cbv zeta.
  rewrite (Hmap (addr_GetGroup node)).
  set (g0 := addr_GetGroup node).
  set (members := group_members g0 l ++ [node]).
  assert (Hmem : group_members g0 (l ++ [node]) = members).
  { rewrite group_members_snoc. by destruct (decide (addr_GetGroup node = g0)). }
  assert (Hother : ∀ g, g ≠ g0 → group_members g (l ++ [node]) = group_members g l).
  { intros g Hg. rewrite group_members_snoc.
    destruct (decide (addr_GetGroup node = g)); [by subst|apply app_nil_r]. }
  assert (Hmap' : ∀ g, default [] (<[g0 := members]> (mapAddrCounts acc) !! g)
                       = group_members g (l ++ [node])).
  { intros g. destruct (decide (g = g0)) as [->|Hg].
    - by rewrite lookup_insert_eq, Hmem.
    - rewrite lookup_insert_ne by done. rewrite Hother by done. apply Hmap. }
  assert (Hlen : Z.of_nat (length members)
                 = Z.of_nat (length (group_members g0 l)) + 1).
  { unfold members. rewrite length_app. simpl. lia. }
  pose proof (Hmax g0) as Hg0.
  destruct (Z.gtb_spec (Z.of_nat (length members)) (nMostConnections acc)) as [Hgt|Hle];
    simpl orb.
  - split; [done|]. simpl. rewrite Hmem. split; [done|].
    intros g. destruct (decide (g = g0)) as [->|Hg]; [by rewrite Hmem; lia|].
    rewrite Hother by done. specialize (Hmax g). lia.
  - destruct (Z.eqb_spec (Z.of_nat (length members)) (nMostConnections acc)) as [Heq|Hne];
      simpl andb.
    + destruct (_ >? _).
      * split; [done|]. simpl. rewrite Hmem. split; [done|].
        intros g. destruct (decide (g = g0)) as [->|Hg]; [by rewrite Hmem; lia|].
        rewrite Hother by done. specialize (Hmax g). lia.
      * split; [done|]. simpl.
        assert (naMostConnections acc ≠ g0) as Hna.
        { intros E. rewrite E in Hsize. lia. }
        rewrite Hother by done. split; [done|].
        intros g. destruct (decide (g = g0)) as [->|Hg]; [rewrite Hmem; lia|].
        rewrite Hother by done. apply Hmax.
    + split; [done|]. simpl.
      assert (naMostConnections acc ≠ g0) as Hna.
      { intros E. rewrite E in Hsize. lia. }
      rewrite Hother by done. split; [done|].
      intros g. destruct (decide (g = g0)) as [->|Hg]; [rewrite Hmem; lia|].
      rewrite Hother by done. apply Hmax.
Qed.

Lemma counted_fold (v : list CNode) : ∀ (l : list CNode) (acc : MostConnections),
  counted l acc → counted (l ++ v) (fold_left count_node v acc).
Proof.
  induction v as [|node v IH]; intros l acc Hacc; simpl.
  - by rewrite app_nil_r.
  - rewrite (cons_middle node l v), app_assoc. apply IH. by apply counted_step.
Qed.

Lemma count_nodes_counted (v : list CNode) : counted v (count_nodes v).
Proof.
  apply (counted_fold v [] (mkMostConnections [] 0 0 ∅)).
  split; [|split]; simpl.
  - intros g. by rewrite lookup_empty.
  - done.
  - intros g. done.
Qed.

(** The first element of a filtered list is the first element of the list
    that passes the filter. *)
Lemma group_members_head (g : list byte) (v : list CNode) (x : CNode) (rest : list CNode) :
  group_members g v = x :: rest →
  addr_GetGroup x = g
  ∧ ∃ before after, v = before ++ x :: after
      ∧ Forall (λ node, addr_GetGroup node ≠ g) before.
Proof.
  unfold group_members. induction v as [|y v IH]; [done|].
  rewrite filter_cons. destruct (decide (addr_GetGroup y = g)) as [Hy|Hy].
  - intros [= -> <-]. split; [done|]. exists [], v. split; [done|constructor].
  - intros Hf. destruct (IH Hf) as (Hx & before & after & -> & Hb).
    split; [done|]. exists (y :: before), after. split; [done|by constructor].
Qed.

(** The last part of the function, on a vector with a candidate in it. *)
Lemma evict_from_largest_group_eq (prefer : bool) (v vNodes : list CNode) :
  v ≠ [] →
  (∀ g, (length (group_members g v) ≤ length (largest_group v))%nat)
  ∧ ∃ victim rest, largest_group v = victim :: rest
      ∧ evict_from_largest_group prefer v vNodes
        = if (length (largest_group v) <=? 1)%nat && negb prefer
          then (false, vNodes)
          else (true, disconnect victim vNodes).
Proof.
  intros Hv. destruct (count_nodes_counted v) as (Hmap & Hsize & Hmax).
  assert (Hle : ∀ g, (length (group_members g v) ≤ length (largest_group v))%nat).
  { intros g. unfold largest_group. specialize (Hmax g). lia. }
  split; [done|].
  destruct (largest_group v) as [|victim rest] eqn:Hgrp.
  - exfalso. destruct v as [|x v]; [done|].
    specialize (Hle (addr_GetGroup x)). unfold group_members in Hle.
    rewrite filter_cons in Hle. destruct (decide _); [|done]. simpl in Hle. lia.
  - exists victim, rest. split; [done|].
    unfold evict_from_largest_group. cbv zeta.
    rewrite Hmap. fold (largest_group v). rewrite Hgrp.
    by destruct (_ && _).
Qed.

(** *** The whole function *)

Lemma erase_tail_length (cmp : CNode → CNode → bool) (n : nat) (v : list CNode) :
  length (erase_tail n (std_sort cmp v)).1 = (length v - n)%nat
  ∧ length (erase_tail n (std_sort cmp v)).2 = Nat.min n (length v).
Proof.
  unfold erase_tail. simpl.
  assert (Hlen : length (std_sort cmp v) = length v) by by rewrite std_sort_perm.
  rewrite length_take, length_drop. lia.
Qed.

Lemma nonempty_length (v : list CNode) : v ≠ [] ↔ (0 < length v)%nat.
Proof. destruct v; simpl; split; (done || lia). Qed.

(** Once the three protections leave a candidate, the function is its last
    part on what they leave. *)
Lemma AttemptToEvictConnection_last_part (prefer : bool) (vNodes : list CNode) :
  after_age vNodes ≠ [] →
  AttemptToEvictConnection prefer vNodes
  = evict_from_largest_group prefer (after_age vNodes) vNodes.
Proof.
  intros H3. pose proof H3 as H3'. apply nonempty_length in H3'.
  unfold after_age, by_age in H3'.
  rewrite (proj1 (erase_tail_length _ _ _)) in H3'.
  assert (H2 : after_ping vNodes ≠ []) by (apply nonempty_length; lia).
  pose proof H2 as H2'. apply nonempty_length in H2'.
  unfold after_ping, by_ping in H2'.
  rewrite (proj1 (erase_tail_length _ _ _)) in H2'.
  assert (H1 : after_netgroup vNodes ≠ []) by (apply nonempty_length; lia).
  pose proof H1 as H1'. apply nonempty_length in H1'.
  unfold after_netgroup, by_netgroup in H1'.
  rewrite (proj1 (erase_tail_length _ _ _)) in H1'.
  assert (H0 : candidates vNodes ≠ []) by (apply nonempty_length; lia).
  unfold AttemptToEvictConnection. cbv zeta.
  fold (candidates vNodes). rewrite (bool_decide_eq_false_2 _ H0).
  fold (after_netgroup vNodes). rewrite (bool_decide_eq_false_2 _ H1).
  fold (after_ping vNodes). rewrite (bool_decide_eq_false_2 _ H2).
  fold (after_age vNodes). by rewrite (bool_decide_eq_false_2 _ H3).
Qed.

(** Setting the flag through a candidate changes that peer of [vNodes] and
    no other. *)
Lemma disconnect_lookup (victim : CNode) (vNodes : list CNode) (i : nat) (node : CNode) :
  NoDup (id <$> vNodes) → victim ∈ vNodes →
  vNodes !! i = Some node →
  disconnect victim vNodes !! i
  = Some (if decide (node = victim) then set_fDisconnect node else node).
Proof.
  intros Hnd Hv Hi. unfold disconnect. rewrite list_lookup_fmap, Hi. simpl. f_equal.
  destruct (Z.eqb_spec (id node) (id victim)) as [Heq|Hne].
  - rewrite decide_True; [done|].
    apply (NoDup_fmap_eq id vNodes); [done| |done|done].
    by eapply list_elem_of_lookup_2.
  - rewrite decide_False; [done|]. by intros ->.
Qed.

Lemma candidates_elem (vNodes : list CNode) (x : CNode) :
  x ∈ candidates vNodes → x ∈ vNodes ∧ eligible x = true.
Proof.
  unfold candidates. rewrite !list_elem_of_In. apply filter_In.
Qed.

Lemma candidates_NoDup (vNodes : list CNode) :
  NoDup (id <$> vNodes) → NoDup (candidates vNodes).
Proof.
  intros Hnd. apply NoDup_fmap_1 in Hnd.
  unfold candidates. apply NoDup_ListNoDup, List.NoDup_filter.
  by apply NoDup_ListNoDup.
Qed.

(** With exactly 13 candidates the protections leave one, so without
    [fPreferNewConnection] nothing is evicted, whatever the sort and the
    digest do. *)
Lemma thirteen_candidates_none_evicted (vNodes : list CNode) :
  length (candidates vNodes) = 13%nat →
  AttemptToEvictConnection false vNodes = (false, vNodes).
Proof.
  intros Hn.
  assert (H1 : length (after_netgroup vNodes) = 9%nat).
  { unfold after_netgroup, by_netgroup.
    rewrite (proj1 (erase_tail_length _ _ _)), Hn. done. }
  assert (H2 : length (after_ping vNodes) = 1%nat).
  { unfold after_ping, by_ping.
    rewrite (proj1 (erase_tail_length _ _ _)), H1. done. }
  assert (H3 : length (after_age vNodes) = 1%nat).
  { unfold after_age, by_age.
    rewrite (proj1 (erase_tail_length _ _ _)), H2. done. }
  assert (Hne : after_age vNodes ≠ []) by (apply nonempty_length; lia).
  rewrite (AttemptToEvictConnection_last_part false vNodes Hne).
  destruct (evict_from_largest_group_eq false (after_age vNodes) vNodes Hne)
    as (_ & victim & rest & Hgrp & ->).
  assert (length (largest_group (after_age vNodes)) ≤ 1)%nat as Hle.
  { rewrite <- H3. unfold largest_group, group_members. apply length_filter. }
  destruct (Nat.leb_spec (length (largest_group (after_age vNodes))) 1); [done|lia].
Qed.

Lemma erase_tail_kept_elem (cmp : CNode → CNode → bool) (n : nat) (v : list CNode)
    (x : CNode) :
  x ∈ (erase_tail n (std_sort cmp v)).1 → x ∈ v.
Proof.
  unfold erase_tail. simpl. intros Hx.
  rewrite <- (std_sort_perm cmp v), <- (take_drop (length (std_sort cmp v) - n)).
  apply elem_of_app. by left.
Qed.

Lemma after_age_elem (vNodes : list CNode) (x : CNode) :
  x ∈ after_age vNodes → x ∈ vNodes ∧ eligible x = true.
Proof.
  intros Hx. apply candidates_elem.
  by apply erase_tail_kept_elem, erase_tail_kept_elem, erase_tail_kept_elem in Hx.
Qed.

(** What [disconnect] makes of the peer at a place of [vNodes], field by
    field: the peers with the id of the victim have [fDisconnect] set. *)
Lemma disconnect_lookup_id (victim : CNode) (vNodes : list CNode) (i : nat)
    (node : CNode) :
  vNodes !! i = Some node →
  disconnect victim vNodes !! i
  = Some (mkCNode (id node) (addr_GetGroup node) (fWhitelisted node) (fInbound node)
            (if id node =? id victim then true else fDisconnect node)
            (nMinPingUsecTime node) (nTimeConnected node)).
Proof.
  intros Hi. unfold disconnect. rewrite list_lookup_fmap, Hi. simpl. f_equal.
  destruct (id node =? id victim); [done|]. by destruct node.
Qed.

Lemma disconnect_lookup_fields (victim : CNode) (vNodes : list CNode) (i : nat)
    (node : CNode) :
  NoDup (id <$> vNodes) → victim ∈ vNodes →
  vNodes !! i = Some node →
  disconnect victim vNodes !! i
  = Some (mkCNode (id node) (addr_GetGroup node) (fWhitelisted node) (fInbound node)
            (if decide (node = victim) then true else fDisconnect node)
            (nMinPingUsecTime node) (nTimeConnected node)).
Proof.
  intros Hnd Hv Hi. rewrite (disconnect_lookup victim vNodes i node Hnd Hv Hi). f_equal.
  destruct (decide (node = victim)); [done|]. by destruct node.
Qed.

(** With peers of different ids, the victim is at one place of [vNodes],
    and every other place holds another peer. *)
Lemma victim_place (victim : CNode) (vNodes : list CNode) :
  NoDup (id <$> vNodes) → victim ∈ vNodes →
  ∃ i, vNodes !! i = Some victim
       ∧ ∀ j node, vNodes !! j = Some node → j ≠ i → node ≠ victim.
Proof.
  intros Hnd Hv. apply list_elem_of_lookup in Hv as [i Hi]. exists i.
  split; [done|]. intros j node Hj Hne ->. apply Hne.
  apply (NoDup_lookup (id <$> vNodes) j i (id victim)); [done| |].
  - by rewrite list_lookup_fmap, Hj.
  - by rewrite list_lookup_fmap, Hi.
Qed.

(** *** The claims on the eviction policy *)

(** C6: in the last part of the function, on the candidates [v] the
    protections have left, the group the candidates are narrowed to is a
    network group with the most members among [v].  When it has at most one
    member and [fPreferNewConnection] is false, the function returns false
    and no peer is changed.  Otherwise it returns true and sets
    [fDisconnect] of the first member of that group in the order of [v],
    which is the order of the sort by connection time, latest first: no
    member of the group was connected after it.  The peers afterwards are
    the peers of [vNodes], place by place, with [fDisconnect] true for the
    peers with the id of that member and every other field as it was; and
    when [v] is what the protections leave of [vNodes], that member is a
    peer of [vNodes] whose [fDisconnect] was false and is true afterwards.
    [v] has a candidate in it, the function having returned before when it
    has none. *)
Theorem last_part_of_eviction (prefer : bool) (v vNodes : list CNode) :
  v ≠ [] →
  (∀ g, (length (group_members g v) ≤ length (largest_group v))%nat)
  ∧ ((length (largest_group v) ≤ 1)%nat → prefer = false →
       evict_from_largest_group prefer v vNodes = (false, vNodes))
  ∧ ((1 < length (largest_group v))%nat ∨ prefer = true →
       ∃ victim before after,
         head (largest_group v) = Some victim
         ∧ v = before ++ victim :: after
         ∧ Forall (λ node, addr_GetGroup node ≠ addr_GetGroup victim) before
         ∧ evict_from_largest_group prefer v vNodes = (true, disconnect victim vNodes)
         ∧ (StronglySorted (not_after ReverseCompareNodeTimeConnected) v →
              ∀ node, node ∈ largest_group v →
                      nTimeConnected node <= nTimeConnected victim)
         ∧ (evict_from_largest_group prefer v vNodes).1 = true
         ∧ length (evict_from_largest_group prefer v vNodes).2 = length vNodes
         ∧ (∀ i node, vNodes !! i = Some node →
              (evict_from_largest_group prefer v vNodes).2 !! i
              = Some (mkCNode (id node) (addr_GetGroup node) (fWhitelisted node)
                        (fInbound node)
                        (if id node =? id victim then true else fDisconnect node)
                        (nMinPingUsecTime node) (nTimeConnected node)))
         ∧ (after_age vNodes = v →
              fDisconnect victim = false
              ∧ ∃ i marked,
                  vNodes !! i = Some victim
                  ∧ (AttemptToEvictConnection prefer vNodes).2 !! i = Some marked
                  ∧ fDisconnect marked = true ∧ id marked = id victim))
  ∧ (after_age vNodes = v →
       AttemptToEvictConnection prefer vNodes
       = evict_from_largest_group prefer v vNodes).
Proof.
  intros Hv.
  destruct (evict_from_largest_group_eq prefer v vNodes Hv)
    as (Hmax & victim & rest & Hgrp & Hrun).
  split; [done|]. split; [|split].
  - intros Hle ->. rewrite Hrun.
    destruct (Nat.leb_spec (length (largest_group v)) 1); [done|lia].
  - intros Hcase.
    destruct (group_members_head _ v victim rest Hgrp)
      as (Hg & before & after & Hsplit & Hbefore).
    assert (Hres : evict_from_largest_group prefer v vNodes
                   = (true, disconnect victim vNodes)).
    { rewrite Hrun.
      destruct (Nat.leb_spec (length (largest_group v)) 1), prefer; simpl; try done.
      destruct Hcase; [lia|done]. }
    exists victim, before, after.
    split; [by rewrite Hgrp|]. split; [done|].
    split; [by rewrite Hg|]. split; [done|]. split.
    { intros Hsorted node Hnode.
      unfold largest_group, group_members in Hnode.
      apply list_elem_of_filter in Hnode as [Hng Hnv].
      rewrite Hsplit in Hnv, Hsorted.
      apply elem_of_app in Hnv as [Hnb|Hna].
      * rewrite Forall_forall in Hbefore. by destruct (Hbefore node Hnb).
      * apply StronglySorted_app_1_r in Hsorted.
        apply StronglySorted_cons in Hsorted as [Hall _].
        apply elem_of_cons in Hna as [->|Hna]; [lia|].
        rewrite Forall_forall in Hall. specialize (Hall node Hna).
        unfold not_after, ReverseCompareNodeTimeConnected in Hall.
        destruct (Z.gtb_spec (nTimeConnected node) (nTimeConnected victim)); [done|lia]. }
    rewrite Hres. cbn [fst snd].
    split; [done|]. split; [unfold disconnect; by rewrite length_fmap|].
    split; [intros i node Hi; by apply disconnect_lookup_id|].
    intros Hage.
    assert (Hin : victim ∈ after_age vNodes).
    { rewrite Hage, Hsplit. apply elem_of_app. right. constructor. }
    apply after_age_elem in Hin as [Hin Hel].
    unfold eligible in Hel. apply andb_true_iff in Hel as [_ Hdis].
    apply negb_true_iff in Hdis. split; [done|].
    apply list_elem_of_lookup in Hin as [i Hi].
    exists i. eexists. split; [done|].
    rewrite (AttemptToEvictConnection_last_part prefer vNodes) by by rewrite Hage.
    rewrite Hage, Hres. cbn [snd].
    rewrite (disconnect_lookup_id victim vNodes i victim Hi).
    split; [done|]. simpl. by rewrite Z.eqb_refl.
  - intros Hage. subst v. by apply AttemptToEvictConnection_last_part.
Qed.

(** C1 (as amended): with more than 12 inbound peers that are neither
    whitelisted nor disconnecting, the three protections take out 4 peers, 8
    peers and half of the rest, and leave a candidate.  The function returns
    true exactly when [fPreferNewConnection] is set or the largest network
    group of the candidates left has two members or more; when it returns
    false no peer is changed; when it returns true it sets [fDisconnect] of
    one peer and changes nothing else: the peer at one place of [vNodes] has
    [fDisconnect] true afterwards, with its other fields as they were, and
    the peers at the other places are as they were; and that peer is an
    inbound peer that
    was neither whitelisted nor disconnecting, is none of the 4 peers
    protected by the keyed hash of the network group (none of them comes
    before it by the hash), none of the 8 peers protected for their ping
    time (each has a minimum ping time no longer than it), and none of the
    peers of the half protected for their age (each was connected no later
    than it). *)
Theorem eviction_over_12_candidates (prefer : bool) (vNodes : list CNode) :
  NoDup (id <$> vNodes) →
  (12 < length (candidates vNodes))%nat →
  length (protected_by_netgroup vNodes) = 4%nat
  ∧ length (protected_by_ping vNodes) = 8%nat
  ∧ length (protected_by_age vNodes) = (length (after_ping vNodes) / 2)%nat
  ∧ after_age vNodes ≠ []
  ∧ ((AttemptToEvictConnection prefer vNodes).1 = true
     ↔ prefer = true ∨ (2 ≤ length (largest_group (after_age vNodes)))%nat)
  ∧ ((AttemptToEvictConnection prefer vNodes).1 = false →
       (AttemptToEvictConnection prefer vNodes).2 = vNodes)
  ∧ ((AttemptToEvictConnection prefer vNodes).1 = true →
       ∃ victim,
         head (largest_group (after_age vNodes)) = Some victim
         ∧ (AttemptToEvictConnection prefer vNodes).2 = disconnect victim vNodes
         ∧ (∀ i node, vNodes !! i = Some node →
              (AttemptToEvictConnection prefer vNodes).2 !! i
              = Some (if decide (node = victim) then set_fDisconnect node else node))
         ∧ (∀ i node, vNodes !! i = Some node →
              (AttemptToEvictConnection prefer vNodes).2 !! i
              = Some (mkCNode (id node) (addr_GetGroup node) (fWhitelisted node)
                        (fInbound node)
                        (if decide (node = victim) then true else fDisconnect node)
                        (nMinPingUsecTime node) (nTimeConnected node)))
         ∧ (∃ i marked,
              vNodes !! i = Some victim
              ∧ (AttemptToEvictConnection prefer vNodes).2 !! i = Some marked
              ∧ fDisconnect marked = true ∧ id marked = id victim
              ∧ ∀ j node, vNodes !! j = Some node → j ≠ i →
                  (AttemptToEvictConnection prefer vNodes).2 !! j = Some node)
         ∧ victim ∈ vNodes
         ∧ fWhitelisted victim = false ∧ fInbound victim = true
         ∧ fDisconnect victim = false
         ∧ (victim ∉ protected_by_netgroup vNodes)
         ∧ (victim ∉ protected_by_ping vNodes)
         ∧ (victim ∉ protected_by_age vNodes)
         ∧ (∀ p, p ∈ protected_by_netgroup vNodes →
                 CompareNetGroupKeyed p victim = false)
         ∧ (∀ p, p ∈ protected_by_ping vNodes →
                 nMinPingUsecTime p <= nMinPingUsecTime victim)
         ∧ (∀ p, p ∈ protected_by_age vNodes →
                 nTimeConnected p <= nTimeConnected victim)).
Proof.
  intros Hids Hn.
  pose proof (candidates_NoDup vNodes Hids) as Hnd0.
  destruct (erase_tail_sorted CompareNetGroupKeyed
              (Nat.min 4 (length (candidates vNodes))) (candidates vNodes)
              CompareNetGroupKeyed_strict_weak Hnd0)
    as (_ & Hg0 & Hk0 & Hnd1 & Hin0 & Hsep0).
  fold (by_netgroup (candidates vNodes)) in Hg0, Hk0, Hnd1, Hin0, Hsep0.
  fold (after_netgroup vNodes) in Hk0, Hnd1, Hin0, Hsep0.
  fold (protected_by_netgroup vNodes) in Hg0, Hsep0.
  destruct (erase_tail_sorted ReverseCompareNodeMinPingTime
              (Nat.min 8 (length (after_netgroup vNodes))) (after_netgroup vNodes)
              ReverseCompareNodeMinPingTime_strict_weak Hnd1)
    as (_ & Hg1 & Hk1 & Hnd2 & Hin1 & Hsep1).
  fold (by_ping (after_netgroup vNodes)) in Hg1, Hk1, Hnd2, Hin1, Hsep1.
  fold (after_ping vNodes) in Hk1, Hnd2, Hin1, Hsep1.
  fold (protected_by_ping vNodes) in Hg1, Hsep1.
  destruct (erase_tail_sorted ReverseCompareNodeTimeConnected
              (length (after_ping vNodes) / 2) (after_ping vNodes)
              ReverseCompareNodeTimeConnected_strict_weak Hnd2)
    as (_ & Hg2 & Hk2 & _ & Hin2 & Hsep2).
  fold (by_age (after_ping vNodes)) in Hg2, Hk2, Hin2, Hsep2.
  fold (after_age vNodes) in Hk2, Hin2, Hsep2.
  fold (protected_by_age vNodes) in Hg2, Hsep2.
  assert (Hhalf : (length (after_ping vNodes) / 2 < length (after_ping vNodes))%nat).
  { apply Nat.div_lt; lia. }
  assert (H3 : after_age vNodes ≠ []) by (apply nonempty_length; lia).
  split; [lia|]. split; [lia|].
  split; [rewrite Hg2; apply Nat.min_l; lia|]. split; [done|].
  rewrite (AttemptToEvictConnection_last_part prefer vNodes H3).
  destruct (evict_from_largest_group_eq prefer (after_age vNodes) vNodes H3)
    as (_ & victim & rest & Hgrp & ->).
  rewrite Hgrp. simpl length.
  assert (Hv3 : victim ∈ after_age vNodes).
  { assert (victim ∈ largest_group (after_age vNodes)) as Hm
      by (rewrite Hgrp; constructor).
    unfold largest_group, group_members in Hm.
    by apply list_elem_of_filter in Hm as [_ Hm]. }
  pose proof (Hin2 victim Hv3) as Hv2.
  pose proof (Hin1 victim Hv2) as Hv1.
  pose proof (Hin0 victim Hv1) as Hv0.
  apply candidates_elem in Hv0 as [Hv Hel].
  unfold eligible in Hel.
  apply andb_true_iff in Hel as [Hel Hdis]. apply andb_true_iff in Hel as [Hwl Hinb].
  apply negb_true_iff in Hdis, Hwl.
  assert (Hex : ∃ victim0,
            head (victim :: rest) = Some victim0
            ∧ disconnect victim vNodes = disconnect victim0 vNodes
            ∧ (∀ i node, vNodes !! i = Some node →
                 disconnect victim vNodes !! i
                 = Some (if decide (node = victim0) then set_fDisconnect node else node))
            ∧ (∀ i node, vNodes !! i = Some node →
                 disconnect victim vNodes !! i
                 = Some (mkCNode (id node) (addr_GetGroup node) (fWhitelisted node)
                           (fInbound node)
                           (if decide (node = victim0) then true else fDisconnect node)
                           (nMinPingUsecTime node) (nTimeConnected node)))
            ∧ (∃ i marked,
                 vNodes !! i = Some victim0
                 ∧ disconnect victim vNodes !! i = Some marked
                 ∧ fDisconnect marked = true ∧ id marked = id victim0
                 ∧ ∀ j node, vNodes !! j = Some node → j ≠ i →
                     disconnect victim vNodes !! j = Some node)
            ∧ victim0 ∈ vNodes
            ∧ fWhitelisted victim0 = false ∧ fInbound victim0 = true
            ∧ fDisconnect victim0 = false
            ∧ (victim0 ∉ protected_by_netgroup vNodes)
            ∧ (victim0 ∉ protected_by_ping vNodes)
            ∧ (victim0 ∉ protected_by_age vNodes)
            ∧ (∀ p, p ∈ protected_by_netgroup vNodes →
                    CompareNetGroupKeyed p victim0 = false)
            ∧ (∀ p, p ∈ protected_by_ping vNodes →
                    nMinPingUsecTime p <= nMinPingUsecTime victim0)
            ∧ (∀ p, p ∈ protected_by_age vNodes →
                    nTimeConnected p <= nTimeConnected victim0)).
  { exists victim. split; [done|]. split; [done|].
    split; [intros i node Hi; by apply disconnect_lookup|].
    split; [intros i node Hi; by apply disconnect_lookup_fields|].
    split.
    { destruct (victim_place victim vNodes Hids Hv) as (i & Hi & Hothers).
      exists i. eexists. split; [done|].
      rewrite (disconnect_lookup_fields victim vNodes i victim Hids Hv Hi).
      split; [done|]. simpl. rewrite decide_True by done.
      split; [done|]. split; [done|].
      intros j node Hj Hne. rewrite (disconnect_lookup victim vNodes j node Hids Hv Hj).
      rewrite decide_False; [done|]. by apply (Hothers j). }
    split; [done|]. split; [done|]. split; [done|]. split; [done|].
    split; [intros Hp; by destruct (Hsep0 victim victim Hv1 Hp)|].
    split; [intros Hp; by destruct (Hsep1 victim victim Hv2 Hp)|].
    split; [intros Hp; by destruct (Hsep2 victim victim Hv3 Hp)|].
    split; [intros p Hp; by destruct (Hsep0 victim p Hv1 Hp)|].
    split.
    - intros p Hp. destruct (Hsep1 victim p Hv2 Hp) as [_ Hc].
      unfold ReverseCompareNodeMinPingTime in Hc.
      destruct (Z.gtb_spec (nMinPingUsecTime p) (nMinPingUsecTime victim)); [done|lia].
    - intros p Hp. destruct (Hsep2 victim p Hv3 Hp) as [_ Hc].
      unfold ReverseCompareNodeTimeConnected in Hc.
      destruct (Z.gtb_spec (nTimeConnected p) (nTimeConnected victim)); [done|lia]. }
  destruct (Nat.leb_spec (S (length rest)) 1) as [Hone|Hmore], prefer; simpl.
  - split; [split; [by left|done]|]. split; [done|]. intros _. exact Hex.
  - split; [split; [done|intros [?|?]; [done|lia]]|]. split; done.
  - split; [split; [by left|done]|]. split; [done|]. intros _. exact Hex.
  - split; [split; [intros _; right; lia|done]|]. split; [done|]. intros _. exact Hex.
Qed.

(** *** Any number of candidates *)

Lemma AttemptToEvictConnection_none (prefer : bool) (vNodes : list CNode) :
  after_age vNodes = [] → AttemptToEvictConnection prefer vNodes = (false, vNodes).
Proof.
  intros H3. unfold AttemptToEvictConnection. cbv zeta.
  fold (candidates vNodes). case_bool_decide; [done|].
  fold (after_netgroup vNodes). case_bool_decide; [done|].
  fold (after_ping vNodes). case_bool_decide; [done|].
  fold (after_age vNodes). by rewrite bool_decide_eq_true_2.
Qed.

(** What [std::sort] requires of its comparison, in the words of the
    standard: irreflexive, transitive, and with a transitive equivalence
    of the elements neither of which is less than the other. *)
Definition sort_requirements (cmp : CNode → CNode → bool) : Prop :=
  (∀ a, cmp a a = false)
  ∧ (∀ a b c, cmp a b = true → cmp b c = true → cmp a c = true)
  ∧ (∀ a b c, cmp a b = false → cmp b a = false →
              cmp b c = false → cmp c b = false →
              cmp a c = false ∧ cmp c a = false).

Lemma strict_weak_sort_requirements (cmp : CNode → CNode → bool) :
  strict_weak cmp → sort_requirements cmp.
Proof.
  intros [Htotal Htrans]. unfold not_after in *. split; [|split].
  - intros a. by destruct (Htotal a a).
  - intros a b c Hab Hbc.
    destruct (cmp a c) eqn:Hac; [done|]. exfalso.
    assert (cmp b a = false) as Hba by (destruct (Htotal b a); congruence).
    pose proof (Htrans c a b Hac Hba). congruence.
  - intros a b c Hab Hba Hbc Hcb. split.
    + by apply (Htrans c b a).
    + by apply (Htrans a b c).
Qed.

(** X9: with 12 candidates or fewer, that is inbound peers neither
    whitelisted nor disconnecting, the 4 peers protected for their network
    group and the 8 protected for their ping time leave nobody: the function
    returns false and changes no peer, also when the new connection is
    preferred. *)
Theorem no_eviction_up_to_12_candidates (prefer : bool) (vNodes : list CNode) :
  (length (candidates vNodes) ≤ 12)%nat →
  AttemptToEvictConnection prefer vNodes = (false, vNodes)
  ∧ after_ping vNodes = [].
Proof.
  intros Hn.
  assert (H2 : length (after_ping vNodes) = 0%nat).
  { unfold after_ping, by_ping. rewrite (proj1 (erase_tail_length _ _ _)).
    unfold after_netgroup, by_netgroup. rewrite (proj1 (erase_tail_length _ _ _)).
    fold (after_netgroup vNodes). lia. }
  assert (H3 : length (after_age vNodes) = 0%nat).
  { unfold after_age, by_age. rewrite (proj1 (erase_tail_length _ _ _)). lia. }
  split.
  - apply AttemptToEvictConnection_none. by apply nil_length_inv.
  - by apply nil_length_inv.
Qed.

(** X10: whatever the number of candidates, a call changes at most one
    peer, and only its [fDisconnect].  When it returns false the peers are
    as they were.  When it returns true, one peer of [vNodes], which was
    inbound, not whitelisted and not yet disconnecting, has [fDisconnect]
    set and every other peer is as it was: the peer afterwards at the place
    of that peer has [fDisconnect] true and its other fields as they were,
    and the peers at the other places are as they were.  A peer that is whitelisted,
    outbound or already disconnecting is never changed.  Peers have distinct
    ids. *)
Theorem eviction_changes_one_candidate_at_most (prefer : bool) (vNodes : list CNode) :
  NoDup (id <$> vNodes) →
  length (AttemptToEvictConnection prefer vNodes).2 = length vNodes
  ∧ ((AttemptToEvictConnection prefer vNodes).1 = false →
       (AttemptToEvictConnection prefer vNodes).2 = vNodes)
  ∧ ((AttemptToEvictConnection prefer vNodes).1 = true →
       ∃ victim, victim ∈ vNodes
         ∧ fInbound victim = true ∧ fWhitelisted victim = false
         ∧ fDisconnect victim = false
         ∧ (∀ i node, vNodes !! i = Some node →
              (AttemptToEvictConnection prefer vNodes).2 !! i
              = Some (if decide (node = victim) then set_fDisconnect node else node))
         ∧ (∀ i node, vNodes !! i = Some node →
              (AttemptToEvictConnection prefer vNodes).2 !! i
              = Some (mkCNode (id node) (addr_GetGroup node) (fWhitelisted node)
                        (fInbound node)
                        (if decide (node = victim) then true else fDisconnect node)
                        (nMinPingUsecTime node) (nTimeConnected node)))
         ∧ (∃ i marked,
              vNodes !! i = Some victim
              ∧ (AttemptToEvictConnection prefer vNodes).2 !! i = Some marked
              ∧ fDisconnect marked = true ∧ id marked = id victim
              ∧ ∀ j node, vNodes !! j = Some node → j ≠ i →
                  (AttemptToEvictConnection prefer vNodes).2 !! j = Some node))
  ∧ (∀ i node, vNodes !! i = Some node → eligible node = false →
       (AttemptToEvictConnection prefer vNodes).2 !! i = Some node).
Proof.
  intros Hids.
  destruct (decide (after_age vNodes = [])) as [H3|H3].
  { rewrite (AttemptToEvictConnection_none prefer vNodes H3). simpl.
    split; [done|]. split; [done|]. split; [done|]. by intros i node Hi _. }
  rewrite (AttemptToEvictConnection_last_part prefer vNodes H3).
  destruct (evict_from_largest_group_eq prefer (after_age vNodes) vNodes H3)
    as (_ & victim & rest & Hgrp & ->).
  assert (Hv3 : victim ∈ after_age vNodes).
  { assert (victim ∈ largest_group (after_age vNodes)) as Hm
      by (rewrite Hgrp; constructor).
    unfold largest_group, group_members in Hm.
    by apply list_elem_of_filter in Hm as [_ Hm]. }
  apply after_age_elem in Hv3 as [Hv Hel].
  destruct ((length (largest_group (after_age vNodes)) <=? 1)%nat && negb prefer); simpl.
  { split; [done|]. split; [done|]. split; [done|]. by intros i node Hi _. }
  split; [unfold disconnect; by rewrite length_fmap|]. split; [done|]. split.
  - intros _. exists victim. split; [done|].
    unfold eligible in Hel.
    apply andb_true_iff in Hel as [Hel Hdis]. apply andb_true_iff in Hel as [Hwl Hinb].
    apply negb_true_iff in Hdis, Hwl.
    split; [done|]. split; [done|]. split; [done|].
    split; [intros i node Hi; by apply disconnect_lookup|].
    split; [intros i node Hi; by apply disconnect_lookup_fields|].
    destruct (victim_place victim vNodes Hids Hv) as (i & Hi & Hothers).
    exists i. eexists. split; [done|].
    rewrite (disconnect_lookup_fields victim vNodes i victim Hids Hv Hi).
    split; [done|]. simpl. rewrite decide_True by done.
    split; [done|]. split; [done|].
    intros j node Hj Hne. rewrite (disconnect_lookup victim vNodes j node Hids Hv Hj).
    rewrite decide_False; [done|]. by apply (Hothers j).
  - intros i node Hi Hne. rewrite (disconnect_lookup victim vNodes i node Hids Hv Hi).
    rewrite decide_False; [done|]. intros ->. congruence.
Qed.

(** X11: the three comparisons handed to [std::sort] meet what the
    standard requires of a comparison, whatever the digest and the secret
    key are: none of them holds of a peer and itself, each is transitive,
    and so is, for each, the relation of two peers neither of which comes
    before the other. *)
Theorem eviction_comparisons_are_orderings :
  sort_requirements CompareNetGroupKeyed
  ∧ sort_requirements ReverseCompareNodeMinPingTime
  ∧ sort_requirements ReverseCompareNodeTimeConnected.
Proof.
  split; [|split]; apply strict_weak_sort_requirements.
  - apply CompareNetGroupKeyed_strict_weak.
  - apply ReverseCompareNodeMinPingTime_strict_weak.
  - apply ReverseCompareNodeTimeConnected_strict_weak.
Qed.

(** *** The peers that count against the inbound limit *)

(** The inbound peers that are not marked for disconnection. *)
Definition live_inbound (vNodes : list CNode) : nat :=
  length (List.filter (λ node, fInbound node && negb (fDisconnect node)) vNodes).

Lemma AttemptToEvictConnection_cases (prefer : bool) (vNodes : list CNode) :
  AttemptToEvictConnection prefer vNodes = (false, vNodes)
  ∨ ∃ victim, victim ∈ vNodes ∧ eligible victim = true
      ∧ AttemptToEvictConnection prefer vNodes = (true, disconnect victim vNodes).
Proof.
  destruct (decide (after_age vNodes = [])) as [H3|H3].
  { left. by apply AttemptToEvictConnection_none. }
  rewrite (AttemptToEvictConnection_last_part prefer vNodes H3).
  destruct (evict_from_largest_group_eq prefer (after_age vNodes) vNodes H3)
    as (_ & victim & rest & Hgrp & ->).
  destruct ((length (largest_group (after_age vNodes)) <=? 1)%nat && negb prefer);
    [by left|].
  right. exists victim.
  assert (Hv3 : victim ∈ after_age vNodes).
  { assert (victim ∈ largest_group (after_age vNodes)) as Hm
      by (rewrite Hgrp; constructor).
    unfold largest_group, group_members in Hm.
    by apply list_elem_of_filter in Hm as [_ Hm]. }
  by apply after_age_elem in Hv3 as [Hv Hel].
Qed.

Lemma live_inbound_cons (x : CNode) (l : list CNode) :
  live_inbound (x :: l)
  = ((if fInbound x && negb (fDisconnect x) then 1 else 0) + live_inbound l)%nat.
Proof.
  unfold live_inbound. simpl. by destruct (fInbound x && negb (fDisconnect x)).
Qed.

Lemma disconnect_cons (victim x : CNode) (l : list CNode) :
  disconnect victim (x :: l)
  = (if id x =? id victim then set_fDisconnect x else x) :: disconnect victim l.
Proof. done. Qed.

Lemma disconnect_live_inbound_le (victim : CNode) (vNodes : list CNode) :
  (live_inbound (disconnect victim vNodes) ≤ live_inbound vNodes)%nat.
Proof.
  induction vNodes as [|x l IH]; [done|].
  rewrite disconnect_cons, !live_inbound_cons.
  destruct (id x =? id victim); simpl.
  - rewrite andb_false_r. destruct (fInbound x && negb (fDisconnect x)); lia.
  - destruct (fInbound x && negb (fDisconnect x)); lia.
Qed.

Lemma disconnect_live_inbound_lt (victim : CNode) (vNodes : list CNode) :
  victim ∈ vNodes → eligible victim = true →
  (live_inbound (disconnect victim vNodes) < live_inbound vNodes)%nat.
Proof.
  intros Hin Hel. unfold eligible in Hel.
  apply andb_true_iff in Hel as [Hel Hdis]. apply andb_true_iff in Hel as [_ Hinb].
  induction vNodes as [|x l IH]; [by apply elem_of_nil in Hin|].
  rewrite disconnect_cons, !live_inbound_cons.
  apply elem_of_cons in Hin as [<-|Hin].
  - pose proof (disconnect_live_inbound_le victim l) as Hle.
    rewrite Z.eqb_refl. simpl. rewrite andb_false_r, Hinb, Hdis. simpl. lia.
  - specialize (IH Hin).
    destruct (id x =? id victim); simpl.
    + rewrite andb_false_r. destruct (fInbound x && negb (fDisconnect x)); lia.
    + destruct (fInbound x && negb (fDisconnect x)); lia.
Qed.

Lemma live_inbound_le_inbound (vNodes : list CNode) :
  (live_inbound vNodes ≤ length (List.filter fInbound vNodes))%nat.
Proof.
  induction vNodes as [|x l IH]; [done|].
  rewrite live_inbound_cons. simpl.
  destruct (fInbound x); simpl; [|lia]. destruct (fDisconnect x); simpl; lia.
Qed.

Lemma live_inbound_snoc (l : list CNode) (x : CNode) :
  live_inbound (l ++ [x])
  = (live_inbound l + (if fInbound x && negb (fDisconnect x) then 1 else 0))%nat.
Proof.
  induction l as [|y l IH]; simpl.
  - rewrite live_inbound_cons. unfold live_inbound. simpl. lia.
  - rewrite !live_inbound_cons, IH. lia.
Qed.

End eviction.
End Eviction.

(** An instance to run the policy on: merge sort for [std::sort] and, for
    the digest, the bytes themselves. *)
Definition example_sort (cmp : Eviction.CNode → Eviction.CNode → bool)
    (v : list Eviction.CNode) : list Eviction.CNode :=
  merge_sort (Eviction.not_after cmp) v.

Definition example_peer (i : Z) (group : byte) (ping connected : Z) : Eviction.CNode :=
  Eviction.mkCNode i [group] false true false ping connected.

(** Thirteen inbound peers, every one in a network group of its own. *)
Definition thirteen_peers : list Eviction.CNode :=
  [example_peer 1 x01 10 100; example_peer 2 x02 20 101; example_peer 3 x03 30 102;
   example_peer 4 x04 40 103; example_peer 5 x05 50 104; example_peer 6 x06 60 105;
   example_peer 7 x07 70 106; example_peer 8 x08 80 107; example_peer 9 x09 90 108;
   example_peer 10 x0a 100 109; example_peer 11 x0b 110 110; example_peer 12 x0c 120 111;
   example_peer 13 x0d 130 112].

Example thirteen_peers_no_eviction :
  Eviction.AttemptToEvictConnection id [] example_sort false thirteen_peers
  = (false, thirteen_peers).
Proof. vm_compute. reflexivity. Qed.

Example thirteen_peers_prefer_new :
  (Eviction.AttemptToEvictConnection id [] example_sort true thirteen_peers).1 = true.
Proof. vm_compute. reflexivity. Qed.

Lemma example_sort_perm (cmp : Eviction.CNode → Eviction.CNode → bool)
    (v : list Eviction.CNode) :
  example_sort cmp v ≡ₚ v.
Proof. apply merge_sort_Permutation. Qed.

Lemma example_sort_sorted (cmp : Eviction.CNode → Eviction.CNode → bool)
    (v : list Eviction.CNode) :
  Eviction.strict_weak cmp →
  StronglySorted (Eviction.not_after cmp) (example_sort cmp v).
Proof. intros [Htotal Htrans]. by apply StronglySorted_merge_sort. Qed.

(** Thirteen candidates and no preference for the new connection: the
    function returns false and changes no peer. *)
Lemma eviction_may_find_no_candidate :
  (12 < length (Eviction.candidates thirteen_peers))%nat
  ∧ Eviction.AttemptToEvictConnection id [] example_sort false thirteen_peers
    = (false, thirteen_peers)
  ∧ ¬ Eviction.evicts_whenever_over_12 id [] example_sort.
Proof.
  split; [vm_compute; lia|]. split; [vm_compute; reflexivity|].
  intros Hall. specialize (Hall false thirteen_peers).
  rewrite (Eviction.thirteen_candidates_none_evicted id [] example_sort
             example_sort_perm thirteen_peers eq_refl) in Hall.
  simpl in Hall. discriminate Hall.
  - compute_done.
  - vm_compute. lia.
Qed.

(** Sixteen inbound peers.  Peers 1 and 2 share a network group, have long
    ping times and are the last ones connected. *)
Definition sixteen_peers : list Eviction.CNode :=
  [example_peer 1 x00 990 500; example_peer 2 x00 980 501;
   example_peer 3 x03 970 100; example_peer 4 x04 960 101;
   example_peer 5 x05 5 105; example_peer 6 x06 6 106;
   example_peer 7 x07 7 107; example_peer 8 x08 8 108;
   example_peer 9 x09 9 109; example_peer 10 x0a 10 110;
   example_peer 11 x0b 11 111; example_peer 12 x0c 12 112;
   example_peer 13 x0d 13 113; example_peer 14 x0e 14 114;
   example_peer 15 x0f 15 115; example_peer 16 x10 16 116].

Example sixteen_peers_evicts_peer_2 :
  Eviction.AttemptToEvictConnection id [] example_sort false sixteen_peers
  = (true, Eviction.disconnect (example_peer 2 x00 980 501) sixteen_peers)
  ∧ Eviction.after_age id [] example_sort sixteen_peers
    = [example_peer 2 x00 980 501; example_peer 1 x00 990 500].
Proof. split; vm_compute; reflexivity. Qed.

Lemma last_part_of_eviction_witness :
  (∀ g, (length (Eviction.group_members g
                   [example_peer 2 x00 980 501; example_peer 1 x00 990 500])
         ≤ length (Eviction.largest_group
                     [example_peer 2 x00 980 501; example_peer 1 x00 990 500]))%nat)
  ∧ ((length (Eviction.largest_group
                [example_peer 2 x00 980 501; example_peer 1 x00 990 500]) ≤ 1)%nat →
     false = false →
     Eviction.evict_from_largest_group false
       [example_peer 2 x00 980 501; example_peer 1 x00 990 500] sixteen_peers
     = (false, sixteen_peers))
  ∧ ((1 < length (Eviction.largest_group
                    [example_peer 2 x00 980 501; example_peer 1 x00 990 500]))%nat
     ∨ false = true →
     ∃ victim before after,
       head (Eviction.largest_group
               [example_peer 2 x00 980 501; example_peer 1 x00 990 500]) = Some victim
       ∧ [example_peer 2 x00 980 501; example_peer 1 x00 990 500]
         = before ++ victim :: after
       ∧ Forall (λ node, Eviction.addr_GetGroup node ≠ Eviction.addr_GetGroup victim)
           before
       ∧ Eviction.evict_from_largest_group false
           [example_peer 2 x00 980 501; example_peer 1 x00 990 500] sixteen_peers
         = (true, Eviction.disconnect victim sixteen_peers)
       ∧ (StronglySorted (Eviction.not_after Eviction.ReverseCompareNodeTimeConnected)
            [example_peer 2 x00 980 501; example_peer 1 x00 990 500] →
          ∀ node,
            node ∈ Eviction.largest_group
                     [example_peer 2 x00 980 501; example_peer 1 x00 990 500] →
            Eviction.nTimeConnected node <= Eviction.nTimeConnected victim)
       ∧ (Eviction.evict_from_largest_group false
            [example_peer 2 x00 980 501; example_peer 1 x00 990 500] sixteen_peers).1
         = true
       ∧ length (Eviction.evict_from_largest_group false
                   [example_peer 2 x00 980 501; example_peer 1 x00 990 500]
                   sixteen_peers).2
         = length sixteen_peers
       ∧ (∀ i node, sixteen_peers !! i = Some node →
            (Eviction.evict_from_largest_group false
               [example_peer 2 x00 980 501; example_peer 1 x00 990 500]
               sixteen_peers).2 !! i
            = Some (Eviction.mkCNode (Eviction.id node) (Eviction.addr_GetGroup node)
                      (Eviction.fWhitelisted node) (Eviction.fInbound node)
                      (if Eviction.id node =? Eviction.id victim then true
                       else Eviction.fDisconnect node)
                      (Eviction.nMinPingUsecTime node) (Eviction.nTimeConnected node)))
       ∧ (Eviction.after_age id [] example_sort sixteen_peers
          = [example_peer 2 x00 980 501; example_peer 1 x00 990 500] →
          Eviction.fDisconnect victim = false
          ∧ ∃ i marked,
              sixteen_peers !! i = Some victim
              ∧ (Eviction.AttemptToEvictConnection id [] example_sort false
                   sixteen_peers).2 !! i = Some marked
              ∧ Eviction.fDisconnect marked = true
              ∧ Eviction.id marked = Eviction.id victim))
  ∧ (Eviction.after_age id [] example_sort sixteen_peers
     = [example_peer 2 x00 980 501; example_peer 1 x00 990 500] →
     Eviction.AttemptToEvictConnection id [] example_sort false sixteen_peers
     = Eviction.evict_from_largest_group false
         [example_peer 2 x00 980 501; example_peer 1 x00 990 500] sixteen_peers).
Proof.
  apply (Eviction.last_part_of_eviction id [] example_sort example_sort_perm false
           [example_peer 2 x00 980 501; example_peer 1 x00 990 500] sixteen_peers).
  discriminate.
Defined.

Lemma eviction_over_12_candidates_witness :
  length (Eviction.protected_by_netgroup id [] example_sort sixteen_peers) = 4%nat
  ∧ length (Eviction.protected_by_ping id [] example_sort sixteen_peers) = 8%nat
  ∧ length (Eviction.protected_by_age id [] example_sort sixteen_peers)
    = (length (Eviction.after_ping id [] example_sort sixteen_peers) / 2)%nat
  ∧ Eviction.after_age id [] example_sort sixteen_peers ≠ []
  ∧ ((Eviction.AttemptToEvictConnection id [] example_sort false sixteen_peers).1 = true
     ↔ false = true
       ∨ (2 ≤ length (Eviction.largest_group
                        (Eviction.after_age id [] example_sort sixteen_peers)))%nat)
  ∧ ((Eviction.AttemptToEvictConnection id [] example_sort false sixteen_peers).1 = false →
     (Eviction.AttemptToEvictConnection id [] example_sort false sixteen_peers).2
     = sixteen_peers)
  ∧ ((Eviction.AttemptToEvictConnection id [] example_sort false sixteen_peers).1 = true →
     ∃ victim,
       head (Eviction.largest_group
               (Eviction.after_age id [] example_sort sixteen_peers)) = Some victim
       ∧ (Eviction.AttemptToEvictConnection id [] example_sort false sixteen_peers).2
         = Eviction.disconnect victim sixteen_peers
       ∧ (∀ i node, sixteen_peers !! i = Some node →
            (Eviction.AttemptToEvictConnection id [] example_sort false sixteen_peers).2
              !! i
            = Some (if decide (node = victim)
                    then Eviction.set_fDisconnect node else node))
       ∧ (∀ i node, sixteen_peers !! i = Some node →
            (Eviction.AttemptToEvictConnection id [] example_sort false sixteen_peers).2
              !! i
            = Some (Eviction.mkCNode (Eviction.id node) (Eviction.addr_GetGroup node)
                      (Eviction.fWhitelisted node) (Eviction.fInbound node)
                      (if decide (node = victim) then true
                       else Eviction.fDisconnect node)
                      (Eviction.nMinPingUsecTime node) (Eviction.nTimeConnected node)))
       ∧ (∃ i marked,
            sixteen_peers !! i = Some victim
            ∧ (Eviction.AttemptToEvictConnection id [] example_sort false
                 sixteen_peers).2 !! i = Some marked
            ∧ Eviction.fDisconnect marked = true
            ∧ Eviction.id marked = Eviction.id victim
            ∧ ∀ j node, sixteen_peers !! j = Some node → j ≠ i →
                (Eviction.AttemptToEvictConnection id [] example_sort false
                   sixteen_peers).2 !! j = Some node)
       ∧ victim ∈ sixteen_peers
       ∧ Eviction.fWhitelisted victim = false ∧ Eviction.fInbound victim = true
       ∧ Eviction.fDisconnect victim = false
       ∧ (victim ∉ Eviction.protected_by_netgroup id [] example_sort sixteen_peers)
       ∧ (victim ∉ Eviction.protected_by_ping id [] example_sort sixteen_peers)
       ∧ (victim ∉ Eviction.protected_by_age id [] example_sort sixteen_peers)
       ∧ (∀ p, p ∈ Eviction.protected_by_netgroup id [] example_sort sixteen_peers →
               Eviction.CompareNetGroupKeyed id [] p victim = false)
       ∧ (∀ p, p ∈ Eviction.protected_by_ping id [] example_sort sixteen_peers →
               Eviction.nMinPingUsecTime p <= Eviction.nMinPingUsecTime victim)
       ∧ (∀ p, p ∈ Eviction.protected_by_age id [] example_sort sixteen_peers →
               Eviction.nTimeConnected p <= Eviction.nTimeConnected victim)).
Proof.
  apply (Eviction.eviction_over_12_candidates id [] example_sort
           example_sort_perm example_sort_sorted false sixteen_peers).
  - compute_done.
  - vm_compute. lia.
Defined.

(** Twelve inbound peers: all are protected. *)
Definition twelve_peers : list Eviction.CNode := take 12 thirteen_peers.

Lemma no_eviction_up_to_12_candidates_witness :
  Eviction.AttemptToEvictConnection id [] example_sort true twelve_peers
  = (false, twelve_peers)
  ∧ Eviction.after_ping id [] example_sort twelve_peers = [].
Proof.
  apply (Eviction.no_eviction_up_to_12_candidates id [] example_sort example_sort_perm
           true twelve_peers).
  vm_compute. lia.
Defined.

Lemma eviction_changes_one_candidate_at_most_witness :
  length (Eviction.AttemptToEvictConnection id [] example_sort false sixteen_peers).2
  = length sixteen_peers
  ∧ ((Eviction.AttemptToEvictConnection id [] example_sort false sixteen_peers).1 = false →
     (Eviction.AttemptToEvictConnection id [] example_sort false sixteen_peers).2
     = sixteen_peers)
  ∧ ((Eviction.AttemptToEvictConnection id [] example_sort false sixteen_peers).1 = true →
     ∃ victim, victim ∈ sixteen_peers
       ∧ Eviction.fInbound victim = true ∧ Eviction.fWhitelisted victim = false
       ∧ Eviction.fDisconnect victim = false
       ∧ (∀ i node, sixteen_peers !! i = Some node →
            (Eviction.AttemptToEvictConnection id [] example_sort false sixteen_peers).2
              !! i
            = Some (if decide (node = victim)
                    then Eviction.set_fDisconnect node else node))
       ∧ (∀ i node, sixteen_peers !! i = Some node →
            (Eviction.AttemptToEvictConnection id [] example_sort false sixteen_peers).2
              !! i
            = Some (Eviction.mkCNode (Eviction.id node) (Eviction.addr_GetGroup node)
                      (Eviction.fWhitelisted node) (Eviction.fInbound node)
                      (if decide (node = victim) then true
                       else Eviction.fDisconnect node)
                      (Eviction.nMinPingUsecTime node) (Eviction.nTimeConnected node)))
       ∧ (∃ i marked,
            sixteen_peers !! i = Some victim
            ∧ (Eviction.AttemptToEvictConnection id [] example_sort false
                 sixteen_peers).2 !! i = Some marked
            ∧ Eviction.fDisconnect marked = true
            ∧ Eviction.id marked = Eviction.id victim
            ∧ ∀ j node, sixteen_peers !! j = Some node → j ≠ i →
                (Eviction.AttemptToEvictConnection id [] example_sort false
                   sixteen_peers).2 !! j = Some node))
  ∧ (∀ i node, sixteen_peers !! i = Some node → Eviction.eligible node = false →
       (Eviction.AttemptToEvictConnection id [] example_sort false sixteen_peers).2 !! i
       = Some node).
Proof.
  apply (Eviction.eviction_changes_one_candidate_at_most id [] example_sort
           example_sort_perm false sixteen_peers).
  compute_done.
Defined.

(** ** The table of local addresses *)

Module LocalHost.

(** [LocalServiceInfo]: the score and the port of a local address. *)
Record LocalServiceInfo := mkLocalServiceInfo {
  nScore : Z;
  nPort : Z
}.

Section localhost.

(** [CNetAddr] with its [GetNetwork], [IsRoutable] and
    [GetReachabilityFrom], the networks of [enum Network] with
    [NET_UNROUTABLE], and the enumerators [LOCAL_NONE] and [LOCAL_MANUAL]:
    all declared outside the sources.  A [CService] is an address and a
    port; as a key of [mapLocalHost] it counts for its address. *)
Context {CNetAddr : Type} `{Countable CNetAddr}.
Context {Network : Type} `{EqDecision Network}.
Variable NET_UNROUTABLE : Network.
Variable GetNetwork : CNetAddr → Network.
Variable IsRoutable : CNetAddr → bool.
Variable GetReachabilityFrom : CNetAddr → option CNetAddr → Z.
Variable LOCAL_NONE : Z.
Variable LOCAL_MANUAL : Z.

Definition CService : Type := CNetAddr * Z.

(** The entries of [mapLocalHost] from [begin()] to [end()]: the order is
    that of [operator<] on [CNetAddr]. *)
Variable begin_to_end :
  gmap CNetAddr LocalServiceInfo → list (CNetAddr * LocalServiceInfo).
Hypothesis begin_to_end_entries : ∀ m, begin_to_end m ≡ₚ map_to_list m.

(** The globals [fDiscover], [fListen], [mapLocalHost] and [vfLimited]. *)
Record State := mkState {
  fDiscover : bool;
  fListen : bool;
  mapLocalHost : gmap CNetAddr LocalServiceInfo;
  vfLimited : Network → bool
}.

(** [IsLimited(enum Network)], [IsLimited(const CNetAddr&)],
    [IsReachable(enum Network)] and [IsReachable(const CNetAddr&)]. *)
Definition IsLimited_net (st : State) (net : Network) : bool := vfLimited st net.

Definition IsLimited (st : State) (addr : CNetAddr) : bool :=
  IsLimited_net st (GetNetwork addr).

Definition IsReachable_net (st : State) (net : Network) : bool :=
  negb (vfLimited st net).

Definition IsReachable (st : State) (addr : CNetAddr) : bool :=
  let net := GetNetwork addr in IsReachable_net st net.

(** [SetLimited]. *)
Definition SetLimited (st : State) (net : Network) (fLimited : bool) : State :=
  if bool_decide (net = NET_UNROUTABLE) then st
  else mkState (fDiscover st) (fListen st) (mapLocalHost st)
         (λ n, if bool_decide (n = net) then fLimited else vfLimited st n).

(** [mapLocalHost.count(addr)]. *)
Definition count (st : State) (addr : CNetAddr) : Z :=
  match mapLocalHost st !! addr with Some _ => 1 | None => 0 end.

(** [IsLocal]. *)
Definition IsLocal (st : State) (addr : CService) : bool := 0 <? count st addr.1.

(** [AddLocal(const CService&, int)]: [mapLocalHost[addr]] makes an entry
    of zeros when there is none. *)
Definition AddLocal (st : State) (addr : CService) (nScore' : Z) : bool * State :=
  if negb (IsRoutable addr.1) then (false, st)
  else if negb (fDiscover st) && (nScore' <? LOCAL_MANUAL) then (false, st)
  else if IsLimited st addr.1 then (false, st)
  else
    let fAlready := 0 <? count st addr.1 in
    let info := default (mkLocalServiceInfo 0 0) (mapLocalHost st !! addr.1) in
    let info :=
      if negb fAlready || (nScore' >=? nScore info)
      then mkLocalServiceInfo (nScore' + (if fAlready then 1 else 0)) addr.2
      else info in
    (true, mkState (fDiscover st) (fListen st)
             (<[addr.1 := info]> (mapLocalHost st)) (vfLimited st)).

(** [AddLocal(const CNetAddr&, int)], with the port of [GetListenPort()]. *)
Definition AddLocal_addr (GetListenPort : Z) (st : State) (addr : CNetAddr)
    (nScore' : Z) : bool * State :=
  AddLocal st (addr, GetListenPort) nScore'.

(** [RemoveLocal]. *)
Definition RemoveLocal (st : State) (addr : CService) : bool * State :=
  (true, mkState (fDiscover st) (fListen st)
           (delete addr.1 (mapLocalHost st)) (vfLimited st)).

(** [SeenLocal]. *)
Definition SeenLocal (st : State) (addr : CService) : bool * State :=
  match mapLocalHost st !! addr.1 with
  | None => (false, st)
  | Some info =>
      (true, mkState (fDiscover st) (fListen st)
               (<[addr.1 := mkLocalServiceInfo (nScore info + 1) (nPort info)]>
                  (mapLocalHost st))
               (vfLimited st))
  end.

(** [GetnScore]: the score and the table afterwards, [mapLocalHost[addr]]
    making an entry when there is none. *)
Definition GetnScore (st : State) (addr : CService) : Z * State :=
  if count st addr.1 =? LOCAL_NONE then (0, st)
  else
    match mapLocalHost st !! addr.1 with
    | Some info => (nScore info, st)
    | None =>
        (0, mkState (fDiscover st) (fListen st)
              (<[addr.1 := mkLocalServiceInfo 0 0]> (mapLocalHost st)) (vfLimited st))
    end.

(** The variables of the loop of [GetLocal]. *)
Record Best := mkBest {
  best_addr : CService;
  nBestScore : Z;
  nBestReachability : Z
}.

(** One turn of the loop of [GetLocal]. *)
Definition GetLocal_turn (paddrPeer : option CNetAddr) (b : Best)
    (it : CNetAddr * LocalServiceInfo) : Best :=
  let nScore' := nScore it.2 in
  let nReachability := GetReachabilityFrom it.1 paddrPeer in
  if (nReachability >? nBestReachability b)
     || ((nReachability =? nBestReachability b) && (nScore' >? nBestScore b))
  then mkBest (it.1, nPort it.2) nScore' nReachability
  else b.

(** [GetLocal(addr, paddrPeer)]: the value returned and [addr]
    afterwards. *)
Definition GetLocal (st : State) (addr : CService) (paddrPeer : option CNetAddr)
    : bool * CService :=
  if negb (fListen st) then (false, addr)
  else
    let b := fold_left (GetLocal_turn paddrPeer) (begin_to_end (mapLocalHost st))
               (mkBest addr (-1) (-1)) in
    (nBestScore b >=? 0, best_addr b).

(** A call on the table. *)
Inductive Call :=
| CallAddLocal (addr : CService) (nScore' : Z)
| CallSeenLocal (addr : CService)
| CallRemoveLocal (addr : CService)
| CallSetLimited (net : Network) (fLimited : bool).

Definition call (st : State) (c : Call) : State :=
  match c with
  | CallAddLocal addr nScore' => (AddLocal st addr nScore').2
  | CallSeenLocal addr => (SeenLocal st addr).2
  | CallRemoveLocal addr => (RemoveLocal st addr).2
  | CallSetLimited net fLimited => SetLimited st net fLimited
  end.

Definition calls (st : State) (cs : list Call) : State := fold_left call cs st.

(** The score of an address of the table. *)
Definition score (st : State) (addr : CNetAddr) : option Z :=
  nScore <$> mapLocalHost st !! addr.

(** [(r1, s1)] comes before [(r2, s2)], or is it: first by reachability,
    then by score. *)
Definition lex_le (r1 s1 r2 s2 : Z) : Prop := r1 < r2 ∨ (r1 = r2 ∧ s1 <= s2).

(** *** Lemmas *)

Lemma count_pos (st : State) (a : CNetAddr) :
  (0 <? count st a) = bool_decide (is_Some (mapLocalHost st !! a)).
Proof.
  unfold count. destruct (mapLocalHost st !! a).
  - by rewrite bool_decide_eq_true_2.
  - rewrite bool_decide_eq_false_2; [done|]. by intros [? ?].
Qed.

(** The score [AddLocal] leaves for the address, from the score it had. *)
Definition learnt_score (old : option Z) (nScore' : Z) : Z :=
  match old with
  | None => nScore'
  | Some old => if nScore' >=? old then nScore' + 1 else old
  end.

Lemma AddLocal_accepted (st : State) (addr : CService) (n : Z) :
  (AddLocal st addr n).1 = true →
  score (AddLocal st addr n).2 addr.1 = Some (learnt_score (score st addr.1) n)
  ∧ (∀ a, a ≠ addr.1 →
       mapLocalHost (AddLocal st addr n).2 !! a = mapLocalHost st !! a)
  ∧ vfLimited (AddLocal st addr n).2 = vfLimited st.
Proof.
  unfold AddLocal.
  destruct (negb (IsRoutable addr.1)); [done|].
  destruct (negb (fDiscover st) && (n <? LOCAL_MANUAL)); [done|].
  destruct (IsLimited st addr.1); [done|].
  intros _. cbv zeta. simpl. unfold score. simpl. rewrite lookup_insert_eq.
  split; [|split; [|done]].
  - unfold count. destruct (mapLocalHost st !! addr.1) as [info|]; simpl.
    + by destruct (n >=? nScore info).
    + by rewrite Z.add_0_r.
  - intros a Ha. by rewrite lookup_insert_ne.
Qed.

Lemma AddLocal_refused (st : State) (addr : CService) (n : Z) :
  (AddLocal st addr n).1 = false → (AddLocal st addr n).2 = st.
Proof.
  unfold AddLocal.
  destruct (negb (IsRoutable addr.1)); [done|].
  destruct (negb (fDiscover st) && (n <? LOCAL_MANUAL)); [done|].
  by destruct (IsLimited st addr.1).
Qed.

Lemma learnt_score_ge (old : option Z) (n : Z) :
  n <= learnt_score old n ∧ ∀ o, old = Some o → o <= learnt_score old n.
Proof.
  unfold learnt_score. destruct old as [o|].
  - destruct (Z.geb_spec n o); split; try lia; intros ? [= <-]; lia.
  - split; [lia|done].
Qed.

(** A call that is not a removal of [a] keeps [a] in the table and does
    not lower its score. *)
Lemma call_score (st : State) (c : Call) (a : CNetAddr) (old : Z) :
  (∀ addr, c = CallRemoveLocal addr → addr.1 ≠ a) →
  score st a = Some old →
  ∃ new, score (call st c) a = Some new ∧ old <= new.
Proof.
  intros Hc Hold. destruct c as [addr n|addr|addr|net b]; simpl.
  - destruct (AddLocal st addr n).1 eqn:Hr.
    + destruct (AddLocal_accepted st addr n Hr) as (Hs & Hothers & _).
      destruct (decide (a = addr.1)) as [->|Hne].
      * rewrite Hs. eexists. split; [done|].
        by apply (learnt_score_ge (score st addr.1) n).
      * exists old. split; [|lia]. unfold score in *. by rewrite Hothers.
    + rewrite (AddLocal_refused st addr n Hr). exists old. split; [done|lia].
  - unfold SeenLocal. destruct (mapLocalHost st !! addr.1) as [info|] eqn:Hi; simpl.
    + destruct (decide (a = addr.1)) as [->|Hne].
      * unfold score in *. simpl. rewrite lookup_insert_eq. simpl.
        rewrite Hi in Hold. injection Hold as <-. eexists. split; [done|lia].
      * exists old. split; [|lia]. unfold score in *. simpl.
        by rewrite lookup_insert_ne.
    + exists old. split; [done|lia].
  - exists old. split; [|lia]. unfold score in *. simpl.
    rewrite lookup_delete_ne; [done|]. by apply Hc.
  - exists old. split; [|lia]. unfold score, SetLimited in *.
    by destruct (bool_decide (net = NET_UNROUTABLE)).
Qed.

Lemma call_unroutable (st : State) (c : Call) :
  vfLimited (call st c) NET_UNROUTABLE = vfLimited st NET_UNROUTABLE.
Proof.
  destruct c as [addr n|addr|addr|net b]; simpl.
  - destruct (AddLocal st addr n).1 eqn:Hr.
    + by destruct (AddLocal_accepted st addr n Hr) as (_ & _ & ->).
    + by rewrite (AddLocal_refused st addr n Hr).
  - unfold SeenLocal. by destruct (mapLocalHost st !! addr.1).
  - done.
  - unfold SetLimited. case_bool_decide as Hn; [done|]. simpl.
    rewrite bool_decide_eq_false_2; [done|]. by intros <-.
Qed.

(** *** The properties *)

(** X12: [AddLocal] refuses an address, and leaves the table as it is,
    exactly when the address is not routable, or discovery is off and the
    score is below [LOCAL_MANUAL], or the network of the address is limited.
    Otherwise it returns true and the address is local afterwards, with a
    score that is at least the score given and at least the score it had:
    the score given for a new address, the score given plus one when it is
    not below the old score, else the old score; the port is that of the
    call when the score has been written, else the old one.  The other
    addresses and the limits are as they were. *)
Theorem AddLocal_learns_and_lowers_no_score (st : State) (addr : CService) (n : Z) :
  ((AddLocal st addr n).1 = false
   ↔ IsRoutable addr.1 = false
     ∨ (fDiscover st = false ∧ n < LOCAL_MANUAL)
     ∨ IsLimited st addr.1 = true)
  ∧ ((AddLocal st addr n).1 = false → (AddLocal st addr n).2 = st)
  ∧ ((AddLocal st addr n).1 = true →
       IsLocal (AddLocal st addr n).2 addr = true
       ∧ score (AddLocal st addr n).2 addr.1
         = Some (learnt_score (score st addr.1) n)
       ∧ n <= learnt_score (score st addr.1) n
       ∧ (∀ old, score st addr.1 = Some old → old <= learnt_score (score st addr.1) n)
       ∧ (nPort <$> mapLocalHost (AddLocal st addr n).2 !! addr.1
          = match mapLocalHost st !! addr.1 with
            | Some info => Some (if n >=? nScore info then addr.2 else nPort info)
            | None => Some addr.2
            end)
       ∧ (∀ a, a ≠ addr.1 →
            mapLocalHost (AddLocal st addr n).2 !! a = mapLocalHost st !! a)
       ∧ vfLimited (AddLocal st addr n).2 = vfLimited st).
Proof.
  split; [|split; [apply AddLocal_refused|]].
  - unfold AddLocal.
    destruct (IsRoutable addr.1); simpl; [|by split; [left|]].
    destruct (fDiscover st); simpl.
    + destruct (IsLimited st addr.1); simpl; [by split; [right; right|]|].
      split; [done|]. intros [?|[[? _]|?]]; done.
    + destruct (Z.ltb_spec n LOCAL_MANUAL); simpl; [by split; [right; left|]|].
      destruct (IsLimited st addr.1); simpl; [by split; [right; right|]|].
      split; [done|]. intros [?|[[_ ?]|?]]; (done || lia).
  - intros Hr. destruct (AddLocal_accepted st addr n Hr) as (Hs & Hothers & Hlim).
    destruct (learnt_score_ge (score st addr.1) n) as [Hn Hold].
    split; [|split; [done|split; [done|split; [done|split; [|done]]]]].
    + unfold IsLocal. rewrite count_pos. apply bool_decide_eq_true_2.
      unfold score in Hs. destruct (mapLocalHost _ !! addr.1); [by eexists|done].
    + revert Hr. unfold AddLocal.
      destruct (negb (IsRoutable addr.1)); [done|].
      destruct (negb (fDiscover st) && (n <? LOCAL_MANUAL)); [done|].
      destruct (IsLimited st addr.1); [done|].
      intros _. cbv zeta. simpl. rewrite lookup_insert_eq. simpl.
      unfold count. destruct (mapLocalHost st !! addr.1) as [info|]; simpl; [|done].
      by destruct (n >=? nScore info).
Qed.

(** X13: the score of a local address only grows.  Over any sequence of
    calls of [AddLocal], [SeenLocal], [SetLimited] and [RemoveLocal] in
    which the address is not removed, an address of the table stays in the
    table and its score is never below what it was.  [SeenLocal] returns
    whether the address is local, raising its score by one when it is and
    changing nothing when it is not, and with [LOCAL_NONE] being 0
    [GetnScore] reads the score, 0 for an address that is not local, without
    writing to the table. *)
Theorem local_scores_only_grow (st : State) (cs : list Call) (a : CNetAddr) (old : Z) :
  (∀ addr, CallRemoveLocal addr ∈ cs → addr.1 ≠ a) →
  score st a = Some old →
  (∃ new, score (calls st cs) a = Some new ∧ old <= new)
  ∧ (∀ port, (SeenLocal st (a, port)).1 = true
             ∧ score (SeenLocal st (a, port)).2 a = Some (old + 1)
             ∧ nPort <$> mapLocalHost (SeenLocal st (a, port)).2 !! a
               = nPort <$> mapLocalHost st !! a)
  ∧ (∀ addr, IsLocal st addr = false → SeenLocal st addr = (false, st))
  ∧ (LOCAL_NONE = 0 →
       ∀ addr, GetnScore st addr = (default 0 (score st addr.1), st)).
Proof.
  intros Hcs Hold. split; [|split; [|split]].
  - revert st old Hold. induction cs as [|c cs IH]; intros st old Hold.
    + exists old. split; [done|lia].
    + destruct (call_score st c a old) as (mid & Hmid & Hle); [|done|].
      { intros addr ->. apply Hcs. constructor. }
      destruct (IH (λ addr Hin, Hcs addr (list_elem_of_further _ _ _ Hin)) (call st c) mid Hmid)
        as (new & Hnew & Hle').
      exists new. split; [done|lia].
  - intros port. unfold SeenLocal, score in *. simpl.
    destruct (mapLocalHost st !! a) as [info|]; [|done]. simpl in *.
    injection Hold as <-. rewrite lookup_insert_eq. done.
  - intros addr. unfold IsLocal, SeenLocal. rewrite count_pos.
    destruct (mapLocalHost st !! addr.1); [|done].
    rewrite bool_decide_eq_true_2; [done|by eexists].
  - intros H0 addr. unfold GetnScore, count, score. rewrite H0.
    by destruct (mapLocalHost st !! addr.1).
Qed.

(** X14: [SetLimited] does nothing for [NET_UNROUTABLE], so no sequence of
    calls changes whether that network is limited or reachable; for any
    other network it sets the limit of that network and of no other, and a
    network is reachable exactly when it is not limited. *)
Theorem unroutable_network_keeps_its_limit (st : State) (cs : list Call)
    (net : Network) (fLimited : bool) :
  IsLimited_net (calls st cs) NET_UNROUTABLE = IsLimited_net st NET_UNROUTABLE
  ∧ IsReachable_net (calls st cs) NET_UNROUTABLE = IsReachable_net st NET_UNROUTABLE
  ∧ SetLimited st NET_UNROUTABLE fLimited = st
  ∧ (net ≠ NET_UNROUTABLE → IsLimited_net (SetLimited st net fLimited) net = fLimited)
  ∧ (∀ n, n ≠ net →
       IsLimited_net (SetLimited st net fLimited) n = IsLimited_net st n)
  ∧ (∀ addr, IsReachable (SetLimited st net fLimited) addr
             = negb (IsLimited (SetLimited st net fLimited) addr))
  ∧ mapLocalHost (SetLimited st net fLimited) = mapLocalHost st.
Proof.
  assert (Hkeep : vfLimited (calls st cs) NET_UNROUTABLE = vfLimited st NET_UNROUTABLE).
  { unfold calls. revert st. induction cs as [|c cs IH]; intros st; [done|].
    simpl. rewrite IH. apply call_unroutable. }
  unfold IsLimited_net, IsReachable_net.
  split; [done|]. split; [by rewrite Hkeep|].
  split; [unfold SetLimited; by rewrite bool_decide_eq_true_2|].
  split; [|split; [|split]].
  - intros Hne. unfold SetLimited. rewrite bool_decide_eq_false_2 by done. simpl.
    by rewrite bool_decide_eq_true_2.
  - intros n Hn. unfold SetLimited. case_bool_decide; [done|]. simpl.
    by rewrite bool_decide_eq_false_2.
  - done.
  - unfold SetLimited. by case_bool_decide.
Qed.

(** *** The best local address *)

Lemma lex_le_trans (r1 s1 r2 s2 r3 s3 : Z) :
  lex_le r1 s1 r2 s2 → lex_le r2 s2 r3 s3 → lex_le r1 s1 r3 s3.
Proof. unfold lex_le. lia. Qed.

(** A turn of the loop takes the entry when it comes strictly after the
    best one so far, and then the best one so far comes before it. *)
Lemma GetLocal_turn_cases (paddrPeer : option CNetAddr) (b : Best)
    (it : CNetAddr * LocalServiceInfo) :
  (GetLocal_turn paddrPeer b it = b
   ∧ lex_le (GetReachabilityFrom it.1 paddrPeer) (nScore it.2)
       (nBestReachability b) (nBestScore b))
  ∨ (GetLocal_turn paddrPeer b it
     = mkBest (it.1, nPort it.2) (nScore it.2) (GetReachabilityFrom it.1 paddrPeer)
     ∧ lex_le (nBestReachability b) (nBestScore b)
         (GetReachabilityFrom it.1 paddrPeer) (nScore it.2)).
Proof.
  unfold GetLocal_turn, lex_le. cbv zeta.
  destruct (Z.gtb_spec (GetReachabilityFrom it.1 paddrPeer) (nBestReachability b));
    simpl; [right; split; [done|lia]|].
  destruct (Z.eqb_spec (GetReachabilityFrom it.1 paddrPeer) (nBestReachability b));
    simpl; [|left; split; [done|lia]].
  destruct (Z.gtb_spec (nScore it.2) (nBestScore b));
    [right; split; [done|lia]|left; split; [done|lia]].
Qed.

(** What the loop has established after the entries [l]. *)
Definition best_of (paddrPeer : option CNetAddr) (b0 : Best)
    (l : list (CNetAddr * LocalServiceInfo)) (b : Best) : Prop :=
  Forall (λ it, lex_le (GetReachabilityFrom it.1 paddrPeer) (nScore it.2)
                  (nBestReachability b) (nBestScore b)) l
  ∧ (b = b0
     ∨ ∃ it, it ∈ l
         ∧ b = mkBest (it.1, nPort it.2) (nScore it.2)
                 (GetReachabilityFrom it.1 paddrPeer)).

Lemma GetLocal_loop (paddrPeer : option CNetAddr) (b0 : Best)
    (rest : list (CNetAddr * LocalServiceInfo)) :
  ∀ (l : list (CNetAddr * LocalServiceInfo)) (b : Best),
    best_of paddrPeer b0 l b →
    best_of paddrPeer b0 (l ++ rest) (fold_left (GetLocal_turn paddrPeer) rest b).
Proof.
  induction rest as [|it rest IH]; intros l b Hb; simpl.
  - by rewrite app_nil_r.
  - replace (l ++ it :: rest) with ((l ++ [it]) ++ rest) by by rewrite <- app_assoc.
    apply IH. destruct Hb as [Hall Hwho].
    destruct (GetLocal_turn_cases paddrPeer b it) as [[-> Hle]|[-> Hle]].
    + split.
      * apply Forall_app. split; [done|]. by apply Forall_singleton.
      * destruct Hwho as [->|(it' & Hin & ->)]; [by left|].
        right. exists it'. split; [|done]. apply elem_of_app. by left.
    + split.
      * apply Forall_app. split.
        -- eapply Forall_impl; [exact Hall|]. simpl. intros it' Hle'.
           by eapply lex_le_trans.
        -- apply Forall_singleton. simpl. unfold lex_le. lia.
      * right. exists it. split; [|done]. apply elem_of_app. right. constructor.
Qed.

(** X15: [GetLocal] fails, leaving [addr] as it is, when the node does not
    listen and when the table is empty.  When the node listens, either no
    entry of the table comes after the pair (-1, -1) of the start, and the
    call fails leaving [addr] as it is; or [addr] is an entry of the table,
    with its port, that no entry of the table comes after, by reachability
    from the peer first and by score second, and the call succeeds exactly
    when the score of that entry is not negative.  An address the call
    succeeds with is local. *)
Theorem GetLocal_gives_a_best_address (st : State) (addr0 : CService)
    (paddrPeer : option CNetAddr) :
  (fListen st = false → GetLocal st addr0 paddrPeer = (false, addr0))
  ∧ (mapLocalHost st = ∅ → GetLocal st addr0 paddrPeer = (false, addr0))
  ∧ (fListen st = true →
       (GetLocal st addr0 paddrPeer = (false, addr0)
        ∧ ∀ k info, mapLocalHost st !! k = Some info →
            lex_le (GetReachabilityFrom k paddrPeer) (nScore info) (-1) (-1))
       ∨ (∃ k info, mapLocalHost st !! k = Some info
            ∧ GetLocal st addr0 paddrPeer = (nScore info >=? 0, (k, nPort info))
            ∧ ∀ k' info', mapLocalHost st !! k' = Some info' →
                lex_le (GetReachabilityFrom k' paddrPeer) (nScore info')
                  (GetReachabilityFrom k paddrPeer) (nScore info)))
  ∧ ((GetLocal st addr0 paddrPeer).1 = true →
       IsLocal st (GetLocal st addr0 paddrPeer).2 = true).
Proof.
  assert (Hin : ∀ k info, (k, info) ∈ begin_to_end (mapLocalHost st)
                          ↔ mapLocalHost st !! k = Some info).
  { intros k info. rewrite begin_to_end_entries. apply elem_of_map_to_list. }
  assert (Hloop : best_of paddrPeer (mkBest addr0 (-1) (-1))
                    (begin_to_end (mapLocalHost st))
                    (fold_left (GetLocal_turn paddrPeer) (begin_to_end (mapLocalHost st))
                       (mkBest addr0 (-1) (-1)))).
  { apply (GetLocal_loop paddrPeer _ _ []). split; [constructor|by left]. }
  assert (Hlisten : fListen st = true →
       (GetLocal st addr0 paddrPeer = (false, addr0)
        ∧ ∀ k info, mapLocalHost st !! k = Some info →
            lex_le (GetReachabilityFrom k paddrPeer) (nScore info) (-1) (-1))
       ∨ (∃ k info, mapLocalHost st !! k = Some info
            ∧ GetLocal st addr0 paddrPeer = (nScore info >=? 0, (k, nPort info))
            ∧ ∀ k' info', mapLocalHost st !! k' = Some info' →
                lex_le (GetReachabilityFrom k' paddrPeer) (nScore info')
                  (GetReachabilityFrom k paddrPeer) (nScore info))).
  { intros Hl. unfold GetLocal. rewrite Hl. simpl.
    destruct Hloop as [Hall Hwho]. rewrite Forall_forall in Hall.
    destruct Hwho as [Hb|([k info] & Hit & Hb)]; rewrite Hb in *; simpl in *.
    - left. split; [done|]. intros k info Hk.
      apply (Hall (k, info)). by apply Hin.
    - right. exists k, info. split; [by apply Hin|]. split; [done|].
      intros k' info' Hk'. apply (Hall (k', info')). by apply Hin. }
  split; [|split; [|split; [done|]]].
  - intros Hl. unfold GetLocal. by rewrite Hl.
  - intros Hempty. unfold GetLocal. destruct (fListen st); [|done]. simpl.
    assert (begin_to_end (mapLocalHost st) = []) as ->; [|done].
    apply Permutation_nil_r. rewrite begin_to_end_entries, Hempty.
    by rewrite map_to_list_empty.
  - destruct (fListen st) eqn:Hl; [|unfold GetLocal; by rewrite Hl].
    destruct (Hlisten eq_refl) as [[-> _]|(k & info & Hk & -> & _)]; [done|].
    intros _. simpl. unfold IsLocal. rewrite count_pos.
    apply bool_decide_eq_true_2. by eexists.
Qed.

End localhost.
End LocalHost.

(** A table with two local addresses, no limited network, and calls that
    learn the first address again, see it, and remove another one.  The
    networks are numbered, 0 being the unroutable one. *)
Definition local_example_state : LocalHost.State (CNetAddr := string) (Network := nat) :=
  LocalHost.mkState true true
    {[ "203.0.113.5" := LocalHost.mkLocalServiceInfo 1 8233;
       "2001:db8::7" := LocalHost.mkLocalServiceInfo 4 8233 ]}
    (λ _, false).

Definition local_example_calls : list (LocalHost.Call (CNetAddr := string) (Network := nat)) :=
  [LocalHost.CallAddLocal ("203.0.113.5", 8233) 4;
   LocalHost.CallSeenLocal ("203.0.113.5", 8233);
   LocalHost.CallRemoveLocal ("198.51.100.1", 8233)].

Example local_example_scores :
  LocalHost.score
    (LocalHost.calls 0%nat (λ _, 1%nat) (λ _, true) 4 local_example_state
       local_example_calls)
    "203.0.113.5"
  = Some 6.
Proof. vm_compute. reflexivity. Qed.

Lemma local_scores_only_grow_witness :
  (∃ new,
     LocalHost.score
       (LocalHost.calls 0%nat (λ _, 1%nat) (λ _, true) 4 local_example_state
          local_example_calls)
       "203.0.113.5"
     = Some new ∧ 1 <= new)
  ∧ (∀ port,
       (LocalHost.SeenLocal local_example_state ("203.0.113.5", port)).1 = true
       ∧ LocalHost.score (LocalHost.SeenLocal local_example_state ("203.0.113.5", port)).2
           "203.0.113.5"
         = Some (1 + 1)
       ∧ LocalHost.nPort
           <$> LocalHost.mapLocalHost
                 (LocalHost.SeenLocal local_example_state ("203.0.113.5", port)).2
               !! "203.0.113.5"
         = LocalHost.nPort <$> LocalHost.mapLocalHost local_example_state !! "203.0.113.5")
  ∧ (∀ addr, LocalHost.IsLocal local_example_state addr = false →
             LocalHost.SeenLocal local_example_state addr = (false, local_example_state))
  ∧ (0 = 0 →
     ∀ addr, LocalHost.GetnScore 0 local_example_state addr
             = (default 0 (LocalHost.score local_example_state addr.1),
                local_example_state)).
Proof.
  apply (LocalHost.local_scores_only_grow 0%nat (λ _, 1%nat) (λ _, true) 0 4
           local_example_state local_example_calls "203.0.113.5" 1).
  - intros addr Hin. unfold local_example_calls in Hin.
    apply elem_of_cons in Hin as [Hin|Hin]; [done|].
    apply elem_of_cons in Hin as [Hin|Hin]; [done|].
    apply list_elem_of_singleton in Hin. injection Hin as ->. done.
  - vm_compute. reflexivity.
Defined.

(** The reachability of an address is taken to be the length of its text:
    the second address of the table is the best one. *)
Example local_example_best :
  LocalHost.GetLocal (λ a _, Z.of_nat (String.length a)) map_to_list
    local_example_state ("0.0.0.0", 0) None
  = (true, ("2001:db8::7", 8233)).
Proof. vm_compute. reflexivity. Qed.

Lemma GetLocal_gives_a_best_address_witness :
  (LocalHost.fListen local_example_state = false →
   LocalHost.GetLocal (λ a _, Z.of_nat (String.length a)) map_to_list
     local_example_state ("0.0.0.0", 0) None = (false, ("0.0.0.0", 0)))
  ∧ (LocalHost.mapLocalHost local_example_state = ∅ →
     LocalHost.GetLocal (λ a _, Z.of_nat (String.length a)) map_to_list
       local_example_state ("0.0.0.0", 0) None = (false, ("0.0.0.0", 0)))
  ∧ (LocalHost.fListen local_example_state = true →
     (LocalHost.GetLocal (λ a _, Z.of_nat (String.length a)) map_to_list
        local_example_state ("0.0.0.0", 0) None = (false, ("0.0.0.0", 0))
      ∧ ∀ k info, LocalHost.mapLocalHost local_example_state !! k = Some info →
          LocalHost.lex_le (Z.of_nat (String.length k)) (LocalHost.nScore info) (-1) (-1))
     ∨ (∃ k info, LocalHost.mapLocalHost local_example_state !! k = Some info
          ∧ LocalHost.GetLocal (λ a _, Z.of_nat (String.length a)) map_to_list
              local_example_state ("0.0.0.0", 0) None
            = (LocalHost.nScore info >=? 0, (k, LocalHost.nPort info))
          ∧ ∀ k' info', LocalHost.mapLocalHost local_example_state !! k' = Some info' →
              LocalHost.lex_le (Z.of_nat (String.length k')) (LocalHost.nScore info')
                (Z.of_nat (String.length k)) (LocalHost.nScore info)))
  ∧ ((LocalHost.GetLocal (λ a _, Z.of_nat (String.length a)) map_to_list
        local_example_state ("0.0.0.0", 0) None).1 = true →
     LocalHost.IsLocal local_example_state
       (LocalHost.GetLocal (λ a _, Z.of_nat (String.length a)) map_to_list
          local_example_state ("0.0.0.0", 0) None).2 = true).
Proof.
  apply (LocalHost.GetLocal_gives_a_best_address
           (λ a _, Z.of_nat (String.length a)) map_to_list (λ m, reflexivity _)
           local_example_state ("0.0.0.0", 0) None).
Defined.

(** ** The send queue *)

Module SendQueue.

(** The value of a [size_t] or [uint64_t] expression, both 64 bits wide. *)
Definition uint64 (z : Z) : Z := z mod 2 ^ 64.

(** The members of a peer that sending touches: the socket ([hSocket] not
    null, and whether it carries a secured channel), [fDisconnect],
    [vRecvMsg], the stream [ssSend] a message is built in, the queue
    [vSendMsg] with its counters; with them the counter [nTotalBytesSent] of
    the connection manager and [wire], the bytes the socket has taken so
    far, in order. *)
Record State := mkState {
  hSocket : bool;
  ssl : bool;
  fDisconnect : bool;
  vRecvMsg : list Framer.CNetMessage;
  ssSend : list byte;
  vSendMsg : list (list byte);
  nSendOffset : Z;
  nSendSize : Z;
  nSendBytes : Z;
  nLastSend : Z;
  nTotalBytesSent : Z;
  wire : list byte
}.

Section sendqueue.

(** What the [i]-th call of [Send] of a run meets: the value [Send]
    returns for the bytes it is given, the error code read after a failure
    ([SSL_get_error] on a secured channel, [WSAGetLastError] otherwise), the
    clock, and whether [TRY_LOCK(cs_vRecvMsg)] succeeds. *)
Variable Send : nat → list byte → Z.
Variable error_code : nat → Z.
Variable GetTime : nat → Z.
Variable lockRecv : nat → bool.

(** The error codes that do not close the connection, declared outside the
    sources. *)
Variable SSL_ERROR_WANT_READ : Z.
Variable SSL_ERROR_WANT_WRITE : Z.
Variable WSAEWOULDBLOCK : Z.
Variable WSAEMSGSIZE : Z.
Variable WSAEINTR : Z.
Variable WSAEINPROGRESS : Z.

(** The digest of [Hash]. *)
Variable Hash : list byte → list byte.

(** [CNode::CloseSocketDisconnect], the shutdown of the secured channel
    left out. *)
Definition CloseSocketDisconnect (fLockRecv : bool) (st : State) : State :=
  mkState false (ssl st) true (if fLockRecv then [] else vRecvMsg st)
    (ssSend st) (vSendMsg st) (nSendOffset st) (nSendSize st) (nSendBytes st)
    (nLastSend st) (nTotalBytesSent st) (wire st).

(** [pnode->GetSSL() != nullptr]. *)
Definition GetSSL (st : State) : bool := hSocket st && ssl st.

(** The four assignments after [nBytes > 0], with the bytes the socket has
    taken. *)
Definition some_bytes_sent (st : State) (now nBytes : Z) (taken : list byte) : State :=
  mkState (hSocket st) (ssl st) (fDisconnect st) (vRecvMsg st) (ssSend st) (vSendMsg st)
    (uint64 (nSendOffset st + nBytes)) (nSendSize st)
    (uint64 (nSendBytes st + nBytes)) now
    (uint64 (nTotalBytesSent st + nBytes)) (wire st ++ taken).

(** [nSendOffset = 0; nSendSize -= data.size()]. *)
Definition whole_message_sent (st : State) (size : Z) : State :=
  mkState (hSocket st) (ssl st) (fDisconnect st) (vRecvMsg st) (ssSend st) (vSendMsg st)
    0 (uint64 (nSendSize st - size))
    (nSendBytes st) (nLastSend st) (nTotalBytesSent st) (wire st).

(** The branch [nBytes <= 0]. *)
Definition send_failed (i : nat) (st : State) : State :=
  let nRet := error_code i in
  if GetSSL st then
    if negb (nRet =? SSL_ERROR_WANT_READ) && negb (nRet =? SSL_ERROR_WANT_WRITE)
    then CloseSocketDisconnect (lockRecv i) st
    else st
  else
    if negb (nRet =? WSAEWOULDBLOCK) && negb (nRet =? WSAEMSGSIZE)
       && negb (nRet =? WSAEINTR) && negb (nRet =? WSAEINPROGRESS)
    then CloseSocketDisconnect (lockRecv i) st
    else st.

(** The loop of [CConnman::SocketSendData] from the iterator [it] on:
    [msgs] is the queue from [it] to its end.  The result is [None] when
    the assertion of the loop fails, else the queue from the final [it] on,
    the peer, and the number of calls of [Send] made so far. *)
Fixpoint SocketSendData_loop (i : nat) (msgs : list (list byte)) (st : State)
    : option (list (list byte) * State * nat) :=
  match msgs with
  | [] => Some ([], st, i)
  | data :: rest =>
      if negb (Z.of_nat (length data) >? nSendOffset st) then None
      else if negb (hSocket st) then Some (msgs, st, i)
      else
        let offered := drop (Z.to_nat (nSendOffset st)) data in
        let nBytes := Send i offered in
        if nBytes >? 0 then
          let st := some_bytes_sent st (GetTime i) nBytes (take (Z.to_nat nBytes) offered) in
          if nSendOffset st =? Z.of_nat (length data)
          then SocketSendData_loop (S i) rest
                 (whole_message_sent st (Z.of_nat (length data)))
          else Some (msgs, st, S i)
        else Some (msgs, send_failed i st, S i)
  end.

(** [CConnman::SocketSendData]: [None] when an assertion fails. *)
Definition SocketSendData (i : nat) (st : State) : option (State * nat) :=
  match SocketSendData_loop i (vSendMsg st) st with
  | None => None
  | Some (remaining, st, i) =>
      if bool_decide (remaining = [])
         && negb ((nSendOffset st =? 0) && (nSendSize st =? 0))
      then None
      else Some (mkState (hSocket st) (ssl st) (fDisconnect st) (vRecvMsg st)
                   (ssSend st) remaining (nSendOffset st) (nSendSize st)
                   (nSendBytes st) (nLastSend st) (nTotalBytesSent st) (wire st),
                 i)
  end.

(** [CNode::BeginMessage]: the assertion, and the header of the message
    written to [ssSend]; [header] is the serialisation of
    [CMessageHeader(Params().MessageStart(), pszCommand, 0)]. *)
Definition BeginMessage (header : list byte) (st : State) : option State :=
  if negb (Z.of_nat (length (ssSend st)) =? 0) then None
  else Some (mkState (hSocket st) (ssl st) (fDisconnect st) (vRecvMsg st)
               (ssSend st ++ header) (vSendMsg st) (nSendOffset st) (nSendSize st)
               (nSendBytes st) (nLastSend st) (nTotalBytesSent st) (wire st)).

(** [ssSend << ...]: the payload is written behind the header. *)
Definition append_payload (payload : list byte) (st : State) : State :=
  mkState (hSocket st) (ssl st) (fDisconnect st) (vRecvMsg st)
    (ssSend st ++ payload) (vSendMsg st) (nSendOffset st) (nSendSize st)
    (nSendBytes st) (nLastSend st) (nTotalBytesSent st) (wire st).

(** [CNode::AbortMessage]. *)
Definition AbortMessage (st : State) : State :=
  mkState (hSocket st) (ssl st) (fDisconnect st) (vRecvMsg st)
    [] (vSendMsg st) (nSendOffset st) (nSendSize st)
    (nSendBytes st) (nLastSend st) (nTotalBytesSent st) (wire st).

(** [CNode::EndMessage] when neither of the two test options is set: the
    message is taken out of [ssSend], with the size and the checksum written
    into its header, and put at the end of the queue; when the queue was
    empty the message is sent at once, as far as the socket takes it.  The
    statistics by message type, kept outside the sources, are left out.
    [None] when the assertion on the size of the header fails. *)
Definition EndMessage (i : nat) (st : State) : option (State * nat) :=
  if Z.of_nat (length (ssSend st)) =? 0 then Some (st, i)
  else if negb (Z.of_nat (length (ssSend st)) >=? 20 + 4) then None
  else
    let data := Framer.EndMessage Hash (ssSend st) in
    let st1 :=
      mkState (hSocket st) (ssl st) (fDisconnect st) (vRecvMsg st)
        [] (vSendMsg st ++ [data]) (nSendOffset st)
        (uint64 (nSendSize st + Z.of_nat (length data)))
        (nSendBytes st) (nLastSend st) (nTotalBytesSent st) (wire st) in
    if bool_decide (vSendMsg st = []) then SocketSendData i st1
    else Some (st1, i).

(** *** What is still to be sent *)

(** The bytes of the queue that the socket has not taken yet. *)
Definition pending (st : State) : list byte :=
  drop (Z.to_nat (nSendOffset st)) (concat (vSendMsg st)).

(** The offset is inside the first message of the queue, and 0 when the
    queue is empty. *)
Definition offset_in_front (msgs : list (list byte)) (offset : Z) : Prop :=
  match msgs with
  | [] => offset = 0
  | data :: _ => 0 <= offset < Z.of_nat (length data)
  end.

(** What the code keeps true of the queue and its counters. *)
Definition queue_consistent (st : State) : Prop :=
  Forall (λ data, data ≠ []) (vSendMsg st)
  ∧ offset_in_front (vSendMsg st) (nSendOffset st)
  ∧ nSendSize st = Z.of_nat (length (concat (vSendMsg st)))
  ∧ nSendSize st < 2 ^ 64.

(** [Send] returns no more than the number of bytes it is given. *)
Definition Send_within_length : Prop :=
  ∀ i offered, Send i offered <= Z.of_nat (length offered).

(** *** The loop *)

Lemma uint64_small (z : Z) : 0 <= z < 2 ^ 64 → uint64 z = z.
Proof. intros Hz. unfold uint64. by apply Z.mod_small. Qed.

Lemma uint64_add (a b c : Z) : uint64 (uint64 (a + b) + c) = uint64 (a + (b + c)).
Proof. unfold uint64. rewrite Zplus_mod_idemp_l. f_equal. lia. Qed.

Lemma uint64_idemp (a : Z) : uint64 (uint64 a) = uint64 a.
Proof. unfold uint64. apply Z.mod_mod. lia. Qed.

Lemma offset_in_front_next (data : list byte) (rest : list (list byte)) :
  Forall (λ d, d ≠ []) (data :: rest) → offset_in_front rest 0.
Proof.
  intros Hall. apply Forall_cons in Hall as [_ Hrest].
  destruct rest as [|d rest]; [done|]. simpl.
  apply Forall_cons in Hrest as [Hd _]. destruct d; [done|]. simpl. lia.
Qed.

Lemma send_failed_cases (i : nat) (st : State) :
  send_failed i st = st ∨ send_failed i st = CloseSocketDisconnect (lockRecv i) st.
Proof.
  unfold send_failed. cbv zeta.
  destruct (GetSSL st).
  - destruct (_ && _); auto.
  - destruct (_ && _); auto.
Qed.

(** What a run of the loop does, on a queue that is consistent with the
    counters of the peer. *)
Lemma SocketSendData_loop_spec (msgs : list (list byte)) :
  Send_within_length →
  ∀ (st : State) (i : nat),
    Forall (λ d, d ≠ []) msgs →
    offset_in_front msgs (nSendOffset st) →
    nSendSize st = Z.of_nat (length (concat msgs)) →
    nSendSize st < 2 ^ 64 →
    ∃ rem st' i' done sent,
      SocketSendData_loop i msgs st = Some (rem, st', i')
      ∧ msgs = done ++ rem
      ∧ offset_in_front rem (nSendOffset st')
      ∧ nSendSize st' = Z.of_nat (length (concat rem))
      ∧ wire st' = wire st ++ sent
      ∧ sent ++ drop (Z.to_nat (nSendOffset st')) (concat rem)
        = drop (Z.to_nat (nSendOffset st)) (concat msgs)
      ∧ uint64 (nSendBytes st') = uint64 (nSendBytes st + Z.of_nat (length sent))
      ∧ uint64 (nTotalBytesSent st')
        = uint64 (nTotalBytesSent st + Z.of_nat (length sent))
      ∧ ssSend st' = ssSend st ∧ vSendMsg st' = vSendMsg st
      ∧ ((fDisconnect st' = fDisconnect st ∧ hSocket st' = hSocket st
          ∧ vRecvMsg st' = vRecvMsg st)
         ∨ (fDisconnect st' = true ∧ hSocket st' = false)).
Proof.
  intros Hsend. induction msgs as [|data rest IH]; intros st i Hne Hoff Hsize Hbound.
  - simpl in Hoff. exists [], st, i, [], []. simpl. rewrite Hoff. simpl.
    rewrite app_nil_r, !Z.add_0_r.
    split; [done|]. split; [done|]. split; [done|]. split; [done|]. split; [done|].
    split; [done|]. split; [done|]. split; [done|]. split; [done|]. split; [done|].
    by left.
  - simpl in Hoff. simpl concat in Hsize. rewrite length_app in Hsize.
    simpl SocketSendData_loop.
    destruct (Z.gtb_spec (Z.of_nat (length data)) (nSendOffset st)) as [_|]; [|lia].
    simpl negb. cbv iota.
    destruct (hSocket st) eqn:Hsock; simpl negb; cbv iota.
    2:{ exists (data :: rest), st, i, [], []. simpl.
        rewrite app_nil_r, !Z.add_0_r. rewrite length_app.
        split; [done|]. split; [done|]. split; [done|]. split; [done|]. split; [done|].
        split; [done|]. split; [done|]. split; [done|]. split; [done|]. split; [done|].
        by left. }
    cbv zeta.
    set (off := Z.to_nat (nSendOffset st)).
    set (offered := drop off data).
    assert (Hofl : length offered = (length data - off)%nat)
      by (unfold offered; apply length_drop).
    pose proof (Hsend i offered) as Hle.
    destruct (Z.gtb_spec (Send i offered) 0) as [Hpos|Hneg].
    + set (n := Z.to_nat (Send i offered)).
      assert (Hn : Send i offered = Z.of_nat n) by lia.
      assert (Hnoff : (off + n ≤ length data)%nat) by lia.
      assert (Htaken : length (take n offered) = n) by (rewrite length_take; lia).
      assert (Hoff' : nSendOffset (some_bytes_sent st (GetTime i) (Send i offered)
                                     (take n offered)) = Z.of_nat (off + n)).
      { simpl. rewrite uint64_small; lia. }
      pose proof Hoff' as Hoff''. simpl in Hoff''. rewrite Hoff''.
      destruct (Z.eqb_spec (Z.of_nat (off + n)) (Z.of_nat (length data))) as [Hall|Hpart].
      * (* the message has gone in full *)
        destruct (IH (whole_message_sent
                        (some_bytes_sent st (GetTime i) (Send i offered) (take n offered))
                        (Z.of_nat (length data))) (S i))
          as (rem & st' & i' & done & sent & Hrun & Hsplit & Hoffr & Hsizer & Hwire
              & Hstream & Hbytes & Htotal & Hss & Hq & Hsockr).
        { by apply Forall_cons in Hne as [_ ?]. }
        { simpl. by apply (offset_in_front_next data). }
        { simpl. rewrite uint64_small; lia. }
        { simpl. rewrite uint64_small; lia. }
        exists rem, st', i', (data :: done), (take n offered ++ sent).
        split; [done|]. split; [by rewrite Hsplit|]. split; [done|]. split; [done|].
        split; [by rewrite Hwire; simpl; rewrite app_assoc|].
        split.
        { rewrite <- app_assoc, Hstream. simpl.
          rewrite take_ge by lia. unfold offered.
          rewrite drop_app_le by lia. done. }
        split.
        { rewrite Hbytes. simpl. rewrite uint64_add, length_app, Htaken. f_equal. lia. }
        split.
        { rewrite Htotal. simpl. rewrite uint64_add, length_app, Htaken. f_equal. lia. }
        simpl in Hss, Hq, Hsockr. rewrite Hsock in Hsockr.
        split; [done|]. split; [done|]. done.
      * (* the socket has taken a part of the message *)
        eexists (data :: rest), _, (S i), [], (take n offered).
        split; [reflexivity|]. split; [done|].
        split; [rewrite Hoff'; simpl; lia|].
        split; [simpl; by rewrite length_app|].
        split; [done|].
        split.
        { rewrite Hoff', Nat2Z.id. simpl. fold off.
          assert (take n offered = take n (drop off (data ++ concat rest))) as ->.
          { rewrite drop_app_le by lia. fold offered. by rewrite take_app_le by lia. }
          rewrite <- drop_drop. apply take_drop. }
        split; [simpl; by rewrite uint64_idemp, Htaken, Hn|].
        split; [simpl; by rewrite uint64_idemp, Htaken, Hn|].
        split; [done|]. split; [done|]. by left.
    + (* the socket has taken nothing *)
      eexists (data :: rest), _, (S i), [], [].
      split; [reflexivity|]. split; [done|].
      destruct (send_failed_cases i st) as [->| ->].
      * rewrite !Z.add_0_r. simpl. rewrite length_app.
        split; [done|]. split; [done|]. split; [by rewrite app_nil_r|].
        split; [done|]. split; [done|]. split; [done|]. split; [done|].
        split; [done|]. by left.
      * rewrite !Z.add_0_r. simpl. rewrite length_app.
        split; [done|]. split; [done|]. split; [by rewrite app_nil_r|].
        split; [done|]. split; [done|]. split; [done|]. split; [done|].
        split; [done|]. by right.
Qed.

(** *** One call of [SocketSendData] *)

Lemma Forall_suffix {A} (P : A → Prop) (done rem : list A) :
  Forall P (done ++ rem) → Forall P rem.
Proof. intros Hall. by apply Forall_app in Hall as [_ ?]. Qed.

Lemma SocketSendData_spec (i : nat) (st : State) :
  Send_within_length →
  queue_consistent st →
  ∃ st' i' sent,
    SocketSendData i st = Some (st', i')
    ∧ queue_consistent st'
    ∧ wire st' = wire st ++ sent
    ∧ sent ++ pending st' = pending st
    ∧ (∃ done, vSendMsg st = done ++ vSendMsg st')
    ∧ uint64 (nSendBytes st') = uint64 (nSendBytes st + Z.of_nat (length sent))
    ∧ uint64 (nTotalBytesSent st')
      = uint64 (nTotalBytesSent st + Z.of_nat (length sent))
    ∧ ssSend st' = ssSend st
    ∧ ((fDisconnect st' = fDisconnect st ∧ hSocket st' = hSocket st
        ∧ vRecvMsg st' = vRecvMsg st)
       ∨ (fDisconnect st' = true ∧ hSocket st' = false)).
Proof.
  intros Hsend (Hne & Hoff & Hsize & Hbound).
  destruct (SocketSendData_loop_spec (vSendMsg st) Hsend st i Hne Hoff Hsize Hbound)
    as (rem & st' & i' & done & sent & Hrun & Hsplit & Hoffr & Hsizer & Hwire
        & Hstream & Hbytes & Htotal & Hss & _ & Hsock).
  unfold SocketSendData. rewrite Hrun.
  assert (Hassert : bool_decide (rem = [])
                    && negb ((nSendOffset st' =? 0) && (nSendSize st' =? 0)) = false).
  { case_bool_decide as Hrem; [|done]. subst rem. simpl in Hoffr, Hsizer.
    rewrite Hoffr, Hsizer. done. }
  rewrite Hassert.
  eexists _, i', sent. split; [reflexivity|]. simpl.
  split; [|split; [done|split; [done|split; [by exists done|done]]]].
  unfold queue_consistent. simpl.
  split; [rewrite Hsplit in Hne; by apply Forall_suffix in Hne|].
  split; [done|]. split; [done|].
  rewrite Hsizer. rewrite Hsize in Hbound. rewrite Hsplit in Hbound.
  rewrite concat_app, length_app in Hbound. lia.
Qed.

Lemma queue_size_suffix (st st' : State) :
  queue_consistent st → queue_consistent st' →
  (∃ done, vSendMsg st = done ++ vSendMsg st') →
  nSendSize st' <= nSendSize st.
Proof.
  intros (_ & _ & Hs & _) (_ & _ & Hs' & _) (done & Hsplit).
  rewrite Hs, Hs', Hsplit, concat_app, length_app. lia.
Qed.


(** *** Messages, one after the other *)

(** What the peer is asked to do: to send a message, given by the header
    [BeginMessage] writes and the payload written behind it, or to send what
    it can of the queue, as the socket thread does when the socket can be
    written to. *)
Inductive Op :=
| OpMessage (header payload : list byte)
| OpSocketSendData.

Definition step (i : nat) (st : State) (op : Op) : option (State * nat) :=
  match op with
  | OpMessage header payload =>
      match BeginMessage header st with
      | None => None
      | Some st => EndMessage i (append_payload payload st)
      end
  | OpSocketSendData => SocketSendData i st
  end.

Fixpoint run (i : nat) (st : State) (ops : list Op) : option (State * nat) :=
  match ops with
  | [] => Some (st, i)
  | op :: ops =>
      match step i st op with
      | None => None
      | Some (st, i) => run i st ops
      end
  end.

(** The bytes a message is queued as. *)
Definition queued_as (op : Op) : list byte :=
  match op with
  | OpMessage header payload => Framer.EndMessage Hash (header ++ payload)
  | OpSocketSendData => []
  end.

Definition well_formed (op : Op) : Prop :=
  match op with
  | OpMessage header payload => length header = 24%nat
  | OpSocketSendData => True
  end.

Lemma EndMessage_length (ssSend0 : list byte) :
  (∀ d, length (Hash d) = 32%nat) →
  (24 ≤ length ssSend0)%nat →
  length (Framer.EndMessage Hash ssSend0) = length ssSend0.
Proof.
  intros Hhash Hl. unfold Framer.EndMessage.
  rewrite bool_decide_eq_false_2 by (destruct ssSend0; [simpl in Hl; lia|done]).
  cbv zeta.
  assert (Hl1 : length (Framer.memcpy ssSend0 16 (Framer.WriteLE32
                   (uint32 (Z.of_nat (length ssSend0) - 24))) 4) = length ssSend0).
  { apply Framer.memcpy_length; simpl; lia. }
  rewrite Framer.memcpy_length; [done|lia|lia|rewrite Hhash; lia|lia].
Qed.

Lemma step_spec (i : nat) (st : State) (op : Op) :
  Send_within_length →
  (∀ d, length (Hash d) = 32%nat) →
  queue_consistent st → ssSend st = [] → well_formed op →
  nSendSize st + Z.of_nat (length (queued_as op)) < 2 ^ 64 →
  ∃ st' i' sent,
    step i st op = Some (st', i')
    ∧ queue_consistent st' ∧ ssSend st' = []
    ∧ wire st' = wire st ++ sent
    ∧ sent ++ pending st' = pending st ++ queued_as op
    ∧ nSendSize st' <= nSendSize st + Z.of_nat (length (queued_as op)).
Proof.
  intros Hsend Hhash Hst Hss Hop Hbound.
  destruct op as [header payload|]; simpl in *.
  - unfold BeginMessage. rewrite Hss. simpl.
    unfold EndMessage. simpl.
    assert (Hlen : length (header ++ payload) = (24 + length payload)%nat)
      by (rewrite length_app; lia).
    rewrite Hlen.
    destruct (Z.eqb_spec (Z.of_nat (24 + length payload)) 0); [lia|].
    destruct (Z.geb_spec (Z.of_nat (24 + length payload)) (20 + 4)); [|lia].
    simpl negb. cbv iota zeta.
    set (data := Framer.EndMessage Hash (header ++ payload)) in *.
    assert (Hdata : length data = (24 + length payload)%nat).
    { unfold data. rewrite EndMessage_length; [done|done|lia]. }
    destruct Hst as (Hne & Hoff & Hsize & Hb).
    set (st1 := mkState _ _ _ _ _ _ _ _ _ _ _ _).
    assert (Hst1 : queue_consistent st1).
    { unfold queue_consistent, st1. simpl.
      split; [apply Forall_app; split; [done|]; apply Forall_singleton;
              intros E; rewrite E in Hdata; simpl in Hdata; lia|].
      split.
      { destruct (vSendMsg st) as [|d q]; [|done]. simpl in *. lia. }
      rewrite concat_app, length_app. simpl. rewrite app_nil_r.
      rewrite uint64_small by lia. lia. }
    assert (Hpend : pending st1 = pending st ++ data).
    { unfold pending, st1. simpl. rewrite concat_app. simpl. rewrite app_nil_r.
      apply drop_app_le.
      destruct (vSendMsg st) as [|d q]; simpl in *; [lia|].
      rewrite length_app. lia. }
    assert (Hsz1 : nSendSize st1 = nSendSize st + Z.of_nat (length data)).
    { unfold st1. simpl. rewrite uint64_small; lia. }
    case_bool_decide as Hempty.
    + destruct (SocketSendData_spec i st1 Hsend Hst1)
        as (st' & i' & sent & Hrun & Hst' & Hwire & Hstream & Hdone & _ & _ & Hss' & _).
      exists st', i', sent. split; [done|]. split; [done|]. split; [done|].
      split; [done|]. split; [by rewrite Hstream, Hpend|].
      pose proof (queue_size_suffix st1 st' Hst1 Hst' Hdone). lia.
    + exists st1, i, []. split; [done|]. split; [done|]. split; [done|].
      split; [by rewrite app_nil_r|]. split; [done|]. lia.
  - destruct (SocketSendData_spec i st Hsend Hst)
      as (st' & i' & sent & Hrun & Hst' & Hwire & Hstream & Hdone & _ & _ & Hss' & _).
    exists st', i', sent. split; [done|]. split; [done|]. split; [congruence|].
    split; [done|]. split; [by rewrite app_nil_r|].
    pose proof (queue_size_suffix st st' Hst Hst' Hdone). lia.
Qed.

Lemma run_spec (ops : list Op) :
  Send_within_length →
  (∀ d, length (Hash d) = 32%nat) →
  ∀ (i : nat) (st : State),
    queue_consistent st → ssSend st = [] → Forall well_formed ops →
    nSendSize st + Z.of_nat (length (concat (queued_as <$> ops))) < 2 ^ 64 →
    ∃ st' i' sent,
      run i st ops = Some (st', i')
      ∧ queue_consistent st' ∧ ssSend st' = []
      ∧ wire st' = wire st ++ sent
      ∧ sent ++ pending st' = pending st ++ concat (queued_as <$> ops).
Proof.
  intros Hsend Hhash. induction ops as [|op ops IH]; intros i st Hst Hss Hops Hbound.
  - exists st, i, []. simpl. by rewrite !app_nil_r.
  - apply Forall_cons in Hops as [Hop Hops].
    rewrite fmap_cons in *. simpl concat in *. rewrite length_app in Hbound.
    destruct (step_spec i st op Hsend Hhash Hst Hss Hop)
      as (st1 & i1 & sent1 & Hstep & Hst1 & Hss1 & Hwire1 & Hstream1 & Hsize1); [lia|].
    destruct (IH i1 st1 Hst1 Hss1 Hops) as (st' & i' & sent & Hrun & Hst' & Hss' & Hwire & Hstream);
      [lia|].
    exists st', i', (sent1 ++ sent). simpl. rewrite Hstep.
    split; [done|]. split; [done|]. split; [done|].
    split; [by rewrite Hwire, Hwire1, app_assoc|].
    by rewrite <- app_assoc, Hstream, !app_assoc, Hstream1.
Qed.

(** X17: messages reach the socket in the order they are sent in, whole
    and once.  Let messages be sent one after the other, each by
    [BeginMessage], the writing of its payload and [EndMessage], with calls
    of [SocketSendData] in between at any points, on a socket that takes any
    number of the bytes it is given, none included, or fails.  Then no
    assertion fails, and at the end the bytes the socket has taken, followed
    by the bytes still to be sent, are the bytes that were to be sent at the
    start followed by the messages in the order of the calls, each with the
    size and the checksum written into its header.  The headers have 24
    bytes, the digest 32, and the sizes fit in 64 bits. *)
Theorem messages_are_sent_in_order (ops : list Op) (i : nat) (st : State) :
  Send_within_length →
  (∀ d, length (Hash d) = 32%nat) →
  queue_consistent st → ssSend st = [] → Forall well_formed ops →
  nSendSize st + Z.of_nat (length (concat (queued_as <$> ops))) < 2 ^ 64 →
  ∃ st' i' sent,
    run i st ops = Some (st', i')
    ∧ queue_consistent st' ∧ ssSend st' = []
    ∧ wire st' = wire st ++ sent
    ∧ sent ++ pending st' = pending st ++ concat (queued_as <$> ops)
    ∧ (pending st = [] → sent `prefix_of` concat (queued_as <$> ops))
    ∧ (vSendMsg st' = [] → wire st' = wire st ++ pending st ++ concat (queued_as <$> ops)).
Proof.
  intros Hsend Hhash Hst Hss Hops Hbound.
  destruct (run_spec ops Hsend Hhash i st Hst Hss Hops Hbound)
    as (st' & i' & sent & Hrun & Hst' & Hss' & Hwire & Hstream).
  exists st', i', sent. split; [done|]. split; [done|]. split; [done|].
  split; [done|]. split; [done|]. split.
  - intros Hnone. rewrite Hnone in Hstream. simpl in Hstream.
    exists (pending st'). by rewrite Hstream.
  - intros Hempty. rewrite Hwire. f_equal. rewrite <- Hstream.
    unfold pending. rewrite Hempty. simpl. rewrite drop_nil. by rewrite app_nil_r.
Qed.

End sendqueue.
End SendQueue.

(** A socket that takes 5 bytes at most at a call and fails every third
    call with an error that does not close the connection; two messages
    with the header of the framer example, and two more calls of
    [SocketSendData]. *)
Definition send_example_Send (i : nat) (offered : list byte) : Z :=
  if (i mod 3 =? 2)%nat then -1 else Z.min 5 (Z.of_nat (length offered)).

Definition send_example_state : SendQueue.State :=
  SendQueue.mkState true false false [] [] [] 0 0 0 0 0 [].

Definition send_example_ops : list SendQueue.Op :=
  [SendQueue.OpMessage framer_example_header [x01; x02; x03];
   SendQueue.OpMessage framer_example_header [x04];
   SendQueue.OpSocketSendData;
   SendQueue.OpSocketSendData].

Lemma send_example_Send_within_length : SendQueue.Send_within_length send_example_Send.
Proof.
  intros i offered. unfold send_example_Send.
  destruct (i mod 3 =? 2)%nat; lia.
Qed.

Example send_example_wire :
  (λ r, (SendQueue.wire r.1, SendQueue.vSendMsg r.1, SendQueue.nSendOffset r.1)) <$>
    SendQueue.run send_example_Send (λ _, 11) (λ _, 1700000000) (λ _, true)
      2 3 11 90 4 115 toy_digest 0 send_example_state send_example_ops
  = Some (take 10 (SendQueue.queued_as toy_digest
                     (SendQueue.OpMessage framer_example_header [x01; x02; x03])),
          [SendQueue.queued_as toy_digest
             (SendQueue.OpMessage framer_example_header [x01; x02; x03]);
           SendQueue.queued_as toy_digest
             (SendQueue.OpMessage framer_example_header [x04])],
          10).
Proof. vm_compute. reflexivity. Qed.


Lemma messages_are_sent_in_order_witness :
  ∃ st' i' sent,
    SendQueue.run send_example_Send (λ _, 11) (λ _, 1700000000) (λ _, true)
      2 3 11 90 4 115 toy_digest 0 send_example_state send_example_ops = Some (st', i')
    ∧ SendQueue.queue_consistent st' ∧ SendQueue.ssSend st' = []
    ∧ SendQueue.wire st' = SendQueue.wire send_example_state ++ sent
    ∧ sent ++ SendQueue.pending st'
      = SendQueue.pending send_example_state
          ++ concat (SendQueue.queued_as toy_digest <$> send_example_ops)
    ∧ (SendQueue.pending send_example_state = [] →
       sent `prefix_of` concat (SendQueue.queued_as toy_digest <$> send_example_ops))
    ∧ (SendQueue.vSendMsg st' = [] →
       SendQueue.wire st'
       = SendQueue.wire send_example_state ++ SendQueue.pending send_example_state
           ++ concat (SendQueue.queued_as toy_digest <$> send_example_ops)).
Proof.
  apply (SendQueue.messages_are_sent_in_order send_example_Send (λ _, 11)
           (λ _, 1700000000) (λ _, true) 2 3 11 90 4 115 toy_digest
           send_example_ops 0 send_example_state).
  - apply send_example_Send_within_length.
  - intros d. apply length_resize.
  - unfold SendQueue.queue_consistent. simpl. repeat split; (done || lia || constructor).
  - reflexivity.
  - unfold send_example_ops. repeat constructor.
  - vm_compute. reflexivity.
Defined.

(** ** Incoming connections *)

(** [CConnman::AcceptConnection] as a whole: the checks on the new
    connection, the eviction of a peer when the inbound slots are taken, the
    handshake, and the new peer. *)
Module Accept.

Section accept.

Context {CSubNet : Type} `{Countable CSubNet}.
Context {CNetAddr : Type} {SSL : Type}.

(** [CSubNet::Match], [CNetAddr::ToStringIP] and [CNetAddr::GetGroup]. *)
Variable Match : CSubNet → CNetAddr → bool.
Variable ToStringIP : CNetAddr → string.
Variable GetGroup : CNetAddr → list byte.

(** What the eviction and the handshake are given. *)
Variable SHA256 : list byte → list byte.
Variable vchSecretKey : list byte.
Variable std_sort : (Eviction.CNode → Eviction.CNode → bool)
                    → list Eviction.CNode → list Eviction.CNode.
Hypothesis std_sort_perm : ∀ cmp v, std_sort cmp v ≡ₚ v.
Variable SELECT_TIMEDOUT : Z.
Variable ValidatePeerCertificate : SSL → bool.
Variable fTlsFallbackNonTls : bool.
Variable fTlsValidate : bool.

(** [MAX_OUTBOUND_CONNECTIONS], and the value an identifier takes when it
    is stored in a [NodeId]: both are declared outside these sources. *)
Variable MAX_OUTBOUND_CONNECTIONS : Z.
Variable NodeId : Z → Z.

(** What the function reads and writes of the connection manager. *)
Record State := mkState {
  vNodes : list Eviction.CNode;
  nLastNodeId : Z;
  vNonTLSNodesInbound : list Tls.NODE_ADDR;
  setBanned : gmap CSubNet Z;
  vWhitelistedRange : list CSubNet;
  nMaxConnections : Z
}.

(** What a call meets: whether [Accept] gave a socket and the socket is
    selectable, whether the listening socket is whitelisted, the address of
    the peer, what the handshake would hand back, and the clock readings of
    [IsBanned], of the table of the handshake and of the new peer. *)
Record Incoming := mkIncoming {
  sock : bool;
  IsSelectable : bool;
  hListenSocket_whitelisted : bool;
  addr : CNetAddr;
  accept : Tls.Handshake SSL;
  GetTime_IsBanned : Z;
  GetTimeMillis : Z;
  GetTime_CNode : Z
}.

(** [CConnman::IsWhitelistedRange]. *)
Definition IsWhitelistedRange (st : State) (a : CNetAddr) : bool :=
  existsb (λ subnet, Match subnet a) (vWhitelistedRange st).

Definition whitelisted (st : State) (inc : Incoming) : bool :=
  hListenSocket_whitelisted inc || IsWhitelistedRange st (addr inc).

Definition nInbound (st : State) : Z :=
  Z.of_nat (length (List.filter Eviction.fInbound (vNodes st))).

Definition nMaxInbound (st : State) : Z :=
  nMaxConnections st - MAX_OUTBOUND_CONNECTIONS.

(** [new CNode(std::move(sock), addr, "", true)] with [fWhitelisted] set:
    the fields of the peer that the eviction reads, with the connection
    time and the ping time the constructor gives them. *)
Definition new_CNode (st : State) (inc : Incoming) : Eviction.CNode :=
  Eviction.mkCNode (nLastNodeId st) (GetGroup (addr inc)) (whitelisted st inc)
    true false (2 ^ 63 - 1) (GetTime_CNode inc).

(** The eviction, when the inbound slots are taken. *)
Definition make_room (st : State) (inc : Incoming) : bool * list Eviction.CNode :=
  if nInbound st >=? nMaxInbound st
  then Eviction.AttemptToEvictConnection SHA256 vchSecretKey std_sort
         (whitelisted st inc) (vNodes st)
  else (true, vNodes st).

Definition handshake (st : State) (inc : Incoming) : Tls.Outcome SSL * list Tls.NODE_ADDR :=
  Tls.AcceptConnection_tls SELECT_TIMEDOUT ValidatePeerCertificate
    fTlsFallbackNonTls fTlsValidate (vNonTLSNodesInbound st)
    (ToStringIP (addr inc)) (GetTimeMillis inc) (accept inc).

(** [CConnman::AcceptConnection]. *)
Definition AcceptConnection (st : State) (inc : Incoming) : State :=
  if negb (sock inc) then st
  else if negb (IsSelectable inc) then st
  else if Ban.IsBanned_addr Match (setBanned st) (GetTime_IsBanned inc) (addr inc)
          && negb (whitelisted st inc)
  then st
  else
    let room := make_room st inc in
    if negb room.1
    then mkState room.2 (nLastNodeId st) (vNonTLSNodesInbound st)
           (setBanned st) (vWhitelistedRange st) (nMaxConnections st)
    else
      match handshake st inc with
      | (Tls.Abort, table) =>
          mkState room.2 (nLastNodeId st) table
            (setBanned st) (vWhitelistedRange st) (nMaxConnections st)
      | (Tls.Proceed _, table) =>
          mkState (room.2 ++ [new_CNode st inc]) (NodeId (nLastNodeId st + 1)) table
            (setBanned st) (vWhitelistedRange st) (nMaxConnections st)
      end.

(** The connection gets as far as the eviction and the handshake. *)
Definition passes_checks (st : State) (inc : Incoming) : bool :=
  sock inc && IsSelectable inc
  && negb (Ban.IsBanned_addr Match (setBanned st) (GetTime_IsBanned inc) (addr inc)
           && negb (whitelisted st inc)).

Lemma make_room_cases (st : State) (inc : Incoming) :
  (make_room st inc = (true, vNodes st) ∧ nInbound st < nMaxInbound st)
  ∨ (make_room st inc = (false, vNodes st) ∧ nMaxInbound st <= nInbound st)
  ∨ (∃ victim, victim ∈ vNodes st ∧ Eviction.eligible victim = true
       ∧ make_room st inc = (true, Eviction.disconnect victim (vNodes st))
       ∧ nMaxInbound st <= nInbound st).
Proof.
  unfold make_room. destruct (Z.geb_spec (nInbound st) (nMaxInbound st)) as [Hfull|Hroom].
  - destruct (Eviction.AttemptToEvictConnection_cases SHA256 vchSecretKey std_sort
                std_sort_perm (whitelisted st inc) (vNodes st))
      as [->|(victim & Hin & Hel & ->)].
    + right. left. split; [done|lia].
    + right. right. exists victim. repeat split; (done || lia).
  - left. split; [done|lia].
Qed.

Lemma AcceptConnection_settings (st : State) (inc : Incoming) :
  nMaxConnections (AcceptConnection st inc) = nMaxConnections st
  ∧ setBanned (AcceptConnection st inc) = setBanned st
  ∧ vWhitelistedRange (AcceptConnection st inc) = vWhitelistedRange st.
Proof.
  unfold AcceptConnection.
  destruct (negb (sock inc)); [done|]. destruct (negb (IsSelectable inc)); [done|].
  destruct (_ && negb (whitelisted st inc)); [done|]. cbv zeta.
  destruct (negb (make_room st inc).1); [done|].
  by destruct (handshake st inc) as [[ssl|] table].
Qed.

Lemma AcceptConnection_limit (st : State) (inc : Incoming) :
  Z.of_nat (Eviction.live_inbound (vNodes st)) <= nMaxInbound st →
  Z.of_nat (Eviction.live_inbound (vNodes (AcceptConnection st inc))) <= nMaxInbound st.
Proof.
  intros Hlimit. unfold AcceptConnection.
  destruct (negb (sock inc)); [done|]. destruct (negb (IsSelectable inc)); [done|].
  destruct (_ && negb (whitelisted st inc)); [done|]. cbv zeta.
  pose proof (Eviction.live_inbound_le_inbound (vNodes st)) as Hle.
  destruct (make_room_cases st inc)
    as [[-> Hroom]|[[-> Hfull]|(victim & Hin & Hel & -> & Hfull)]]; simpl.
  - unfold nInbound in Hroom.
    destruct (handshake st inc) as [[ssl|] table]; simpl; [|done].
    rewrite Eviction.live_inbound_snoc. simpl. lia.
  - done.
  - pose proof (Eviction.disconnect_live_inbound_lt victim (vNodes st) Hin Hel) as Hlt.
    destruct (handshake st inc) as [[ssl|] table]; simpl; [|lia].
    rewrite Eviction.live_inbound_snoc. simpl. lia.
Qed.

Lemma AcceptConnection_calls_limit (incs : list Incoming) :
  ∀ st, Z.of_nat (Eviction.live_inbound (vNodes st)) <= nMaxInbound st →
    Z.of_nat (Eviction.live_inbound (vNodes (fold_left AcceptConnection incs st)))
    <= nMaxInbound st.
Proof.
  induction incs as [|inc incs IH]; intros st Hlimit; [done|]. simpl.
  assert (Hmax : nMaxInbound (AcceptConnection st inc) = nMaxInbound st).
  { unfold nMaxInbound. by rewrite (proj1 (AcceptConnection_settings st inc)). }
  rewrite <- Hmax. apply IH. rewrite Hmax. by apply AcceptConnection_limit.
Qed.

(** X21: incoming connections never take the inbound peers over the
    limit.  When the inbound peers that are not marked for disconnection
    are within [nMaxConnections - MAX_OUTBOUND_CONNECTIONS], they still are
    after any sequence of calls of [AcceptConnection].  A call marks peers
    only through the eviction and adds at most one peer, at the end: an
    inbound peer that is not marked, whitelisted as the connection is.  A
    connection with no socket, with a socket that is not selectable, or from
    a banned address that is not whitelisted changes nothing.  When the
    slots are taken the eviction comes before the handshake: if the
    handshake then fails no peer is added, and the peer that was found to
    evict stays marked all the same. *)
Theorem AcceptConnection_keeps_the_inbound_limit (st : State) (incs : list Incoming)
    (inc : Incoming) :
  (Z.of_nat (Eviction.live_inbound (vNodes st)) <= nMaxInbound st →
     Z.of_nat (Eviction.live_inbound (vNodes (fold_left AcceptConnection incs st)))
     <= nMaxInbound st)
  ∧ (∃ added,
       vNodes (AcceptConnection st inc)
       = (if passes_checks st inc then (make_room st inc).2 else vNodes st) ++ added
       ∧ (added = [] ∨ added = [new_CNode st inc])
       ∧ (added ≠ [] ↔
            passes_checks st inc = true ∧ (make_room st inc).1 = true
            ∧ (handshake st inc).1 ≠ Tls.Abort))
  ∧ (passes_checks st inc = false → AcceptConnection st inc = st)
  ∧ (nInbound st < nMaxInbound st → (make_room st inc).2 = vNodes st)
  ∧ (passes_checks st inc = true → nMaxInbound st <= nInbound st →
       (make_room st inc).1 = true → (handshake st inc).1 = Tls.Abort →
       length (vNodes (AcceptConnection st inc)) = length (vNodes st)
       ∧ (Eviction.live_inbound (vNodes (AcceptConnection st inc))
          < Eviction.live_inbound (vNodes st))%nat)
  ∧ Eviction.fInbound (new_CNode st inc) = true
  ∧ Eviction.fDisconnect (new_CNode st inc) = false
  ∧ Eviction.fWhitelisted (new_CNode st inc) = whitelisted st inc.
Proof.
  split; [apply AcceptConnection_calls_limit|].
  split; [|split; [|split; [|split; [|done]]]].
  - unfold AcceptConnection, passes_checks.
    destruct (sock inc); simpl;
      [|exists []; rewrite app_nil_r; split; [done|split; [by left|]];
        split; [done|by intros [? _]]].
    destruct (IsSelectable inc); simpl;
      [|exists []; rewrite app_nil_r; split; [done|split; [by left|]];
        split; [done|by intros [? _]]].
    destruct (_ && negb (whitelisted st inc)); simpl;
      [exists []; rewrite app_nil_r; split; [done|split; [by left|]];
        split; [done|by intros [? _]]|].
    destruct (make_room st inc) as [[|] nodes]; simpl.
    + destruct (handshake st inc) as [[ssl|] table]; simpl.
      * exists [new_CNode st inc]. split; [done|]. split; [by right|]. done.
      * exists []. rewrite app_nil_r. split; [done|]. split; [by left|].
        split; [done|]. by intros (_ & _ & ?).
    + exists []. rewrite app_nil_r. split; [done|]. split; [by left|].
      split; [done|]. by intros (_ & ? & _).
  - unfold AcceptConnection, passes_checks.
    destruct (sock inc); simpl; [|done].
    destruct (IsSelectable inc); simpl; [|done].
    by destruct (_ && negb (whitelisted st inc)).
  - intros Hroom. unfold make_room.
    destruct (Z.geb_spec (nInbound st) (nMaxInbound st)); [lia|done].
  - intros Hpass Hfull Hev Habort. unfold AcceptConnection.
    unfold passes_checks in Hpass.
    apply andb_true_iff in Hpass as [Hpass Hban]. apply andb_true_iff in Hpass as [-> ->].
    apply negb_true_iff in Hban. rewrite Hban. simpl.
    rewrite Hev. simpl.
    destruct (handshake st inc) as [out table]. simpl in Habort. subst out. simpl.
    destruct (make_room_cases st inc)
      as [[_ Hroom]|[[Hno _]|(victim & Hin & Hel & Hyes & _)]]; [lia| |].
    + rewrite Hno in Hev. done.
    + rewrite Hyes. simpl. split.
      * unfold Eviction.disconnect. by rewrite length_fmap.
      * by apply Eviction.disconnect_live_inbound_lt.
Qed.

End accept.
End Accept.

(** The sixteen inbound peers with 16 inbound slots, all taken, and a
    connection from an address that is not banned and whose handshake
    fails. *)
Definition accept_example_state : Accept.State (CSubNet := string) :=
  Accept.mkState sixteen_peers 17 [] ∅ [] 24.

Definition accept_example_incoming : Accept.Incoming (CNetAddr := string) (SSL := unit) :=
  Accept.mkIncoming true true false "10.0.0.9" (Tls.mkHandshake None 5)
    1000 2000000 1000.

Definition accept_example_AcceptConnection :
    Accept.State (CSubNet := string)
    → Accept.Incoming (CNetAddr := string) (SSL := unit)
    → Accept.State (CSubNet := string) :=
  Accept.AcceptConnection String.eqb (λ a, a) (λ _, [x11]) (λ d, d) [] example_sort
    0 (λ _ : unit, true) true false 8 (λ i, i).

Definition accept_example_make_room :
    Accept.State (CSubNet := string)
    → Accept.Incoming (CNetAddr := string) (SSL := unit)
    → bool * list Eviction.CNode :=
  Accept.make_room (CSubNet := string) (SSL := unit) String.eqb (λ d, d) []
    example_sort 8.

Definition accept_example_handshake :
    Accept.State (CSubNet := string)
    → Accept.Incoming (CNetAddr := string) (SSL := unit)
    → Tls.Outcome unit * list Tls.NODE_ADDR :=
  Accept.handshake (CSubNet := string) (λ a, a) 0 (λ _ : unit, true) true false.

Definition accept_example_new_CNode :
    Accept.State (CSubNet := string)
    → Accept.Incoming (CNetAddr := string) (SSL := unit)
    → Eviction.CNode :=
  Accept.new_CNode (CSubNet := string) (SSL := unit) String.eqb (λ _, [x11]).

Example accept_example_handshake_fails :
  Accept.vNodes (accept_example_AcceptConnection accept_example_state
                   accept_example_incoming)
  = Eviction.disconnect (example_peer 2 x00 980 501) sixteen_peers
  ∧ Accept.vNonTLSNodesInbound
      (accept_example_AcceptConnection accept_example_state accept_example_incoming)
    = [Tls.mkNODE_ADDR "10.0.0.9" 2000000].
Proof. split; vm_compute; reflexivity. Qed.

Lemma AcceptConnection_keeps_the_inbound_limit_witness :
  (Z.of_nat (Eviction.live_inbound (Accept.vNodes accept_example_state))
   <= Accept.nMaxInbound 8 accept_example_state →
     Z.of_nat (Eviction.live_inbound
                 (Accept.vNodes
                    (fold_left accept_example_AcceptConnection
                       [accept_example_incoming; accept_example_incoming]
                       accept_example_state)))
     <= Accept.nMaxInbound 8 accept_example_state)
  ∧ (∃ added,
       Accept.vNodes (accept_example_AcceptConnection accept_example_state
                        accept_example_incoming)
       = (if Accept.passes_checks String.eqb accept_example_state accept_example_incoming
          then (accept_example_make_room accept_example_state accept_example_incoming).2
          else Accept.vNodes accept_example_state) ++ added
       ∧ (added = []
          ∨ added = [accept_example_new_CNode accept_example_state
                       accept_example_incoming])
       ∧ (added ≠ [] ↔
            Accept.passes_checks String.eqb accept_example_state accept_example_incoming
            = true
            ∧ (accept_example_make_room accept_example_state accept_example_incoming).1
              = true
            ∧ (accept_example_handshake accept_example_state accept_example_incoming).1
              ≠ Tls.Abort))
  ∧ (Accept.passes_checks String.eqb accept_example_state accept_example_incoming = false →
       accept_example_AcceptConnection accept_example_state accept_example_incoming
       = accept_example_state)
  ∧ (Accept.nInbound accept_example_state < Accept.nMaxInbound 8 accept_example_state →
       (accept_example_make_room accept_example_state accept_example_incoming).2
       = Accept.vNodes accept_example_state)
  ∧ (Accept.passes_checks String.eqb accept_example_state accept_example_incoming = true →
     Accept.nMaxInbound 8 accept_example_state <= Accept.nInbound accept_example_state →
     (accept_example_make_room accept_example_state accept_example_incoming).1 = true →
     (accept_example_handshake accept_example_state accept_example_incoming).1
     = Tls.Abort →
       length (Accept.vNodes (accept_example_AcceptConnection accept_example_state
                                accept_example_incoming))
       = length (Accept.vNodes accept_example_state)
       ∧ (Eviction.live_inbound
            (Accept.vNodes (accept_example_AcceptConnection accept_example_state
                              accept_example_incoming))
          < Eviction.live_inbound (Accept.vNodes accept_example_state))%nat)
  ∧ Eviction.fInbound
      (accept_example_new_CNode accept_example_state accept_example_incoming) = true
  ∧ Eviction.fDisconnect
      (accept_example_new_CNode accept_example_state accept_example_incoming) = false
  ∧ Eviction.fWhitelisted
      (accept_example_new_CNode accept_example_state accept_example_incoming)
    = Accept.whitelisted String.eqb accept_example_state accept_example_incoming.
Proof.
  exact (Accept.AcceptConnection_keeps_the_inbound_limit String.eqb (λ a, a)
           (λ _, [x11]) (λ d, d) [] example_sort example_sort_perm
           0 (λ _ : unit, true) true false 8 (λ i, i)
           accept_example_state
           [accept_example_incoming; accept_example_incoming]
           accept_example_incoming).
Defined.

(** ** Outgoing connections *)

(** [CConnman::FindNode], [CConnman::ConnectNode] as a whole and
    [CConnman::OpenNetworkConnection]. *)
Module Outbound.

Section outbound.

Context {CSubNet : Type} `{Countable CSubNet}.
Context {CNetAddr : Type} `{Countable CNetAddr}.
Context {Network : Type} {SSL : Type}.

(** An address with its port, as in [LocalHost]. *)
Definition CService : Type := LocalHost.CService (CNetAddr := CNetAddr).

Variable Match : CSubNet → CNetAddr → bool.
Variable ToStringIP : CNetAddr → string.
Variable ToStringIPPort : CService → string.

Variable SELECT_TIMEDOUT : Z.
Variable ValidatePeerCertificate : SSL → bool.
Variable fTlsFallbackNonTls : bool.
Variable fTlsValidate : bool.

(** [SplitHostPort] gives the host of a destination, and
    [TLSManager::isNonTLSAddr] tells whether the table holds a host; the
    value an identifier takes in a [NodeId].  All three are declared outside
    these sources. *)
Variable SplitHostPort : string → string.
Variable isNonTLSAddr : string → list Tls.NODE_ADDR → bool.
Variable NodeId : Z → Z.

(** The fields of a peer that these functions read or write; [ssl] is the
    channel of the socket of the peer, null when it is unencrypted.  The
    reference count and the outbound grant, kept through [AddRef] and
    [MoveTo] of declarations outside these sources, and the version message
    that the constructor queues for an outbound peer are not fields of this
    record. *)
Record CNode := mkCNode {
  id : Z;
  addr : CService;
  addrName : string;
  ssl : option SSL;
  fInbound : bool;
  fNetworkNode : bool;
  fOneShot : bool;
  nTimeConnected : Z
}.

(** What the functions read and write of the connection manager;
    [Attempt] holds the addresses given to [addrman.Attempt], in the order
    of the calls. *)
Record State := mkState {
  vNodes : list CNode;
  nLastNodeId : Z;
  vNonTLSNodesOutbound : list Tls.NODE_ADDR;
  Attempt : list CService;
  mapLocalHost : LocalHost.State (CNetAddr := CNetAddr) (Network := Network);
  setBanned : gmap CSubNet Z
}.

(** What an attempt to connect meets: whether [CreateSock] gives a socket,
    what [ConnectSocket] or [ConnectSocketByName] returns and leaves in
    [proxyConnectionFailed], whether the socket is selectable, what the
    handshake would hand back, and the clock readings.
    [ConnectSocketByName], declared outside these sources, is handed the
    copy of [addrConnect] that [ConnectNode] holds, and the callers that
    give a name give an empty address with it: [ConnectSocketByName_addr] is
    the address the copy holds when the function returns, whatever it is. *)
Record Try := mkTry {
  CreateSock : bool;
  ConnectSocket : bool;
  ConnectSocketByName_addr : CService;
  proxyConnectionFailed : bool;
  IsSelectable : bool;
  connect : Tls.Handshake SSL;
  GetTimeMillis : Z;
  GetTime : Z
}.

(** [FindNode]: the first peer of [vNodes] with that address, that name, or
    that address and port; the position of the peer stands for the
    pointer. *)
Fixpoint first_index {A : Type} (p : A → bool) (l : list A) : option nat :=
  match l with
  | [] => None
  | x :: l => if p x then Some 0%nat else S <$> first_index p l
  end.

Definition FindNode_CNetAddr (st : State) (ip : CNetAddr) : option nat :=
  first_index (λ pnode, bool_decide ((addr pnode).1 = ip)) (vNodes st).

Definition FindNode_string (st : State) (name : string) : option nat :=
  first_index (λ pnode, bool_decide (addrName pnode = name)) (vNodes st).

Definition FindNode_CService (st : State) (a : CService) : option nat :=
  first_index (λ pnode, bool_decide (addr pnode = a)) (vNodes st).

(** [new CNode(std::move(sock), addrConnect, pszDest ? pszDest : "", false)]
    and [pnode->nTimeConnected = GetTime()]. *)
Definition new_CNode (st : State) (addrConnect : CService) (pszDest : option string)
    (channel : option SSL) (t : Try) : CNode :=
  let addrNameIn := default EmptyString pszDest in
  mkCNode (nLastNodeId st) addrConnect
    (if bool_decide (addrNameIn = EmptyString) then ToStringIPPort addrConnect
     else addrNameIn)
    channel false false false (GetTime t).

Definition set_Attempt (st : State) (a : CService) : State :=
  mkState (vNodes st) (nLastNodeId st) (vNonTLSNodesOutbound st) (Attempt st ++ [a])
    (mapLocalHost st) (setBanned st).

(** The address [ConnectNode] holds once the socket has been connected,
    or has failed to.  After a call with a name it is what
    [ConnectSocketByName] has left.  After [ConnectSocket], which is given
    the address to connect to, it is taken to be the address of the caller:
    [OpenNetworkConnection] looks the text of that address up in the table
    that [ConnectNode] has written. *)
Definition addr_connected (addrConnect : CService) (pszDest : option string)
    (t : Try) : CService :=
  match pszDest with
  | Some _ => ConnectSocketByName_addr t
  | None => addrConnect
  end.

(** [CConnman::ConnectNode]: the peer returned, null or a peer of
    [vNodes], and the state afterwards.  The checks and [CreateSock] are on
    the address of the caller; [addrman.Attempt], the key of the table and
    the new peer are on the address after the socket was connected. *)
Definition ConnectNode (st : State) (addrConnect : CService) (pszDest : option string)
    (t : Try) : option nat * State :=
  let existing :=
    match pszDest with
    | None =>
        if LocalHost.IsLocal (mapLocalHost st) addrConnect then Some None
        else match FindNode_CService st addrConnect with
             | Some pnode => Some (Some pnode)
             | None => None
             end
    | Some _ => None
    end in
  match existing with
  | Some pnode => (pnode, st)
  | None =>
      if negb (CreateSock t) then (None, st)
      else
        let addrConnect := addr_connected addrConnect pszDest t in
        if ConnectSocket t then
          if negb (IsSelectable t) then (None, st)
          else
            let st := set_Attempt st addrConnect in
            match Tls.ConnectNode_tls SELECT_TIMEDOUT ValidatePeerCertificate
                    fTlsFallbackNonTls fTlsValidate (vNonTLSNodesOutbound st)
                    (ToStringIP addrConnect.1) (GetTimeMillis t) (connect t) with
            | (Tls.Abort, table) =>
                (None, mkState (vNodes st) (nLastNodeId st) table (Attempt st)
                         (mapLocalHost st) (setBanned st))
            | (Tls.Proceed channel, table) =>
                (Some (length (vNodes st)),
                 mkState (vNodes st ++ [new_CNode st addrConnect pszDest channel t])
                   (NodeId (nLastNodeId st + 1)) table (Attempt st)
                   (mapLocalHost st) (setBanned st))
            end
        else if negb (proxyConnectionFailed t) then (None, set_Attempt st addrConnect)
        else (None, st)
  end.

(** What a call of [OpenNetworkConnection] is given and meets:
    [interruptNet] at each of the three places it is read, the clock reading
    of [IsBanned], and what the first attempt and the second one meet. *)
Record Call := mkCall {
  addrConnect : CService;
  pszDest : option string;
  c_fOneShot : bool;
  interruptNet_1 : bool;
  interruptNet_2 : bool;
  interruptNet_3 : bool;
  GetTime_IsBanned : Z;
  first_try : Try;
  second_try : Try
}.

(** The checks before any attempt. *)
Definition refused (st : State) (c : Call) : bool :=
  match pszDest c with
  | None =>
      LocalHost.IsLocal (mapLocalHost st) (addrConnect c)
      || bool_decide (is_Some (FindNode_CNetAddr st (addrConnect c).1))
      || Ban.IsBanned_addr Match (setBanned st) (GetTime_IsBanned c) (addrConnect c).1
      || bool_decide (is_Some (FindNode_string st (ToStringIPPort (addrConnect c))))
  | Some dest => bool_decide (is_Some (FindNode_string st dest))
  end.

(** [pnode->fNetworkNode = true] and, for a one-shot, [pnode->fOneShot = true]. *)
Definition set_flags (fOneShot' : bool) (pnode : CNode) : CNode :=
  mkCNode (id pnode) (addr pnode) (addrName pnode) (ssl pnode) (fInbound pnode)
    true (if fOneShot' then true else fOneShot pnode) (nTimeConnected pnode).

Definition strDest (c : Call) : string :=
  match pszDest c with
  | None => ToStringIP (addrConnect c).1
  | Some dest => SplitHostPort dest
  end.

Definition finish (c : Call) (pnode : option nat) (st : State) : bool * State :=
  match pnode with
  | None => (false, st)
  | Some i =>
      (true, mkState (alter (set_flags (c_fOneShot c)) i (vNodes st)) (nLastNodeId st)
               (vNonTLSNodesOutbound st) (Attempt st) (mapLocalHost st) (setBanned st))
  end.

(** [CConnman::OpenNetworkConnection]. *)
Definition OpenNetworkConnection (st : State) (c : Call) : bool * State :=
  if interruptNet_1 c then (false, st)
  else if refused st c then (false, st)
  else
    let (pnode, st) := ConnectNode st (addrConnect c) (pszDest c) (first_try c) in
    if interruptNet_2 c then (false, st)
    else if fTlsFallbackNonTls
            && bool_decide (pnode = None)
            && isNonTLSAddr (strDest c) (vNonTLSNodesOutbound st)
    then
      let (pnode, st) := ConnectNode st (addrConnect c) (pszDest c) (second_try c) in
      if interruptNet_3 c then (false, st) else finish c pnode st
    else finish c pnode st.

(** *** What an attempt does *)

Lemma first_index_None {A : Type} (p : A → bool) (l : list A) :
  first_index p l = None ↔ Forall (λ x, p x = false) l.
Proof.
  induction l as [|x l IH]; simpl; [by split; [constructor|]|].
  destruct (p x) eqn:Hp.
  - split; [done|]. intros Hall. apply Forall_inv in Hall. congruence.
  - rewrite fmap_None, IH. split.
    + by constructor.
    + intros Hall. by apply Forall_inv_tail in Hall.
Qed.

Lemma first_index_Some {A : Type} (p : A → bool) (l : list A) (i : nat) :
  first_index p l = Some i →
  ∃ x, l !! i = Some x ∧ p x = true ∧ Forall (λ y, p y = false) (take i l).
Proof.
  revert i. induction l as [|x l IH]; intros i; simpl; [done|].
  destruct (p x) eqn:Hp.
  - intros [= <-]. exists x. by repeat split.
  - destruct (first_index p l) as [j|]; simpl; [|done]. intros [= <-].
    destruct (IH j eq_refl) as (y & Hy & Hpy & Hbefore).
    exists y. simpl. split; [done|]. split; [done|]. by constructor.
Qed.

(** A peer with that address and port has that address. *)
Lemma FindNode_CService_CNetAddr (st : State) (a : CService) :
  FindNode_CNetAddr st a.1 = None → FindNode_CService st a = None.
Proof.
  unfold FindNode_CNetAddr, FindNode_CService. rewrite !first_index_None.
  intros Hall. eapply Forall_impl; [exact Hall|]. intros pnode Hne. simpl in Hne.
  apply bool_decide_eq_false in Hne. apply bool_decide_eq_false.
  by intros <-.
Qed.

(** How [ConnectNode] ends: with no peer and the peers as they were, with
    a peer there was, nothing being changed, or with a new peer at the end
    of [vNodes]. *)
Inductive Ending (st : State) (a : CService) (d : option string) (t : Try)
    (r : option nat * State) : Prop :=
| No_peer :
    r.1 = None → vNodes r.2 = vNodes st → nLastNodeId r.2 = nLastNodeId st →
    Ending st a d t r
| Old_peer (i : nat) :
    d = None → FindNode_CService st a = Some i → r = (Some i, st) →
    Ending st a d t r
| New_peer (channel : option SSL) :
    r.1 = Some (length (vNodes st)) →
    vNodes r.2 = vNodes st ++ [new_CNode st (addr_connected a d t) d channel t] →
    CreateSock t = true → ConnectSocket t = true → IsSelectable t = true →
    Ending st a d t r.

Lemma ConnectNode_ending (st : State) (a : CService) (d : option string) (t : Try) :
  Ending st a d t (ConnectNode st a d t)
  ∧ mapLocalHost (ConnectNode st a d t).2 = mapLocalHost st
  ∧ setBanned (ConnectNode st a d t).2 = setBanned st
  ∧ (∃ k, (k ≤ 1)%nat
          ∧ Attempt (ConnectNode st a d t).2
            = Attempt st ++ replicate k (addr_connected a d t)).
Proof.
  assert (Hmain :
    let r :=
      (if negb (CreateSock t) then (None, st)
       else
         let a' := addr_connected a d t in
         if ConnectSocket t then
           if negb (IsSelectable t) then (None, st)
           else
             let st1 := set_Attempt st a' in
             match Tls.ConnectNode_tls SELECT_TIMEDOUT ValidatePeerCertificate
                     fTlsFallbackNonTls fTlsValidate (vNonTLSNodesOutbound st1)
                     (ToStringIP a'.1) (GetTimeMillis t) (connect t) with
             | (Tls.Abort, table) =>
                 (None, mkState (vNodes st1) (nLastNodeId st1) table (Attempt st1)
                          (mapLocalHost st1) (setBanned st1))
             | (Tls.Proceed channel, table) =>
                 (Some (length (vNodes st1)),
                  mkState (vNodes st1 ++ [new_CNode st1 a' d channel t])
                    (NodeId (nLastNodeId st1 + 1)) table (Attempt st1)
                    (mapLocalHost st1) (setBanned st1))
             end
         else if negb (proxyConnectionFailed t) then (None, set_Attempt st a')
         else (None, st)) in
    Ending st a d t r
    ∧ mapLocalHost r.2 = mapLocalHost st
    ∧ setBanned r.2 = setBanned st
    ∧ (∃ k, (k ≤ 1)%nat
            ∧ Attempt r.2 = Attempt st ++ replicate k (addr_connected a d t))).
  { cbv zeta.
    destruct (CreateSock t) eqn:Hsock; simpl.
    2:{ split; [by apply No_peer|]. split; [done|]. split; [done|].
        exists 0%nat. split; [lia|]. simpl. by rewrite app_nil_r. }
    destruct (ConnectSocket t) eqn:Hconn.
    2:{ destruct (proxyConnectionFailed t); simpl.
        - split; [by apply No_peer|]. split; [done|]. split; [done|].
          exists 0%nat. split; [lia|]. simpl. by rewrite app_nil_r.
        - split; [by apply No_peer|]. split; [done|]. split; [done|].
          exists 1%nat. by split; [lia|]. }
    destruct (IsSelectable t) eqn:Hsel; simpl.
    2:{ split; [by apply No_peer|]. split; [done|]. split; [done|].
        exists 0%nat. split; [lia|]. simpl. by rewrite app_nil_r. }
    destruct (Tls.ConnectNode_tls _ _ _ _ _ _ _ _) as [[channel|] table]; simpl.
    - split; [by apply (New_peer _ _ _ _ _ channel)|]. split; [done|]. split; [done|].
      exists 1%nat. by split; [lia|].
    - split; [by apply No_peer|]. split; [done|]. split; [done|].
      exists 1%nat. by split; [lia|]. }
  unfold ConnectNode. cbv zeta in Hmain |- *.
  destruct d as [dest|]; [exact Hmain|].
  destruct (LocalHost.IsLocal (mapLocalHost st) a).
  { split; [by apply No_peer|]. split; [done|]. split; [done|].
    exists 0%nat. split; [lia|]. simpl. by rewrite app_nil_r. }
  destruct (FindNode_CService st a) as [i|] eqn:Hfind; [|exact Hmain].
  split; [by apply (Old_peer _ _ _ _ _ i)|]. split; [done|]. split; [done|].
  exists 0%nat. split; [lia|]. simpl. by rewrite app_nil_r.
Qed.

Lemma finish_new (c : Call) (st : State) (base : list CNode) (pnode : CNode) :
  vNodes st = base ++ [pnode] →
  finish c (Some (length base)) st
  = (true, mkState (base ++ [set_flags (c_fOneShot c) pnode]) (nLastNodeId st)
             (vNonTLSNodesOutbound st) (Attempt st) (mapLocalHost st) (setBanned st)).
Proof.
  intros Hv. unfold finish. rewrite Hv. do 2 f_equal.
  rewrite <- (Nat.add_0_r (length base)). by rewrite alter_app_r.
Qed.

(** What a call makes of the peers: the peers there were are as they
    were, and [added] holds the new peer, if any. *)
Definition adds (st : State) (c : Call) (r : bool * State) (added : list CNode) : Prop :=
  vNodes r.2 = vNodes st ++ added
  ∧ (length added ≤ 1)%nat
  ∧ Forall (λ pnode, fInbound pnode = false
                     ∧ (addr pnode
                        = addr_connected (addrConnect c) (pszDest c) (first_try c)
                        ∨ addr pnode
                          = addr_connected (addrConnect c) (pszDest c) (second_try c))
                     ∧ id pnode = nLastNodeId st
                     ∧ addrName pnode
                       = if bool_decide (default EmptyString (pszDest c) = EmptyString)
                         then ToStringIPPort (addr pnode)
                         else default EmptyString (pszDest c)) added
  ∧ (r.1 = true →
       ∃ pnode, added = [pnode] ∧ fNetworkNode pnode = true
                ∧ (c_fOneShot c = true → fOneShot pnode = true)).

Lemma adds_nothing (st : State) (c : Call) (st' : State) :
  vNodes st' = vNodes st → adds st c (false, st') [].
Proof.
  intros Hv. unfold adds. simpl. rewrite Hv, app_nil_r.
  split; [done|]. split; [lia|]. split; [constructor|done].
Qed.

Lemma adds_unfinished (st st0 : State) (c : Call) (st' : State) (channel : option SSL)
    (t : Try) :
  t = first_try c ∨ t = second_try c →
  nLastNodeId st0 = nLastNodeId st →
  vNodes st' = vNodes st
               ++ [new_CNode st0 (addr_connected (addrConnect c) (pszDest c) t)
                     (pszDest c) channel t] →
  adds st c (false, st')
    [new_CNode st0 (addr_connected (addrConnect c) (pszDest c) t) (pszDest c)
       channel t].
Proof.
  intros Ht Hid Hv. unfold adds. simpl.
  split; [done|]. split; [lia|]. split; [|done].
  constructor; [|constructor]. simpl.
  split; [done|]. split; [|done]. by destruct Ht as [-> | ->]; [left|right].
Qed.

Lemma adds_finished (st st0 : State) (c : Call) (st' : State) (channel : option SSL)
    (t : Try) :
  t = first_try c ∨ t = second_try c →
  nLastNodeId st0 = nLastNodeId st →
  vNodes st' = vNodes st
               ++ [new_CNode st0 (addr_connected (addrConnect c) (pszDest c) t)
                     (pszDest c) channel t] →
  adds st c (finish c (Some (length (vNodes st))) st')
    [set_flags (c_fOneShot c)
       (new_CNode st0 (addr_connected (addrConnect c) (pszDest c) t) (pszDest c)
          channel t)].
Proof.
  intros Ht Hid Hv. rewrite (finish_new c st' _ _ Hv). unfold adds. simpl.
  split; [done|]. split; [lia|]. split.
  { constructor; [|constructor]. simpl.
    split; [done|]. split; [|done]. by destruct Ht as [-> | ->]; [left|right]. }
  intros _. eexists. split; [done|]. split; [done|]. by intros ->.
Qed.

Lemma OpenNetworkConnection_adds (st : State) (c : Call) :
  ∃ added, adds st c (OpenNetworkConnection st c) added.
Proof.
  unfold OpenNetworkConnection.
  destruct (interruptNet_1 c); [exists []; by apply adds_nothing|].
  destruct (refused st c) eqn:Href; [exists []; by apply adds_nothing|].
  assert (Hnone : pszDest c = None → FindNode_CService st (addrConnect c) = None).
  { intros Hd. unfold refused in Href. rewrite Hd in Href.
    apply orb_false_iff in Href as [Href _]. apply orb_false_iff in Href as [Href _].
    apply orb_false_iff in Href as [_ Href]. apply bool_decide_eq_false in Href.
    apply FindNode_CService_CNetAddr.
    destruct (FindNode_CNetAddr st (addrConnect c).1) eqn:Hf; [|done].
    exfalso. apply Href. by eexists. }
  pose proof (ConnectNode_ending st (addrConnect c) (pszDest c) (first_try c))
    as [Hend _].
  destruct (ConnectNode st (addrConnect c) (pszDest c) (first_try c)) as [p1 st1].
  destruct Hend as [Hp Hv Hid|i Hd Hfind _|channel Hp Hv _ _ _]; simpl in *.
  - subst p1.
    destruct (interruptNet_2 c); [exists []; by apply adds_nothing|].
    rewrite bool_decide_eq_true_2 by done. rewrite andb_true_r.
    destruct (fTlsFallbackNonTls && isNonTLSAddr (strDest c) (vNonTLSNodesOutbound st1));
      [|exists []; by apply adds_nothing].
    pose proof (ConnectNode_ending st1 (addrConnect c) (pszDest c) (second_try c))
      as [Hend _].
    destruct (ConnectNode st1 (addrConnect c) (pszDest c) (second_try c)) as [p2 st2].
    destruct Hend as [Hp Hv2 _|i Hd Hfind _|channel Hp Hv2 _ _ _]; simpl in *.
    + subst p2. destruct (interruptNet_3 c); exists []; apply adds_nothing; congruence.
    + unfold FindNode_CService in Hfind, Hnone. rewrite Hv in Hfind.
      rewrite (Hnone Hd) in Hfind. done.
    + subst p2. rewrite Hv in Hv2.
      destruct (interruptNet_3 c).
      * eexists. apply (adds_unfinished st st1); [by right|done|done].
      * eexists. rewrite Hv. apply (adds_finished st st1); [by right|done|done].
  - rewrite (Hnone Hd) in Hfind. done.
  - subst p1.
    destruct (interruptNet_2 c).
    + eexists. apply (adds_unfinished st st); [by left|done|done].
    + rewrite bool_decide_eq_false_2 by done. rewrite andb_false_r. simpl.
      eexists. apply (adds_finished st st); [by left|done|done].
Qed.

Lemma OpenNetworkConnection_settings (st : State) (c : Call) :
  mapLocalHost (OpenNetworkConnection st c).2 = mapLocalHost st
  ∧ setBanned (OpenNetworkConnection st c).2 = setBanned st
  ∧ (∃ k1 k2, (k1 ≤ 1)%nat ∧ (k2 ≤ 1)%nat
          ∧ Attempt (OpenNetworkConnection st c).2
            = Attempt st
              ++ replicate k1 (addr_connected (addrConnect c) (pszDest c) (first_try c))
              ++ replicate k2
                   (addr_connected (addrConnect c) (pszDest c) (second_try c))).
Proof.
  assert (Hnil : ∀ (l : list CService) a1 a2,
            l = l ++ replicate 0 a1 ++ replicate 0 a2).
  { intros l a1 a2. simpl. by rewrite app_nil_r. }
  assert (Hone : ∀ (l l' : list CService) k a1 a2,
            l' = l ++ replicate k a1 → l' = l ++ replicate k a1 ++ replicate 0 a2).
  { intros l l' k a1 a2 ->. simpl. by rewrite app_nil_r. }
  assert (Hfinish : ∀ p s, mapLocalHost (finish c p s).2 = mapLocalHost s
                           ∧ setBanned (finish c p s).2 = setBanned s
                           ∧ Attempt (finish c p s).2 = Attempt s).
  { intros [i|] s; done. }
  unfold OpenNetworkConnection.
  destruct (interruptNet_1 c);
    [split; [done|split; [done|exists 0%nat, 0%nat; split; [lia|split; [lia|apply Hnil]]]]|].
  destruct (refused st c);
    [split; [done|split; [done|exists 0%nat, 0%nat; split; [lia|split; [lia|apply Hnil]]]]|].
  pose proof (ConnectNode_ending st (addrConnect c) (pszDest c) (first_try c))
    as (_ & Hl1 & Hb1 & k1 & Hk1 & Ha1).
  destruct (ConnectNode st (addrConnect c) (pszDest c) (first_try c)) as [p1 st1].
  simpl in Hl1, Hb1, Ha1 |- *.
  destruct (interruptNet_2 c);
    [split; [done|split; [done|exists k1, 0%nat; split; [lia|split; [lia|by apply Hone]]]]|].
  destruct (fTlsFallbackNonTls && bool_decide (p1 = None)
            && isNonTLSAddr (strDest c) (vNonTLSNodesOutbound st1)).
  - pose proof (ConnectNode_ending st1 (addrConnect c) (pszDest c) (second_try c))
      as (_ & Hl2 & Hb2 & k2 & Hk2 & Ha2).
    destruct (ConnectNode st1 (addrConnect c) (pszDest c) (second_try c)) as [p2 st2].
    simpl in Hl2, Hb2, Ha2 |- *.
    assert (Ha : Attempt st2
                 = Attempt st
                   ++ replicate k1
                        (addr_connected (addrConnect c) (pszDest c) (first_try c))
                   ++ replicate k2
                        (addr_connected (addrConnect c) (pszDest c) (second_try c))).
    { by rewrite Ha2, Ha1, <- app_assoc. }
    destruct (interruptNet_3 c); simpl.
    + split; [congruence|]. split; [congruence|].
      exists k1, k2. split; [lia|]. split; [lia|done].
    + destruct (Hfinish p2 st2) as (-> & -> & ->).
      split; [congruence|]. split; [congruence|].
      exists k1, k2. split; [lia|]. split; [lia|done].
  - destruct (Hfinish p1 st1) as (-> & -> & ->).
    split; [done|]. split; [done|].
    exists k1, 0%nat. split; [lia|]. split; [lia|by apply Hone].
Qed.

(** X22: a call of [OpenNetworkConnection] leaves the peers there were as
    they were and adds one peer at most, at the end of [vNodes]: an outbound
    peer, named by the destination of the call or, when that is null or
    empty, by its own address and port.  The address of the peer is the
    address [ConnectNode] held after the socket was connected, at the first
    attempt or at the second: with no destination that is the address of
    the call; with one it is what [ConnectSocketByName] left, of which
    nothing is assumed.  When the call returns true the peer
    has been added, with [fNetworkNode] set, and [fOneShot] for a one-shot:
    the call never ends with a peer there was.  Nothing is attempted and
    nothing changes when the node is being interrupted, when the name is
    that of a peer, and, with no name, for a local address, for the address
    of a peer whatever its port, and for a banned address.  The local
    addresses and the bans are not written, and [addrman.Attempt] is given
    the address of each attempt once at most, the first before the second:
    with no destination, the address of the call twice at most. *)
Theorem OpenNetworkConnection_opens_one_new_peer_at_most (st : State) (c : Call) :
  (∃ added,
     vNodes (OpenNetworkConnection st c).2 = vNodes st ++ added
     ∧ (length added ≤ 1)%nat
     ∧ Forall (λ pnode, fInbound pnode = false
                        ∧ (addr pnode
                           = addr_connected (addrConnect c) (pszDest c) (first_try c)
                           ∨ addr pnode
                             = addr_connected (addrConnect c) (pszDest c)
                                 (second_try c))
                        ∧ (pszDest c = None → addr pnode = addrConnect c)
                        ∧ (∀ dest, pszDest c = Some dest →
                             addr pnode = ConnectSocketByName_addr (first_try c)
                             ∨ addr pnode = ConnectSocketByName_addr (second_try c))
                        ∧ id pnode = nLastNodeId st
                        ∧ addrName pnode
                          = if bool_decide (default EmptyString (pszDest c) = EmptyString)
                            then ToStringIPPort (addr pnode)
                            else default EmptyString (pszDest c)) added
     ∧ ((OpenNetworkConnection st c).1 = true →
          ∃ pnode, added = [pnode] ∧ fNetworkNode pnode = true
                   ∧ (c_fOneShot c = true → fOneShot pnode = true)))
  ∧ (interruptNet_1 c = true ∨ refused st c = true →
       OpenNetworkConnection st c = (false, st))
  ∧ (pszDest c = None →
       LocalHost.IsLocal (mapLocalHost st) (addrConnect c) = true
       ∨ (∃ pnode, pnode ∈ vNodes st ∧ (addr pnode).1 = (addrConnect c).1)
       ∨ Ban.IsBanned_addr Match (setBanned st) (GetTime_IsBanned c) (addrConnect c).1
         = true →
       refused st c = true)
  ∧ (∀ dest, pszDest c = Some dest →
       (∃ pnode, pnode ∈ vNodes st ∧ addrName pnode = dest) → refused st c = true)
  ∧ mapLocalHost (OpenNetworkConnection st c).2 = mapLocalHost st
  ∧ setBanned (OpenNetworkConnection st c).2 = setBanned st
  ∧ (∃ k1 k2, (k1 ≤ 1)%nat ∧ (k2 ≤ 1)%nat
          ∧ Attempt (OpenNetworkConnection st c).2
            = Attempt st
              ++ replicate k1 (addr_connected (addrConnect c) (pszDest c) (first_try c))
              ++ replicate k2
                   (addr_connected (addrConnect c) (pszDest c) (second_try c)))
  ∧ (pszDest c = None →
       ∃ k, (k ≤ 2)%nat
            ∧ Attempt (OpenNetworkConnection st c).2
              = Attempt st ++ replicate k (addrConnect c)).
Proof.
  assert (Hfound : ∀ (p : CNode → bool) pnode,
            pnode ∈ vNodes st → p pnode = true →
            bool_decide (is_Some (first_index p (vNodes st))) = true).
  { intros p pnode Hin Hp. apply bool_decide_eq_true.
    destruct (first_index p (vNodes st)) eqn:Hf; [by eexists|].
    apply first_index_None in Hf. rewrite Forall_forall in Hf.
    specialize (Hf pnode Hin). congruence. }
  split.
  { destruct (OpenNetworkConnection_adds st c) as (added & Hv & Hlen & Hall & Hret).
    exists added. split; [done|]. split; [done|]. split; [|done].
    eapply Forall_impl; [exact Hall|]. simpl.
    intros pnode (Hin & Haddr & Hid & Hname).
    split; [done|]. split; [done|]. split; [|split; [|done]].
    - intros Hd. rewrite Hd in Haddr. simpl in Haddr. by destruct Haddr.
    - intros dest Hd. rewrite Hd in Haddr. exact Haddr. }
  destruct (OpenNetworkConnection_settings st c)
    as (Hlocal & Hbans & k1 & k2 & Hk1 & Hk2 & Hatt).
  split; [|split; [|split; [|split; [done|split; [done|split]]]]];
    [| | |by exists k1, k2|].
  4:{ intros Hd. rewrite Hd in Hatt. simpl in Hatt.
      exists (k1 + k2)%nat. split; [lia|]. by rewrite replicate_add. }
  - unfold OpenNetworkConnection. intros [->| ->]; [done|].
    by destruct (interruptNet_1 c).
  - intros Hd Hcase. unfold refused. rewrite Hd.
    destruct Hcase as [->|[(pnode & Hin & Haddr)| ->]]; [done| |].
    + unfold FindNode_CNetAddr.
      rewrite (Hfound _ pnode Hin) by by apply bool_decide_eq_true.
      by rewrite orb_true_r.
    + by rewrite !orb_true_r.
  - intros dest Hd (pnode & Hin & Hname). unfold refused. rewrite Hd.
    unfold FindNode_string. apply (Hfound _ pnode Hin). by apply bool_decide_eq_true.
Qed.

(** *** The second attempt *)

(** An attempt gets as far as the handshake. *)
Definition usable (t : Try) : Prop :=
  CreateSock t = true ∧ ConnectSocket t = true ∧ IsSelectable t = true.

Lemma ConnectNode_usable (st : State) (a : CService) (d : option string) (t : Try) :
  (d = None → LocalHost.IsLocal (mapLocalHost st) a = false
              ∧ FindNode_CService st a = None) →
  usable t →
  ConnectNode st a d t
  = match Tls.ConnectNode_tls SELECT_TIMEDOUT ValidatePeerCertificate
            fTlsFallbackNonTls fTlsValidate (vNonTLSNodesOutbound st)
            (ToStringIP (addr_connected a d t).1) (GetTimeMillis t) (connect t) with
    | (Tls.Abort, table) =>
        (None, mkState (vNodes st) (nLastNodeId st) table
                 (Attempt st ++ [addr_connected a d t])
                 (mapLocalHost st) (setBanned st))
    | (Tls.Proceed channel, table) =>
        (Some (length (vNodes st)),
         mkState (vNodes st ++ [new_CNode st (addr_connected a d t) d channel t])
           (NodeId (nLastNodeId st + 1)) table
           (Attempt st ++ [addr_connected a d t])
           (mapLocalHost st) (setBanned st))
    end.
Proof.
  intros Hnew (Hsock & Hconn & Hsel). unfold ConnectNode. cbv zeta.
  rewrite Hsock, Hconn, Hsel. simpl.
  destruct d as [dest|]; [done|].
  destruct (Hnew eq_refl) as [-> ->]. done.
Qed.

Lemma refused_false (st : State) (c : Call) :
  refused st c = false →
  pszDest c = None →
  LocalHost.IsLocal (mapLocalHost st) (addrConnect c) = false
  ∧ FindNode_CService st (addrConnect c) = None.
Proof.
  intros Href Hd. unfold refused in Href. rewrite Hd in Href.
  apply orb_false_iff in Href as [Href _]. apply orb_false_iff in Href as [Href _].
  apply orb_false_iff in Href as [Hlocal Href]. split; [done|].
  apply bool_decide_eq_false in Href. apply FindNode_CService_CNetAddr.
  destruct (FindNode_CNetAddr st (addrConnect c).1) eqn:Hf; [|done].
  exfalso. apply Href. by eexists.
Qed.

Lemma not_found_snoc (v : list Tls.NODE_ADDR) (ip : string) (t : Z) :
  Tls.not_found (v ++ [Tls.mkNODE_ADDR ip t]) (Tls.mkNODE_ADDR ip 0) = false.
Proof.
  unfold Tls.not_found. rewrite existsb_app. simpl.
  unfold Tls.NODE_ADDR_eqb at 2. simpl. rewrite bool_decide_eq_true_2 by done.
  by rewrite orb_true_r.
Qed.

Lemma erase_remove_snoc (v : list Tls.NODE_ADDR) (ip : string) (t : Z) :
  Tls.not_found v (Tls.mkNODE_ADDR ip 0) = true →
  Tls.erase_remove (v ++ [Tls.mkNODE_ADDR ip t]) (Tls.mkNODE_ADDR ip 0) = v.
Proof.
  unfold Tls.not_found, Tls.erase_remove. intros Hnot.
  apply negb_true_iff in Hnot.
  rewrite List.filter_app. simpl.
  unfold Tls.NODE_ADDR_eqb at 2. simpl. rewrite bool_decide_eq_true_2 by done.
  simpl. rewrite app_nil_r.
  induction v as [|x v IH]; [done|]. simpl in *.
  apply orb_false_iff in Hnot as [-> Hnot]. simpl. by rewrite IH.
Qed.

(** The addresses of the two attempts of a call. *)
Definition first_addr (c : Call) : CService :=
  addr_connected (addrConnect c) (pszDest c) (first_try c).

Definition second_addr (c : Call) : CService :=
  addr_connected (addrConnect c) (pszDest c) (second_try c).

(** X23: a handshake that fails is made up for in the same call.  Let a
    call that is neither interrupted nor refused connect its socket, to an
    address that is not in the table, and let the handshake fail; the
    address is the one [ConnectNode] holds after the socket was connected:
    the address of the call when no destination is given, and what
    [ConnectSocketByName] left when one is.  Without
    fallback mode the call returns false: the address has been given to
    [addrman.Attempt] once and nothing else has changed.  In fallback mode,
    with an error that is not the timeout of [select], the address is put in
    the table, and when [isNonTLSAddr] finds the host of the call there,
    which is the address of the call or the host of its destination, a
    second attempt is made at once: if that socket connects too, and, for a
    call with a destination, to an address that reads as the first one did,
    no handshake is made on it, whatever it would return and also with
    certificate validation on; the call returns true with the new peer,
    unencrypted and of the address of the second attempt, at the end of
    [vNodes], both addresses have been given to [addrman.Attempt], and the
    table is as it was before the call. *)
Theorem handshake_failure_is_retried_unencrypted (st : State) (c : Call) :
  interruptNet_1 c = false → interruptNet_2 c = false → interruptNet_3 c = false →
  refused st c = false →
  usable (first_try c) →
  Tls.hs_ssl (connect (first_try c)) = None →
  Tls.not_found (vNonTLSNodesOutbound st)
    (Tls.mkNODE_ADDR (ToStringIP (first_addr c).1) 0) = true →
  (pszDest c = None → first_addr c = addrConnect c ∧ second_addr c = addrConnect c)
  ∧ (∀ dest, pszDest c = Some dest →
       first_addr c = ConnectSocketByName_addr (first_try c)
       ∧ second_addr c = ConnectSocketByName_addr (second_try c))
  ∧ (fTlsFallbackNonTls = false →
     OpenNetworkConnection st c
     = (false, mkState (vNodes st) (nLastNodeId st) (vNonTLSNodesOutbound st)
                 (Attempt st ++ [first_addr c]) (mapLocalHost st) (setBanned st)))
  ∧ (fTlsFallbackNonTls = true →
     Tls.hs_err_code (connect (first_try c)) ≠ SELECT_TIMEDOUT →
     isNonTLSAddr (strDest c)
       (vNonTLSNodesOutbound st
        ++ [Tls.mkNODE_ADDR (ToStringIP (first_addr c).1) (GetTimeMillis (first_try c))])
     = true →
     usable (second_try c) →
     (pszDest c ≠ None → ToStringIP (second_addr c).1 = ToStringIP (first_addr c).1) →
     OpenNetworkConnection st c
     = (true,
        mkState
          (vNodes st
           ++ [set_flags (c_fOneShot c)
                 (new_CNode st (second_addr c) (pszDest c) None (second_try c))])
          (NodeId (nLastNodeId st + 1)) (vNonTLSNodesOutbound st)
          (Attempt st ++ [first_addr c; second_addr c])
          (mapLocalHost st) (setBanned st))
     ∧ ssl (new_CNode st (second_addr c) (pszDest c) None (second_try c)) = None
     ∧ addr (new_CNode st (second_addr c) (pszDest c) None (second_try c)) = second_addr c).
Proof.
  intros Hi1 Hi2 Hi3 Href Hfirst Hfail Hnot.
  unfold first_addr, second_addr in *.
  split; [intros Hd; by rewrite Hd|].
  split; [intros dest Hd; by rewrite Hd|].
  pose proof (refused_false st c Href) as Hnew.
  unfold OpenNetworkConnection. rewrite Hi1, Href.
  rewrite (ConnectNode_usable st _ _ _ Hnew Hfirst).
  unfold Tls.ConnectNode_tls. rewrite Hnot, Hfail.
  split.
  - intros Hfb. rewrite Hfb. simpl. by rewrite Hi2.
  - intros Hfb Herr Hfound Hsecond Hsame. rewrite Hfb.
    assert (Hip : ToStringIP (addr_connected (addrConnect c) (pszDest c) (second_try c)).1
                  = ToStringIP (addr_connected (addrConnect c) (pszDest c) (first_try c)).1).
    { destruct (pszDest c) eqn:Hd; [by apply Hsame|done]. }
    apply Z.eqb_neq in Herr. rewrite Herr. rewrite Hi2.
    cbn [vNodes nLastNodeId vNonTLSNodesOutbound Attempt mapLocalHost setBanned]. rewrite Hfound.
    rewrite bool_decide_eq_true_2 by done. simpl andb. cbv iota.
    rewrite ConnectNode_usable; [|exact Hnew|exact Hsecond].
    cbn [vNodes nLastNodeId vNonTLSNodesOutbound Attempt mapLocalHost setBanned].
    unfold Tls.ConnectNode_tls. rewrite Hip.
    rewrite Hfb, not_found_snoc, (erase_remove_snoc _ _ _ Hnot).
    assert (Hvalid : ∀ v, Tls.validate_certificate ValidatePeerCertificate fTlsValidate
                            None v = (Tls.Proceed None, v)).
    { intros v. unfold Tls.validate_certificate. by destruct fTlsValidate. }
    rewrite Hvalid, Hi3.
    rewrite (finish_new c _ (vNodes st)
               (new_CNode st (addr_connected (addrConnect c) (pszDest c) (second_try c))
                  (pszDest c) None (second_try c)))
      by done.
    simpl. by rewrite <- app_assoc.
Qed.

(** *** One-shot destinations *)

(** [CAddress()], the address [ProcessOneShot] gives along with the name. *)
Variable CAddress_default : CService.

(** [CConnman::AddOneShot]. *)
Definition AddOneShot (vOneShots : list string) (strDest : string) : list string :=
  vOneShots ++ [strDest].

(** The call [OpenNetworkConnection(addr, &grant, strDest.c_str(), true)];
    [env] holds what the call meets. *)
Definition one_shot (env : Call) (strDest : string) : Call :=
  mkCall CAddress_default (Some strDest) true
    (interruptNet_1 env) (interruptNet_2 env) (interruptNet_3 env)
    (GetTime_IsBanned env) (first_try env) (second_try env).

(** [CConnman::ProcessOneShot]; [grant] tells whether the outbound
    semaphore could be taken without waiting. *)
Definition ProcessOneShot (vOneShots : list string) (st : State) (grant : bool)
    (env : Call) : list string * State :=
  match vOneShots with
  | [] => ([], st)
  | strDest :: vOneShots =>
      if grant then
        let (opened, st) := OpenNetworkConnection st (one_shot env strDest) in
        if negb opened then (AddOneShot vOneShots strDest, st)
        else (vOneShots, st)
      else (vOneShots, st)
  end.

(** X25: [ProcessOneShot] takes the destination at the front of the
    queue and nothing else.  With the semaphore taken, a destination that
    could not be connected goes to the back of the queue, and one that could
    is out of the queue and has its peer at the end of [vNodes]: a one-shot
    network peer that is not inbound and, the destination not being the
    empty string, has the destination as its name.  With no semaphore to
    take the destination is out of the queue all the same, although nothing
    has been attempted and no peer has been added.  On an empty queue the
    function does nothing. *)
Theorem ProcessOneShot_takes_the_front (vOneShots : list string) (st : State)
    (grant : bool) (env : Call) :
  ProcessOneShot [] st grant env = ([], st)
  ∧ (∀ strDest,
       ProcessOneShot (strDest :: vOneShots) st false env = (vOneShots, st)
       ∧ ((ProcessOneShot (strDest :: vOneShots) st true env).1 = vOneShots ++ [strDest]
          ∧ (OpenNetworkConnection st (one_shot env strDest)).1 = false
          ∨ (ProcessOneShot (strDest :: vOneShots) st true env).1 = vOneShots
            ∧ (OpenNetworkConnection st (one_shot env strDest)).1 = true
            ∧ ∃ pnode,
                vNodes (ProcessOneShot (strDest :: vOneShots) st true env).2
                = vNodes st ++ [pnode]
                ∧ fOneShot pnode = true ∧ fNetworkNode pnode = true
                ∧ fInbound pnode = false
                ∧ (strDest ≠ EmptyString → addrName pnode = strDest))
       ∧ (ProcessOneShot (strDest :: vOneShots) st true env).2
         = (OpenNetworkConnection st (one_shot env strDest)).2)
  ∧ (length (ProcessOneShot vOneShots st grant env).1 ≤ length vOneShots)%nat.
Proof.
  split; [done|]. split.
  - intros strDest. split; [done|]. simpl.
    destruct (OpenNetworkConnection_adds st (one_shot env strDest))
      as (added & Hv & _ & Hnew & Hopened).
    destruct (OpenNetworkConnection st (one_shot env strDest)) as [opened st'].
    simpl in *. split; [|by destruct opened].
    destruct opened; simpl; [right|by left].
    split; [done|]. split; [done|].
    destruct (Hopened eq_refl) as (pnode & -> & Hnet & Hone).
    apply Forall_inv in Hnew as (Hin & _ & _ & Hname).
    exists pnode. split; [done|]. split; [by apply Hone|]. split; [done|].
    split; [done|]. intros Hne. rewrite Hname.
    by rewrite bool_decide_eq_false_2.
  - destruct vOneShots as [|strDest rest]; [done|]. simpl.
    destruct grant; [|simpl; lia].
    destruct (OpenNetworkConnection st (one_shot env strDest)) as [[|] st']; simpl.
    + lia.
    + unfold AddOneShot. rewrite length_app. simpl. lia.
Qed.

End outbound.
End Outbound.

(** A node in fallback mode with certificate validation on, no peer and an
    empty table, and a call to an address whose handshake fails with an
    error that is not the timeout. *)
Definition outbound_example_state :
    Outbound.State (CSubNet := string) (CNetAddr := string) (Network := nat)
      (SSL := unit) :=
  Outbound.mkState [] 0 [] [] local_example_state ∅.

Definition outbound_example_call : Outbound.Call (CNetAddr := string) (SSL := unit) :=
  Outbound.mkCall ("198.51.100.7", 8233) None false false false false 1000
    (Outbound.mkTry true true ("198.51.100.7", 8233) false true
       (Tls.mkHandshake None 5) 2000 1000)
    (Outbound.mkTry true true ("198.51.100.7", 8233) false true
       (Tls.mkHandshake None 5) 3000 1001).

(** The same call by name, as [ProcessOneShot] and [ThreadOpenAddedConnections]
    make it: the address is empty, the destination is the text of the
    address, and [ConnectSocketByName] leaves the address it connected
    to. *)
Definition outbound_example_call_by_name :
    Outbound.Call (CNetAddr := string) (SSL := unit) :=
  Outbound.mkCall (EmptyString, 0) (Some "198.51.100.7") false false false false 1000
    (Outbound.mkTry true true ("198.51.100.7", 8233) false true
       (Tls.mkHandshake None 5) 2000 1000)
    (Outbound.mkTry true true ("198.51.100.7", 8233) false true
       (Tls.mkHandshake None 5) 3000 1001).

Definition outbound_example_isNonTLSAddr (ip : string) (v : list Tls.NODE_ADDR) : bool :=
  negb (Tls.not_found v (Tls.mkNODE_ADDR ip 0)).

Definition outbound_example_OpenNetworkConnection :
    Outbound.State (CSubNet := string) (CNetAddr := string) (Network := nat)
      (SSL := unit)
    → Outbound.Call (CNetAddr := string) (SSL := unit)
    → bool * Outbound.State (CSubNet := string) (CNetAddr := string) (Network := nat)
               (SSL := unit) :=
  Outbound.OpenNetworkConnection String.eqb (λ a, a) (λ a, a.1) 100 (λ _, true)
    true true (λ dest, dest) outbound_example_isNonTLSAddr (λ i, i).

Lemma handshake_failure_is_retried_unencrypted_witness :
  outbound_example_OpenNetworkConnection outbound_example_state
    outbound_example_call_by_name
  = (true,
     Outbound.mkState
       [Outbound.mkCNode 0 ("198.51.100.7", 8233) "198.51.100.7" None
          false true false 1001]
       1 [] [("198.51.100.7", 8233); ("198.51.100.7", 8233)]
       local_example_state ∅).
Proof.
  destruct (Outbound.handshake_failure_is_retried_unencrypted String.eqb (λ a, a)
              (λ a, a.1) 100 (λ _ : unit, true) true true (λ dest, dest)
              outbound_example_isNonTLSAddr (λ i, i)
              outbound_example_state outbound_example_call_by_name)
    as (_ & _ & _ & Hretry).
  - reflexivity.
  - reflexivity.
  - reflexivity.
  - vm_compute. reflexivity.
  - repeat split.
  - reflexivity.
  - vm_compute. reflexivity.
  - destruct Hretry as [Hrun _].
    + reflexivity.
    + vm_compute. lia.
    + vm_compute. reflexivity.
    + repeat split.
    + intros _. reflexivity.
    + exact Hrun.
Defined.

(** The call by address ends in the same way, with the peer named by its
    address and port. *)
Example outbound_example_by_address :
  outbound_example_OpenNetworkConnection outbound_example_state outbound_example_call
  = (true,
     Outbound.mkState
       [Outbound.mkCNode 0 ("198.51.100.7", 8233) "198.51.100.7" None
          false true false 1001]
       1 [] [("198.51.100.7", 8233); ("198.51.100.7", 8233)]
       local_example_state ∅).
Proof. vm_compute. reflexivity. Qed.

(** A name whose host is not the text of the address it resolves to is not
    found in the table, which holds addresses: the call returns false after
    the failed handshake, the address being in the table. *)
Example outbound_example_by_host_name :
  outbound_example_OpenNetworkConnection outbound_example_state
    (Outbound.mkCall (EmptyString, 0) (Some "peer.example") false false false false
       1000
       (Outbound.mkTry true true ("198.51.100.7", 8233) false true
          (Tls.mkHandshake None 5) 2000 1000)
       (Outbound.mkTry true true ("198.51.100.7", 8233) false true
          (Tls.mkHandshake None 5) 3000 1001))
  = (false,
     Outbound.mkState [] 0 [Tls.mkNODE_ADDR "198.51.100.7" 2000]
       [("198.51.100.7", 8233)] local_example_state ∅).
Proof. vm_compute. reflexivity. Qed.

(** ** The relay memory *)

(** The first part of [Relay]: the messages kept for the peers that ask
    for them, [mapRelay], and the times at which they are dropped,
    [vRelayExpiration].  The second part hands the inventory to the peers
    through [PushInventory], declared outside these sources, and is left
    out. *)
Module RelayMemory.

Section relay.

Context {CInv : Type} `{Countable CInv} {CDataStream : Type}.

(** The readings of [GetTime()], in the order of the calls. *)
Variable GetTime : nat → Z.

Record State := mkState {
  mapRelay : gmap CInv CDataStream;
  vRelayExpiration : list (Z * CInv)
}.

(** "Expire old relay messages": the loop reads the clock at each test on
    a deque that is not empty; [i] counts the readings. *)
Fixpoint expire (i : nat) (expiration : list (Z * CInv)) (m : gmap CInv CDataStream)
    : nat * list (Z * CInv) * gmap CInv CDataStream :=
  match expiration with
  | [] => (i, [], m)
  | front :: rest =>
      if front.1 <? GetTime i then expire (S i) rest (delete front.2 m)
      else (S i, expiration, m)
  end.

(** [mapRelay.insert(std::make_pair(inv, ss))]: an entry there is stays. *)
Definition map_insert (m : gmap CInv CDataStream) (inv : CInv) (ss : CDataStream)
    : gmap CInv CDataStream :=
  match m !! inv with
  | Some _ => m
  | None => <[inv := ss]> m
  end.

(** The block of [Relay] under [cs_mapRelay]. *)
Definition Relay (i : nat) (st : State) (inv : CInv) (ss : CDataStream) : nat * State :=
  let '(i, expiration, m) := expire i (vRelayExpiration st) (mapRelay st) in
  (S i, mkState (map_insert m inv ss) (expiration ++ [(GetTime i + 15 * 60, inv)])).

(** *** What the code keeps true *)










End relay.
End RelayMemory.

(** A clock read every 1000 seconds from 1000 on, and two messages kept:
    the time of the first has passed at the first reading, the time of the
    second passes before the second one. *)
Definition relay_example_GetTime (i : nat) : Z := 1000 + 1000 * Z.of_nat i.

Definition relay_example_state : RelayMemory.State (CInv := string) (CDataStream := nat) :=
  RelayMemory.mkState {[ "a" := 1%nat; "c" := 3%nat ]} [(900, "a"); (1500, "c")].

Example relay_example_run :
  RelayMemory.Relay relay_example_GetTime 0 relay_example_state "b" 2%nat
  = (3%nat, RelayMemory.mkState {[ "b" := 2%nat ]} [(3900, "b")]).
Proof. vm_compute. reflexivity. Qed.




(** ** The choice of an address to connect to *)

(** The loop of [CConnman::ThreadOpenConnections] that draws addresses from
    the address manager until one will do. *)
Module OpenConnections.

Section choice.

Context {CNetAddr : Type} `{Countable CNetAddr} {Network : Type}.
Context {CAddrInfo : Type}.

(** What the loop reads of an address, and [Params().GetDefaultPort()]. *)
Variable IsValid : CAddrInfo → bool.
Variable GetGroup : CAddrInfo → list byte.
Variable CService_of : CAddrInfo → LocalHost.CService (CNetAddr := CNetAddr).
Variable GetNetwork : CNetAddr → Network.
Variable nLastTry : CAddrInfo → Z.
Variable GetPort : CAddrInfo → Z.
Variable GetDefaultPort : Z.

(** [CAddress()], and the results of [addrman.Select()] in the order of the
    calls. *)
Variable CAddress_default : CAddrInfo.
Variable Select : nat → CAddrInfo.

(** The peers, the local addresses and limits, and the reading of the
    clock before the loop. *)
Variable vNodes : list Eviction.CNode.
Variable local : LocalHost.State (CNetAddr := CNetAddr) (Network := Network).
Variable nANow : Z.

(** "Only connect out to one peer per network group". *)
Definition setConnected : gset (list byte) :=
  list_to_set (Eviction.addr_GetGroup
                 <$> List.filter (λ pnode, negb (Eviction.fInbound pnode)) vNodes).

(** The three ways a turn of the loop ends for the address drawn, [nTries]
    being the count after the turn: the loop is left without an address, the
    address is passed over, or it is taken. *)
Definition stops (a : CAddrInfo) : bool :=
  negb (IsValid a) || bool_decide (GetGroup a ∈ setConnected)
  || LocalHost.IsLocal local (CService_of a).

Definition passed_over (a : CAddrInfo) (nTries : Z) : bool :=
  LocalHost.IsLimited GetNetwork local (CService_of a).1
  || ((nANow - nLastTry a <? 600) && (nTries <? 30))
  || (negb (GetPort a =? GetDefaultPort) && (nTries <? 50)).

(** The loop; [k] counts the calls of [Select], and [addrConnect] is
    returned, [None] standing for a loop that has not ended yet. *)
Fixpoint choose (fuel : nat) (k : nat) (nTries : Z) : option CAddrInfo :=
  match fuel with
  | O => None
  | S fuel =>
      let addr := Select k in
      if negb (IsValid addr) || bool_decide (GetGroup addr ∈ setConnected)
         || LocalHost.IsLocal local (CService_of addr)
      then Some CAddress_default
      else
        let nTries := nTries + 1 in
        if nTries >? 100 then Some CAddress_default
        else if LocalHost.IsLimited GetNetwork local (CService_of addr).1
        then choose fuel (S k) nTries
        else if (nANow - nLastTry addr <? 600) && (nTries <? 30)
        then choose fuel (S k) nTries
        else if negb (GetPort addr =? GetDefaultPort) && (nTries <? 50)
        then choose fuel (S k) nTries
        else Some addr
  end.

(** How the loop ends after [k] addresses that were passed over. *)
Inductive Chosen : CAddrInfo → Prop :=
| Taken (k : nat) :
    (k < 100)%nat →
    (∀ j, (j < k)%nat →
       stops (Select j) = false ∧ passed_over (Select j) (Z.of_nat j + 1) = true) →
    stops (Select k) = false →
    passed_over (Select k) (Z.of_nat k + 1) = false →
    Chosen (Select k)
| Left (k : nat) :
    (k ≤ 100)%nat →
    (∀ j, (j < k)%nat →
       stops (Select j) = false ∧ passed_over (Select j) (Z.of_nat j + 1) = true) →
    k = 100%nat ∨ stops (Select k) = true →
    Chosen CAddress_default.

Lemma choose_turn (fuel k : nat) :
  choose (S fuel) k (Z.of_nat k)
  = if stops (Select k) then Some CAddress_default
    else if (100 <=? k)%nat then Some CAddress_default
    else if passed_over (Select k) (Z.of_nat k + 1)
    then choose fuel (S k) (Z.of_nat (S k))
    else Some (Select k).
Proof.
  simpl choose. unfold stops, passed_over.
  destruct (negb (IsValid (Select k)) || _ || _); [done|].
  destruct (Z.gtb_spec (Z.of_nat k + 1) 100) as [Hgt|Hle];
    destruct (Nat.leb_spec 100 k) as [Hk|Hk]; try lia; [done|].
  replace (Z.of_nat (S k)) with (Z.of_nat k + 1) by lia.
  destruct (LocalHost.IsLimited _ _ _); [done|]. simpl.
  destruct ((nANow - nLastTry (Select k) <? 600) && (Z.of_nat k + 1 <? 30)); [done|].
  simpl. by destruct (negb (GetPort (Select k) =? GetDefaultPort) && _).
Qed.

Lemma choose_ends (fuel : nat) :
  ∀ k, (101 ≤ fuel + k)%nat → (k ≤ 100)%nat →
    (∀ j, (j < k)%nat →
       stops (Select j) = false ∧ passed_over (Select j) (Z.of_nat j + 1) = true) →
    ∃ a, choose fuel k (Z.of_nat k) = Some a ∧ Chosen a.
Proof.
  induction fuel as [|fuel IH]; intros k Hfuel Hk100 Hbefore; [lia|].
  rewrite choose_turn.
  destruct (stops (Select k)) eqn:Hstop.
  { exists CAddress_default. split; [done|]. apply (Left k); [done|done|by right]. }
  destruct (Nat.leb_spec 100 k) as [Hk|Hk].
  { exists CAddress_default. split; [done|].
    apply (Left 100); [done| |by left]. intros j Hj. apply Hbefore. lia. }
  destruct (passed_over (Select k) (Z.of_nat k + 1)) eqn:Hpass.
  - apply IH; [lia|lia|]. intros j Hj.
    destruct (decide (j = k)) as [->|Hne]; [done|]. apply Hbefore. lia.
  - exists (Select k). split; [done|]. by apply (Taken k).
Qed.

Lemma choose_fuel (fuel : nat) :
  ∀ k a, choose fuel k (Z.of_nat k) = Some a →
    ∀ fuel', (fuel ≤ fuel')%nat → choose fuel' k (Z.of_nat k) = Some a.
Proof.
  induction fuel as [|fuel IH]; intros k a Hrun fuel' Hle; [done|].
  destruct fuel' as [|fuel']; [lia|].
  rewrite choose_turn in Hrun |- *.
  destruct (stops (Select k)); [done|].
  destruct (100 <=? k)%nat; [done|].
  destruct (passed_over (Select k) (Z.of_nat k + 1)); [|done].
  apply (IH _ _ Hrun). lia.
Qed.

(** X26: the loop ends within 101 calls of [Select], with the address it
    has taken or with none.  It takes the first address drawn that is not
    passed over, after 99 others at most: an address that is valid, in no
    network group of an outbound peer, not local and not limited, that was
    last tried 10 minutes ago or more unless 29 addresses were passed over
    before it, and that has the default port unless 49 were.  The loop is
    left with no address, [addrConnect] being as [CAddress()] made it, at
    the first address drawn that is invalid, in the group of an outbound
    peer or local, and after 100 addresses that were passed over. *)
Theorem choose_takes_the_first_that_will_do (fuel : nat) :
  (∃ a k,
     choose (101 + fuel) 0 0 = Some a
     ∧ (k ≤ 100)%nat
     ∧ (∀ j, (j < k)%nat →
          stops (Select j) = false ∧ passed_over (Select j) (Z.of_nat j + 1) = true)
     ∧ ((a = Select k ∧ (k < 100)%nat ∧ stops (Select k) = false
         ∧ passed_over (Select k) (Z.of_nat k + 1) = false)
        ∨ (a = CAddress_default ∧ (k = 100%nat ∨ stops (Select k) = true))))
  ∧ (∀ a n, stops a = false → passed_over a n = false →
       IsValid a = true
       ∧ (GetGroup a ∉ setConnected)
       ∧ LocalHost.IsLocal local (CService_of a) = false
       ∧ LocalHost.IsLimited GetNetwork local (CService_of a).1 = false
       ∧ (nANow - nLastTry a < 600 → 30 <= n)
       ∧ (GetPort a ≠ GetDefaultPort → 50 <= n))
  ∧ (∀ a, stops a = true ↔
       IsValid a = false ∨ GetGroup a ∈ setConnected
       ∨ LocalHost.IsLocal local (CService_of a) = true)
  ∧ (∀ g, g ∈ setConnected ↔
       ∃ pnode, pnode ∈ vNodes ∧ Eviction.fInbound pnode = false
                ∧ Eviction.addr_GetGroup pnode = g).
Proof.
  split; [|split; [|split]].
  - destruct (choose_ends 101 0 ltac:(lia) ltac:(lia)) as (a & Hrun & Ha);
      [intros j Hj; lia|].
    apply (choose_fuel 101 0 a) with (fuel' := (101 + fuel)%nat) in Hrun; [|lia].
    destruct Ha as [k Hk Hbefore Hstop Hpass|k Hk Hbefore Hend].
    + exists (Select k), k. split; [done|]. split; [lia|]. split; [done|]. by left.
    + exists CAddress_default, k. split; [done|]. split; [done|]. split; [done|].
      by right.
  - intros a n Hstop Hpass.
    unfold stops in Hstop. unfold passed_over in Hpass.
    apply orb_false_iff in Hstop as [Hstop Hlocal].
    apply orb_false_iff in Hstop as [Hvalid Hgroup].
    apply orb_false_iff in Hpass as [Hpass Hport].
    apply orb_false_iff in Hpass as [Hlimited Hrecent].
    apply negb_false_iff in Hvalid. apply bool_decide_eq_false in Hgroup.
    split; [done|]. split; [done|]. split; [done|]. split; [done|]. split.
    + intros Hlt. apply andb_false_iff in Hrecent as [Hr|Hr]; lia.
    + intros Hne. apply andb_false_iff in Hport as [Hp|Hp]; [|lia].
      apply negb_false_iff in Hp. lia.
  - intros a. unfold stops. rewrite !orb_true_iff, negb_true_iff, bool_decide_eq_true.
    tauto.
  - intros g. unfold setConnected. rewrite elem_of_list_to_set, list_elem_of_fmap.
    split.
    + intros (pnode & -> & Hin). apply list_elem_of_In, filter_In in Hin as [Hin Hout].
      exists pnode. apply list_elem_of_In in Hin. apply negb_true_iff in Hout. done.
    + intros (pnode & Hin & Hout & <-). exists pnode. split; [done|].
      apply list_elem_of_In, filter_In. split; [by apply list_elem_of_In|].
      by rewrite Hout.
Qed.

End choice.
End OpenConnections.

(** ** Requests for inventory items *)

(** [CNode::AskFor]. *)
Module Requests.

Section askfor.

Context {CInv : Type} `{Countable CInv}.
Context {uint256 : Type} `{Countable uint256}.

(** [inv.hash]. *)
Variable hash : CInv → uint256.

(** [MAPASKFOR_MAX_SZ] and [SETASKFOR_MAX_SZ], and the two tables of the
    connection manager with what the function does with them,
    [mapAlreadyAskedFor] with [find], [update] and [insert], and
    [mapAlreadyReceived] with [erase]: all are declared outside these
    sources. *)
Variable MAPASKFOR_MAX_SZ : Z.
Variable SETASKFOR_MAX_SZ : Z.
Context {LimitedMap : Type} {Received : Type}.
Variable find : LimitedMap → CInv → option Z.
Variable update : LimitedMap → CInv → Z → LimitedMap.
Variable insert : LimitedMap → CInv → Z → LimitedMap.
Variable erase : Received → CInv → Received.

(** [mapAskFor] is a [std::multimap]: its entries in the order of their
    times, an entry coming behind those of the same time. *)
Fixpoint multimap_insert (m : list (Z * CInv)) (e : Z * CInv) : list (Z * CInv) :=
  match m with
  | [] => [e]
  | x :: m' => if x.1 <=? e.1 then x :: multimap_insert m' e else e :: m
  end.

(** The peer, with the static [nLastTime] of the function and the two
    tables. *)
Record State := mkState {
  mapAskFor : list (Z * CInv);
  setAskFor : gset uint256;
  nLastTime : Z;
  mapAlreadyAskedFor : LimitedMap;
  mapAlreadyReceived : Received
}.

(** [CNode::AskFor]; [GetTimeMicros] is the reading of the clock. *)
Definition AskFor (st : State) (inv : CInv) (GetTimeMicros : Z) : State :=
  if (Z.of_nat (length (mapAskFor st)) >? MAPASKFOR_MAX_SZ)
     || (Z.of_nat (size (setAskFor st)) >? SETASKFOR_MAX_SZ)
  then st
  else if bool_decide (hash inv ∈ setAskFor st) then st
  else
    let setAskFor' := {[ hash inv ]} ∪ setAskFor st in
    let received := erase (mapAlreadyReceived st) inv in
    let it := find (mapAlreadyAskedFor st) inv in
    let nRequestTime := default 0 it in
    let nNow := GetTimeMicros - 1000000 in
    let nLastTime' := nLastTime st + 1 in
    let nNow := Z.max nNow nLastTime' in
    let nRequestTime := Z.max (nRequestTime + 2 * 60 * 1000000) nNow in
    let asked :=
      match it with
      | Some _ => update (mapAlreadyAskedFor st) inv nRequestTime
      | None => insert (mapAlreadyAskedFor st) inv nRequestTime
      end in
    mkState (multimap_insert (mapAskFor st) (nRequestTime, inv)) setAskFor' nNow
      asked received.

Definition calls (st : State) (cs : list (CInv * Z)) : State :=
  foldl (λ st c, AskFor st c.1 c.2) st cs.

(** *** What the code keeps true *)

(** "A peer may not have multiple non-responded queue positions for a
    single inv item": the items of the queue have different hashes, all of
    them in [setAskFor]; and both tables are within their sizes, the one
    entry a call adds to a full table included. *)
Definition one_position (st : State) : Prop :=
  NoDup ((λ e, hash e.2) <$> mapAskFor st)
  ∧ ∀ e, e ∈ mapAskFor st → hash e.2 ∈ setAskFor st.

Definition within_sizes (st : State) : Prop :=
  Z.of_nat (length (mapAskFor st)) <= MAPASKFOR_MAX_SZ + 1
  ∧ Z.of_nat (size (setAskFor st)) <= SETASKFOR_MAX_SZ + 1.

Lemma multimap_insert_Permutation (m : list (Z * CInv)) (e : Z * CInv) :
  multimap_insert m e ≡ₚ e :: m.
Proof.
  induction m as [|x m IH]; simpl; [done|].
  destruct (x.1 <=? e.1); [|done]. rewrite IH. apply Permutation_swap.
Qed.

(** The calls that change nothing. *)
Definition refused (st : State) (inv : CInv) : bool :=
  (Z.of_nat (length (mapAskFor st)) >? MAPASKFOR_MAX_SZ)
  || (Z.of_nat (size (setAskFor st)) >? SETASKFOR_MAX_SZ)
  || bool_decide (hash inv ∈ setAskFor st).

Lemma AskFor_refused (st : State) (inv : CInv) (now : Z) :
  refused st inv = true → AskFor st inv now = st.
Proof.
  unfold refused, AskFor. intros Href.
  apply orb_true_iff in Href as [Href|Href]; [by rewrite Href|].
  rewrite Href. by destruct (_ || _).
Qed.

Lemma AskFor_accepted (st : State) (inv : CInv) (now : Z) :
  refused st inv = false →
  ∃ t, mapAskFor (AskFor st inv now) ≡ₚ (t, inv) :: mapAskFor st
    ∧ setAskFor (AskFor st inv now) = {[ hash inv ]} ∪ setAskFor st
    ∧ (hash inv ∉ setAskFor st)
    ∧ Z.of_nat (length (mapAskFor st)) <= MAPASKFOR_MAX_SZ
    ∧ Z.of_nat (size (setAskFor st)) <= SETASKFOR_MAX_SZ
    ∧ nLastTime st < nLastTime (AskFor st inv now)
    ∧ now - 1000000 <= nLastTime (AskFor st inv now)
    ∧ nLastTime (AskFor st inv now) <= t
    ∧ (∀ before, find (mapAlreadyAskedFor st) inv = Some before →
         before + 2 * 60 * 1000000 <= t).
Proof.
  unfold refused, AskFor. intros Href.
  apply orb_false_iff in Href as [Href Hnew].
  rewrite Href, Hnew. apply orb_false_iff in Href as [Hmap Hset].
  apply bool_decide_eq_false in Hnew. cbv zeta. simpl.
  eexists. split; [apply multimap_insert_Permutation|].
  split; [done|]. split; [done|]. split; [lia|]. split; [lia|].
  split; [lia|]. split; [lia|]. split; [lia|].
  intros before ->. simpl. lia.
Qed.

Lemma AskFor_keeps (st : State) (inv : CInv) (now : Z) :
  one_position st → within_sizes st →
  one_position (AskFor st inv now) ∧ within_sizes (AskFor st inv now)
  ∧ nLastTime st <= nLastTime (AskFor st inv now).
Proof.
  intros [Hnd Hin] [Hmap Hset].
  destruct (refused st inv) eqn:Href.
  { rewrite (AskFor_refused st inv now Href). repeat split; (done || lia). }
  destruct (AskFor_accepted st inv now Href)
    as (t & Hperm & Hs & Hnew & Hm & Hz & Hlast & _).
  split; [|split; [|lia]].
  - split.
    + rewrite Hperm. rewrite fmap_cons. simpl. apply NoDup_cons. split; [|done].
      intros Hold. apply list_elem_of_fmap in Hold as (e & He & Hine).
      apply Hnew. rewrite He. by apply Hin.
    + intros e He. rewrite Hperm in He. rewrite Hs.
      apply elem_of_union.
      apply elem_of_cons in He as [->|He]; [left; by apply elem_of_singleton|].
      right. by apply Hin.
  - split.
    + rewrite Hperm. simpl. lia.
    + rewrite Hs, size_union by by apply disjoint_singleton_l.
      rewrite size_singleton. lia.
Qed.

(** X27: a peer has one position in the queue for an item, and the queue
    and the set are bounded.  Over any sequence of calls of [AskFor], on a
    peer for which this holds, the items of [mapAskFor] have different
    hashes, all of them in [setAskFor]; [mapAskFor] has no more than
    [MAPASKFOR_MAX_SZ + 1] entries and [setAskFor] no more than
    [SETASKFOR_MAX_SZ + 1]; and [nLastTime] does not go down.  A call
    changes nothing when one of the two is over its size or the hash of the
    item is in [setAskFor].  Any other call adds one entry for the item, at
    a time that is above every time index used before, whatever the clock
    reads, not more than a second before the reading of the clock, and two
    minutes or more after the time the item was last asked for at. *)
Theorem AskFor_keeps_one_position_per_item (st : State) (cs : list (CInv * Z))
    (inv : CInv) (GetTimeMicros : Z) :
  one_position st → within_sizes st →
  (one_position (calls st cs) ∧ within_sizes (calls st cs)
   ∧ nLastTime st <= nLastTime (calls st cs))
  ∧ (refused st inv = true → AskFor st inv GetTimeMicros = st)
  ∧ (refused st inv = false →
       ∃ t, mapAskFor (AskFor st inv GetTimeMicros) ≡ₚ (t, inv) :: mapAskFor st
         ∧ setAskFor (AskFor st inv GetTimeMicros) = {[ hash inv ]} ∪ setAskFor st
         ∧ nLastTime st < nLastTime (AskFor st inv GetTimeMicros)
         ∧ GetTimeMicros - 1000000 <= nLastTime (AskFor st inv GetTimeMicros)
         ∧ nLastTime (AskFor st inv GetTimeMicros) <= t
         ∧ (∀ before, find (mapAlreadyAskedFor st) inv = Some before →
              before + 2 * 60 * 1000000 <= t)).
Proof.
  intros Hone Hsizes. split; [|split].
  - unfold calls. revert st Hone Hsizes.
    induction cs as [|c cs IH]; intros st Hone Hsizes;
      [simpl; split; [done|split; [done|lia]]|].
    simpl. destruct (AskFor_keeps st c.1 c.2 Hone Hsizes) as (Hone' & Hsizes' & Hlast).
    destruct (IH _ Hone' Hsizes') as (? & ? & ?). split; [done|]. split; [done|]. lia.
  - apply AskFor_refused.
  - intros Href.
    destruct (AskFor_accepted st inv GetTimeMicros Href)
      as (t & Hperm & Hs & _ & _ & _ & Hlast & Hnow & Ht & Hbefore).
    by exists t.
Qed.

End askfor.
End Requests.

(** A peer with nothing asked for, tables of 2 entries, and three calls,
    the third for the item of the first; [mapAlreadyAskedFor] is a list of
    pairs. *)
Definition requests_example_find (m : list (string * Z)) (inv : string) : option Z :=
  snd <$> List.find (λ e, bool_decide (e.1 = inv)) m.

Definition requests_example_state :
    Requests.State (CInv := string) (uint256 := string)
      (LimitedMap := list (string * Z)) (Received := list string) :=
  Requests.mkState [] ∅ 0 [] [].

Definition requests_example_calls : list (string * Z) :=
  [("tx1", 5000000); ("tx2", 5000000); ("tx1", 9000000)].

Lemma AskFor_keeps_one_position_per_item_witness :
  Requests.one_position (λ inv, inv)
    (Requests.calls (λ inv, inv) 2 2 requests_example_find
       (λ m inv t, (inv, t) :: m) (λ m inv t, (inv, t) :: m) (λ r inv, r)
       requests_example_state requests_example_calls)
  ∧ Requests.mapAskFor
      (Requests.calls (λ inv, inv) 2 2 requests_example_find
         (λ m inv t, (inv, t) :: m) (λ m inv t, (inv, t) :: m) (λ r inv, r)
         requests_example_state requests_example_calls)
    = [(120000000, "tx1"); (120000000, "tx2")].
Proof.
  destruct (Requests.AskFor_keeps_one_position_per_item (λ inv, inv) 2 2
              requests_example_find (λ m inv t, (inv, t) :: m)
              (λ m inv t, (inv, t) :: m) (λ r inv, r)
              requests_example_state requests_example_calls "tx1" 5000000)
    as [(Hone & _) _].
  - split; [constructor|]. intros e He. by apply elem_of_nil in He.
  - split; vm_compute; discriminate.
  - split; [exact Hone|]. vm_compute. reflexivity.
Defined.

(** ** The socket handler: disconnected peers *)

(** The two steps at the head of the loop of
    [CConnman::ThreadSocketHandler], which take the peers to disconnect out
    of [vNodes] and delete the peers nobody uses any more, and the
    inactivity check at its end. *)
Module SocketHandler.

(** The fields of a peer that these steps read or write, the queues and
    the socket being those of [SendQueue]. *)
Record CNode := mkCNode {
  id : Z;
  fInbound : bool;
  fNetworkNode : bool;
  nTimeConnected : Z;
  nLastRecv : Z;
  nPingNonceSent : Z;
  nPingUsecStart : Z;
  peer : SendQueue.State
}.

Definition with_peer (pnode : CNode) (st : SendQueue.State) : CNode :=
  mkCNode (id pnode) (fInbound pnode) (fNetworkNode pnode) (nTimeConnected pnode)
    (nLastRecv pnode) (nPingNonceSent pnode) (nPingUsecStart pnode) st.

Section handler.

(** [GetRefCount], [Release] and the release of the outbound grant are
    declared outside these sources, and so is [TIMEOUT_INTERVAL]. *)
Variable GetRefCount : CNode → Z.
Variable Release : CNode → CNode.
Variable grantOutbound_Release : CNode → CNode.
Variable TIMEOUT_INTERVAL : Z.

(** The outcomes of [TRY_LOCK(cs_vRecvMsg, lockRecv)], in the order of the
    calls. *)
Variable lockRecv : nat → bool.

(** "Disconnect unused nodes": the test on a peer. *)
Definition unused (pnode : CNode) : bool :=
  (GetRefCount pnode <=? 0)
  && bool_decide (SendQueue.vRecvMsg (peer pnode) = [])
  && (SendQueue.nSendSize (peer pnode) =? 0)
  && bool_decide (SendQueue.ssSend (peer pnode) = []).

Definition to_disconnect (pnode : CNode) : bool :=
  SendQueue.fDisconnect (peer pnode) || unused pnode.

(** What is done to a peer that is taken out of [vNodes], before it is put
    in [vNodesDisconnected]. *)
Definition disconnected (i : nat) (pnode : CNode) : CNode :=
  let pnode := grantOutbound_Release pnode in
  let pnode := with_peer pnode (SendQueue.CloseSocketDisconnect (lockRecv i) (peer pnode)) in
  if fNetworkNode pnode || fInbound pnode then Release pnode else pnode.

(** [vNodes.erase(remove(vNodes.begin(), vNodes.end(), pnode), vNodes.end())]:
    the pointers to the peer, a peer being identified by its [id]. *)
Definition erase_remove (v : list CNode) (pnode : CNode) : list CNode :=
  List.filter (λ x, negb (id x =? id pnode)) v.

(** One turn of the loop over the copy of [vNodes]; the state is [vNodes],
    [vNodesDisconnected] and the count of the locks tried. *)
Definition sweep_turn (s : list CNode * list CNode * nat) (pnode : CNode)
    : list CNode * list CNode * nat :=
  let '(vNodes, vNodesDisconnected, i) := s in
  if to_disconnect pnode
  then (erase_remove vNodes pnode, vNodesDisconnected ++ [disconnected i pnode], S i)
  else s.

Definition sweep (vNodes vNodesDisconnected : list CNode) (i : nat)
    : list CNode * list CNode * nat :=
  fold_left sweep_turn vNodes (vNodes, vNodesDisconnected, i).

(** "Delete disconnected nodes": one turn of the loop over the copy of
    [vNodesDisconnected], and the loop. *)
Definition delete_turn (s : list CNode * nat) (pnode : CNode) : list CNode * nat :=
  let '(vNodesDisconnected, i) := s in
  if GetRefCount pnode =? 0 then
    (if lockRecv i then erase_remove vNodesDisconnected pnode else vNodesDisconnected,
     S i)
  else s.

Definition delete_disconnected (vNodesDisconnected : list CNode) (i : nat)
    : list CNode * nat :=
  fold_left delete_turn vNodesDisconnected (vNodesDisconnected, i).

(** "Inactivity checking", for a peer at the times read from the two
    clocks. *)
Definition inactive (nTime GetTimeMicros : Z) (pnode : CNode) : bool :=
  (nTime - nTimeConnected pnode >? 60)
  && ((nLastRecv pnode =? 0) || (SendQueue.nLastSend (peer pnode) =? 0)
      || (nTime - SendQueue.nLastSend (peer pnode) >? TIMEOUT_INTERVAL)
      || (nTime - nLastRecv pnode >? TIMEOUT_INTERVAL)
      || (negb (nPingNonceSent pnode =? 0)
          && (nPingUsecStart pnode + TIMEOUT_INTERVAL * 1000000 <? GetTimeMicros))).

Definition set_fDisconnect (st : SendQueue.State) : SendQueue.State :=
  SendQueue.mkState (SendQueue.hSocket st) (SendQueue.ssl st) true
    (SendQueue.vRecvMsg st) (SendQueue.ssSend st) (SendQueue.vSendMsg st)
    (SendQueue.nSendOffset st) (SendQueue.nSendSize st) (SendQueue.nSendBytes st)
    (SendQueue.nLastSend st) (SendQueue.nTotalBytesSent st) (SendQueue.wire st).

Definition InactivityCheck (nTime GetTimeMicros : Z) (pnode : CNode) : CNode :=
  if inactive nTime GetTimeMicros pnode
  then with_peer pnode (set_fDisconnect (peer pnode))
  else pnode.

(** *** The sweep *)

Lemma erase_remove_middle (kept todo : list CNode) (pnode : CNode) :
  NoDup (id <$> (kept ++ pnode :: todo)) →
  erase_remove (kept ++ pnode :: todo) pnode = kept ++ todo.
Proof.
  intros Hnd. unfold erase_remove.
  rewrite fmap_app, fmap_cons in Hnd.
  apply NoDup_app in Hnd as (_ & Hcross & Hnd).
  apply NoDup_cons in Hnd as [Hnot _].
  assert (Hkeep : ∀ l, id pnode ∉ id <$> l →
            List.filter (λ x, negb (id x =? id pnode)) l = l).
  { induction l as [|x l IH]; [done|]. rewrite fmap_cons. intros Hx.
    apply not_elem_of_cons in Hx as [Hne Hx]. simpl.
    destruct (Z.eqb_spec (id x) (id pnode)); [congruence|]. simpl. by rewrite IH. }
  rewrite List.filter_app. simpl. rewrite Z.eqb_refl. simpl.
  rewrite !Hkeep; [done|done|].
  intros Hin. apply (Hcross _ Hin). constructor.
Qed.

Lemma sweep_loop (todo : list CNode) :
  ∀ (kept pool : list CNode) (i : nat),
    NoDup (id <$> (kept ++ todo)) →
    fold_left sweep_turn todo (kept ++ todo, pool, i)
    = (kept ++ List.filter (λ p, negb (to_disconnect p)) todo,
       pool ++ imap (λ k p, disconnected (i + k) p) (List.filter to_disconnect todo),
       (i + length (List.filter to_disconnect todo))%nat).
Proof.
  induction todo as [|pnode todo IH]; intros kept pool i Hnd.
  - simpl. by rewrite !app_nil_r, Nat.add_0_r.
  - simpl. destruct (to_disconnect pnode) eqn:Hd; simpl.
    + rewrite (erase_remove_middle kept todo pnode Hnd).
      rewrite IH.
      * rewrite Nat.add_0_r, <- app_assoc. simpl.
        do 2 f_equal; [|lia]. do 2 f_equal.
        apply imap_ext. intros k p _. simpl. f_equal. lia.
      * rewrite fmap_app, fmap_cons in Hnd. rewrite fmap_app.
        apply NoDup_app in Hnd as (Hk & Hcross & Ht).
        apply NoDup_cons in Ht as [_ Ht].
        apply NoDup_app. split; [done|]. split; [|done].
        intros x Hx Hin. apply (Hcross x Hx). by constructor.
    + rewrite (cons_middle pnode kept todo), app_assoc.
      rewrite IH; [|by rewrite <- app_assoc]. by rewrite <- app_assoc.
Qed.

Lemma sweep_spec (vNodes pool : list CNode) (i : nat) :
  NoDup (id <$> vNodes) →
  sweep vNodes pool i
  = (List.filter (λ p, negb (to_disconnect p)) vNodes,
     pool ++ imap (λ k p, disconnected (i + k) p) (List.filter to_disconnect vNodes),
     (i + length (List.filter to_disconnect vNodes))%nat).
Proof. intros Hnd. apply (sweep_loop vNodes [] pool i Hnd). Qed.

(** What [disconnected] makes of a peer, field by field: the grant is
    released first; then the socket is null, [fDisconnect] is set, the
    messages received are dropped if their lock is free, and nothing else
    of the peer is written; then [Release] is called on an inbound or
    network peer. *)
Lemma disconnected_fields (i : nat) (pnode : CNode) :
  disconnected i pnode
  = let g := grantOutbound_Release pnode in
    let closed :=
      mkCNode (id g) (fInbound g) (fNetworkNode g) (nTimeConnected g)
        (nLastRecv g) (nPingNonceSent g) (nPingUsecStart g)
        (SendQueue.mkState false (SendQueue.ssl (peer g)) true
           (if lockRecv i then [] else SendQueue.vRecvMsg (peer g))
           (SendQueue.ssSend (peer g)) (SendQueue.vSendMsg (peer g))
           (SendQueue.nSendOffset (peer g)) (SendQueue.nSendSize (peer g))
           (SendQueue.nSendBytes (peer g)) (SendQueue.nLastSend (peer g))
           (SendQueue.nTotalBytesSent (peer g)) (SendQueue.wire (peer g))) in
    if fNetworkNode g || fInbound g then Release closed else closed.
Proof. reflexivity. Qed.

(** X28: after the sweep no peer of [vNodes] is marked for disconnection
    or unused.  With peers of different ids, the sweep leaves in [vNodes],
    in their order and as they were, the peers that are neither marked nor
    unused, and puts the others, in their order, behind the peers of
    [vNodesDisconnected], each with its grant released, its socket closed by
    [CloseSocketDisconnect], and one reference released for an inbound or
    network peer; a second sweep at once changes nothing.  Field by field,
    the peer put in [vNodesDisconnected] is the peer [grantOutbound.Release]
    left, with a null socket, [fDisconnect] set, the messages received
    dropped if the lock on them was free and no other field written, handed
    to [Release] if it is an inbound or a network peer; when it is neither,
    its socket is null and it is marked in [vNodesDisconnected].  So a peer
    that the inactivity check has marked is out of [vNodes] after the next
    sweep, and a peer connected for 60 seconds or less is never marked by
    this check. *)
Theorem sweep_takes_out_the_marked_peers (vNodes pool : list CNode) (i : nat)
    (nTime GetTimeMicros : Z) :
  NoDup (id <$> vNodes) →
  sweep vNodes pool i
  = (List.filter (λ p, negb (to_disconnect p)) vNodes,
     pool ++ imap (λ k p, disconnected (i + k) p) (List.filter to_disconnect vNodes),
     (i + length (List.filter to_disconnect vNodes))%nat)
  ∧ (sweep vNodes pool i).1.2
    = pool
      ++ imap
           (λ k p,
              let g := grantOutbound_Release p in
              let closed :=
                mkCNode (id g) (fInbound g) (fNetworkNode g) (nTimeConnected g)
                  (nLastRecv g) (nPingNonceSent g) (nPingUsecStart g)
                  (SendQueue.mkState false (SendQueue.ssl (peer g)) true
                     (if lockRecv (i + k) then [] else SendQueue.vRecvMsg (peer g))
                     (SendQueue.ssSend (peer g)) (SendQueue.vSendMsg (peer g))
                     (SendQueue.nSendOffset (peer g)) (SendQueue.nSendSize (peer g))
                     (SendQueue.nSendBytes (peer g)) (SendQueue.nLastSend (peer g))
                     (SendQueue.nTotalBytesSent (peer g)) (SendQueue.wire (peer g))) in
              if fNetworkNode g || fInbound g then Release closed else closed)
           (List.filter to_disconnect vNodes)
  ∧ (∀ k p, List.filter to_disconnect vNodes !! k = Some p →
       fNetworkNode (grantOutbound_Release p) = false →
       fInbound (grantOutbound_Release p) = false →
       ∃ q, (sweep vNodes pool i).1.2 !! (length pool + k)%nat = Some q
            ∧ SendQueue.hSocket (peer q) = false
            ∧ SendQueue.fDisconnect (peer q) = true
            ∧ (lockRecv (i + k) = true → SendQueue.vRecvMsg (peer q) = [])
            ∧ id q = id (grantOutbound_Release p))
  ∧ Forall (λ p, SendQueue.fDisconnect (peer p) = false ∧ unused p = false
                 ∧ p ∈ vNodes) (sweep vNodes pool i).1.1
  ∧ (∀ pool' j, sweep (sweep vNodes pool i).1.1 pool' j
                = ((sweep vNodes pool i).1.1, pool', j))
  ∧ (∀ p, p ∈ vNodes → inactive nTime GetTimeMicros p = true →
       ∀ pool' j,
         id p ∉ id <$> (sweep (InactivityCheck nTime GetTimeMicros <$> vNodes)
                          pool' j).1.1)
  ∧ (∀ p, nTime - nTimeConnected p <= 60 →
       InactivityCheck nTime GetTimeMicros p = p).
Proof.
  intros Hnd. rewrite (sweep_spec vNodes pool i Hnd). cbn [fst snd].
  assert (Hkept : Forall (λ p, SendQueue.fDisconnect (peer p) = false ∧ unused p = false
                               ∧ p ∈ vNodes)
                    (List.filter (λ p, negb (to_disconnect p)) vNodes)).
  { apply Forall_forall. intros p Hp.
    apply list_elem_of_In, filter_In in Hp as [Hin Hkeep].
    apply negb_true_iff in Hkeep. unfold to_disconnect in Hkeep.
    apply orb_false_iff in Hkeep as [? ?]. by apply list_elem_of_In in Hin. }
  assert (Hsub : ∀ (f : CNode → bool) l, NoDup (id <$> l) →
            NoDup (id <$> List.filter f l)).
  { intros f l. induction l as [|x l IH]; [done|]. rewrite fmap_cons.
    intros Hx. apply NoDup_cons in Hx as [Hnot Hl]. simpl.
    destruct (f x); [|by apply IH]. rewrite fmap_cons. apply NoDup_cons.
    split; [|by apply IH]. intros Hin. apply Hnot.
    apply list_elem_of_fmap in Hin as (y & Hy & Hin).
    apply list_elem_of_In, filter_In in Hin as [Hin _].
    apply list_elem_of_fmap. exists y. split; [done|]. by apply list_elem_of_In. }
  split; [done|]. split; [|split; [|split; [done|split; [|split]]]].
  - apply (f_equal (app pool)). apply imap_ext. intros k p _.
    apply disconnected_fields.
  - intros k p Hk Hnet Hin.
    exists (disconnected (i + k) p). split.
    + rewrite lookup_app_r by lia.
      replace (length pool + k - length pool)%nat with k by lia.
      rewrite list_lookup_imap, Hk. done.
    + rewrite disconnected_fields. cbv zeta. rewrite Hnet, Hin. simpl.
      split; [done|]. split; [done|]. split; [|done]. by intros ->.
  - intros pool' j. rewrite sweep_spec by by apply Hsub.
    assert (Hnone : ∀ l, Forall (λ p, to_disconnect p = false) l →
              List.filter (λ p, negb (to_disconnect p)) l = l
              ∧ List.filter to_disconnect l = []).
    { induction l as [|x l IH]; [done|]. intros Hall.
      apply Forall_cons in Hall as [Hx Hall]. simpl. rewrite Hx. simpl.
      destruct (IH Hall) as [-> ->]. done. }
    destruct (Hnone (List.filter (λ p, negb (to_disconnect p)) vNodes)) as [-> ->].
    { eapply Forall_impl; [exact Hkept|]. simpl. intros p (Hd & Hu & _).
      unfold to_disconnect. by rewrite Hd, Hu. }
    simpl. by rewrite app_nil_r, Nat.add_0_r.
  - intros p Hin Hinactive pool' j Hid.
    assert (Hnd' : NoDup (id <$> (InactivityCheck nTime GetTimeMicros <$> vNodes))).
    { replace (id <$> (InactivityCheck nTime GetTimeMicros <$> vNodes))
        with (id <$> vNodes); [done|].
      rewrite <- list_fmap_compose. apply list_fmap_ext. intros k x _. simpl.
      unfold InactivityCheck. by destruct (inactive _ _ x). }
    rewrite (sweep_spec _ pool' j Hnd') in Hid. cbn [fst snd] in Hid.
    apply list_elem_of_fmap in Hid as (q & Hq & Hqin).
    apply list_elem_of_In, filter_In in Hqin as [Hqin Hkeep].
    apply list_elem_of_In, list_elem_of_fmap in Hqin as (p' & -> & Hp').
    assert (p' = p) as ->.
    { apply (NoDup_fmap_eq id vNodes); [done|done|done|].
      rewrite Hq. unfold InactivityCheck. by destruct (inactive _ _ p'). }
    apply negb_true_iff in Hkeep. unfold to_disconnect, InactivityCheck in Hkeep.
    rewrite Hinactive in Hkeep. simpl in Hkeep. done.
  - intros p Hyoung. unfold InactivityCheck, inactive.
    destruct (Z.gtb_spec (nTime - nTimeConnected p) 60); [lia|done].
Qed.

(** *** The deletion *)

Lemma delete_loop (todo : list CNode) :
  ∀ (kept : list CNode) (i : nat),
    NoDup (id <$> (kept ++ todo)) →
    ∃ left i',
      fold_left delete_turn todo (kept ++ todo, i) = (kept ++ left, i')
      ∧ left `sublist_of` todo
      ∧ (∀ p, p ∈ todo → p ∉ left → GetRefCount p = 0)
      ∧ ((∀ k, lockRecv k = true) →
           left = List.filter (λ p, negb (GetRefCount p =? 0)) todo)
      ∧ ((∀ k, (i ≤ k)%nat → lockRecv k = false) → left = todo).
Proof.
  induction todo as [|pnode todo IH]; intros kept i Hnd.
  - exists [], i. simpl. by repeat split.
  - assert (Hnd' : NoDup (id <$> ((kept ++ [pnode]) ++ todo)))
      by by rewrite <- app_assoc.
    simpl. destruct (Z.eqb_spec (GetRefCount pnode) 0) as [Hzero|Hused].
    + destruct (lockRecv i) eqn:Hlock.
      * rewrite (erase_remove_middle kept todo pnode Hnd).
        assert (Hnd'' : NoDup (id <$> (kept ++ todo))).
        { rewrite fmap_app, fmap_cons in Hnd. rewrite fmap_app.
          apply NoDup_app in Hnd as (Hk & Hcross & Ht).
          apply NoDup_cons in Ht as [_ Ht].
          apply NoDup_app. split; [done|]. split; [|done].
          intros x Hx Hin. apply (Hcross x Hx). by constructor. }
        destruct (IH kept (S i) Hnd'') as (left & i' & -> & Hsub & Hgone & Hall & Hno).
        exists left, i'. split; [done|]. split; [by apply sublist_cons|].
        split; [|split].
        -- intros p Hp Hnot. apply elem_of_cons in Hp as [->|Hp]; [done|].
           by apply Hgone.
        -- intros Hlocks. by rewrite (Hall Hlocks).
        -- intros Hlocks. rewrite (Hlocks i) in Hlock by lia. done.
      * rewrite (cons_middle pnode kept todo), app_assoc.
        destruct (IH (kept ++ [pnode]) (S i) Hnd')
          as (left & i' & -> & Hsub & Hgone & Hall & Hno).
        exists (pnode :: left), i'. split; [by rewrite <- app_assoc|].
        split; [by apply sublist_skip|]. split; [|split].
        -- intros p Hp Hnot. apply not_elem_of_cons in Hnot as [Hne Hnot].
           apply elem_of_cons in Hp as [->|Hp]; [done|]. by apply Hgone.
        -- intros Hlocks. rewrite (Hlocks i) in Hlock. done.
        -- intros Hlocks. f_equal. apply Hno. intros k Hk. apply Hlocks. lia.
    + rewrite (cons_middle pnode kept todo), app_assoc.
      destruct (IH (kept ++ [pnode]) i Hnd')
        as (left & i' & -> & Hsub & Hgone & Hall & Hno).
      exists (pnode :: left), i'. split; [by rewrite <- app_assoc|].
      split; [by apply sublist_skip|]. split; [|split].
      -- intros p Hp Hnot. apply not_elem_of_cons in Hnot as [Hne Hnot].
         apply elem_of_cons in Hp as [->|Hp]; [done|]. by apply Hgone.
      -- intros Hlocks. destruct (Z.eqb_spec (GetRefCount pnode) 0); [done|].
         simpl. f_equal. by apply Hall.
      -- intros Hlocks. f_equal. by apply Hno.
Qed.

(** X29: a peer in use is not deleted.  With peers of different ids, the
    deletion leaves in [vNodesDisconnected] peers that were there, in their
    order, and every peer it takes out has a reference count of 0; when
    every lock is free it takes out just the peers with a count of 0, and
    when no lock is free it takes out none. *)
Theorem peers_in_use_are_not_deleted (vNodesDisconnected : list CNode) (i : nat) :
  NoDup (id <$> vNodesDisconnected) →
  (delete_disconnected vNodesDisconnected i).1 `sublist_of` vNodesDisconnected
  ∧ (∀ p, p ∈ vNodesDisconnected →
       p ∉ (delete_disconnected vNodesDisconnected i).1 → GetRefCount p = 0)
  ∧ ((∀ k, lockRecv k = true) →
       (delete_disconnected vNodesDisconnected i).1
       = List.filter (λ p, negb (GetRefCount p =? 0)) vNodesDisconnected)
  ∧ ((∀ k, (i ≤ k)%nat → lockRecv k = false) →
       (delete_disconnected vNodesDisconnected i).1 = vNodesDisconnected).
Proof.
  intros Hnd. unfold delete_disconnected.
  destruct (delete_loop vNodesDisconnected [] i Hnd)
    as (left & i' & Hrun & Hsub & Hgone & Hall & Hno).
  simpl in Hrun. rewrite Hrun. done.
Qed.

End handler.
End SocketHandler.

(** Three peers: one in use, one marked for disconnection, and one that
    nobody uses and that has nothing queued.  A peer counts as referenced
    here when it is a network peer. *)
Definition handler_example_queue (fDisconnect : bool) : SendQueue.State :=
  SendQueue.mkState true false fDisconnect [] [] [] 0 0 0 160 0 [].

Definition handler_example_peers : list SocketHandler.CNode :=
  [SocketHandler.mkCNode 1 false true 100 150 0 0 (handler_example_queue false);
   SocketHandler.mkCNode 2 true true 100 150 0 0 (handler_example_queue true);
   SocketHandler.mkCNode 3 true false 100 150 0 0 (handler_example_queue false)].

Definition handler_example_GetRefCount (pnode : SocketHandler.CNode) : Z :=
  if SocketHandler.fNetworkNode pnode then 1 else 0.

Lemma sweep_takes_out_the_marked_peers_witness :
  SocketHandler.sweep handler_example_GetRefCount (λ p, p) (λ p, p) (λ _, true)
    handler_example_peers [] 0
  = ([SocketHandler.mkCNode 1 false true 100 150 0 0 (handler_example_queue false)],
     [SocketHandler.mkCNode 2 true true 100 150 0 0
        (SendQueue.mkState false false true [] [] [] 0 0 0 160 0 []);
      SocketHandler.mkCNode 3 true false 100 150 0 0
        (SendQueue.mkState false false true [] [] [] 0 0 0 160 0 [])],
     2%nat).
Proof.
  destruct (SocketHandler.sweep_takes_out_the_marked_peers handler_example_GetRefCount
              (λ p, p) (λ p, p) 1200 (λ _, true) handler_example_peers [] 0 200 0)
    as [Hrun _].
  - compute_done.
  - rewrite Hrun. reflexivity.
Defined.

Lemma peers_in_use_are_not_deleted_witness :
  (SocketHandler.delete_disconnected handler_example_GetRefCount (λ _, true)
     handler_example_peers 0).1
  = List.filter (λ p, negb (handler_example_GetRefCount p =? 0)) handler_example_peers.
Proof.
  destruct (SocketHandler.peers_in_use_are_not_deleted handler_example_GetRefCount
              (λ _, true) handler_example_peers 0) as (_ & _ & Hall & _).
  - compute_done.
  - by apply Hall.
Defined.
